(** * email-to-discord: [src/index.ts]

    A shallow embedding of [decodeContent], [extractEmailBody] and the
    handler [email], together with the parts of the JavaScript runtime
    they call: string primitives, [atob], [JSON.stringify], and ECMAScript
    regular expressions (pattern grammar of Annex B, backtracking matcher,
    [match], [replace], [split]).  The platform around the handler (the
    headers and the raw text of the message, [fetch]) is a parameter.
    The module [Objects] embeds [decodeContent] and [extractEmailBody]
    once more over the regular expression objects they create, with
    [lastIndex] as state.

    Strings are sequences of UTF-16 code units, as in JavaScript. *)

From Stdlib Require Import List NArith ZArith Bool Lia String Ascii Arith.
Import ListNotations.

Set Implicit Arguments.

(* ================================================================== *)
(** ** Strings *)

Module JSString.

(** A JavaScript string: a list of UTF-16 code units. *)
Definition jsstring := list N.

(** ASCII literal to code units. *)
Fixpoint str (s : string) : jsstring :=
  match s with
  | EmptyString => []
  | String a s' => N_of_ascii a :: str s'
  end.

Definition CR : N := 13.
Definition LF : N := 10.
Definition CRLF : jsstring := [CR; LF].
(** The double-quote character. *)
Definition DQ : jsstring := [34%N].

Definition inRange (lo hi c : N) : bool := (lo <=? c)%N && (c <=? hi)%N.

(** LineTerminator: LF, CR, LS, PS. *)
Definition isLineTerminator (c : N) : bool :=
  (c =? 10)%N || (c =? 13)%N || (c =? 0x2028)%N || (c =? 0x2029)%N.

(** WhiteSpace and LineTerminator together: what [trim] removes and what
    [\s] matches. *)
Definition isWhiteSpace (c : N) : bool :=
  inRange 9 13 c || (c =? 32)%N || (c =? 0xA0)%N || (c =? 0x1680)%N
  || inRange 0x2000 0x200A c || (c =? 0x2028)%N || (c =? 0x2029)%N
  || (c =? 0x202F)%N || (c =? 0x205F)%N || (c =? 0x3000)%N || (c =? 0xFEFF)%N.

Fixpoint dropWhile (p : N -> bool) (s : jsstring) : jsstring :=
  match s with
  | [] => []
  | c :: s' => if p c then dropWhile p s' else s
  end.

Definition trimStart (s : jsstring) : jsstring := dropWhile isWhiteSpace s.
Definition trimEnd (s : jsstring) : jsstring := rev (dropWhile isWhiteSpace (rev s)).
(** [String.prototype.trim]. *)
Definition trim (s : jsstring) : jsstring := trimEnd (trimStart s).

Fixpoint eqb (a b : jsstring) : bool :=
  match a, b with
  | [], [] => true
  | x :: a', y :: b' => (x =? y)%N && eqb a' b'
  | _, _ => false
  end.

Fixpoint startsWith (s p : jsstring) {struct p} : bool :=
  match p, s with
  | [], _ => true
  | x :: p', y :: s' => (x =? y)%N && startsWith s' p'
  | _ :: _, [] => false
  end.

(** [s.indexOf(p)]: the least index at which [p] occurs, [None] for -1. *)
Fixpoint indexOf (s p : jsstring) : option nat :=
  if startsWith s p then Some 0
  else match s with
       | [] => None
       | _ :: s' => option_map S (indexOf s' p)
       end.

Definition includes (s p : jsstring) : bool :=
  match indexOf s p with Some _ => true | None => false end.

(** [s.substring(a, b)] for [a <= b] and [s.substring(a)]. *)
Definition substring (s : jsstring) (a b : nat) : jsstring := firstn (b - a) (skipn a s).
Definition substringFrom (s : jsstring) (a : nat) : jsstring := skipn a s.

(** [String.prototype.toLowerCase], one code unit at a time.  Exact on
    ASCII and on the two non-ASCII units whose lower-case form contains an
    ASCII unit (U+0130, U+212A); every other non-ASCII unit is left as it
    is.  The code only compares lower-cased text with ASCII literals
    ([includes], [===]), and the omitted mappings send non-ASCII units to
    non-ASCII units, so those comparisons are unaffected. *)
Definition lowerUnit (c : N) : jsstring :=
  if inRange 65 90 c then [(c + 32)%N]
  else if (c =? 0x130)%N then [0x69; 0x307]%N
  else if (c =? 0x212A)%N then [0x6B]%N
  else [c].

Definition toLowerCase (s : jsstring) : jsstring := flat_map lowerUnit s.

Definition hexVal (c : N) : option N :=
  if inRange 48 57 c then Some (c - 48)%N
  else if inRange 65 70 c then Some (c - 55)%N
  else if inRange 97 102 c then Some (c - 87)%N
  else None.

Definition isHexDigit (c : N) : bool :=
  match hexVal c with Some _ => true | None => false end.

Fixpoint hexPrefix (s : jsstring) (acc : option N) : option N :=
  match s with
  | [] => acc
  | c :: s' =>
      match hexVal c with
      | Some v => hexPrefix s' (Some (match acc with Some a => 16 * a + v | None => v end)%N)
      | None => acc
      end
  end.

(** [parseInt(s, 16)]: leading white space, a sign and an optional
    [0x]/[0X] are skipped, then the longest prefix of hex digits is read;
    [None] is NaN.  (The result is exact here; JavaScript rounds it to a
    double beyond 2^53.) *)
Definition parseInt16 (s : jsstring) : option Z :=
  let s1 := trimStart s in
  let '(neg, s2) := match s1 with
                    | 45%N :: t => (true, t)
                    | 43%N :: t => (false, t)
                    | _ => (false, s1)
                    end in
  let s3 := match s2 with
            | 48%N :: x :: t => if (x =? 120)%N || (x =? 88)%N then t else s2
            | _ => s2
            end in
  match hexPrefix s3 None with
  | Some v => Some (if neg then - Z.of_N v else Z.of_N v)%Z
  | None => None
  end.

(** [String.fromCharCode(n)]: [ToUint16] of the number, NaN giving 0. *)
Definition fromCharCode (n : option Z) : jsstring :=
  match n with
  | Some z => [Z.to_N (z mod 65536)]
  | None => [0%N]
  end.

End JSString.
Import JSString.

(* ================================================================== *)
(** ** Regular expressions: abstract syntax and matcher

    The matcher follows the backtracking semantics of ECMAScript
    (22.2.2, Pattern Semantics).  A matcher maps a state to the list of
    all states it can end in, in the order in which the specification's
    continuation-passing matchers try them; the first element is the
    result the backtracking search returns. *)

Module RegExp.

Inductive classItem :=
| CRange (lo hi : N)
| CDigit (neg : bool)      (* \d  \D *)
| CSpace (neg : bool)      (* \s  \S *)
| CWord (neg : bool).      (* \w  \W *)

Inductive regex :=
| REmpty
| RChar (invert : bool) (items : list classItem)
| RDot
| RSeq (a b : regex)
| RAlt (a b : regex)
| RQuant (r : regex) (min : N) (max : option N) (greedy : bool)
| RGroup (idx : nat) (r : regex)
| RLook (ahead neg : bool) (r : regex)
| RBackref (idx : nat)
| RNamedRef (name : jsstring)     (* \k<name>, before names are resolved *)
| RBol
| REol
| RWordBoundary (neg : bool).

Record flags := { ignoreCase : bool; multiline : bool; dotAll : bool }.

(** A compiled pattern: syntax tree, number of capturing groups, flags. *)
Record regexp := { reAst : regex; reGroups : nat; reFlags : flags }.

(** Matcher state: [endIndex] with the input split around it ([before] is
    reversed), and the captures of groups 1..n as index pairs. *)
Record mstate := {
  pos : nat;
  before : jsstring;
  after : jsstring;
  caps : list (option (nat * nat))
}.

Definition isWordChar (c : N) : bool :=
  inRange 97 122 c || inRange 65 90 c || inRange 48 57 c || (c =? 95)%N.

(** [Canonicalize] under the [i] flag without [u]: upper-casing of a
    single code unit, where a non-ASCII unit never maps to an ASCII one.
    Modelled on ASCII and as the identity above it; the patterns matched
    with [i] here contain only ASCII literals and [\s], for which a
    non-ASCII input unit can never become equal to a pattern unit. *)
Definition canonicalize (fl : flags) (c : N) : N :=
  if ignoreCase fl && inRange 97 122 c then (c - 32)%N else c.

Definition itemHas (it : classItem) (c : N) : bool :=
  match it with
  | CRange lo hi => inRange lo hi c
  | CDigit neg => xorb neg (inRange 48 57 c)
  | CSpace neg => xorb neg (isWhiteSpace c)
  | CWord neg => xorb neg (isWordChar c)
  end.

Definition setHas (items : list classItem) (c : N) : bool :=
  existsb (fun it => itemHas it c) items.

(** CharacterSetMatcher: some member [a] of the set has
    [Canonicalize a = Canonicalize c]. *)
Definition charOk (fl : flags) (invert : bool) (items : list classItem) (c : N) : bool :=
  let cc := canonicalize fl c in
  xorb invert
    (setHas items cc || (ignoreCase fl && inRange 65 90 cc && setHas items (cc + 32)%N)).

Definition stepFwd (x : mstate) : option (N * mstate) :=
  match after x with
  | c :: a' => Some (c, {| pos := S (pos x); before := c :: before x; after := a'; caps := caps x |})
  | [] => None
  end.

Definition stepBwd (x : mstate) : option (N * mstate) :=
  match before x with
  | c :: b' => Some (c, {| pos := pred (pos x); before := b'; after := c :: after x; caps := caps x |})
  | [] => None
  end.

Definition step (fwd : bool) (x : mstate) : option (N * mstate) :=
  if fwd then stepFwd x else stepBwd x.

Definition input (x : mstate) : jsstring := rev_append (before x) (after x).

Fixpoint setNth {A} (n : nat) (v : A) (l : list A) : list A :=
  match n, l with
  | _, [] => []
  | 0, _ :: t => v :: t
  | S k, h :: t => h :: setNth k v t
  end.

(** Captures are numbered from 1. *)
Definition setCap (i : nat) (v : option (nat * nat)) (x : mstate) : mstate :=
  match i with
  | 0 => x
  | S k => {| pos := pos x; before := before x; after := after x;
              caps := setNth k v (caps x) |}
  end.

Definition getCap (i : nat) (x : mstate) : option (nat * nat) :=
  match i with
  | 0 => None
  | S k => nth k (caps x) None
  end.

Definition withCaps (x y : mstate) : mstate :=
  {| pos := pos x; before := before x; after := after x; caps := caps y |}.

Fixpoint groupsIn (r : regex) : list nat :=
  match r with
  | RSeq a b | RAlt a b => groupsIn a ++ groupsIn b
  | RQuant r' _ _ _ | RLook _ _ r' => groupsIn r'
  | RGroup i r' => i :: groupsIn r'
  | _ => []
  end.

Definition clearCaps (gs : list nat) (x : mstate) : mstate :=
  fold_left (fun y i => setCap i None y) gs x.

(** Consume the units of [s] one by one in the direction [fwd]
    (BackreferenceMatcher compares them after canonicalization). *)
Fixpoint consume (fl : flags) (fwd : bool) (s : jsstring) (x : mstate) : list mstate :=
  match s with
  | [] => [x]
  | c :: s' =>
      match step fwd x with
      | Some (d, y) =>
          if (canonicalize fl c =? canonicalize fl d)%N then consume fl fwd s' y else []
      | None => []
      end
  end.

Definition decN (n : N) : N := N.pred n.
Definition decMax (m : option N) : option N := option_map N.pred m.

(** RepeatMatcher.  [m] is the matcher of the quantified atom, [gs] the
    capturing groups inside it.  Every nested call either lowers [min]
    or has moved the end index (the empty check), so [fuel] above [min]
    plus the length of the input is never exhausted: any such fuel gives
    the same result ([repeatMatcher_fuel] below). *)
Fixpoint repeatMatcher (fuel : nat) (m : mstate -> list mstate) (gs : list nat)
    (min : N) (max : option N) (greedy : bool) (x : mstate) : list mstate :=
  match fuel with
  | 0 => []
  | S fuel' =>
      match max with
      | Some 0%N => [x]
      | _ =>
          let again :=
            flat_map (fun y =>
                        if (min =? 0)%N && (pos y =? pos x) then []
                        else repeatMatcher fuel' m gs (decN min) (decMax max) greedy y)
                     (m (clearCaps gs x)) in
          if negb (min =? 0)%N then again
          else if greedy then again ++ [x]
          else x :: again
      end
  end.

Definition atLineStart (fl : flags) (x : mstate) : bool :=
  match before x with
  | [] => true
  | c :: _ => multiline fl && isLineTerminator c
  end.

Definition atLineEnd (fl : flags) (x : mstate) : bool :=
  match after x with
  | [] => true
  | c :: _ => multiline fl && isLineTerminator c
  end.

Definition atWordBoundary (x : mstate) : bool :=
  xorb (match before x with c :: _ => isWordChar c | [] => false end)
       (match after x with c :: _ => isWordChar c | [] => false end).

Definition guard (b : bool) (x : mstate) : list mstate := if b then [x] else [].

(** CompileSubpattern: all end states of [r] from [x], in priority
    order, matching forwards ([fwd]) or backwards (inside a lookbehind). *)
Fixpoint rmatch (fl : flags) (r : regex) (fwd : bool) (x : mstate) {struct r} : list mstate :=
  match r with
  | REmpty => [x]
  | RChar invert items =>
      match step fwd x with
      | Some (c, y) => guard (charOk fl invert items c) y
      | None => []
      end
  | RDot =>
      match step fwd x with
      | Some (c, y) => guard (dotAll fl || negb (isLineTerminator c)) y
      | None => []
      end
  | RSeq a b =>
      if fwd then flat_map (rmatch fl b fwd) (rmatch fl a fwd x)
      else flat_map (rmatch fl a fwd) (rmatch fl b fwd x)
  | RAlt a b => rmatch fl a fwd x ++ rmatch fl b fwd x
  | RQuant r' min max greedy =>
      repeatMatcher (S (N.to_nat min + (List.length (after x) + List.length (before x))))
                    (rmatch fl r' fwd) (groupsIn r') min max greedy x
  | RGroup i r' =>
      map (fun y => setCap i (Some (if fwd then (pos x, pos y) else (pos y, pos x))) y)
          (rmatch fl r' fwd x)
  | RLook ahead neg r' =>
      match rmatch fl r' ahead x with
      | [] => guard neg x
      | y :: _ => guard (negb neg) (withCaps x y)
      end
  | RBackref i =>
      match getCap i x with
      | None => [x]
      | Some (s, e) =>
          let sub := substring (input x) s e in
          consume fl fwd (if fwd then sub else rev sub) x
      end
  | RNamedRef _ => []
  | RBol => guard (atLineStart fl x) x
  | REol => guard (atLineEnd fl x) x
  | RWordBoundary neg => guard (xorb neg (atWordBoundary x)) x
  end.

(** The result of a successful match: start and end index and the
    captured substrings of groups 1..n ([None] is [undefined]). *)
Record matchResult := { mIndex : nat; mEnd : nat; mCaps : list (option jsstring) }.

Definition initState (re : regexp) (p : nat) (b a : jsstring) : mstate :=
  {| pos := p; before := b; after := a; caps := repeat None (reGroups re) |}.

Definition toResult (start : nat) (y : mstate) : matchResult :=
  {| mIndex := start; mEnd := pos y;
     mCaps := map (option_map (fun se => substring (input y) (fst se) (snd se))) (caps y) |}.

(** One match attempt at index [p] (a sticky exec). *)
Definition matchAt (re : regexp) (p : nat) (b a : jsstring) : option matchResult :=
  match rmatch (reFlags re) (reAst re) true (initState re p b a) with
  | y :: _ => Some (toResult p y)
  | [] => None
  end.

(** RegExpBuiltinExec without [y]: the first index from [p] on, up to
    and including the length, at which a match attempt succeeds. *)
Fixpoint searchFrom (re : regexp) (p : nat) (b a : jsstring) : option matchResult :=
  match matchAt re p b a with
  | Some r => Some r
  | None =>
      match a with
      | [] => None
      | c :: a' => searchFrom re (S p) (c :: b) a'
      end
  end.

(** [s.match(re)] for a pattern without [g]: [exec] from index 0. *)
Definition exec (re : regexp) (s : jsstring) : option matchResult := searchFrom re 0 [] s.

Definition matched (s : jsstring) (r : matchResult) : jsstring := substring s (mIndex r) (mEnd r).

(** [m[i]] of a match array, [i >= 1]. *)
Definition capture (i : nat) (r : matchResult) : option jsstring :=
  match i with
  | 0 => None
  | S k => nth k (mCaps r) None
  end.

(** [s.replace(re, f)] for a pattern with [g]: every match, found from
    left to right from the end of the previous one (one unit further
    after an empty match), is replaced by [f] of the matched text and
    the captures.  [k] counts the units of the current match still to be
    passed over. *)
Fixpoint replaceGo (re : regexp) (s : jsstring) (f : jsstring -> list (option jsstring) -> jsstring)
    (p : nat) (b a : jsstring) (k : nat) {struct a} : jsstring :=
  match k with
  | S k' =>
      match a with
      | c :: a' => replaceGo re s f (S p) (c :: b) a' k'
      | [] => []
      end
  | 0 =>
      match matchAt re p b a with
      | Some r =>
          f (matched s r) (mCaps r) ++
          match a with
          | c :: a' =>
              if mEnd r <=? p then c :: replaceGo re s f (S p) (c :: b) a' 0
              else replaceGo re s f (S p) (c :: b) a' (mEnd r - p - 1)
          | [] => []
          end
      | None =>
          match a with
          | c :: a' => c :: replaceGo re s f (S p) (c :: b) a' 0
          | [] => []
          end
      end
  end.

Definition replaceAll (re : regexp) (s : jsstring)
    (f : jsstring -> list (option jsstring) -> jsstring) : jsstring :=
  replaceGo re s f 0 [] s 0.

(** [s.split(re)] (RegExp.prototype[Symbol.split], no limit).  [piece]
    is the reversed text since the end [p] of the last separator; a match
    attempt is made at every index [q < length], and a match that ends at
    [p] is passed over.  The captures of each separator are spliced into
    the result, [None] standing for [undefined]. *)
Fixpoint splitGo (re : regexp) (q : nat) (b a : jsstring) (piece : jsstring) (k : nat)
    {struct a} : list (option jsstring) :=
  match a with
  | [] => [Some (rev piece)]
  | c :: a' =>
      match k with
      | S k' => splitGo re (S q) (c :: b) a' [] k'
      | 0 =>
          match matchAt re q b a with
          | Some r =>
              if mEnd r <=? q then
                match piece with
                | [] => splitGo re (S q) (c :: b) a' [c] 0
                | _ => Some (rev piece) :: mCaps r ++ splitGo re (S q) (c :: b) a' [c] 0
                end
              else Some (rev piece) :: mCaps r ++ splitGo re (S q) (c :: b) a' [] (mEnd r - q - 1)
          | None => splitGo re (S q) (c :: b) a' (c :: piece) 0
          end
      end
  end.

Definition split (re : regexp) (s : jsstring) : list (option jsstring) :=
  match s with
  | [] => match matchAt re 0 [] [] with Some _ => [] | None => [Some []] end
  | _ => splitGo re 0 [] s [] 0
  end.

(* ------------------------------------------------------------------ *)
(** *** Pattern grammar

    [new RegExp(pattern, flags)] parses the pattern text.  The grammar is
    that of ECMAScript 22.2.1 with the Annex B.1.2 extensions, without the
    [u] and [v] flags: every code unit is one pattern character.  A
    pattern that does not parse makes the constructor throw a
    SyntaxError. *)

Inductive presult (A : Type) :=
| POk (a : A)
| PSyntaxError
| PUnmodelled.
(** [PUnmodelled] marks the patterns on which editions of the language
    differ or that need the Unicode identifier tables: inline modifiers
    [(?i:...)], duplicate group names, and group names with escapes or
    non-ASCII units.  It is also what the parser answers without fuel,
    which it never runs out of. *)

Arguments POk {A} a.
Arguments PSyntaxError {A}.
Arguments PUnmodelled {A}.

Definition isC (a : ascii) (c : N) : bool := (c =? N_of_ascii a)%N.

Definition isDigit (c : N) : bool := inRange 48 57 c.
Definition isOctal (c : N) : bool := inRange 48 55 c.
Definition isAsciiLetter (c : N) : bool := inRange 65 90 c || inRange 97 122 c.

Definition single (c : N) : regex := RChar false [CRange c c].

(** Left-capturing parentheses of the whole pattern and whether one of
    them is named, found before parsing (a backslash hides the next
    unit, a class hides everything up to its closing bracket). *)
Fixpoint prescan (s : jsstring) (inClass : bool) : nat * bool :=
  match s with
  | [] => (0, false)
  | c :: t =>
      if isC "\" c then
        match t with
        | _ :: t' => prescan t' inClass
        | [] => (0, false)
        end
      else if inClass then prescan t (negb (isC "]" c))
      else if isC "[" c then prescan t true
      else if isC "(" c then
        let '(n, named) := prescan t false in
        match t with
        | q :: l :: d :: _ =>
            if isC "?" q then
              if isC "<" l && negb (isC "=" d || isC "!" d) then (S n, true) else (n, named)
            else (S n, named)
        | q :: _ => if isC "?" q then (n, named) else (S n, named)
        | [] => (S n, named)
        end
      else prescan t false
  end.

Fixpoint decValue (ds : jsstring) (acc : N) : N :=
  match ds with
  | [] => acc
  | d :: ds' => decValue ds' (10 * acc + (d - 48))%N
  end.

Fixpoint span (p : N -> bool) (s : jsstring) : jsstring * jsstring :=
  match s with
  | c :: t => if p c then let '(a, b) := span p t in (c :: a, b) else ([], s)
  | [] => ([], [])
  end.

(** LegacyOctalEscapeSequence, [d] its first digit: at most three digits
    when [d <= 3], at most two otherwise. *)
Definition legacyOctal (d : N) (t : jsstring) : N * jsstring :=
  let v0 := (d - 48)%N in
  match t with
  | d1 :: t1 =>
      if isOctal d1 then
        let v1 := (8 * v0 + (d1 - 48))%N in
        match t1 with
        | d2 :: t2 =>
            if isOctal d2 && (v0 <=? 3)%N then ((8 * v1 + (d2 - 48))%N, t2) else (v1, t1)
        | [] => (v1, t1)
        end
      else (v0, t)
  | [] => (v0, t)
  end.

Definition hex2 (t : jsstring) : option (N * jsstring) :=
  match t with
  | a :: b :: t' =>
      match hexVal a, hexVal b with
      | Some x, Some y => Some ((16 * x + y)%N, t')
      | _, _ => None
      end
  | _ => None
  end.

Definition hex4 (t : jsstring) : option (N * jsstring) :=
  match hex2 t with
  | Some (hi, t') =>
      match hex2 t' with
      | Some (lo, t'') => Some ((256 * hi + lo)%N, t'')
      | None => None
      end
  | None => None
  end.

(** The escapes shared by atoms and classes: ControlEscape, [\xHH],
    [\uHHHH], legacy octal and the identity escape.  [c] is the unit
    after the backslash; [\c] and [\k] are treated by the callers. *)
Definition charEscape (c : N) (t : jsstring) : N * jsstring :=
  if isC "f" c then (12%N, t)
  else if isC "n" c then (10%N, t)
  else if isC "r" c then (13%N, t)
  else if isC "t" c then (9%N, t)
  else if isC "v" c then (11%N, t)
  else if isC "x" c then match hex2 t with Some r => r | None => (c, t) end
  else if isC "u" c then match hex4 t with Some r => r | None => (c, t) end
  else if isOctal c then legacyOctal c t
  else (c, t).

Definition classEscape (c : N) : option classItem :=
  if isC "d" c then Some (CDigit false)
  else if isC "D" c then Some (CDigit true)
  else if isC "s" c then Some (CSpace false)
  else if isC "S" c then Some (CSpace true)
  else if isC "w" c then Some (CWord false)
  else if isC "W" c then Some (CWord true)
  else None.

(** The name of [(?<name>] or [\k<name>], [s] the text after [<]. *)
Fixpoint groupNameRest (s : jsstring) : presult (jsstring * jsstring) :=
  match s with
  | [] => PSyntaxError
  | c :: t =>
      if isC ">" c then POk ([], t)
      else if isAsciiLetter c || isDigit c || isC "$" c || isC "_" c then
        match groupNameRest t with
        | POk (nm, rest) => POk (c :: nm, rest)
        | e => e
        end
      else if isC "\" c || (128 <=? c)%N then PUnmodelled
      else PSyntaxError
  end.

Definition groupName (s : jsstring) : presult (jsstring * jsstring) :=
  match s with
  | c :: _ =>
      if isDigit c || isC ">" c then PSyntaxError else groupNameRest s
  | [] => PSyntaxError
  end.

(** AtomEscape, [s] the text after the backslash.  [ncap] is the number
    of capturing groups of the pattern, [named] whether it has a named
    group.  The boolean of the result tells whether a quantifier may
    follow. *)
Definition atomEscape (ncap : nat) (named : bool) (s : jsstring)
  : presult (regex * jsstring * bool) :=
  match s with
  | [] => PSyntaxError
  | c :: t =>
      if isC "b" c then POk (RWordBoundary false, t, false)
      else if isC "B" c then POk (RWordBoundary true, t, false)
      else if inRange 49 57 c then
        let '(ds, rest) := span isDigit s in
        let v := decValue ds 0 in
        if (v <=? N.of_nat ncap)%N then POk (RBackref (N.to_nat v), rest, true)
        else let '(u, rest') := charEscape c t in POk (single u, rest', true)
      else match classEscape c with
      | Some it => POk (RChar false [it], t, true)
      | None =>
          if isC "c" c then
            match t with
            | l :: t' =>
                if isAsciiLetter l then POk (single (l mod 32)%N, t', true)
                else POk (single 92%N, s, true)
            | [] => POk (single 92%N, s, true)
            end
          else if isC "k" c && named then
            match t with
            | l :: t' =>
                if isC "<" l then
                  match groupName t' with
                  | POk (nm, rest) => POk (RNamedRef nm, rest, true)
                  | PSyntaxError => PSyntaxError
                  | PUnmodelled => PUnmodelled
                  end
                else PSyntaxError
            | [] => PSyntaxError
            end
          else let '(u, rest) := charEscape c t in POk (single u, rest, true)
      end
  end.

(** A class atom: one unit, or one of [\d \D \s \S \w \W]. *)
Definition classAtom (named : bool) (s : jsstring) : presult (classItem * bool * jsstring) :=
  match s with
  | [] => PSyntaxError
  | c :: t =>
      if isC "\" c then
        match t with
        | [] => PSyntaxError
        | e :: t' =>
            if isC "b" e then POk (CRange 8 8, false, t')
            else match classEscape e with
            | Some it => POk (it, true, t')
            | None =>
                if isC "c" e then
                  match t' with
                  | l :: t'' =>
                      if isAsciiLetter l || isDigit l || isC "_" l
                      then POk (CRange (l mod 32) (l mod 32), false, t'')
                      else POk (CRange 92 92, false, t)
                  | [] => POk (CRange 92 92, false, t)
                  end
                else if isC "k" e && named then PSyntaxError
                else let '(u, rest) := charEscape e t' in POk (CRange u u, false, rest)
            end
        end
      else POk (CRange c c, false, t)
  end.

Definition rangeLo (it : classItem) : N :=
  match it with CRange lo _ => lo | _ => 0%N end.

(** ClassRanges up to the closing bracket.  [a-b] is a range when both
    ends are single units, and the union of both ends and [-] when one
    of them is a class escape. *)
Fixpoint classRanges (fuel : nat) (named : bool) (s : jsstring) (acc : list classItem)
  : presult (list classItem * jsstring) :=
  match fuel with
  | 0 => PUnmodelled
  | S f =>
      match s with
      | [] => PSyntaxError
      | c :: t =>
          if isC "]" c then POk (acc, t)
          else
            match classAtom named s with
            | POk (a1, cls1, rest1) =>
                match rest1 with
                | d :: (e :: _) as rest2 =>
                    if isC "-" d && negb (isC "]" e) then
                      match classAtom named rest2 with
                      | POk (a2, cls2, rest3) =>
                          if cls1 || cls2
                          then classRanges f named rest3 (acc ++ [a1; CRange 45 45; a2])
                          else if (rangeLo a2 <? rangeLo a1)%N then PSyntaxError
                          else classRanges f named rest3 (acc ++ [CRange (rangeLo a1) (rangeLo a2)])
                      | PSyntaxError => PSyntaxError
                      | PUnmodelled => PUnmodelled
                      end
                    else classRanges f named rest1 (acc ++ [a1])
                | _ => classRanges f named rest1 (acc ++ [a1])
                end
            | PSyntaxError => PSyntaxError
            | PUnmodelled => PUnmodelled
            end
      end
  end.

(** CharacterClass, [s] the text after the opening bracket. *)
Definition charClass (named : bool) (s : jsstring) : presult (regex * jsstring) :=
  let '(inv, s') := match s with
                    | c :: t => if isC "^" c then (true, t) else (false, s)
                    | [] => (false, s)
                    end in
  match classRanges (S (List.length s')) named s' [] with
  | POk (items, rest) => POk (RChar inv items, rest)
  | PSyntaxError => PSyntaxError
  | PUnmodelled => PUnmodelled
  end.

(** The braces of a quantifier, [s] the text after the opening brace:
    [{n}], [{n,}] or [{n,m}]. *)
Definition braces (s : jsstring) : option (N * option N * jsstring) :=
  let '(ds, rest) := span isDigit s in
  match ds, rest with
  | _ :: _, c :: rest1 =>
      let n := decValue ds 0 in
      if isC "}" c then Some (n, Some n, rest1)
      else if isC "," c then
        let '(es, rest2) := span isDigit rest1 in
        match es, rest2 with
        | [], c2 :: rest3 => if isC "}" c2 then Some (n, None, rest3) else None
        | _ :: _, c2 :: rest3 =>
            if isC "}" c2 then Some (n, Some (decValue es 0), rest3) else None
        | _, [] => None
        end
      else None
  | _, _ => None
  end.

Definition lazyMark (s : jsstring) : bool * jsstring :=
  match s with
  | c :: t => if isC "?" c then (false, t) else (true, s)
  | [] => (true, s)
  end.

(** An optional Quantifier after the atom [r]. *)
Definition quantified (r : regex) (s : jsstring) : presult (regex * jsstring) :=
  match s with
  | [] => POk (r, s)
  | c :: t =>
      let mk (min : N) (max : option N) (rest : jsstring) :=
          let '(greedy, rest') := lazyMark rest in
          POk (RQuant r min max greedy, rest') in
      if isC "*" c then mk 0%N None t
      else if isC "+" c then mk 1%N None t
      else if isC "?" c then mk 0%N (Some 1%N) t
      else if isC "{" c then
        match braces t with
        | Some (n, Some m, rest) => if (m <? n)%N then PSyntaxError else mk n (Some m) rest
        | Some (n, None, rest) => mk n None rest
        | None => POk (r, s)
        end
      else POk (r, s)
  end.

(** A Term that is not a group, [s] starting at its first unit. *)
Definition simpleTerm (ncap : nat) (named : bool) (s : jsstring) : presult (regex * jsstring) :=
  match s with
  | [] => PSyntaxError
  | c :: t =>
      if isC "*" c || isC "+" c || isC "?" c then PSyntaxError
      else if isC "{" c then
        match braces t with
        | Some _ => PSyntaxError
        | None => quantified (single c) t
        end
      else if isC "^" c then POk (RBol, t)
      else if isC "$" c then POk (REol, t)
      else if isC "." c then quantified RDot t
      else if isC "[" c then
        match charClass named t with
        | POk (r, rest) => quantified r rest
        | e => e
        end
      else if isC "\" c then
        match atomEscape ncap named t with
        | POk (r, rest, true) => quantified r rest
        | POk (r, rest, false) => POk (r, rest)
        | PSyntaxError => PSyntaxError
        | PUnmodelled => PUnmodelled
        end
      else quantified (single c) t
  end.

Inductive groupKind :=
| GCapture (name : option jsstring)
| GNonCapture
| GLook (ahead neg : bool).

(** What follows an opening parenthesis. *)
Definition groupHead (s : jsstring) : presult (groupKind * jsstring) :=
  match s with
  | q :: t =>
      if isC "?" q then
        match t with
        | c :: t1 =>
            if isC ":" c then POk (GNonCapture, t1)
            else if isC "=" c then POk (GLook true false, t1)
            else if isC "!" c then POk (GLook true true, t1)
            else if isC "<" c then
              match t1 with
              | d :: t2 =>
                  if isC "=" d then POk (GLook false false, t2)
                  else if isC "!" d then POk (GLook false true, t2)
                  else match groupName t1 with
                       | POk (nm, rest) => POk (GCapture (Some nm), rest)
                       | PSyntaxError => PSyntaxError
                       | PUnmodelled => PUnmodelled
                       end
              | [] => PSyntaxError
              end
            else if isC "i" c || isC "m" c || isC "s" c || isC "-" c then PUnmodelled
            else PSyntaxError
        | [] => PSyntaxError
        end
      else POk (GCapture None, s)
  | [] => POk (GCapture None, s)
  end.

Definition mkSeq (a b : regex) : regex :=
  match a with
  | REmpty => b
  | _ => RSeq a b
  end.

Fixpoint mkAlt (alts : list regex) (last : regex) : regex :=
  match alts with
  | [] => last
  | a :: alts' => RAlt a (mkAlt alts' last)
  end.

Definition names := list (jsstring * nat).

(** Disjunction.  [n] counts the capturing groups opened so far, [alts]
    are the finished alternatives and [cur] the terms of the current
    one.  Parsing stops at the end of the text or at an unmatched closing
    parenthesis, which is left in the rest.  Every recursive call is on
    a strictly shorter text, so [fuel] above the length of [s] is never
    exhausted: any such fuel gives the same result ([parseDisj_fuel]
    below). *)
Fixpoint parseDisj (ncap : nat) (named : bool) (fuel : nat) (s : jsstring)
    (n : nat) (nms : names) (alts : list regex) (cur : regex)
  : presult (regex * jsstring * nat * names) :=
  match fuel with
  | 0 => PUnmodelled
  | S f =>
      match s with
      | [] => POk (mkAlt alts cur, s, n, nms)
      | c :: t =>
          if isC ")" c then POk (mkAlt alts cur, s, n, nms)
          else if isC "|" c then parseDisj ncap named f t n nms (alts ++ [cur]) REmpty
          else if isC "(" c then
            match groupHead t with
            | POk (kind, t1) =>
                let n1 := match kind with GCapture _ => S n | _ => n end in
                let nms1 := match kind with
                            | GCapture (Some nm) => nms ++ [(nm, S n)]
                            | _ => nms
                            end in
                match parseDisj ncap named f t1 n1 nms1 [] REmpty with
                | POk (inner, rest, n2, nms2) =>
                    match rest with
                    | _ :: rest' =>
                        let term :=
                          match kind with
                          | GCapture _ => quantified (RGroup (S n) inner) rest'
                          | GNonCapture => quantified inner rest'
                          | GLook true neg => quantified (RLook true neg inner) rest'
                          | GLook false neg => POk (RLook false neg inner, rest')
                          end in
                        match term with
                        | POk (r, rest'') => parseDisj ncap named f rest'' n2 nms2 alts (mkSeq cur r)
                        | PSyntaxError => PSyntaxError
                        | PUnmodelled => PUnmodelled
                        end
                    | [] => PSyntaxError
                    end
                | e => e
                end
            | PSyntaxError => PSyntaxError
            | PUnmodelled => PUnmodelled
            end
          else
            match simpleTerm ncap named s with
            | POk (r, rest) => parseDisj ncap named f rest n nms alts (mkSeq cur r)
            | PSyntaxError => PSyntaxError
            | PUnmodelled => PUnmodelled
            end
      end
  end.

Fixpoint lookupName (nm : jsstring) (nms : names) : option nat :=
  match nms with
  | [] => None
  | (k, i) :: rest => if JSString.eqb k nm then Some i else lookupName nm rest
  end.

Fixpoint hasDuplicate (nms : names) : bool :=
  match nms with
  | [] => false
  | (k, _) :: rest =>
      match lookupName k rest with
      | Some _ => true
      | None => hasDuplicate rest
      end
  end.

(** Named back references become numbered ones; [None] when a name has
    no group. *)
Fixpoint resolve (nms : names) (r : regex) : option regex :=
  match r with
  | RSeq a b =>
      match resolve nms a, resolve nms b with
      | Some a', Some b' => Some (RSeq a' b')
      | _, _ => None
      end
  | RAlt a b =>
      match resolve nms a, resolve nms b with
      | Some a', Some b' => Some (RAlt a' b')
      | _, _ => None
      end
  | RQuant r' min max g => option_map (fun x => RQuant x min max g) (resolve nms r')
  | RGroup i r' => option_map (RGroup i) (resolve nms r')
  | RLook a ng r' => option_map (RLook a ng) (resolve nms r')
  | RNamedRef nm => option_map RBackref (lookupName nm nms)
  | _ => Some r
  end.

(** [new RegExp(pattern, flags)], the flags already decoded. *)
Definition compile (pattern : jsstring) (fl : flags) : presult regexp :=
  let '(ncap, named) := prescan pattern false in
  match parseDisj ncap named (S (List.length pattern)) pattern 0 [] [] REmpty with
  | POk (r, rest, n, nms) =>
      match rest with
      | [] =>
          match resolve nms r with
          | Some r' =>
              if hasDuplicate nms then PUnmodelled
              else POk {| reAst := r'; reGroups := n; reFlags := fl |}
          | None => PSyntaxError
          end
      | _ => PSyntaxError
      end
  | PSyntaxError => PSyntaxError
  | PUnmodelled => PUnmodelled
  end.

End RegExp.
Import RegExp.

(* ================================================================== *)
(** ** [atob]: forgiving-base64 decode *)

Module Base64.

Definition isAsciiWhitespace (c : N) : bool :=
  (c =? 9)%N || (c =? 10)%N || (c =? 12)%N || (c =? 13)%N || (c =? 32)%N.

(** Position of a unit in the base64 alphabet. *)
Definition sextet (c : N) : option N :=
  if inRange 65 90 c then Some (c - 65)%N
  else if inRange 97 122 c then Some (c - 71)%N
  else if inRange 48 57 c then Some (c + 4)%N
  else if (c =? 43)%N then Some 62%N
  else if (c =? 47)%N then Some 63%N
  else None.

Fixpoint sextets (s : jsstring) : option (list N) :=
  match s with
  | [] => Some []
  | c :: t =>
      match sextet c, sextets t with
      | Some v, Some vs => Some (v :: vs)
      | _, _ => None
      end
  end.

(** One or two [=] at the end are dropped when the length is a multiple
    of four. *)
Definition stripPadding (s : jsstring) : jsstring :=
  if List.length s mod 4 =? 0 then
    match rev s with
    | 61%N :: 61%N :: r => rev r
    | 61%N :: r => rev r
    | _ => s
    end
  else s.

(** Four sextets give three bytes; a rest of three gives two bytes and a
    rest of two gives one, the surplus bits being discarded. *)
Fixpoint bytes (vs : list N) : jsstring :=
  match vs with
  | a :: b :: c :: d :: rest =>
      let v := (((a * 64 + b) * 64 + c) * 64 + d)%N in
      (v / 65536)%N :: ((v / 256) mod 256)%N :: (v mod 256)%N :: bytes rest
  | [a; b; c] =>
      let v := (((a * 64 + b) * 64 + c) / 4)%N in
      [(v / 256)%N; (v mod 256)%N]
  | [a; b] => [((a * 64 + b) / 16)%N]
  | _ => []
  end.

(** [atob(s)]; [None] is the InvalidCharacterError it throws. *)
Definition atob (s : jsstring) : option jsstring :=
  let d := stripPadding (filter (fun c => negb (isAsciiWhitespace c)) s) in
  if List.length d mod 4 =? 1 then None
  else option_map bytes (sextets d).

End Base64.

(* ================================================================== *)
(** ** Completions and the console *)

Inductive error := SyntaxError | TypeError.

(** How a call ends: it returns, it throws, or it has left the modelled
    part of the pattern grammar. *)
Inductive completion (A : Type) :=
| Normal (a : A)
| Throw (e : error)
| Unmodelled.

Arguments Normal {A} a.
Arguments Throw {A} e.
Arguments Unmodelled {A}.

Inductive diagnostic := Base64DecodingFailed.

(** The only state the code touches: the lines written to the console. *)
Definition console := list diagnostic.

Definition JS (A : Type) := console -> completion A * console.

Definition ret {A} (a : A) : JS A := fun k => (Normal a, k).

Definition bind {A B} (m : JS A) (f : A -> JS B) : JS B :=
  fun k =>
    match m k with
    | (Normal a, k') => f a k'
    | (Throw e, k') => (Throw e, k')
    | (Unmodelled, k') => (Unmodelled, k')
    end.

Definition throw {A} (e : error) : JS A := fun k => (Throw e, k).

Definition warn (d : diagnostic) : JS unit := fun k => (Normal tt, k ++ [d]).

Notation "x <- m ;; f" := (bind m (fun x => f))
  (at level 61, m at next level, right associativity).
Notation "' p <- m ;; f" := (bind m (fun x => let 'p := x in f))
  (at level 61, p pattern, m at next level, right associativity).

(** The value a call completes with, started on an empty console. *)
Definition result {A} (m : JS A) : completion A := fst (m []).

(* ================================================================== *)
(** ** The program: [src/index.ts] *)

Definition noFlags : flags := {| ignoreCase := false; multiline := false; dotAll := false |}.
Definition flagsIM : flags := {| ignoreCase := true; multiline := true; dotAll := false |}.
Definition flagsM : flags := {| ignoreCase := false; multiline := true; dotAll := false |}.

(** A regular expression literal of the source. *)
Definition literal (src : jsstring) (fl : flags) : regexp :=
  match compile src fl with
  | POk re => re
  | _ => {| reAst := REmpty; reGroups := 0; reFlags := fl |}
  end.

(** [/\s/g] *)
Definition reWhitespace : regexp := Eval vm_compute in literal (str "\s") noFlags.

(** [/=\r\n/g] *)
Definition reSoftBreak : regexp := Eval vm_compute in literal (str "=\r\n") noFlags.

(** [/=([0-9A-Fa-f]{2})/g] *)
Definition reHexEscape : regexp := Eval vm_compute in literal (str "=([0-9A-Fa-f]{2})") noFlags.

(** [/^Content-Type:\s*multipart\/[a-zA-Z0-9._-]+;\s*boundary=Q?([^Q\s]+)Q?/im],
    where Q is written for the double quote. *)
Definition reMultipart : regexp :=
  Eval vm_compute in
    literal (str "^Content-Type:\s*multipart\/[a-zA-Z0-9._-]+;\s*boundary=" ++ DQ
             ++ str "?([^" ++ DQ ++ str "\s]+)" ++ DQ ++ str "?") flagsIM.

(** [/Content-Type:\s*([^;]+)(?:;\s*charset=Q?([^Q\s]+)Q?)?/im], Q as above. *)
Definition rePartContentType : regexp :=
  Eval vm_compute in
    literal (str "Content-Type:\s*([^;]+)(?:;\s*charset=" ++ DQ
             ++ str "?([^" ++ DQ ++ str "\s]+)" ++ DQ ++ str "?)?") flagsIM.

(** [/Content-Transfer-Encoding:\s*([^\r\n]+)/im] *)
Definition reTransferEncoding : regexp :=
  Eval vm_compute in literal (str "Content-Transfer-Encoding:\s*([^\r\n]+)") flagsIM.

(** [/<[^>]*>?/gm] *)
Definition reTag : regexp := Eval vm_compute in literal (str "<[^>]*>?") flagsM.

(** The text of the pattern built by the template literal
    [`(?:\\r\\n)?--${boundary}(?:--)?(?:\\r\\n)?`]. *)
Definition boundaryPattern (boundary : jsstring) : jsstring :=
  str "(?:\r\n)?--" ++ boundary ++ str "(?:--)?(?:\r\n)?".

(** [new RegExp(pattern, "g")] *)
Definition newRegExp (pattern : jsstring) : JS regexp :=
  match compile pattern noFlags with
  | POk re => ret re
  | PSyntaxError => throw SyntaxError
  | PUnmodelled => fun k => (Unmodelled, k)
  end.

(** JavaScript truthiness of a string. *)
Definition truthy (s : jsstring) : bool :=
  match s with [] => false | _ => true end.

(** [m[1].toLowerCase()]; an [undefined] capture has no such method. *)
Definition lowerCapture1 (m : matchResult) : JS jsstring :=
  match capture 1 m with
  | Some s => ret (toLowerCase s)
  | None => throw TypeError
  end.

(** [(match, p1) => String.fromCharCode(parseInt(p1, 16))] *)
Definition hexReplacer (_ : jsstring) (captures : list (option jsstring)) : jsstring :=
  fromCharCode (match nth 0 captures None with
                | Some p1 => parseInt16 p1
                | None => None
                end).

Definition decodeContent (encodedText : jsstring) (transferEncoding : option jsstring)
  : JS jsstring :=
  if negb (truthy encodedText) then ret []
  else
    let encoding :=
      match transferEncoding with
      | Some t => if truthy t then toLowerCase t else []
      | None => []
      end in
    if JSString.eqb encoding (str "base64") then
      match Base64.atob (replaceAll reWhitespace encodedText (fun _ _ => [])) with
      | Some decoded => ret decoded
      | None => _ <- warn Base64DecodingFailed ;; ret encodedText
      end
    else if JSString.eqb encoding (str "quoted-printable") then
      ret (replaceAll reHexEscape
             (replaceAll reSoftBreak encodedText (fun _ _ => []))
             hexReplacer)
    else ret encodedText.

Definition CRLFCRLF : jsstring := CRLF ++ CRLF.

(** The [Content-Transfer-Encoding] value read from a header block,
    lower-cased, or the empty string. *)
Definition transferEncodingOf (headers : jsstring) : JS jsstring :=
  match exec reTransferEncoding headers with
  | Some m => lowerCapture1 m
  | None => ret []
  end.

Definition contentTypeOf (headers : jsstring) : JS jsstring :=
  match exec rePartContentType headers with
  | Some m => lowerCapture1 m
  | None => ret []
  end.

(** The loop over the parts.  The result is the pair
    [(plainTextBody, htmlBody)] at the end of the loop; [continue] goes on
    with the rest, [break] returns at once. *)
Fixpoint scanParts (parts : list (option jsstring)) (plainTextBody htmlBody : jsstring)
  : JS (jsstring * jsstring) :=
  match parts with
  | [] => ret (plainTextBody, htmlBody)
  | None :: _ => throw TypeError
  | Some part :: rest =>
      if negb (truthy (trim part)) then scanParts rest plainTextBody htmlBody
      else
        match indexOf part CRLFCRLF with
        | None => scanParts rest plainTextBody htmlBody
        | Some partHeadersEnd =>
            let partHeaders := substring part 0 partHeadersEnd in
            let partBody := substringFrom part (partHeadersEnd + 4) in
            contentType <- contentTypeOf partHeaders ;;
            transferEncoding <- transferEncodingOf partHeaders ;;
            if includes contentType (str "text/plain") then
              decoded <- decodeContent partBody (Some transferEncoding) ;;
              ret (decoded, htmlBody)
            else if includes contentType (str "text/html") then
              decoded <- decodeContent partBody (Some transferEncoding) ;;
              scanParts rest plainTextBody decoded
            else scanParts rest plainTextBody htmlBody
        end
  end.

(** The final choice between the two bodies. *)
Definition resolveBody (plainTextBody htmlBody : jsstring) : jsstring :=
  if truthy (trim plainTextBody) then trim plainTextBody
  else if truthy (trim htmlBody) then trim (replaceAll reTag htmlBody (fun _ _ => str " "))
  else [].

(** Which branch a message with a header block takes. *)
Inductive branch :=
| Multipart (boundary : jsstring)
| SinglePart.

Definition branchOf (initialHeaders rawBodyContent : jsstring) : branch :=
  match exec reMultipart initialHeaders with
  | Some contentTypeHeaderMatch =>
      if truthy rawBodyContent then
        Multipart (match capture 1 contentTypeHeaderMatch with
                   | Some boundary => boundary
                   | None => str "undefined"
                   end)
      else SinglePart
  | None => SinglePart
  end.

Definition extractEmailBody (rawEmailContent : jsstring) : JS jsstring :=
  match indexOf rawEmailContent CRLFCRLF with
  | None => ret (trim rawEmailContent)
  | Some bodySeparatorIndex =>
      let initialHeaders := substring rawEmailContent 0 bodySeparatorIndex in
      let rawBodyContent := substringFrom rawEmailContent (bodySeparatorIndex + 4) in
      '(plainTextBody, htmlBody) <-
        match branchOf initialHeaders rawBodyContent with
        | Multipart boundary =>
            boundaryRegex <- newRegExp (boundaryPattern boundary) ;;
            scanParts (split boundaryRegex rawBodyContent) [] []
        | SinglePart =>
            transferEncoding <- transferEncodingOf initialHeaders ;;
            plainTextBody <- decodeContent rawBodyContent (Some transferEncoding) ;;
            ret (plainTextBody, [])
        end ;;
      ret (resolveBody plainTextBody htmlBody)
  end.

(* ------------------------------------------------------------------ *)
(** ** The handler [email] and the platform around it

    The handler reads two secrets from [env], three headers and the raw
    text of the message, builds a snippet of the body and posts it with
    one [fetch].  The platform is a parameter: what the headers hold,
    whether the raw message can be read, the text of the messages of the
    errors the engine throws, and how the request is answered. *)

(** [Number.prototype.toString] of a natural number below 10^21. *)
Fixpoint digitsOf (d : Decimal.uint) : jsstring :=
  match d with
  | Decimal.Nil => []
  | Decimal.D0 d' => 48%N :: digitsOf d'
  | Decimal.D1 d' => 49%N :: digitsOf d'
  | Decimal.D2 d' => 50%N :: digitsOf d'
  | Decimal.D3 d' => 51%N :: digitsOf d'
  | Decimal.D4 d' => 52%N :: digitsOf d'
  | Decimal.D5 d' => 53%N :: digitsOf d'
  | Decimal.D6 d' => 54%N :: digitsOf d'
  | Decimal.D7 d' => 55%N :: digitsOf d'
  | Decimal.D8 d' => 56%N :: digitsOf d'
  | Decimal.D9 d' => 57%N :: digitsOf d'
  end.

Definition numberToString (n : N) : jsstring := digitsOf (N.to_uint n).

(** The values the payload is made of. *)
Unset Elimination Schemes.
Inductive json :=
| JString (s : jsstring)
| JNumber (n : N)
| JBool (b : bool)
| JArray (items : list json)
| JObject (fields : list (jsstring * json)).
Set Elimination Schemes.

Definition hexDigit (v : N) : N := if (v <? 10)%N then (48 + v)%N else (87 + v)%N.

(** UnicodeEscape: [\uXXXX] with lower-case digits. *)
Definition unicodeEscape (c : N) : jsstring :=
  [92; 117; hexDigit (c / 4096); hexDigit ((c / 256) mod 16);
   hexDigit ((c / 16) mod 16); hexDigit (c mod 16)]%N.

Definition isLeadSurrogate (c : N) : bool := inRange 0xD800 0xDBFF c.
Definition isTrailSurrogate (c : N) : bool := inRange 0xDC00 0xDFFF c.

Definition quoteUnit (c : N) : jsstring :=
  if (c =? 8)%N then [92; 98]%N
  else if (c =? 9)%N then [92; 116]%N
  else if (c =? 10)%N then [92; 110]%N
  else if (c =? 12)%N then [92; 102]%N
  else if (c =? 13)%N then [92; 114]%N
  else if (c =? 34)%N then [92; 34]%N
  else if (c =? 92)%N then [92; 92]%N
  else if (c <? 32)%N || isLeadSurrogate c || isTrailSurrogate c then unicodeEscape c
  else [c].

(** The code points of the text one after the other: a surrogate pair is
    copied, a surrogate on its own is escaped. *)
Fixpoint quoteUnits (s : jsstring) : jsstring :=
  match s with
  | [] => []
  | c :: t =>
      match t with
      | d :: t' =>
          if isLeadSurrogate c && isTrailSurrogate d then c :: d :: quoteUnits t'
          else quoteUnit c ++ quoteUnits t
      | [] => quoteUnit c
      end
  end.

(** QuoteJSONString. *)
Definition quoteJSONString (s : jsstring) : jsstring := DQ ++ quoteUnits s ++ DQ.

Fixpoint joinWith (sep : jsstring) (l : list jsstring) : jsstring :=
  match l with
  | [] => []
  | [x] => x
  | x :: t => x ++ sep ++ joinWith sep t
  end.

(** [JSON.stringify(value)] without a replacer or an indentation. *)
Fixpoint stringify (j : json) : jsstring :=
  match j with
  | JString s => quoteJSONString s
  | JNumber n => numberToString n
  | JBool b => if b then str "true" else str "false"
  | JArray items => str "[" ++ joinWith (str ",") (map stringify items) ++ str "]"
  | JObject fields =>
      str "{"
      ++ joinWith (str ",")
           (map (fun kv => quoteJSONString (fst kv) ++ str ":" ++ stringify (snd kv)) fields)
      ++ str "}"
  end.

(** A value that the platform throws or that one of its promises rejects
    with.  The handler passes such a value on, or reads [message] of it
    inside a template literal: [undefined] and [null] have no properties,
    so the read throws a TypeError; of any other value the read gives a
    text, or throws in turn (a getter that throws, a [message] that
    cannot be made a string). *)
Inductive thrown :=
| Nullish                           (* [undefined] or [null] *)
| WithMessage (message : jsstring)  (* the text that the template literal makes of [message] *)
| WithoutMessage (raised : thrown). (* what evaluating the template literal throws *)

(** The values the handler catches. *)
Inductive exception :=
| EngineError (e : error)          (* thrown by the engine inside [extractEmailBody] *)
| Rejection (v : thrown)           (* thrown or rejected by the platform *)
| ApiFailure (message : jsstring). (* the [Error] the handler makes itself *)

(** A text read from a stream, or the value the read rejects with. *)
Inductive readResult :=
| ReadOk (text : jsstring)
| ReadFails (v : thrown).

Record request := {
  url : jsstring;
  method : jsstring;
  requestHeaders : list (jsstring * jsstring);
  requestBody : jsstring
}.

Record response := { status : N; statusText : jsstring; responseText : readResult }.

(** [response.ok]: the status is in the range 200 to 299. *)
Definition ok (r : response) : bool := inRange 200 299 (status r).

Inductive fetchResult :=
| FetchRejects (v : thrown)
| FetchResolves (r : response).

Record platform := {
  errorMessage : error -> jsstring;
  fetch : request -> fetchResult
}.

(** [message.headers.get(name)] and [new Response(message.raw).text()]. *)
Record emailMessage := {
  headersGet : jsstring -> option jsstring;
  rawText : readResult
}.

(** A secret that is not set is [undefined]. *)
Record Env := {
  DISCORD_BOT_TOKEN : option jsstring;
  DISCORD_CHANNEL_ID : option jsstring
}.

(** The lines the handler and [decodeContent] write to the console. *)
Inductive consoleLine :=
| Warned (d : diagnostic)
| MissingConfiguration
| ExtractionError (e : exception)
| FailedToSend (line : jsstring)
| SendingError (e : exception)
| Sent.

(** What can be observed of a run, in order. *)
Inductive event :=
| Console (l : consoleLine)
| Fetched (r : request).

(** How the promise of the handler settles. *)
Inductive outcome :=
| Resolved
| Rejected (e : exception)
| OutsideModel.

(** [v || d] for a string that may be [null] or [undefined]. *)
Definition orElse (v : option jsstring) (d : jsstring) : jsstring :=
  match v with
  | Some s => if truthy s then s else d
  | None => d
  end.

(** [s.slice(0, n)] *)
Definition slice0 (s : jsstring) (n : nat) : jsstring := firstn n s.

(** [`${error.message}`]: the text, or the value that evaluating it
    throws. *)
Definition messageOf (p : platform) (e : exception) : jsstring + exception :=
  match e with
  | EngineError e' => inl (errorMessage p e')
  | Rejection Nullish => inr (EngineError TypeError)
  | Rejection (WithMessage m) => inl m
  | Rejection (WithoutMessage raised) => inr (Rejection raised)
  | ApiFailure m => inl m
  end.

(** The snippet when [extractEmailBody] has returned [extractedBody]. *)
Definition snippetOf (extractedBody rawEmailContent : jsstring) : jsstring :=
  if truthy extractedBody then
    slice0 extractedBody 500
    ++ (if 500 <? List.length extractedBody
        then str "..." ++ [LF; LF] ++ str "(Full message truncated)"
        else [])
  else
    match indexOf rawEmailContent CRLFCRLF with
    | Some fallbackStartIndex =>
        let rawBodyFallback := trim (substringFrom rawEmailContent (fallbackStartIndex + 4)) in
        str "(Could not parse main body, showing raw snippet):" ++ [LF; LF]
        ++ slice0 rawBodyFallback 200 ++ str "..." ++ [LF]
    | None => str "Could not parse email body (no content after headers)."
    end.

(** The snippet of the [catch] block. *)
Definition errorSnippet (message rawEmailContent : jsstring) : jsstring :=
  str "Error processing email body: " ++ message ++ [LF; LF] ++ str "Raw Email Start:" ++ [LF]
  ++ slice0 rawEmailContent 200 ++ str "..." ++ [LF].

(** How the first [try] statement ends: with a snippet, or with a value
    thrown out of its [catch] block; [NotModelled] when the pattern of the
    boundary is outside the modelled grammar. *)
Inductive attempt :=
| Snippet (emailBodySnippet : jsstring)
| CatchThrows (raised : exception)
| NotModelled.

(** The [catch] block: the value caught is written to the console, then
    its [message] is read for the snippet. *)
Definition caught (p : platform) (error : exception) (rawEmailContent : jsstring)
  : attempt * list event :=
  (match messageOf p error with
   | inl message => Snippet (errorSnippet message rawEmailContent)
   | inr raised => CatchThrows raised
   end,
   [Console (ExtractionError error)]).

(** The [try] block with its [catch], and what was written to the
    console.  When the read of the raw text fails, [rawEmailContent] is
    still the empty string. *)
Definition bodySnippet (p : platform) (message : emailMessage) : attempt * list event :=
  match rawText message with
  | ReadFails v => caught p (Rejection v) []
  | ReadOk rawEmailContent =>
      match extractEmailBody rawEmailContent [] with
      | (Normal extractedBody, k) =>
          (Snippet (snippetOf extractedBody rawEmailContent), map (fun d => Console (Warned d)) k)
      | (Throw e, k) =>
          let '(end_, written) := caught p (EngineError e) rawEmailContent in
          (end_, map (fun d => Console (Warned d)) k ++ written)
      | (Unmodelled, _) => (NotModelled, [])
      end
  end.

Definition payload (subject from to emailBodySnippet : jsstring) : json :=
  JObject
    [(str "components",
      JArray
        [JObject
           [(str "type", JNumber 17);
            (str "components",
             JArray
               [JObject [(str "type", JNumber 10);
                         (str "content",
                          JString (str "Subject: " ++ subject ++ [LF] ++ str "From: " ++ from
                                   ++ [LF] ++ str "To: " ++ to))];
                JObject [(str "type", JNumber 14); (str "spacing", JNumber 1);
                         (str "divider", JBool true)];
                JObject [(str "type", JNumber 10);
                         (str "content", JString emailBodySnippet)]])]]);
     (str "flags", JNumber 32768)].

Definition discordRequest (BOT_TOKEN CHANNEL_ID : jsstring) (body : json) : request :=
  {| url := str "https://discord.com/api/v10/channels/" ++ CHANNEL_ID ++ str "/messages";
     method := str "POST";
     requestHeaders := [(str "Content-Type", str "application/json");
                        (str "Authorization", str "Bot " ++ BOT_TOKEN)];
     requestBody := stringify body |}.

(** The second [try] block: the request, the lines written and how the
    handler ends. *)
Definition send (p : platform) (req : request) : outcome * list event :=
  match fetch p req with
  | FetchRejects v =>
      (Rejected (Rejection v), [Fetched req; Console (SendingError (Rejection v))])
  | FetchResolves r =>
      if ok r then (Resolved, [Fetched req; Console Sent])
      else
        match responseText r with
        | ReadFails v =>
            (Rejected (Rejection v), [Fetched req; Console (SendingError (Rejection v))])
        | ReadOk errorDetails =>
            let line := numberToString (status r) ++ str " " ++ statusText r
                        ++ str " - " ++ errorDetails in
            let e := ApiFailure (str "Discord API failed: " ++ line) in
            (Rejected e,
             [Fetched req; Console (FailedToSend (str "Failed to send Discord message: " ++ line));
              Console (SendingError e)])
        end
  end.

(** [email(message, env, ctx)] *)
Definition email (p : platform) (message : emailMessage) (env : Env) : outcome * list event :=
  let BOT_TOKEN := orElse (DISCORD_BOT_TOKEN env) [] in
  let CHANNEL_ID := orElse (DISCORD_CHANNEL_ID env) [] in
  if negb (truthy BOT_TOKEN) || negb (truthy CHANNEL_ID) then
    (Resolved, [Console MissingConfiguration])
  else
    let subject := orElse (headersGet message (str "Subject")) (str "No Subject") in
    let from := orElse (headersGet message (str "From")) (str "Unknown Sender") in
    let to := orElse (headersGet message (str "To")) (str "Unknown Recipient") in
    match bodySnippet p message with
    | (NotModelled, _) => (OutsideModel, [])
    | (CatchThrows raised, written) => (Rejected raised, written)
    | (Snippet emailBodySnippet, written) =>
        let '(end_, sent) :=
          send p (discordRequest BOT_TOKEN CHANNEL_ID (payload subject from to emailBodySnippet)) in
        (end_, written ++ sent)
    end.

(* ------------------------------------------------------------------ *)
(** ** The program over the objects it creates

    What one call could share with another are the objects that outlive
    it.  The source has no variable outside its functions; the objects it
    creates are its regular expressions, whose [lastIndex] the methods
    [match], [replace] and [split] read and write.  Here [decodeContent]
    and [extractEmailBody] are embedded once more, with these objects in a
    heap: each regular expression literal and each [new RegExp] makes a
    new object when it is evaluated (ECMAScript 13.2.7.3), and the methods
    follow the algorithms of the specification on [lastIndex]
    (RegExpBuiltinExec, RegExp.prototype[Symbol.match],
    [Symbol.replace], [Symbol.split]). *)

Module Objects.

(** A regular expression object: its matcher with the flags [i], [m],
    [s], the flags [g] and [y], and the property [lastIndex]. *)
Record regexpObject := {
  matcher : regexp;
  global : bool;
  sticky : bool;
  lastIndex : nat
}.

(** What outlives a call: the lines on the console and the heap.  An
    object is known by its address, its index in the heap. *)
Record world := { written : console; heap : list regexpObject }.

Definition Run (A : Type) := world -> completion A * world.

Definition ret {A} (a : A) : Run A := fun w => (Normal a, w).

Definition bind {A B} (m : Run A) (f : A -> Run B) : Run B :=
  fun w =>
    match m w with
    | (Normal a, w') => f a w'
    | (Throw e, w') => (Throw e, w')
    | (Unmodelled, w') => (Unmodelled, w')
    end.

Definition throw {A} (e : error) : Run A := fun w => (Throw e, w).

(** Outside the model: a pattern outside the modelled grammar, an address
    that is not in the heap, a loop out of fuel.  The last two never
    occur ([extractEmailBody_refines] below). *)
Definition outside {A} : Run A := fun w => (Unmodelled, w).

Definition warn (d : diagnostic) : Run unit :=
  fun w => (Normal tt, {| written := written w ++ [d]; heap := heap w |}).

Declare Scope run_scope.
Notation "x <- m ;; f" := (bind m (fun x => f))
  (at level 61, m at next level, right associativity) : run_scope.
Notation "' p <- m ;; f" := (bind m (fun x => let 'p := x in f))
  (at level 61, p pattern, m at next level, right associativity) : run_scope.
Local Open Scope run_scope.

(** A regular expression literal or [new RegExp] is evaluated: a new
    object with [lastIndex] 0. *)
Definition create (re : regexp) (g y : bool) : Run nat :=
  fun w =>
    (Normal (List.length (heap w)),
     {| written := written w;
        heap := heap w ++ [{| matcher := re; global := g; sticky := y; lastIndex := 0 |}] |}).

Definition get (rx : nat) : Run regexpObject :=
  fun w =>
    match nth_error (heap w) rx with
    | Some R => (Normal R, w)
    | None => (Unmodelled, w)
    end.

Fixpoint update (rx n : nat) (h : list regexpObject) : list regexpObject :=
  match h, rx with
  | [], _ => []
  | R :: t, 0 =>
      {| matcher := matcher R; global := global R; sticky := sticky R; lastIndex := n |} :: t
  | R :: t, S rx' => R :: update rx' n t
  end.

(** [rx.lastIndex = n] *)
Definition setLastIndex (rx n : nat) : Run unit :=
  fun w => (Normal tt, {| written := written w; heap := update rx n (heap w) |}).

(** RegExpBuiltinExec (22.2.7.2).  [lastIndex] is read from the object;
    without [g] and [y] the search starts at 0.  With [y] one attempt is
    made at [lastIndex], without it the first index from [lastIndex] on at
    which an attempt succeeds is taken.  With [g] or [y] the end of the
    match is written to [lastIndex], and 0 when there is no match. *)
Definition regExpBuiltinExec (rx : nat) (s : jsstring) : Run (option matchResult) :=
  R <- get rx ;;
  let tracked := global R || sticky R in
  let lastIndex := if tracked then lastIndex R else 0 in
  let failure := _ <- (if tracked then setLastIndex rx 0 else ret tt) ;; ret None in
  if List.length s <? lastIndex then failure
  else
    let b := rev (firstn lastIndex s) in
    let a := skipn lastIndex s in
    match (if sticky R then matchAt (matcher R) lastIndex b a
           else searchFrom (matcher R) lastIndex b a) with
    | None => failure
    | Some r =>
        _ <- (if tracked then setLastIndex rx (mEnd r) else ret tt) ;;
        ret (Some r)
    end.

(** RegExp.prototype[Symbol.match] (22.2.6.8) for a pattern without
    [g], the only use the source makes of [match]. *)
Definition match_ (rx : nat) (s : jsstring) : Run (option matchResult) :=
  R <- get rx ;;
  if global R then outside else regExpBuiltinExec rx s.

(** RegExp.prototype[Symbol.replace] (22.2.6.11), step 12: the results of
    the calls of RegExpExec.  After an empty match [lastIndex] is moved one
    unit on.  Each call after the first starts from a greater [lastIndex],
    and a call from beyond the length finds nothing: a fuel of the length
    plus 2 is never used up. *)
Fixpoint collectResults (fuel : nat) (rx : nat) (g : bool) (s : jsstring)
  : Run (list matchResult) :=
  match fuel with
  | 0 => outside
  | S fuel' =>
      result <- regExpBuiltinExec rx s ;;
      match result with
      | None => ret []
      | Some r =>
          if negb g then ret [r]
          else
            _ <- (if truthy (matched s r) then ret tt
                  else R <- get rx ;; setLastIndex rx (S (lastIndex R))) ;;
            results <- collectResults fuel' rx g s ;;
            ret (r :: results)
      end
  end.

(** Steps 14 to 16: the text between the matches and the replacements. *)
Fixpoint substitute (s : jsstring) (replaceValue : jsstring -> list (option jsstring) -> jsstring)
    (results : list matchResult) (accumulatedResult : jsstring) (nextSourcePosition : nat)
  : jsstring :=
  match results with
  | [] => accumulatedResult ++ substringFrom s nextSourcePosition
  | r :: rest =>
      let position := Nat.min (mIndex r) (List.length s) in
      let replacement := replaceValue (matched s r) (mCaps r) in
      if nextSourcePosition <=? position then
        substitute s replaceValue rest
          (accumulatedResult ++ substring s nextSourcePosition position ++ replacement)
          (position + List.length (matched s r))
      else substitute s replaceValue rest accumulatedResult nextSourcePosition
  end.

(** [s.replace(rx, replaceValue)] with a function as [replaceValue]. *)
Definition replace (rx : nat) (s : jsstring)
    (replaceValue : jsstring -> list (option jsstring) -> jsstring) : Run jsstring :=
  R <- get rx ;;
  _ <- (if global R then setLastIndex rx 0 else ret tt) ;;
  results <- collectResults (List.length s + 2) rx (global R) s ;;
  ret (substitute s replaceValue results [] 0).

(** RegExp.prototype[Symbol.split] (22.2.6.14), step 19: [p] is the end
    of the last separator and [q] the index tried next.  An iteration
    moves [q] on, or moves [p]: a fuel of twice the length plus 2 is never
    used up. *)
Fixpoint splitLoop (fuel : nat) (splitter : nat) (s : jsstring) (p q : nat)
  : Run (list (option jsstring)) :=
  match fuel with
  | 0 => outside
  | S fuel' =>
      if q <? List.length s then
        _ <- setLastIndex splitter q ;;
        z <- regExpBuiltinExec splitter s ;;
        match z with
        | None => splitLoop fuel' splitter s p (S q)
        | Some r =>
            R <- get splitter ;;
            let e := Nat.min (lastIndex R) (List.length s) in
            if e =? p then splitLoop fuel' splitter s p (S q)
            else
              rest <- splitLoop fuel' splitter s e e ;;
              ret (Some (substring s p q) :: mCaps r ++ rest)
        end
      else ret [Some (substringFrom s p)]
  end.

(** [s.split(rx)] without a limit.  The matching is done by a new
    object, made from [rx] with the flag [y] added. *)
Definition split (rx : nat) (s : jsstring) : Run (list (option jsstring)) :=
  R <- get rx ;;
  splitter <- create (matcher R) (global R) true ;;
  match s with
  | [] =>
      z <- regExpBuiltinExec splitter s ;;
      ret (match z with Some _ => [] | None => [Some []] end)
  | _ => splitLoop (2 * List.length s + 2) splitter s 0 0
  end.

(** [new RegExp(pattern, "g")] *)
Definition newRegExp (pattern : jsstring) : Run nat :=
  match compile pattern noFlags with
  | POk re => create re true false
  | PSyntaxError => throw SyntaxError
  | PUnmodelled => outside
  end.

(** [m ? m[1].toLowerCase() : ""] *)
Definition lowerCapture1 (m : option matchResult) : Run jsstring :=
  match m with
  | Some r =>
      match capture 1 r with
      | Some s => ret (toLowerCase s)
      | None => throw TypeError
      end
  | None => ret []
  end.

Definition decodeContent (encodedText : jsstring) (transferEncoding : option jsstring)
  : Run jsstring :=
  if negb (truthy encodedText) then ret []
  else
    let encoding :=
      match transferEncoding with
      | Some t => if truthy t then toLowerCase t else []
      | None => []
      end in
    if JSString.eqb encoding (str "base64") then
      stripped <- (rx <- create reWhitespace true false ;;
                   replace rx encodedText (fun _ _ => [])) ;;
      match Base64.atob stripped with
      | Some decoded => ret decoded
      | None => _ <- warn Base64DecodingFailed ;; ret encodedText
      end
    else if JSString.eqb encoding (str "quoted-printable") then
      joined <- (rx <- create reSoftBreak true false ;;
                 replace rx encodedText (fun _ _ => [])) ;;
      rx <- create reHexEscape true false ;;
      replace rx joined hexReplacer
    else ret encodedText.

(** The loop over the parts, as [scanParts] above. *)
Fixpoint scanParts (parts : list (option jsstring)) (plainTextBody htmlBody : jsstring)
  : Run (jsstring * jsstring) :=
  match parts with
  | [] => ret (plainTextBody, htmlBody)
  | None :: _ => throw TypeError
  | Some part :: rest =>
      if negb (truthy (trim part)) then scanParts rest plainTextBody htmlBody
      else
        match indexOf part CRLFCRLF with
        | None => scanParts rest plainTextBody htmlBody
        | Some partHeadersEnd =>
            let partHeaders := substring part 0 partHeadersEnd in
            let partBody := substringFrom part (partHeadersEnd + 4) in
            partContentTypeMatch <- (rx <- create rePartContentType false false ;;
                                     match_ rx partHeaders) ;;
            partTransferEncodingMatch <- (rx <- create reTransferEncoding false false ;;
                                          match_ rx partHeaders) ;;
            contentType <- lowerCapture1 partContentTypeMatch ;;
            transferEncoding <- lowerCapture1 partTransferEncodingMatch ;;
            if includes contentType (str "text/plain") then
              decoded <- decodeContent partBody (Some transferEncoding) ;;
              ret (decoded, htmlBody)
            else if includes contentType (str "text/html") then
              decoded <- decodeContent partBody (Some transferEncoding) ;;
              scanParts rest plainTextBody decoded
            else scanParts rest plainTextBody htmlBody
        end
  end.

(** The final choice between the two bodies. *)
Definition resolveBody (plainTextBody htmlBody : jsstring) : Run jsstring :=
  if truthy (trim plainTextBody) then ret (trim plainTextBody)
  else if truthy (trim htmlBody) then
    stripped <- (rx <- create reTag true false ;; replace rx htmlBody (fun _ _ => str " ")) ;;
    ret (trim stripped)
  else ret [].

Definition extractEmailBody (rawEmailContent : jsstring) : Run jsstring :=
  match indexOf rawEmailContent CRLFCRLF with
  | None => ret (trim rawEmailContent)
  | Some bodySeparatorIndex =>
      let initialHeaders := substring rawEmailContent 0 bodySeparatorIndex in
      let rawBodyContent := substringFrom rawEmailContent (bodySeparatorIndex + 4) in
      contentTypeHeaderMatch <- (rx <- create reMultipart false false ;;
                                 match_ rx initialHeaders) ;;
      '(plainTextBody, htmlBody) <-
        match contentTypeHeaderMatch with
        | Some m =>
            if truthy rawBodyContent then
              let boundary := match capture 1 m with
                              | Some boundary => boundary
                              | None => str "undefined"
                              end in
              boundaryRegex <- newRegExp (boundaryPattern boundary) ;;
              parts <- split boundaryRegex rawBodyContent ;;
              scanParts parts [] []
            else
              transferEncodingMatch <- (rx <- create reTransferEncoding false false ;;
                                        match_ rx initialHeaders) ;;
              transferEncoding <- lowerCapture1 transferEncodingMatch ;;
              plainTextBody <- decodeContent rawBodyContent (Some transferEncoding) ;;
              ret (plainTextBody, [])
        | None =>
            transferEncodingMatch <- (rx <- create reTransferEncoding false false ;;
                                      match_ rx initialHeaders) ;;
            transferEncoding <- lowerCapture1 transferEncodingMatch ;;
            plainTextBody <- decodeContent rawBodyContent (Some transferEncoding) ;;
            ret (plainTextBody, [])
        end ;;
      resolveBody plainTextBody htmlBody
  end.

End Objects.

(* ================================================================== *)
(** * Vocabulary of the statements *)

(** A computation [writes] when its completion does not depend on the
    console it starts from and it only appends to it. *)
Definition writes {A} (m : JS A) : Prop :=
  forall k, m k = (fst (m []), k ++ snd (m [])).

(** [keeps gs x y]: from [x] to [y] the number of captures is the same
    and only the captures of the groups [gs] may differ. *)
Definition keeps (gs : list nat) (x y : mstate) : Prop :=
  List.length (caps y) = List.length (caps x) /\
  forall i, ~ In i gs -> getCap i y = getCap i x.

(** The value of a computation that returns. *)
Definition value (m : JS jsstring) : jsstring :=
  match result m with
  | Normal a => a
  | _ => []
  end.

(** What the loop of [extractEmailBody] does with one part: it passes
    over it, or it decodes its body as plain text or as HTML, with the
    transfer encoding read from the headers of the part. *)
Inductive partKind :=
| Skipped
| PlainPart (partBody transferEncoding : jsstring)
| HtmlPart (partBody transferEncoding : jsstring).

Definition kindOf (part : jsstring) : partKind :=
  if negb (truthy (trim part)) then Skipped
  else
    match indexOf part CRLFCRLF with
    | None => Skipped
    | Some partHeadersEnd =>
        let partHeaders := substring part 0 partHeadersEnd in
        let partBody := substringFrom part (partHeadersEnd + 4) in
        let contentType := value (contentTypeOf partHeaders) in
        let transferEncoding := value (transferEncodingOf partHeaders) in
        if includes contentType (str "text/plain") then PlainPart partBody transferEncoding
        else if includes contentType (str "text/html") then HtmlPart partBody transferEncoding
        else Skipped
    end.

(** The decoded body of a part. *)
Definition decoded (partBody transferEncoding : jsstring) : jsstring :=
  value (decodeContent partBody (Some transferEncoding)).

(** ** Quoted-printable, described without regular expressions *)

(** The text without its soft line breaks [=CRLF]. *)
Fixpoint removeSoftBreaks (s : jsstring) : jsstring :=
  match s with
  | [] => []
  | c :: t =>
      match t with
      | d :: e :: t' =>
          if (c =? 61)%N && (d =? 13)%N && (e =? 10)%N then removeSoftBreaks t'
          else c :: removeSoftBreaks t
      | _ => c :: removeSoftBreaks t
      end
  end.

(** Every [=XX], [XX] two hex digits, read from left to right, becomes
    the one unit of code [XX]. *)
Fixpoint decodeHexEscapes (s : jsstring) : jsstring :=
  match s with
  | [] => []
  | c :: t =>
      match t with
      | h1 :: h2 :: t' =>
          match (if (c =? 61)%N then hexVal h1 else None), hexVal h2 with
          | Some v1, Some v2 => (16 * v1 + v2)%N :: decodeHexEscapes t'
          | _, _ => c :: decodeHexEscapes t
          end
      | _ => c :: decodeHexEscapes t
      end
  end.

(** A matcher state, written positionally. *)
Definition st (p : nat) (b a : jsstring) (cs : list (option (nat * nat))) : mstate :=
  {| pos := p; before := b; after := a; caps := cs |}.

(** [hexReplacer] on the two units of codes [n1] and [n2], when they are
    hex digits, gives the unit of their value. *)
Definition hexReplacerOk (n1 n2 : nat) : bool :=
  match hexVal (N.of_nat n1), hexVal (N.of_nat n2) with
  | Some v1, Some v2 =>
      JSString.eqb (hexReplacer [] [Some [N.of_nat n1; N.of_nat n2]]) [(16 * v1 + v2)%N]
  | _, _ => true
  end.

(** ** Tag removal, described without regular expressions *)

(** Outside a tag, [<] opens one and becomes a single space; inside, every
    unit is dropped up to and including the next [>]. *)
Fixpoint stripTags (inTag : bool) (s : jsstring) : jsstring :=
  match s with
  | [] => []
  | c :: t =>
      if inTag then stripTags (negb (c =? 62)%N) t
      else if (c =? 60)%N then 32%N :: stripTags true t
      else c :: stripTags false t
  end.

(** The number of units of a tag after its opening bracket. *)
Fixpoint tagRest (s : jsstring) : nat :=
  match s with
  | [] => 0
  | c :: t => if (c =? 62)%N then 1 else S (tagRest t)
  end.

(** ** Messages used as examples *)

(** A single-part message in quoted-printable with the body [Caf=C3=A9]. *)
Definition cafeMessage : jsstring :=
  str "Content-Transfer-Encoding: quoted-printable" ++ CRLFCRLF ++ str "Caf=C3=A9".

(** The body of a multipart message: the parts, each after a delimiter
    line, and the closing delimiter. *)
Fixpoint multipartBody (boundary : jsstring) (parts : list jsstring) : jsstring :=
  match parts with
  | [] => str "--" ++ boundary ++ str "--" ++ CRLF
  | part :: rest => str "--" ++ boundary ++ CRLF ++ part ++ CRLF ++ multipartBody boundary rest
  end.

(** A multipart message that declares [boundary] in its only header. *)
Definition multipartMessage (boundary : jsstring) (parts : list jsstring) : jsstring :=
  str "Content-Type: multipart/alternative; boundary=" ++ boundary
  ++ CRLFCRLF ++ multipartBody boundary parts.

Definition htmlPart : jsstring :=
  str "Content-Type: text/html" ++ CRLFCRLF ++ str "<p>Hi <b>there</b></p>".

Definition plainPart : jsstring :=
  str "Content-Type: text/plain" ++ CRLFCRLF ++ str "Hello there".

Definition earlierHtmlPart : jsstring :=
  str "Content-Type: text/html" ++ CRLFCRLF ++ str "<i>first</i>".

(** A multipart message whose only part is [htmlPart]. *)
Definition htmlOnlyMessage : jsstring := multipartMessage (str "XYZ") [htmlPart].

(** A multipart message with a plain part followed by an HTML part. *)
Definition plainThenHtmlMessage : jsstring := multipartMessage (str "XYZ") [plainPart; htmlPart].

(** A multipart message with two HTML parts. *)
Definition twoHtmlMessage : jsstring := multipartMessage (str "XYZ") [earlierHtmlPart; htmlPart].

(** The same as [htmlOnlyMessage] with an opening parenthesis as boundary. *)
Definition parenBoundaryMessage : jsstring := multipartMessage (str "(") [htmlPart].

(** A plain part followed by an HTML part, with a boundary that has a
    quantifier in it. *)
Definition plusBoundaryMessage : jsstring :=
  multipartMessage (str "ab+c") [plainPart; htmlPart].

(** ** Boundaries and the pattern made from them *)

(** The syntax characters of the pattern grammar. *)
Definition isSyntaxCharacter (c : N) : bool := existsb (N.eqb c) (str "^$\.*+?()[]{}|").

(** A text without syntax characters. *)
Definition plainText (b : jsstring) : Prop := Forall (fun c => isSyntaxCharacter c = false) b.

(** What [isSyntaxCharacter c = false] says to the parser. *)
Record plainUnit (c : N) : Prop := {
  pu_caret : isC "^" c = false;
  pu_dollar : isC "$" c = false;
  pu_backslash : isC "\" c = false;
  pu_dot : isC "." c = false;
  pu_star : isC "*" c = false;
  pu_plus : isC "+" c = false;
  pu_question : isC "?" c = false;
  pu_open : isC "(" c = false;
  pu_close : isC ")" c = false;
  pu_bracket : isC "[" c = false;
  pu_brace : isC "{" c = false;
  pu_bar : isC "|" c = false
}.

(** The literal units [b] appended to the sequence [cur]. *)
Definition literals (b : jsstring) (cur : regex) : regex :=
  fold_left (fun r c => mkSeq r (single c)) b cur.

(** The text starts with no quantifier. *)
Definition noQuantifierAhead (s : jsstring) : Prop :=
  match s with
  | [] => True
  | d :: _ => isC "*" d = false /\ isC "+" d = false /\ isC "?" d = false /\ isC "{" d = false
  end.

Fixpoint noNamedRef (r : regex) : bool :=
  match r with
  | RSeq a b | RAlt a b => noNamedRef a && noNamedRef b
  | RQuant r' _ _ _ | RGroup _ r' | RLook _ _ r' => noNamedRef r'
  | RNamedRef _ => false
  | _ => true
  end.

(** The pattern of a boundary without syntax characters: optional CRLF,
    two dashes, the units of the boundary, optional two dashes, optional
    CRLF. *)
Definition boundaryAst (b : jsstring) : regex :=
  let crlf := RQuant (RSeq (single 13) (single 10)) 0 (Some 1%N) true in
  let dashes := RQuant (RSeq (single 45) (single 45)) 0 (Some 1%N) true in
  mkSeq (mkSeq (literals b (RSeq (RSeq crlf (single 45)) (single 45))) dashes) crlf.

(** ** The multipart header, described without regular expressions *)

(** [runs fl ts x z]: the terms [ts], matched one after the other from
    [x], can end in [z]. *)
Fixpoint runs (fl : flags) (ts : list regex) (x z : mstate) : Prop :=
  match ts with
  | [] => z = x
  | t :: ts' => exists y, In y (rmatch fl t true x) /\ runs fl ts' y z
  end.

Definition asciiUpper (c : N) : N := if inRange 97 122 c then (c - 32)%N else c.

(** [w] is the ASCII text [lit] up to the case of its letters. *)
Definition sameIgnoringCase (w lit : jsstring) : Prop :=
  Forall2 (fun d c => asciiUpper d = asciiUpper c) w lit.

Definition isSubtypeUnit (c : N) : bool :=
  isAsciiLetter c || isDigit c || (c =? 46)%N || (c =? 95)%N || (c =? 45)%N.

Definition isValueUnit (c : N) : bool := negb (c =? 34)%N && negb (isWhiteSpace c).

Definition whitespaceText (w : jsstring) : Prop := Forall (fun c => isWhiteSpace c = true) w.
Definition subtypeText (w : jsstring) : Prop := Forall (fun c => isSubtypeUnit c = true) w.
Definition valueText (w : jsstring) : Prop := Forall (fun c => isValueUnit c = true) w.

Definition subtypeClass : list classItem :=
  [CRange 97 122; CRange 65 90; CRange 48 57; CRange 46 46; CRange 95 95; CRange 45 45].

Definition valueClass : list classItem := [CRange 34 34; CSpace false].

Definition star (inv : bool) (items : list classItem) : regex := RQuant (RChar inv items) 0 None true.
Definition plus (inv : bool) (items : list classItem) : regex := RQuant (RChar inv items) 1 None true.
Definition opt (c : N) : regex := RQuant (single c) 0 (Some 1%N) true.

(** The terms of [reMultipart] after the line start. *)
Definition multipartTerms : list regex :=
  map single (str "Content-Type:") ++ [star false [CSpace false]]
  ++ map single (str "multipart/") ++ [plus false subtypeClass; single 59; star false [CSpace false]]
  ++ map single (str "boundary=") ++ [opt 34; RGroup 1 (plus true valueClass); opt 34].

(** The text before a header line: nothing, or a text that ends with a
    line terminator. *)
Definition startsLine (pre : jsstring) : Prop :=
  pre = [] \/ exists pre' c, pre = pre' ++ [c] /\ isLineTerminator c = true.

(** A header line that declares a multipart type with the boundary as
    its first parameter. *)
Definition headerLine (name w1 kind sub w2 param quote value rest : jsstring) : jsstring :=
  name ++ w1 ++ kind ++ sub ++ [59%N] ++ w2 ++ param ++ quote ++ value ++ rest.

(** A multipart header whose boundary is not the first parameter. *)
Definition laterBoundaryMessage : jsstring :=
  str "Content-Type: multipart/mixed; charset=utf-8; boundary=XYZ"
  ++ CRLFCRLF ++ multipartBody (str "XYZ") [htmlPart].

(** ** Fuel *)

(** A state whose index is the length of the text before it. *)
Definition wellFormed (x : mstate) : Prop := pos x = List.length (before x).

(** The units still ahead in the direction of matching. *)
Definition ahead (fwd : bool) (x : mstate) : nat :=
  if fwd then List.length (after x) else List.length (before x).

(** [y] is reached from [x] over the same input, without moving against
    the direction of matching. *)
Definition moves (fwd : bool) (x y : mstate) : Prop :=
  wellFormed y /\
  List.length (before y) + List.length (after y) = List.length (before x) + List.length (after x) /\
  ahead fwd y <= ahead fwd x.

(** ** Base64, the encoder

    [btoa] is the encoder of the platform, the counterpart of [atob]: three
    bytes give four units of the alphabet, and a rest of one or two bytes
    is padded with [=]. *)

(** The unit of the alphabet at a position below 64. *)
Definition alphabet (v : N) : N :=
  if (v <? 26)%N then (65 + v)%N
  else if (v <? 52)%N then (71 + v)%N
  else if (v <? 62)%N then (v - 4)%N
  else if (v =? 62)%N then 43%N
  else 47%N.

(** [btoa(s)] for a text of bytes. *)
Fixpoint btoa (s : jsstring) : jsstring :=
  match s with
  | a :: b :: c :: rest =>
      alphabet (a / 4) :: alphabet ((a mod 4) * 16 + b / 16)
      :: alphabet ((b mod 16) * 4 + c / 64) :: alphabet (c mod 64) :: btoa rest
  | [a; b] =>
      [alphabet (a / 4); alphabet ((a mod 4) * 16 + b / 16); alphabet ((b mod 16) * 4); 61]%N
  | [a] => [alphabet (a / 4); alphabet ((a mod 4) * 16); 61; 61]%N
  | [] => []
  end.

(** The six-bit groups of a text of bytes. *)
Fixpoint sextetsOf (s : jsstring) : list N :=
  match s with
  | a :: b :: c :: rest =>
      (a / 4 :: (a mod 4) * 16 + b / 16 :: (b mod 16) * 4 + c / 64 :: c mod 64 :: sextetsOf rest)%N
  | [a; b] => [a / 4; (a mod 4) * 16 + b / 16; (b mod 16) * 4]%N
  | [a] => [a / 4; (a mod 4) * 16]%N
  | [] => []
  end.

(** The padding [btoa] ends with. *)
Fixpoint padding (s : jsstring) : jsstring :=
  match s with
  | _ :: _ :: _ :: rest => padding rest
  | [_; _] => [61%N]
  | [_] => [61; 61]%N
  | [] => []
  end.

(** A unit that is one byte. *)
Definition isByte (c : N) : bool := (c <? 256)%N.

(** ** Quoted-printable, token by token *)

(** What a quoted-printable text is made of: a unit that stands for
    itself, an escape [=XX] and a soft line break [=CRLF]. *)
Inductive qpToken :=
| Literal (c : N)
| Escape (h1 h2 : N)
| SoftBreak.

(** The text of a token. *)
Definition qpText (t : qpToken) : jsstring :=
  match t with
  | Literal c => [c]
  | Escape h1 h2 => [61%N; h1; h2]
  | SoftBreak => 61%N :: CRLF
  end.

(** What a token stands for. *)
Definition qpValue (t : qpToken) : jsstring :=
  match t with
  | Literal c => [c]
  | Escape h1 h2 =>
      match hexVal h1, hexVal h2 with
      | Some v1, Some v2 => [(16 * v1 + v2)%N]
      | _, _ => []
      end
  | SoftBreak => []
  end.

(** A literal is not [=] and the two units of an escape are hex digits. *)
Definition qpWellFormed (t : qpToken) : bool :=
  match t with
  | Literal c => negb (c =? 61)%N
  | Escape h1 h2 => isHexDigit h1 && isHexDigit h2
  | SoftBreak => true
  end.

(** The text has a place where quoted-printable decoding changes it: a
    soft line break or an escape. *)
Fixpoint hasEscape (s : jsstring) : bool :=
  match s with
  | [] => false
  | c :: t =>
      (c =? 61)%N
      && match t with
         | d :: e :: _ => ((d =? 13)%N && (e =? 10)%N) || (isHexDigit d && isHexDigit e)
         | _ => false
         end
      || hasEscape t
  end.

(** ** The loop over the parts, without the console *)

(** The pair [(plainTextBody, htmlBody)] the loop ends with. *)
Fixpoint scan (parts : list jsstring) (plainTextBody htmlBody : jsstring) : jsstring * jsstring :=
  match parts with
  | [] => (plainTextBody, htmlBody)
  | part :: rest =>
      match kindOf part with
      | Skipped => scan rest plainTextBody htmlBody
      | PlainPart partBody transferEncoding => (decoded partBody transferEncoding, htmlBody)
      | HtmlPart partBody transferEncoding =>
          scan rest plainTextBody (decoded partBody transferEncoding)
      end
  end.

(** A part the loop does not decode as plain text. *)
Definition notPlain (part : jsstring) : Prop :=
  match kindOf part with PlainPart _ _ => False | _ => True end.

(** ** More messages used as examples *)

(** A plain part with a blank body. *)
Definition blankPlainPart : jsstring :=
  str "Content-Type: text/plain" ++ CRLFCRLF ++ str "  ".

(** A part that is neither plain text nor HTML. *)
Definition imagePart : jsstring :=
  str "Content-Type: image/png" ++ CRLF ++ str "Content-Transfer-Encoding: base64"
  ++ CRLFCRLF ++ str "iVBORw0KGgo=".

(** An HTML part followed by a plain part. *)
Definition htmlThenPlainMessage : jsstring := multipartMessage (str "XYZ") [htmlPart; plainPart].

(** An HTML part, a plain part with a blank body, and another HTML part. *)
Definition blankPlainMessage : jsstring :=
  multipartMessage (str "XYZ") [earlierHtmlPart; blankPlainPart; htmlPart].

(** A multipart message whose only part is an image. *)
Definition imageOnlyMessage : jsstring := multipartMessage (str "XYZ") [imagePart].

(** A single-part HTML message. *)
Definition singleHtmlMessage : jsstring :=
  str "Content-Type: text/html" ++ CRLFCRLF ++ str "<p>Hi</p>".

(** A header block with nothing after it. *)
Definition headersOnlyMessage : jsstring :=
  str "Content-Type: multipart/mixed; boundary=XYZ" ++ CRLFCRLF.


(** ** Lengths *)

(** Every string of a [split] result has at most [n] units. *)
Definition boundedBy (n : nat) (parts : list (option jsstring)) : Prop :=
  Forall (fun o => match o with Some s => List.length s <= n | None => True end) parts.

(** ** The delimiter lines of a multipart body, described without regular expressions *)

(** The number of units the pattern of [boundary] takes at the start of
    [a]: an optional CRLF, two dashes and the boundary, then two more
    dashes if they are there, then a CRLF if it is there. *)
Definition delimiterLength (boundary a : jsstring) : option nat :=
  let n1 := if startsWith a CRLF then 2 else 0 in
  if startsWith (skipn n1 a) (str "--" ++ boundary) then
    let n2 := n1 + (2 + List.length boundary) in
    let n3 := if startsWith (skipn n2 a) (str "--") then n2 + 2 else n2 in
    Some (if startsWith (skipn n3 a) CRLF then n3 + 2 else n3)
  else None.

(** The state after the text [w] has been passed over. *)
Definition advance (w : jsstring) (x : mstate) : mstate :=
  st (List.length w + pos x) (rev w ++ before x) (skipn (List.length w) (after x)) (caps x).

(** The matcher of the literal text [w]. *)
Definition consumeText (w : jsstring) (x : mstate) : list mstate :=
  if startsWith (after x) w then [advance w x] else [].

(** The matcher of the optional literal text [w], taken if it is there. *)
Definition optionalText (w : jsstring) (x : mstate) : list mstate := consumeText w x ++ [x].

(** The state after the text [w] if it is there, the state itself if not. *)
Definition takeIfThere (w : jsstring) (x : mstate) : mstate :=
  if startsWith (after x) w then advance w x else x.

(** A sequence of two terms. *)
Definition isSeq (r : regex) : Prop :=
  match r with RSeq _ _ => True | _ => False end.

(** The pattern of a boundary as [new RegExp] returns it. *)
Definition boundaryRegExp (boundary : jsstring) : regexp :=
  {| reAst := boundaryAst boundary; reGroups := 0; reFlags := noFlags |}.

(** ** The handler *)

(** A secret that is [undefined] or empty. *)
Definition notSet (secret : option jsstring) : Prop := secret = None \/ secret = Some [].

(** The requests of a run, in order. *)
Definition requests (events : list event) : list request :=
  flat_map (fun e => match e with Fetched r => [r] | Console _ => [] end) events.

(** A platform on which every request is answered with status 204. *)
Definition answering (errorMessage : error -> jsstring) : platform :=
  {| errorMessage := errorMessage;
     fetch := fun _ => FetchResolves {| status := 204; statusText := str "No Content";
                                        responseText := ReadOk [] |} |}.

(** A message without headers whose raw text is [text]. *)
Definition rawMessage (text : jsstring) : emailMessage :=
  {| headersGet := fun _ => None; rawText := ReadOk text |}.

(** An environment with both secrets. *)
Definition someEnv : Env :=
  {| DISCORD_BOT_TOKEN := Some (str "token"); DISCORD_CHANNEL_ID := Some (str "42") |}.

(** ** The first result of a sequence of terms *)

(** [leads fl ts x z]: matched one after the other from [x], the terms
    [ts] end first in [z]; the first result of each term is the state the
    next term starts from. *)
Fixpoint leads (fl : flags) (ts : list regex) (x z : mstate) : Prop :=
  match ts with
  | [] => z = x
  | t :: ts' => exists y l, rmatch fl t true x = y :: l /\ leads fl ts' y z
  end.

(** The text does not start with a unit that [p] accepts. *)
Definition stopsAt (p : N -> bool) (a : jsstring) : Prop :=
  match a with
  | [] => True
  | c :: _ => p c = false
  end.

(** ** The header lines of a part, described without regular expressions *)

(** The two units that [[^\r\n]] leaves out. *)
Definition isCRorLF (c : N) : bool := (c =? 13)%N || (c =? 10)%N.

(** A text of ASCII units, and its lower-case form: the letters [A] to
    [Z] become [a] to [z]. *)
Definition asciiText (w : jsstring) : Prop := Forall (fun c => (c < 128)%N) w.
Definition asciiLower (c : N) : N := if inRange 65 90 c then (c + 32)%N else c.

(** The terms of [reTransferEncoding]. *)
Definition transferEncodingTerms : list regex :=
  map single (str "Content-Transfer-Encoding:")
  ++ [star false [CSpace false]; RGroup 1 (plus true [CRange 13 13; CRange 10 10])].

(** The optional [charset] parameter of [rePartContentType]. *)
Definition charsetParameter : regex :=
  let ts := [single 59; star false [CSpace false]] ++ map single (str "charset=")
            ++ [opt 34; RGroup 2 (plus true valueClass); opt 34] in
  RQuant (fold_left RSeq (tl ts) (hd REmpty ts)) 0 (Some 1%N) true.

(** The terms of [rePartContentType]. *)
Definition contentTypeTerms : list regex :=
  map single (str "Content-Type:")
  ++ [star false [CSpace false]; RGroup 1 (plus true [CRange 59 59]); charsetParameter].

(** A message without headers whose raw text cannot be read: the read
    rejects with [v]. *)
Definition unreadableMessage (v : thrown) : emailMessage :=
  {| headersGet := fun _ => None; rawText := ReadFails v |}.

(** The read of the raw text succeeds, or it rejects with a value whose
    [message] can be read. *)
Definition readable (message : emailMessage) : Prop :=
  match rawText message with
  | ReadOk _ => True
  | ReadFails (WithMessage _) => True
  | ReadFails _ => False
  end.

(** ** The objects of a call *)

(** The object with [lastIndex] set to [n]. *)
Definition moved (R : Objects.regexpObject) (n : nat) : Objects.regexpObject :=
  {| Objects.matcher := Objects.matcher R; Objects.global := Objects.global R;
     Objects.sticky := Objects.sticky R; Objects.lastIndex := n |}.

(** A world whose newest object is [R]. *)
Definition newest (k : console) (h : list Objects.regexpObject) (R : Objects.regexpObject)
  : Objects.world :=
  {| Objects.written := k; Objects.heap := h ++ [R] |}.

(** [m] does what [j] does and makes new objects: it completes as [j]
    from the same console, writes the same lines, and leaves the objects
    that were there as they were. *)
Definition refines {A} (m : Objects.Run A) (j : JS A) : Prop :=
  forall w, exists news,
    m w = (fst (j (Objects.written w)),
           {| Objects.written := snd (j (Objects.written w));
              Objects.heap := Objects.heap w ++ news |}).

(** A world with an object left behind by an earlier use, its
    [lastIndex] in the middle of a text. *)
Definition usedWorld : Objects.world :=
  {| Objects.written := [Base64DecodingFailed];
     Objects.heap := [{| Objects.matcher := reHexEscape; Objects.global := true;
                         Objects.sticky := false; Objects.lastIndex := 7 |}] |}.

(* ================================================================== *)
(** * Properties *)

(** ** Strings *)

Section StringFacts.

Lemma dropWhile_fix (p : N -> bool) (s : jsstring) :
  match s with [] => True | c :: _ => p c = false end ->
  dropWhile p s = s.
Proof.
  destruct s as [|c t]; simpl; intros H; [reflexivity | now rewrite H].
Qed.

Lemma dropWhile_head (p : N -> bool) (s : jsstring) :
  match dropWhile p s with [] => True | c :: _ => p c = false end.
Proof.
  induction s as [|c t IH]; simpl; [exact I |].
  destruct (p c) eqn:E; [exact IH | exact E].
Qed.

Lemma dropWhile_suffix (p : N -> bool) (s : jsstring) :
  exists w, s = w ++ dropWhile p s.
Proof.
  induction s as [|c t [w IH]]; simpl.
  - now exists [].
  - destruct (p c).
    + exists (c :: w). simpl. now f_equal.
    + now exists [].
Qed.

Lemma trimEnd_fix (s : jsstring) :
  match rev s with [] => True | c :: _ => isWhiteSpace c = false end ->
  trimEnd s = s.
Proof.
  intros H. unfold trimEnd. rewrite dropWhile_fix by exact H. apply rev_involutive.
Qed.

Lemma trimEnd_last (s : jsstring) :
  match rev (trimEnd s) with [] => True | c :: _ => isWhiteSpace c = false end.
Proof.
  unfold trimEnd. rewrite rev_involutive. apply dropWhile_head.
Qed.

Lemma trimEnd_prefix (s : jsstring) : exists w, s = trimEnd s ++ w.
Proof.
  unfold trimEnd. destruct (dropWhile_suffix isWhiteSpace (rev s)) as [w Hw].
  exists (rev w). rewrite <- rev_app_distr, <- Hw. symmetry. apply rev_involutive.
Qed.

(** What [trim] returns has no white space at either end, so trimming it
    again changes nothing. *)
Lemma trim_idempotent (s : jsstring) : trim (trim s) = trim s.
Proof.
  unfold trim.
  assert (Hs : trimStart (trimEnd (trimStart s)) = trimEnd (trimStart s)).
  { apply dropWhile_fix.
    destruct (trimEnd_prefix (trimStart s)) as [w Hw].
    pose proof (dropWhile_head isWhiteSpace s) as Hh. fold (trimStart s) in Hh.
    destruct (trimEnd (trimStart s)) as [|c t]; [exact I |].
    rewrite Hw in Hh. exact Hh. }
  rewrite Hs. apply trimEnd_fix, trimEnd_last.
Qed.

Lemma trim_nil : trim [] = [].
Proof. reflexivity. Qed.

Lemma startsWith_app (p t : jsstring) : startsWith (p ++ t) p = true.
Proof.
  induction p as [|c p IH]; simpl; [reflexivity |].
  now rewrite N.eqb_refl.
Qed.

Lemma startsWith_split (s p : jsstring) :
  startsWith s p = true -> exists t, s = p ++ t.
Proof.
  revert s. induction p as [|c p IH]; intros s H.
  - now exists s.
  - destruct s as [|d s]; simpl in H; [discriminate |].
    apply andb_prop in H. destruct H as [Hc Hp].
    apply N.eqb_eq in Hc. subst d.
    destruct (IH _ Hp) as [t ->]. now exists t.
Qed.

(** [indexOf] answers -1 exactly when the text has no occurrence. *)
Lemma indexOf_None (s p : jsstring) :
  indexOf s p = None <-> ~ exists pre post, s = pre ++ p ++ post.
Proof.
  induction s as [|c s IH]; simpl.
  - destruct (startsWith [] p) eqn:E.
    + split; [discriminate |]. intros H. exfalso. apply H.
      destruct (startsWith_split _ _ E) as [t Ht]. now exists [], t.
    + split; [| reflexivity]. intros _ [pre [post H]].
      destruct pre; [| discriminate]. simpl in H.
      rewrite H, startsWith_app in E. discriminate.
  - destruct (startsWith (c :: s) p) eqn:E.
    + split; [discriminate |]. intros H. exfalso. apply H.
      destruct (startsWith_split _ _ E) as [t Ht]. now exists [], t.
    + destruct (indexOf s p) eqn:Ei; simpl.
      * split; [discriminate |]. intros H. exfalso.
        assert (Hs : ~ ~ exists pre post, s = pre ++ p ++ post).
        { intros Hn. apply IH in Hn. discriminate. }
        apply Hs. intros [pre [post Hpp]]. apply H.
        exists (c :: pre), post. simpl. now f_equal.
      * split; [| reflexivity]. intros _ [pre [post H]].
        destruct pre as [|d pre]; simpl in H.
        -- rewrite H, startsWith_app in E. discriminate.
        -- injection H as _ H. destruct IH as [IH _].
           apply (IH eq_refl). now exists pre, post.
Qed.

Lemma toLowerCase_ascii (w : jsstring) : asciiText w -> toLowerCase w = map asciiLower w.
Proof.
  induction 1 as [|c w Hc _ IH]; [reflexivity |].
  change (toLowerCase (c :: w)) with (lowerUnit c ++ toLowerCase w).
  rewrite IH. cbn [map]. unfold lowerUnit, asciiLower.
  destruct (inRange 65 90 c); [reflexivity |].
  destruct (N.eqb_spec c 0x130); [lia |].
  destruct (N.eqb_spec c 0x212A); [lia | reflexivity].
Qed.

End StringFacts.

(** ** The console *)

Section ConsoleFacts.

Lemma writes_ret {A} (a : A) : writes (ret a).
Proof. intros k. unfold ret. simpl. now rewrite app_nil_r. Qed.

Lemma writes_throw {A} (e : error) : writes (@throw A e).
Proof. intros k. unfold throw. simpl. now rewrite app_nil_r. Qed.

Lemma writes_unmodelled {A} : writes (fun k => (@Unmodelled A, k)).
Proof. intros k. simpl. now rewrite app_nil_r. Qed.

Lemma writes_warn (d : diagnostic) : writes (warn d).
Proof. intros k. reflexivity. Qed.

Lemma writes_bind {A B} (m : JS A) (f : A -> JS B) :
  writes m -> (forall a, writes (f a)) -> writes (bind m f).
Proof.
  intros Hm Hf k. unfold bind. rewrite (Hm k).
  destruct (m []) as [[a | e |] k1]; simpl.
  - rewrite (Hf a (k ++ k1)), (Hf a k1). simpl. now rewrite app_assoc.
  - reflexivity.
  - reflexivity.
Qed.

Lemma bind_ret {A B} (a : A) (f : A -> JS B) : bind (ret a) f = f a.
Proof. reflexivity. Qed.

Lemma writes_result {A} (m : JS A) (k : console) :
  writes m -> fst (m k) = result m.
Proof. intros H. rewrite (H k). reflexivity. Qed.

Lemma result_bind {A B} (m : JS A) (f : A -> JS B) (a : A) :
  writes m -> (forall x, writes (f x)) ->
  result m = Normal a -> result (bind m f) = result (f a).
Proof.
  intros Hm Hf Ha. unfold result, bind in *.
  destruct (m []) as [c k1]. simpl in Ha. subst c.
  now rewrite (Hf a k1).
Qed.

End ConsoleFacts.

(** ** The matcher and the captures

    A matcher never changes the number of captures, and changes only
    the captures of the groups written inside its pattern. *)

Section CaptureFacts.

Lemma keeps_refl gs x : keeps gs x x.
Proof. split; [reflexivity | intros; reflexivity]. Qed.

Lemma keeps_trans gs x y z : keeps gs x y -> keeps gs y z -> keeps gs x z.
Proof.
  intros [L1 C1] [L2 C2]. split; [congruence |].
  intros i Hi. rewrite (C2 i Hi). apply (C1 i Hi).
Qed.

Lemma keeps_incl gs gs' x y : incl gs gs' -> keeps gs x y -> keeps gs' x y.
Proof.
  intros Hincl [L C]. split; [exact L |].
  intros i Hi. apply C. intros Hin. apply Hi, Hincl, Hin.
Qed.

Lemma setNth_length {A} (n : nat) (v : A) (l : list A) :
  List.length (setNth n v l) = List.length l.
Proof.
  revert n. induction l as [|h t IH]; intros [|n]; simpl; auto.
Qed.

Lemma nth_setNth_other {A} (n m : nat) (v d : A) (l : list A) :
  n <> m -> nth n (setNth m v l) d = nth n l d.
Proof.
  revert n m. induction l as [|h t IH]; intros [|n] [|m] H; simpl; auto.
  - contradiction.
Qed.

Lemma nth_setNth_same {A} (n : nat) (v d : A) (l : list A) :
  n < List.length l -> nth n (setNth n v l) d = v.
Proof.
  revert n. induction l as [|h t IH]; intros [|n] H; simpl in *; try lia; auto.
  apply IH. lia.
Qed.

Lemma keeps_setCap gs i v x : In i gs -> keeps gs x (setCap i v x).
Proof.
  intros Hi. destruct i as [|k]; [apply keeps_refl |].
  split; simpl.
  - apply setNth_length.
  - intros [|j] Hj; simpl; [reflexivity |].
    apply nth_setNth_other. intros ->. contradiction.
Qed.

Lemma keeps_clearCaps gs gs' x : incl gs gs' -> keeps gs' x (clearCaps gs x).
Proof.
  unfold clearCaps. revert x.
  induction gs as [|g gs IH]; intros x Hincl; simpl.
  - apply keeps_refl.
  - eapply keeps_trans.
    + apply (keeps_setCap gs' g None x). apply Hincl. now left.
    + apply IH. intros i Hi. apply Hincl. now right.
Qed.

Lemma step_caps fwd x c y : step fwd x = Some (c, y) -> caps y = caps x.
Proof.
  unfold step, stepFwd, stepBwd.
  destruct fwd; [destruct (after x) | destruct (before x)]; intros H;
    try discriminate; injection H as _ <-; reflexivity.
Qed.

Lemma keeps_same_caps gs x y : caps y = caps x -> keeps gs x y.
Proof.
  intros H. split; [now rewrite H |].
  intros [|i] _; simpl; [reflexivity | now rewrite H].
Qed.

Lemma consume_caps fl fwd s x y : In y (consume fl fwd s x) -> caps y = caps x.
Proof.
  revert x. induction s as [|c s IH]; intros x H; simpl in H.
  - destruct H as [<- | []]. reflexivity.
  - destruct (step fwd x) as [[d x']|] eqn:E; [| contradiction].
    destruct (canonicalize fl c =? canonicalize fl d)%N; [| contradiction].
    rewrite (IH _ H). eapply step_caps, E.
Qed.

Lemma guard_In b x y : In y (guard b x) -> y = x.
Proof. destruct b; simpl; [intros [H | []]; now symmetry | intros []]. Qed.

Lemma repeatMatcher_keeps (m : mstate -> list mstate) gs :
  (forall x y, In y (m x) -> keeps gs x y) ->
  forall fuel min max greedy x y,
    In y (repeatMatcher fuel m gs min max greedy x) -> keeps gs x y.
Proof.
  intros Hm. induction fuel as [|fuel IH]; intros min max greedy x y H; simpl in H.
  - contradiction.
  - assert (Hagain :
      In y (flat_map (fun y0 =>
              if (min =? 0)%N && (pos y0 =? pos x) then []
              else repeatMatcher fuel m gs (decN min) (decMax max) greedy y0)
            (m (clearCaps gs x))) -> keeps gs x y).
    { intros Hin. apply in_flat_map in Hin. destruct Hin as [y0 [H0 H1]].
      destruct ((min =? 0)%N && (pos y0 =? pos x)); [contradiction |].
      eapply keeps_trans; [apply keeps_clearCaps, incl_refl |].
      eapply keeps_trans; [apply Hm, H0 | eapply IH, H1]. }
    assert (Hx : In y [x] -> keeps gs x y).
    { intros [<- | []]. apply keeps_refl. }
    destruct max as [[|mx]|].
    + apply Hx, H.
    + destruct (negb (min =? 0)%N); [now apply Hagain |].
      destruct greedy.
      * apply in_app_or in H. destruct H; auto.
      * destruct H as [<- | H]; [apply keeps_refl | auto].
    + destruct (negb (min =? 0)%N); [now apply Hagain |].
      destruct greedy.
      * apply in_app_or in H. destruct H; auto.
      * destruct H as [<- | H]; [apply keeps_refl | auto].
Qed.

Lemma rmatch_keeps fl r :
  forall fwd x y, In y (rmatch fl r fwd x) -> keeps (groupsIn r) x y.
Proof.
  induction r as [ | inv items | | a IHa b IHb | a IHa b IHb | r IH min max greedy
                   | i r IH | ahead neg r IH | i | nm | | | neg ];
    intros fwd x y H; cbn [rmatch] in H.
  - destruct H as [<- | []]. apply keeps_refl.
  - destruct (step fwd x) as [[c x']|] eqn:E; [| contradiction].
    apply guard_In in H. subst y. apply keeps_same_caps. eapply step_caps, E.
  - destruct (step fwd x) as [[c x']|] eqn:E; [| contradiction].
    apply guard_In in H. subst y. apply keeps_same_caps. eapply step_caps, E.
  - simpl. destruct fwd; apply in_flat_map in H; destruct H as [z [H1 H2]].
    + eapply keeps_trans;
        [eapply keeps_incl; [| apply (IHa _ _ _ H1)] | eapply keeps_incl; [| apply (IHb _ _ _ H2)]].
      * apply incl_appl, incl_refl.
      * apply incl_appr, incl_refl.
    + eapply keeps_trans;
        [eapply keeps_incl; [| apply (IHb _ _ _ H1)] | eapply keeps_incl; [| apply (IHa _ _ _ H2)]].
      * apply incl_appr, incl_refl.
      * apply incl_appl, incl_refl.
  - simpl. apply in_app_or in H. destruct H as [H | H].
    + eapply keeps_incl; [| apply (IHa _ _ _ H)]. apply incl_appl, incl_refl.
    + eapply keeps_incl; [| apply (IHb _ _ _ H)]. apply incl_appr, incl_refl.
  - simpl. eapply repeatMatcher_keeps; [| exact H]. intros x0 y0. apply IH.
  - simpl. apply in_map_iff in H. destruct H as [z [<- Hz]].
    eapply keeps_trans.
    + eapply keeps_incl; [| apply (IH _ _ _ Hz)]. apply incl_tl, incl_refl.
    + apply keeps_setCap. now left.
  - simpl. destruct (rmatch fl r ahead x) as [|z l] eqn:E.
    + apply guard_In in H. subst y. apply keeps_refl.
    + apply guard_In in H. subst y.
      assert (Hz : keeps (groupsIn r) x z) by (apply (IH ahead), eq_ind_r with (x := z :: l); [now left | exact E]).
      destruct Hz as [L C]. split; [exact L | exact C].
  - destruct (getCap i x) as [[s e]|].
    + apply keeps_same_caps. eapply consume_caps, H.
    + destruct H as [<- | []]. apply keeps_refl.
  - contradiction.
  - apply guard_In in H. subst y. apply keeps_refl.
  - apply guard_In in H. subst y. apply keeps_refl.
  - apply guard_In in H. subst y. apply keeps_refl.
Qed.

(** A group that ends the pattern, or is followed only by terms without
    that group, is defined in every match. *)
Lemma group_last_defined fl pre i body x y :
  0 < i <= List.length (caps x) ->
  In y (rmatch fl (RSeq pre (RGroup i body)) true x) ->
  getCap i y <> None.
Proof.
  intros [Hi Hlen] H. simpl in H.
  apply in_flat_map in H. destruct H as [z [Hz H]].
  apply in_map_iff in H. destruct H as [w [<- Hw]].
  destruct i as [|k]; [lia |]. simpl.
  rewrite nth_setNth_same; [discriminate |].
  destruct (rmatch_keeps _ _ _ _ _ Hz) as [L1 _].
  destruct (rmatch_keeps _ _ _ _ _ Hw) as [L2 _].
  lia.
Qed.

Lemma group_then_defined fl pre i body post x y :
  0 < i <= List.length (caps x) -> ~ In i (groupsIn post) ->
  In y (rmatch fl (RSeq (RSeq pre (RGroup i body)) post) true x) ->
  getCap i y <> None.
Proof.
  intros Hi Hpost H.
  change (In y (flat_map (rmatch fl post true)
                         (rmatch fl (RSeq pre (RGroup i body)) true x))) in H.
  apply in_flat_map in H. destruct H as [z [Hz H]].
  destruct (rmatch_keeps _ _ _ _ _ H) as [_ C].
  rewrite (C i Hpost). eapply group_last_defined; eassumption.
Qed.

Lemma searchFrom_matchAt re p b a r :
  searchFrom re p b a = Some r -> exists p' b' a', matchAt re p' b' a' = Some r.
Proof.
  revert p b. induction a as [|c a IH]; intros p b H; simpl in H.
  - destruct (matchAt re p b []) eqn:E; [| discriminate].
    injection H as <-. eauto.
  - destruct (matchAt re p b (c :: a)) eqn:E.
    + injection H as <-. eauto.
    + eapply IH, H.
Qed.

Lemma nth_map_option {A B} (f : A -> B) (l : list (option A)) (k : nat) :
  nth k (map (option_map f) l) None = option_map f (nth k l None).
Proof.
  revert k. induction l as [|h t IH]; intros [|k]; simpl; auto.
Qed.

Lemma matchAt_capture re p b a r i :
  matchAt re p b a = Some r ->
  (forall y, In y (rmatch (reFlags re) (reAst re) true (initState re p b a)) ->
             getCap i y <> None) ->
  capture i r <> None.
Proof.
  unfold matchAt. intros H Hall.
  destruct (rmatch (reFlags re) (reAst re) true (initState re p b a)) as [|y l] eqn:E;
    [discriminate |].
  injection H as <-. specialize (Hall y (or_introl eq_refl)).
  destruct i as [|k]; [now simpl in Hall |].
  simpl in *. intros Hn. apply Hall.
  rewrite nth_map_option in Hn.
  destruct (nth k (caps y) None); [discriminate | reflexivity].
Qed.

End CaptureFacts.

(** ** The program *)

Section ProgramFacts.

Lemma exec_capture re s m i :
  exec re s = Some m ->
  (forall p b a y, In y (rmatch (reFlags re) (reAst re) true (initState re p b a)) ->
                   getCap i y <> None) ->
  capture i m <> None.
Proof.
  intros H Hall. apply searchFrom_matchAt in H. destruct H as [p [b [a H]]].
  eapply matchAt_capture; [exact H | apply Hall].
Qed.

Lemma reTransferEncoding_capture s m :
  exec reTransferEncoding s = Some m -> capture 1 m <> None.
Proof.
  intros H. eapply exec_capture; [exact H |].
  intros p b a y. apply group_last_defined. simpl. lia.
Qed.

Lemma rePartContentType_capture s m :
  exec rePartContentType s = Some m -> capture 1 m <> None.
Proof.
  intros H. eapply exec_capture; [exact H |].
  intros p b a y. apply group_then_defined.
  - simpl. lia.
  - simpl. intros [E | []]. discriminate.
Qed.

Lemma reMultipart_capture s m :
  exec reMultipart s = Some m -> capture 1 m <> None.
Proof.
  intros H. eapply exec_capture; [exact H |].
  intros p b a y. apply group_then_defined.
  - simpl. lia.
  - simpl. intros [].
Qed.

(** Reading a header never throws: group 1 of both patterns takes part
    in every match. *)
Lemma transferEncodingOf_returns h : exists te, transferEncodingOf h = ret te.
Proof.
  unfold transferEncodingOf. destruct (exec reTransferEncoding h) as [m|] eqn:E.
  - apply reTransferEncoding_capture in E. unfold lowerCapture1.
    destruct (capture 1 m) as [s|]; [eauto | contradiction].
  - eauto.
Qed.

Lemma contentTypeOf_returns h : exists ct, contentTypeOf h = ret ct.
Proof.
  unfold contentTypeOf. destruct (exec rePartContentType h) as [m|] eqn:E.
  - apply rePartContentType_capture in E. unfold lowerCapture1.
    destruct (capture 1 m) as [s|]; [eauto | contradiction].
  - eauto.
Qed.

Lemma transferEncodingOf_value h : transferEncodingOf h = ret (value (transferEncodingOf h)).
Proof. destruct (transferEncodingOf_returns h) as [te E]. now rewrite E. Qed.

Lemma contentTypeOf_value h : contentTypeOf h = ret (value (contentTypeOf h)).
Proof. destruct (contentTypeOf_returns h) as [ct E]. now rewrite E. Qed.

(** [decodeContent] returns on every input, having written at most one
    diagnostic. *)
Lemma decodeContent_cases text enc :
  (exists d, decodeContent text enc = ret d) \/
  decodeContent text enc = (_ <- warn Base64DecodingFailed ;; ret text).
Proof.
  unfold decodeContent.
  destruct (negb (truthy text)); [left; eauto |].
  destruct (JSString.eqb _ (str "base64")).
  - destruct (Base64.atob _); [left; eauto | now right].
  - destruct (JSString.eqb _ (str "quoted-printable")); left; eauto.
Qed.

Lemma decodeContent_writes text enc : writes (decodeContent text enc).
Proof.
  destruct (decodeContent_cases text enc) as [[d E] | E]; rewrite E.
  - apply writes_ret.
  - apply writes_bind; [apply writes_warn | intros; apply writes_ret].
Qed.

Lemma decodeContent_returns text enc k :
  exists d k', decodeContent text enc k = (Normal d, k').
Proof.
  destruct (decodeContent_cases text enc) as [[d E] | E]; rewrite E.
  - now exists d, k.
  - now exists text, (k ++ [Base64DecodingFailed]).
Qed.

Lemma decodeContent_value text enc k :
  fst (decodeContent text (Some enc) k) = Normal (decoded text enc).
Proof.
  rewrite (writes_result k (decodeContent_writes text (Some enc))).
  unfold decoded, value.
  destruct (decodeContent_returns text (Some enc) []) as [d [k' E]].
  unfold result. now rewrite E.
Qed.

(** One turn of the loop, by the kind of the part. *)
Lemma scanParts_cons part rest p h :
  scanParts (Some part :: rest) p h =
  match kindOf part with
  | Skipped => scanParts rest p h
  | PlainPart body te => d <- decodeContent body (Some te) ;; ret (d, h)
  | HtmlPart body te => d <- decodeContent body (Some te) ;; scanParts rest p d
  end.
Proof.
  unfold kindOf. cbn [scanParts].
  destruct (negb (truthy (trim part))); [reflexivity |].
  destruct (indexOf part CRLFCRLF) as [e|]; [| reflexivity].
  cbv zeta.
  destruct (contentTypeOf_returns (substring part 0 e)) as [ct Ect].
  destruct (transferEncodingOf_returns (substring part 0 e)) as [te Ete].
  rewrite Ect, Ete.
  change (value (ret ct)) with ct. change (value (ret te)) with te.
  rewrite bind_ret. cbv beta. rewrite bind_ret. cbv beta.
  destruct (includes _ (str "text/plain")); [reflexivity |].
  destruct (includes _ (str "text/html")); reflexivity.
Qed.

Lemma scanParts_writes parts : forall p h, writes (scanParts parts p h).
Proof.
  induction parts as [|[part|] rest IH]; intros p h.
  - apply writes_ret.
  - rewrite scanParts_cons. destruct (kindOf part).
    + apply IH.
    + apply writes_bind; [apply decodeContent_writes | intros; apply writes_ret].
    + apply writes_bind; [apply decodeContent_writes | intros; apply IH].
  - apply writes_throw.
Qed.

Lemma newRegExp_writes pattern : writes (newRegExp pattern).
Proof.
  unfold newRegExp. destruct (compile pattern noFlags).
  - apply writes_ret.
  - apply writes_throw.
  - apply writes_unmodelled.
Qed.

Lemma transferEncodingOf_writes h : writes (transferEncodingOf h).
Proof. rewrite transferEncodingOf_value. apply writes_ret. Qed.

Lemma extractEmailBody_writes raw : writes (extractEmailBody raw).
Proof.
  unfold extractEmailBody.
  destruct (indexOf raw CRLFCRLF) as [i|]; [| apply writes_ret].
  cbv zeta. apply writes_bind.
  - destruct (branchOf _ _).
    + apply writes_bind; [apply newRegExp_writes | intros; apply scanParts_writes].
    + apply writes_bind; [apply transferEncodingOf_writes |].
      intros te. apply writes_bind; [apply decodeContent_writes | intros; apply writes_ret].
  - intros [p h]. apply writes_ret.
Qed.

Lemma resolveBody_trimmed p h : trim (resolveBody p h) = resolveBody p h.
Proof.
  unfold resolveBody.
  destruct (truthy (trim p)); [apply trim_idempotent |].
  destruct (truthy (trim h)); [apply trim_idempotent | reflexivity].
Qed.

(** Every value [extractEmailBody] returns is a trimmed text. *)
Lemma extractEmailBody_shape raw k s :
  fst (extractEmailBody raw k) = Normal s -> exists t, s = trim t.
Proof.
  unfold extractEmailBody.
  destruct (indexOf raw CRLFCRLF) as [i|]; [| intros H; injection H as <-; eauto].
  cbv zeta. unfold bind at 1.
  match goal with |- context [match ?m k with _ => _ end] => destruct (m k) as [[[p h] | e |] k'] end;
    simpl; intros H; try discriminate.
  injection H as <-. exists (resolveBody p h). symmetry. apply resolveBody_trimmed.
Qed.

End ProgramFacts.


(** ** [replace] with the patterns of [decodeContent] *)

Unset Implicit Arguments.

Section ReplaceFacts.

Lemma replaceGo_skip re s f : forall k a p b,
  k <= List.length a ->
  replaceGo re s f p b a k = replaceGo re s f (p + k) (rev (firstn k a) ++ b) (skipn k a) 0.
Proof.
  induction k as [|k IH]; intros a p b Hk.
  - simpl. now rewrite Nat.add_0_r.
  - destruct a as [|c a]; simpl in Hk; [lia |].
    cbn [replaceGo firstn skipn rev]. rewrite IH by lia.
    rewrite <- app_assoc. simpl. now rewrite Nat.add_succ_r.
Qed.

Lemma rev_append_app {A} (b a : list A) : rev_append b a = rev b ++ a.
Proof. apply rev_append_rev. Qed.

Lemma substring_middle (u v w : jsstring) n :
  List.length u = n -> substring (u ++ v ++ w) n (n + List.length v) = v.
Proof.
  intros <-. unfold substring.
  rewrite skipn_app, skipn_all, Nat.sub_diag. simpl.
  replace (List.length u + List.length v - List.length u) with (List.length v) by lia.
  rewrite firstn_app, firstn_all, Nat.sub_diag. simpl. apply app_nil_r.
Qed.


Lemma inRange_same v c : inRange v v c = (c =? v)%N.
Proof.
  unfold inRange.
  destruct (N.eqb_spec c v) as [-> | Hn].
  - now rewrite N.leb_refl.
  - destruct (N.leb_spec v c), (N.leb_spec c v); try reflexivity. lia.
Qed.

Lemma charOk_single v c : charOk noFlags false [CRange v v] c = (c =? v)%N.
Proof.
  unfold charOk, canonicalize, setHas. cbn [ignoreCase noFlags andb existsb itemHas xorb orb].
  rewrite inRange_same. now destruct (c =? v)%N.
Qed.

Lemma rmatch_char_cons fl inv items p b c a cs :
  rmatch fl (RChar inv items) true (st p b (c :: a) cs) =
  if charOk fl inv items c then [st (S p) (c :: b) a cs] else [].
Proof. cbn [rmatch step stepFwd after st]. now destruct (charOk fl inv items c). Qed.

Lemma rmatch_char_nil fl inv items p b cs :
  rmatch fl (RChar inv items) true (st p b [] cs) = [].
Proof. reflexivity. Qed.

Lemma rmatch_seq_fwd fl r1 r2 x :
  rmatch fl (RSeq r1 r2) true x = flat_map (rmatch fl r2 true) (rmatch fl r1 true x).
Proof. reflexivity. Qed.

Lemma matchAt_reSoftBreak p b c a :
  matchAt reSoftBreak p b (c :: a) =
  match a with
  | d :: e :: _ =>
      if (c =? 61)%N && (d =? 13)%N && (e =? 10)%N
      then Some {| mIndex := p; mEnd := S (S (S p)); mCaps := [] |}
      else None
  | _ => None
  end.
Proof.
  unfold matchAt, reSoftBreak, initState. cbn [reAst reFlags reGroups repeat].
  fold noFlags. fold (st p b (c :: a) []).
  rewrite !rmatch_seq_fwd, rmatch_char_cons, charOk_single.
  destruct (c =? 61)%N; cbn [flat_map app andb]; [| now destruct a as [|? [|? ?]]].
  destruct a as [|d a]; [reflexivity |].
  rewrite rmatch_char_cons, charOk_single.
  destruct (d =? 13)%N; cbn [flat_map app andb]; [| now destruct a].
  destruct a as [|e a]; [reflexivity |].
  rewrite rmatch_char_cons, charOk_single.
  now destruct (e =? 10)%N.
Qed.

Lemma removeSoftBreaks_refines s0 : forall n a p b,
  List.length a <= n ->
  replaceGo reSoftBreak s0 (fun _ _ => []) p b a 0 = removeSoftBreaks a.
Proof.
  induction n as [|n IH]; intros a p b Hn.
  - destruct a; [reflexivity | simpl in Hn; lia].
  - destruct a as [|c a]; [reflexivity |].
    cbn [replaceGo]. rewrite matchAt_reSoftBreak. simpl in Hn.
    destruct a as [|d [|e a]].
    + reflexivity.
    + cbn [removeSoftBreaks]. f_equal. apply IH. simpl in *. lia.
    + cbn [removeSoftBreaks].
      destruct ((c =? 61)%N && (d =? 13)%N && (e =? 10)%N).
      * cbn [mEnd app].
        replace (S (S (S p)) <=? p) with false by (symmetry; apply Nat.leb_gt; lia).
        replace (S (S (S p)) - p - 1) with 2 by lia.
        rewrite replaceGo_skip by (simpl; lia). cbn [skipn]. apply IH. simpl in *. lia.
      * f_equal. apply IH. simpl in *. lia.
Qed.

Lemma charOk_hex c :
  charOk noFlags false [CRange 48 57; CRange 65 70; CRange 97 102] c = isHexDigit c.
Proof.
  unfold charOk, canonicalize, setHas, isHexDigit, hexVal.
  cbn [ignoreCase noFlags andb existsb itemHas xorb orb].
  destruct (inRange 48 57 c), (inRange 65 70 c), (inRange 97 102 c); reflexivity.
Qed.


Lemma rmatch_quant fl r min max g fwd x :
  rmatch fl (RQuant r min max g) fwd x =
  repeatMatcher (S (N.to_nat min + (List.length (after x) + List.length (before x))))
                (rmatch fl r fwd) (groupsIn r) min max g x.
Proof. reflexivity. Qed.

Lemma rmatch_group fl i r x :
  rmatch fl (RGroup i r) true x =
  map (fun y => setCap i (Some (pos x, pos y)) y) (rmatch fl r true x).
Proof. reflexivity. Qed.

Lemma repeatMatcher_S f m gs min max g x :
  repeatMatcher (S f) m gs min max g x =
  match max with
  | Some 0%N => [x]
  | _ =>
      let again :=
        flat_map (fun y =>
                    if (min =? 0)%N && (pos y =? pos x) then []
                    else repeatMatcher f m gs (decN min) (decMax max) g y)
                 (m (clearCaps gs x)) in
      if negb (min =? 0)%N then again
      else if g then again ++ [x]
      else x :: again
  end.
Proof. reflexivity. Qed.

Lemma matchAt_reHexEscape p b c a :
  List.length b = p ->
  matchAt reHexEscape p b (c :: a) =
  match a with
  | h1 :: h2 :: _ =>
      if (c =? 61)%N && isHexDigit h1 && isHexDigit h2
      then Some {| mIndex := p; mEnd := S (S (S p)); mCaps := [Some [h1; h2]] |}
      else None
  | _ => None
  end.
Proof.
  intros Hb.
  unfold matchAt, reHexEscape, initState. cbn [reAst reFlags reGroups repeat].
  fold noFlags. fold (st p b (c :: a) [None]).
  rewrite !rmatch_seq_fwd, rmatch_char_cons, charOk_single.
  destruct (c =? 61)%N eqn:Ec; cbn [flat_map app andb]; [| now destruct a as [|? [|? ?]]].
  apply N.eqb_eq in Ec. subst c.
  rewrite rmatch_group, rmatch_quant.
  change (N.to_nat 2) with 2. cbn [Nat.add groupsIn].
  rewrite repeatMatcher_S.
  change (decN 2%N) with 1%N. change (decMax (Some 2%N)) with (Some 1%N).
  cbn [N.eqb negb andb clearCaps fold_left].
  destruct a as [|h1 a]; [reflexivity |].
  rewrite rmatch_char_cons, charOk_hex.
  destruct (isHexDigit h1); cbn [flat_map app andb map]; [| now destruct a].
  rewrite repeatMatcher_S.
  change (decN 1%N) with 0%N. change (decMax (Some 1%N)) with (Some 0%N).
  cbn [N.eqb negb andb clearCaps fold_left].
  destruct a as [|h2 a]; [reflexivity |].
  rewrite rmatch_char_cons, charOk_hex.
  destruct (isHexDigit h2); cbn [flat_map app andb map]; [| reflexivity].
  rewrite repeatMatcher_S.
  unfold toResult, st. cbn [pos caps setCap setNth map option_map fst snd input before after app].
  unfold input. cbn [before after]. rewrite rev_append_app. cbn [rev]. rewrite <- !app_assoc. cbn [app].
  do 3 f_equal.
  change (61%N :: h1 :: h2 :: a) with ([61%N] ++ [h1; h2] ++ a).
  rewrite app_assoc.
  replace (S (S (S p))) with (S p + List.length [h1; h2]) by (simpl; lia).
  f_equal. apply substring_middle. rewrite length_app, length_rev. simpl. lia.
Qed.

Lemma hexVal_bound c v : hexVal c = Some v -> (c < 103)%N.
Proof.
  unfold hexVal, inRange. intros H.
  destruct (N.leb_spec c 102); [lia |].
  repeat match type of H with
         | context [(?x <=? ?y)%N] => destruct (N.leb_spec x y); try lia
         end; simpl in H; discriminate.
Qed.

Lemma eqb_eq a b : JSString.eqb a b = true -> a = b.
Proof.
  revert b. induction a as [|x a IH]; intros [|y b] H; simpl in H; try discriminate; auto.
  apply andb_prop in H. destruct H as [Hx Hab]. apply N.eqb_eq in Hx. subst. f_equal. auto.
Qed.

Lemma hexReplacer_table :
  forallb (fun n1 => forallb (hexReplacerOk n1) (seq 0 103)) (seq 0 103) = true.
Proof. vm_compute. reflexivity. Qed.

Lemma hexReplacer_value m h1 h2 v1 v2 :
  hexVal h1 = Some v1 -> hexVal h2 = Some v2 ->
  hexReplacer m [Some [h1; h2]] = [(16 * v1 + v2)%N].
Proof.
  intros H1 H2.
  pose proof (@hexVal_bound _ _ H1) as B1. pose proof (@hexVal_bound _ _ H2) as B2.
  pose proof hexReplacer_table as T.
  rewrite forallb_forall in T.
  specialize (T (N.to_nat h1)). rewrite in_seq in T.
  assert (T1 := T ltac:(lia)). clear T.
  rewrite forallb_forall in T1.
  specialize (T1 (N.to_nat h2)). rewrite in_seq in T1.
  assert (T2 := T1 ltac:(lia)). clear T1.
  unfold hexReplacerOk in T2. rewrite !N2Nat.id, H1, H2 in T2.
  apply eqb_eq in T2. exact T2.
Qed.

Lemma decodeHexEscapes_cons3 c h1 h2 t :
  decodeHexEscapes (c :: h1 :: h2 :: t) =
  match (if (c =? 61)%N then hexVal h1 else None), hexVal h2 with
  | Some v1, Some v2 => (16 * v1 + v2)%N :: decodeHexEscapes t
  | _, _ => c :: decodeHexEscapes (h1 :: h2 :: t)
  end.
Proof. reflexivity. Qed.

Lemma decodeHexEscapes_refines s0 : forall n a p b,
  List.length a <= n -> List.length b = p ->
  replaceGo reHexEscape s0 hexReplacer p b a 0 = decodeHexEscapes a.
Proof.
  induction n as [|n IH]; intros a p b Hn Hb.
  - destruct a; [reflexivity | simpl in Hn; lia].
  - destruct a as [|c a]; [reflexivity |].
    cbn [replaceGo]. rewrite matchAt_reHexEscape by exact Hb.
    destruct a as [|h1 [|h2 a]].
    + reflexivity.
    + change (decodeHexEscapes [c; h1]) with (c :: decodeHexEscapes [h1]).
      f_equal. apply IH; simpl in *; lia.
    + rewrite decodeHexEscapes_cons3. unfold isHexDigit.
      destruct (c =? 61)%N; cbn [andb].
      * destruct (hexVal h1) as [v1|] eqn:E1; cbn [andb].
        -- destruct (hexVal h2) as [v2|] eqn:E2.
           ++ cbn [mEnd mCaps].
              rewrite (@hexReplacer_value _ _ _ _ _ E1 E2). cbn [app]. f_equal.
              replace (S (S (S p)) <=? p) with false by (symmetry; apply Nat.leb_gt; lia).
              replace (S (S (S p)) - p - 1) with 2 by lia.
              rewrite replaceGo_skip by (simpl; lia). cbn [skipn].
              apply IH; simpl in *; try lia.
           ++ f_equal. apply IH; simpl in *; lia.
        -- f_equal. apply IH; simpl in *; lia.
      * f_equal. apply IH; simpl in *; lia.
Qed.

Lemma charOk_space c : charOk noFlags false [CSpace false] c = isWhiteSpace c.
Proof.
  unfold charOk, canonicalize, setHas. cbn -[isWhiteSpace].
  now destruct (isWhiteSpace c).
Qed.

Lemma matchAt_reWhitespace p b c a :
  matchAt reWhitespace p b (c :: a) =
  if isWhiteSpace c then Some {| mIndex := p; mEnd := S p; mCaps := [] |} else None.
Proof.
  unfold matchAt, reWhitespace. cbn -[charOk isWhiteSpace].
  rewrite charOk_space. now destruct (isWhiteSpace c).
Qed.

Lemma matchAt_reWhitespace_nil p b : matchAt reWhitespace p b [] = None.
Proof. reflexivity. Qed.

Lemma strip_whitespace_filter s0 a : forall p b,
  replaceGo reWhitespace s0 (fun _ _ => []) p b a 0 = filter (fun c => negb (isWhiteSpace c)) a.
Proof.
  induction a as [|c a IH]; intros p b.
  - reflexivity.
  - cbn [replaceGo filter]. rewrite matchAt_reWhitespace.
    destruct (isWhiteSpace c); cbn [negb mEnd app].
    + replace (S p <=? p) with false by (symmetry; apply Nat.leb_gt; lia).
      replace (S p - p - 1) with 0 by lia. apply IH.
    + f_equal. apply IH.
Qed.

Lemma span_fst_snd (p : N -> bool) s : fst (span p s) ++ snd (span p s) = s.
Proof.
  induction s as [|c s IH]; [reflexivity |]. simpl.
  destruct (p c); [| reflexivity].
  destruct (span p s) as [u v]. simpl in *. now f_equal.
Qed.

Lemma star_greedy_first fl inv items cs : forall a fuel p b,
  List.length a < fuel ->
  exists l,
    repeatMatcher fuel (rmatch fl (RChar inv items) true) [] 0 None true (st p b a cs)
    = st (p + List.length (fst (span (charOk fl inv items) a)))
         (rev (fst (span (charOk fl inv items) a)) ++ b)
         (snd (span (charOk fl inv items) a)) cs :: l.
Proof.
  induction a as [|c a IH]; intros fuel p b Hf.
  - destruct fuel as [|f]; [lia |]. rewrite repeatMatcher_S.
    cbn [N.eqb negb clearCaps fold_left]. rewrite rmatch_char_nil.
    exists []. cbn. now rewrite Nat.add_0_r.
  - destruct fuel as [|f]; [simpl in Hf; lia |]. rewrite repeatMatcher_S.
    cbn [N.eqb negb clearCaps fold_left]. rewrite rmatch_char_cons.
    cbn [span].
    destruct (charOk fl inv items c) eqn:E.
    + cbn [flat_map andb]. unfold st at 1 2. cbn [pos].
      replace (S p =? p) with false by (symmetry; apply Nat.eqb_neq; lia).
      fold (st (S p) (c :: b) a cs).
      destruct (IH f (S p) (c :: b)) as [l Hl]; [simpl in Hf; lia |].
      change (decN 0) with 0%N. change (decMax None) with (@None N).
      rewrite Hl. destruct (span (charOk fl inv items) a) as [u v].
      cbn [fst snd List.length rev app].
      exists (l ++ [] ++ [st p b (c :: a) cs]).
      rewrite <- app_assoc. cbn [app]. f_equal.
      f_equal; [lia | now rewrite <- app_assoc].
    + exists []. cbn. now rewrite Nat.add_0_r.
Qed.

Lemma charOk_lit fl v c : ignoreCase fl = false -> charOk fl false [CRange v v] c = (c =? v)%N.
Proof.
  intros H. unfold charOk, canonicalize, setHas. rewrite H.
  cbn [andb existsb itemHas xorb orb].
  rewrite inRange_same. now destruct (c =? v)%N.
Qed.

Lemma charOk_not fl v c : ignoreCase fl = false -> charOk fl true [CRange v v] c = negb (c =? v)%N.
Proof.
  intros H. unfold charOk, canonicalize, setHas. rewrite H.
  cbn [andb existsb itemHas xorb orb].
  rewrite inRange_same. now destruct (c =? v)%N.
Qed.

Lemma span_snd_head (p : N -> bool) s :
  match snd (span p s) with d :: _ => p d = false | [] => True end.
Proof.
  induction s as [|c s IH]; [exact I |]. simpl.
  destruct (p c) eqn:E; [| exact E].
  now destruct (span p s).
Qed.

Lemma span_ext (p q : N -> bool) s : (forall c, p c = q c) -> span p s = span q s.
Proof.
  intros H. induction s as [|c s IH]; [reflexivity |]. simpl. now rewrite IH, H.
Qed.

Lemma tagRest_span a :
  tagRest a = List.length (fst (span (fun c => negb (c =? 62)%N) a))
              + match snd (span (fun c => negb (c =? 62)%N) a) with [] => 0 | _ :: _ => 1 end.
Proof.
  induction a as [|c a IH]; [reflexivity |]. simpl.
  destruct (c =? 62)%N; simpl; [reflexivity |].
  destruct (span (fun c => negb (c =? 62)%N) a) as [u v]. simpl in *. now rewrite IH.
Qed.

Lemma tagRest_le a : tagRest a <= List.length a.
Proof.
  induction a as [|c a IH]; simpl; [lia |]. destruct (c =? 62)%N; lia.
Qed.

Lemma stripTags_skip a : stripTags true a = stripTags false (skipn (tagRest a) a).
Proof.
  induction a as [|c a IH]; [reflexivity |]. simpl.
  destruct (c =? 62)%N; simpl; [reflexivity | exact IH].
Qed.

Lemma matchAt_reTag_nil p b : matchAt reTag p b [] = None.
Proof. reflexivity. Qed.

Lemma matchAt_reTag p b c a :
  matchAt reTag p b (c :: a) =
  if (c =? 60)%N then Some {| mIndex := p; mEnd := S p + tagRest a; mCaps := [] |} else None.
Proof.
  unfold matchAt, reTag, initState. cbn [reAst reFlags reGroups repeat].
  fold flagsM. fold (st p b (c :: a) []).
  rewrite !rmatch_seq_fwd, rmatch_char_cons, charOk_lit by reflexivity.
  destruct (c =? 60)%N; [| reflexivity].
  cbn [flat_map]. rewrite app_nil_r, rmatch_quant.
  destruct (star_greedy_first flagsM true [CRange 62 62] [] a
              (S (N.to_nat 0 + (List.length (after (st (S p) (c :: b) a []))
                                + List.length (before (st (S p) (c :: b) a [])))))
              (S p) (c :: b)) as [l Hl].
  { cbn. lia. }
  cbn [groupsIn]. rewrite Hl. clear Hl. cbn [flat_map].
  rewrite tagRest_span.
  pose proof (span_snd_head (charOk flagsM true [CRange 62 62]) a) as Hh.
  replace (span (fun c0 => negb (c0 =? 62)%N) a) with (span (charOk flagsM true [CRange 62 62]) a).
  2:{ apply span_ext. intros d. now rewrite charOk_not. }
  destruct (span (charOk flagsM true [CRange 62 62]) a) as [u v]. cbn [fst snd] in *.
  rewrite rmatch_quant, repeatMatcher_S. cbn [N.eqb negb clearCaps fold_left groupsIn].
  destruct v as [|d v].
  - rewrite rmatch_char_nil. cbn. unfold toResult. cbn. do 2 f_equal. lia.
  - rewrite rmatch_char_cons, charOk_lit by reflexivity.
    rewrite charOk_not in Hh by reflexivity.
    destruct (d =? 62)%N; [| discriminate].
    cbn [flat_map andb]. unfold st at 1 2. cbn [pos].
    replace (S (S p + List.length u) =? S p + List.length u) with false
      by (symmetry; apply Nat.eqb_neq; lia).
    cbn. unfold toResult. cbn. do 2 f_equal. lia.
Qed.

Lemma stripTags_refines s0 : forall n a p b,
  List.length a <= n ->
  replaceGo reTag s0 (fun _ _ => str " ") p b a 0 = stripTags false a.
Proof.
  induction n as [|n IH]; intros a p b Hn.
  - destruct a; [reflexivity | simpl in Hn; lia].
  - destruct a as [|c a]; [reflexivity |].
    cbn [replaceGo stripTags]. rewrite matchAt_reTag.
    destruct (c =? 60)%N.
    + cbn [mEnd]. change (str " ") with [32%N]. cbn [app]. f_equal.
      replace (S p + tagRest a <=? p) with false by (symmetry; apply Nat.leb_gt; lia).
      replace (S p + tagRest a - p - 1) with (tagRest a) by lia.
      pose proof (tagRest_le a) as Hle.
      rewrite replaceGo_skip by exact Hle.
      rewrite stripTags_skip. apply IH.
      rewrite length_skipn. simpl in Hn. lia.
    + f_equal. apply IH. simpl in Hn. lia.
Qed.

End ReplaceFacts.

(** ** The pattern of a boundary without syntax characters *)

Section ParserFacts.

Lemma plainUnit_of c : isSyntaxCharacter c = false -> plainUnit c.
Proof.
  intros H. unfold isSyntaxCharacter in H.
  change (str "^$\.*+?()[]{}|")
    with [N_of_ascii "^"; N_of_ascii "$"; N_of_ascii "\"; N_of_ascii "."; N_of_ascii "*";
          N_of_ascii "+"; N_of_ascii "?"; N_of_ascii "("; N_of_ascii ")"; N_of_ascii "[";
          N_of_ascii "]"; N_of_ascii "{"; N_of_ascii "}"; N_of_ascii "|"] in H.
  cbn [existsb] in H.
  repeat (apply orb_false_elim in H; let H1 := fresh "Hc" in destruct H as [H1 H]).
  constructor; assumption.
Qed.

Ltac plain_rewrite P :=
  rewrite ?(@pu_caret _ P), ?(@pu_dollar _ P), ?(@pu_backslash _ P), ?(@pu_dot _ P), ?(@pu_star _ P),
    ?(@pu_plus _ P), ?(@pu_question _ P), ?(@pu_open _ P), ?(@pu_close _ P), ?(@pu_bracket _ P),
    ?(@pu_brace _ P), ?(@pu_bar _ P).

Lemma plain_noQuantifierAhead c s : isSyntaxCharacter c = false -> noQuantifierAhead (c :: s).
Proof.
  intros H. apply plainUnit_of in H. destruct H. cbn. auto.
Qed.

Lemma prescan_literals b s : plainText b -> prescan (b ++ s) false = prescan s false.
Proof.
  induction 1 as [|c b Hc _ IH]; [reflexivity |].
  apply plainUnit_of in Hc.
  cbn [app prescan]. plain_rewrite Hc. exact IH.
Qed.

Lemma quantified_none r s : noQuantifierAhead s -> quantified r s = POk (r, s).
Proof.
  destruct s as [|d s]; [reflexivity |]. intros (H1 & H2 & H3 & H4).
  unfold quantified. now rewrite H1, H2, H3, H4.
Qed.

Lemma simpleTerm_literal ncap named c s :
  isSyntaxCharacter c = false -> noQuantifierAhead s ->
  simpleTerm ncap named (c :: s) = POk (single c, s).
Proof.
  intros Hc Hs. apply plainUnit_of in Hc. unfold simpleTerm.
  plain_rewrite Hc. cbn [orb]. now apply quantified_none.
Qed.

Lemma parseDisj_S ncap named f s n nms alts cur :
  parseDisj ncap named (S f) s n nms alts cur =
  match s with
  | [] => POk (mkAlt alts cur, s, n, nms)
  | c :: t =>
      if isC ")" c then POk (mkAlt alts cur, s, n, nms)
      else if isC "|" c then parseDisj ncap named f t n nms (alts ++ [cur]) REmpty
      else if isC "(" c then
        match groupHead t with
        | POk (kind, t1) =>
            let n1 := match kind with GCapture _ => S n | _ => n end in
            let nms1 := match kind with
                        | GCapture (Some nm) => nms ++ [(nm, S n)]
                        | _ => nms
                        end in
            match parseDisj ncap named f t1 n1 nms1 [] REmpty with
            | POk (inner, rest, n2, nms2) =>
                match rest with
                | _ :: rest' =>
                    let term :=
                      match kind with
                      | GCapture _ => quantified (RGroup (S n) inner) rest'
                      | GNonCapture => quantified inner rest'
                      | GLook true neg => quantified (RLook true neg inner) rest'
                      | GLook false neg => POk (RLook false neg inner, rest')
                      end in
                    match term with
                    | POk (r, rest'') => parseDisj ncap named f rest'' n2 nms2 alts (mkSeq cur r)
                    | PSyntaxError => PSyntaxError
                    | PUnmodelled => PUnmodelled
                    end
                | [] => PSyntaxError
                end
            | e => e
            end
        | PSyntaxError => PSyntaxError
        | PUnmodelled => PUnmodelled
        end
      else
        match simpleTerm ncap named s with
        | POk (r, rest) => parseDisj ncap named f rest n nms alts (mkSeq cur r)
        | PSyntaxError => PSyntaxError
        | PUnmodelled => PUnmodelled
        end
  end.
Proof. reflexivity. Qed.

Lemma parseDisj_literals ncap named b : forall f s n nms alts cur,
  plainText b -> noQuantifierAhead s ->
  parseDisj ncap named (List.length b + f) (b ++ s) n nms alts cur
  = parseDisj ncap named f s n nms alts (literals b cur).
Proof.
  induction b as [|c b IH]; intros f s n nms alts cur Hb Hs; [reflexivity |].
  inversion Hb as [|? ? Hc Hb']. subst.
  cbn [List.length Nat.add app]. rewrite parseDisj_S.
  pose proof (plainUnit_of c Hc) as P. plain_rewrite P.
  rewrite simpleTerm_literal; [| exact Hc |].
  - apply IH; assumption.
  - destruct b as [|d b]; [exact Hs |].
    inversion Hb'. now apply plain_noQuantifierAhead.
Qed.

Lemma resolve_noNamedRef nms r : noNamedRef r = true -> resolve nms r = Some r.
Proof.
  induction r; simpl; intros H; try reflexivity; try discriminate.
  - apply andb_prop in H. destruct H as [H1 H2]. now rewrite IHr1, IHr2.
  - apply andb_prop in H. destruct H as [H1 H2]. now rewrite IHr1, IHr2.
  - now rewrite IHr.
  - now rewrite IHr.
  - now rewrite IHr.
Qed.

Lemma noNamedRef_mkSeq a b : noNamedRef (mkSeq a b) = noNamedRef a && noNamedRef b.
Proof. destruct a; reflexivity. Qed.

Lemma noNamedRef_literals b : forall cur, noNamedRef (literals b cur) = noNamedRef cur.
Proof.
  unfold literals. induction b as [|c b IH]; intros cur; [reflexivity |].
  cbn [fold_left]. rewrite IH, noNamedRef_mkSeq. cbn. apply andb_true_r.
Qed.

Lemma prescan_boundaryPattern b : plainText b -> prescan (boundaryPattern b) false = (0, false).
Proof.
  intros H. unfold boundaryPattern.
  change (str "(?:\r\n)?--") with ([40; 63; 58; 92; 114; 92; 110; 41; 63; 45; 45]%N).
  cbn [app]. 
  change (prescan (40%N :: 63%N :: 58%N :: 92%N :: 114%N :: 92%N :: 110%N :: 41%N :: 63%N
                   :: 45%N :: 45%N :: b ++ str "(?:--)?(?:\r\n)?") false)
    with (let '(n, named) := prescan (b ++ str "(?:--)?(?:\r\n)?") false in (n, named)).
  rewrite (prescan_literals b _ H). reflexivity.
Qed.

Lemma parse_boundary_suffix cur :
  parseDisj 0 false 25 (str "(?:--)?(?:\r\n)?") 0 [] [] cur
  = POk (mkSeq (mkSeq cur (RQuant (RSeq (single 45) (single 45)) 0 (Some 1%N) true))
               (RQuant (RSeq (single 13) (single 10)) 0 (Some 1%N) true), [], 0, []).
Proof. reflexivity. Qed.

Lemma parse_crlf_group f rest n nms :
  parseDisj 0 false (S (S (S f))) (92%N :: 114%N :: 92%N :: 110%N :: 41%N :: rest) n nms [] REmpty
  = POk (RSeq (single 13) (single 10), 41%N :: rest, n, nms).
Proof. reflexivity. Qed.

Lemma parse_boundary_prefix f tail :
  noQuantifierAhead tail ->
  parseDisj 0 false (S (S (S (S f)))) (str "(?:\r\n)?--" ++ tail) 0 [] [] REmpty
  = parseDisj 0 false (S f) tail 0 [] []
      (RSeq (RSeq (RQuant (RSeq (single 13) (single 10)) 0 (Some 1%N) true) (single 45))
            (single 45)).
Proof.
  intros Hq.
  change (str "(?:\r\n)?--" ++ tail)
    with (40%N :: 63%N :: 58%N :: 92%N :: 114%N :: 92%N :: 110%N :: 41%N :: 63%N
          :: 45%N :: 45%N :: tail).
  rewrite parseDisj_S. cbn -[parseDisj].
  rewrite parse_crlf_group. cbn -[parseDisj].
  rewrite parseDisj_S. cbn -[parseDisj simpleTerm].
  change (simpleTerm 0 false (45%N :: 45%N :: tail)) with (@POk (regex * jsstring) (single 45, 45%N :: tail)).
  cbv iota beta.
  rewrite parseDisj_S. cbn -[parseDisj simpleTerm].
  rewrite simpleTerm_literal by (reflexivity || exact Hq).
  reflexivity.
Qed.

Lemma compile_plain_boundary b :
  plainText b ->
  compile (boundaryPattern b) noFlags
  = POk {| reAst := boundaryAst b; reGroups := 0; reFlags := noFlags |}.
Proof.
  intros H. unfold compile. rewrite (prescan_boundaryPattern b H).
  assert (Hparse :
    parseDisj 0 false (S (List.length (boundaryPattern b))) (boundaryPattern b) 0 [] [] REmpty
    = POk (boundaryAst b, [], 0, [])).
  { replace (S (List.length (boundaryPattern b))) with (S (S (S (S (List.length b + 24))))).
    2:{ unfold boundaryPattern. rewrite !length_app. simpl. lia. }
    unfold boundaryPattern.
    rewrite parse_boundary_prefix.
    2:{ destruct b as [|c b].
        - cbn. auto.
        - inversion H. now apply plain_noQuantifierAhead. }
    replace (S (List.length b + 24)) with (List.length b + 25) by lia.
    rewrite parseDisj_literals; [apply parse_boundary_suffix | exact H | cbn; auto]. }
  rewrite Hparse.
  rewrite resolve_noNamedRef; [reflexivity |].
  unfold boundaryAst. cbv zeta. rewrite !noNamedRef_mkSeq, noNamedRef_literals. reflexivity.
Qed.

End ParserFacts.

(** ** Finding the multipart header *)

Section HeaderFacts.

Lemma reMultipart_terms : reAst reMultipart = fold_left RSeq multipartTerms RBol.
Proof. reflexivity. Qed.

Lemma runs_fold fl ts : forall t0 x y z,
  In y (rmatch fl t0 true x) -> runs fl ts y z ->
  In z (rmatch fl (fold_left RSeq ts t0) true x).
Proof.
  induction ts as [|t ts IH]; intros t0 x y z Hy Hr; cbn [runs fold_left] in *.
  - now subst.
  - destruct Hr as [y' [Hy' Hr]]. apply (IH (RSeq t0 t) x y' z); [| exact Hr].
    rewrite rmatch_seq_fwd. apply in_flat_map. eauto.
Qed.

Lemma runs_app fl ts1 ts2 x y z :
  runs fl ts1 x y -> runs fl ts2 y z -> runs fl (ts1 ++ ts2) x z.
Proof.
  revert x. induction ts1 as [|t ts1 IH]; intros x H1 H2; cbn [runs app] in *.
  - now subst.
  - destruct H1 as [y' [Hy' H1]]. eauto.
Qed.

Lemma runs_one fl t x y : In y (rmatch fl t true x) -> runs fl [t] x y.
Proof. intros H. exists y. split; [exact H | reflexivity]. Qed.

Ltac decide_atoms :=
  repeat match goal with
    | |- context [(?a <=? ?b)%N] =>
        first [ replace (a <=? b)%N with false by (symmetry; apply N.leb_gt; lia)
              | replace (a <=? b)%N with true by (symmetry; apply N.leb_le; lia) ]
    | |- context [(?a =? ?b)%N] =>
        first [ replace (a =? b)%N with false by (symmetry; apply N.eqb_neq; lia)
              | replace (a =? b)%N with true by (symmetry; apply N.eqb_eq; lia) ]
    end.

(** The printable ASCII units and the units between them and U+00A0 are
    not white space. *)
Lemma isWhiteSpace_printable c : (33 <= c)%N -> (c < 160)%N -> isWhiteSpace c = false.
Proof.
  intros H1 H2. unfold isWhiteSpace, inRange. decide_atoms. reflexivity.
Qed.

Lemma inRange_true lo hi c : inRange lo hi c = true -> (lo <= c)%N /\ (c <= hi)%N.
Proof.
  unfold inRange. intros H. apply andb_prop in H. destruct H as [H1 H2].
  apply N.leb_le in H1, H2. now split.
Qed.

Lemma inRange_false lo hi c : inRange lo hi c = false -> (c < lo)%N \/ (hi < c)%N.
Proof.
  unfold inRange. intros H. apply andb_false_iff in H. destruct H as [H | H];
    apply N.leb_gt in H; auto.
Qed.

Lemma charOk_ci c d :
  asciiUpper d = asciiUpper c ->
  charOk flagsIM false [CRange c c] d = true.
Proof.
  intros H. change (canonicalize flagsIM d = canonicalize flagsIM c) in H. revert H.
  unfold charOk, canonicalize, setHas. cbn [ignoreCase flagsIM andb existsb itemHas xorb orb].
  intros H. rewrite H. rewrite !inRange_same.
  unfold inRange in *.
  destruct (N.leb_spec 97 c), (N.leb_spec c 122); cbn [andb] in *.
  - replace (c - 32 =? c)%N with false by (symmetry; apply N.eqb_neq; lia).
    replace (65 <=? c - 32)%N with true by (symmetry; apply N.leb_le; lia).
    replace (c - 32 <=? 90)%N with true by (symmetry; apply N.leb_le; lia).
    replace (c - 32 + 32)%N with c by lia. now rewrite N.eqb_refl.
  - now rewrite N.eqb_refl.
  - now rewrite N.eqb_refl.
  - now rewrite N.eqb_refl.
Qed.

Lemma canonicalize_lower c :
  inRange 97 122 c = true -> canonicalize flagsIM c = (c - 32)%N.
Proof. intros H. unfold canonicalize. cbn [ignoreCase flagsIM andb]. now rewrite H. Qed.

Lemma canonicalize_other c :
  inRange 97 122 c = false -> canonicalize flagsIM c = c.
Proof. intros H. unfold canonicalize. cbn [ignoreCase flagsIM andb]. now rewrite H. Qed.

Lemma whitespace_ok c : isWhiteSpace c = true -> charOk flagsIM false [CSpace false] c = true.
Proof.
  intros H.
  assert (Hl : inRange 97 122 c = false).
  { destruct (inRange 97 122 c) eqn:E; [| reflexivity].
    apply inRange_true in E. rewrite isWhiteSpace_printable in H by lia. discriminate. }
  unfold charOk, setHas. rewrite (canonicalize_other _ Hl).
  cbn [ignoreCase flagsIM andb existsb itemHas xorb orb]. now rewrite H.
Qed.

Lemma subtype_ok c : isSubtypeUnit c = true -> charOk flagsIM false subtypeClass c = true.
Proof.
  intros H. unfold charOk, setHas, subtypeClass.
  destruct (inRange 97 122 c) eqn:El.
  - rewrite (canonicalize_lower _ El). apply inRange_true in El.
    cbn [ignoreCase flagsIM andb existsb itemHas xorb orb].
    unfold inRange. decide_atoms. reflexivity.
  - rewrite (canonicalize_other _ El).
    cbn [ignoreCase flagsIM andb existsb itemHas xorb orb].
    unfold isSubtypeUnit, isAsciiLetter, isDigit in H. rewrite El in H.
    rewrite !inRange_same, El.
    destruct (inRange 65 90 c); [reflexivity |].
    destruct (inRange 48 57 c); [reflexivity |].
    cbn [orb] in H. cbn [orb].
    destruct (c =? 46)%N; [reflexivity |].
    destruct (c =? 95)%N; [reflexivity |].
    cbn [orb] in H. now rewrite H.
Qed.

Lemma value_ok c : isValueUnit c = true -> charOk flagsIM true valueClass c = true.
Proof.
  intros H. unfold isValueUnit in H. apply andb_prop in H. destruct H as [Hq Hw].
  apply negb_true_iff in Hq, Hw.
  unfold charOk, setHas, valueClass.
  destruct (inRange 97 122 c) eqn:El.
  - rewrite (canonicalize_lower _ El). apply inRange_true in El.
    cbn [ignoreCase flagsIM andb existsb itemHas xorb orb]. rewrite !inRange_same.
    replace (c - 32 + 32)%N with c by lia. rewrite Hq, Hw.
    rewrite (isWhiteSpace_printable (c - 32)) by lia.
    replace (c - 32 =? 34)%N with false by (symmetry; apply N.eqb_neq; lia).
    cbn [orb]. now rewrite andb_false_r.
  - rewrite (canonicalize_other _ El).
    cbn [ignoreCase flagsIM andb existsb itemHas xorb orb]. rewrite !inRange_same.
    rewrite Hq, Hw. cbn [orb].
    destruct (inRange 65 90 c) eqn:Eu; [| reflexivity].
    apply inRange_true in Eu.
    rewrite (isWhiteSpace_printable (c + 32)) by lia.
    replace (c + 32 =? 34)%N with false by (symmetry; apply N.eqb_neq; lia).
    reflexivity.
Qed.

Lemma runs_literal lit : forall w p b a cs,
  sameIgnoringCase w lit ->
  runs flagsIM (map single lit) (st p b (w ++ a) cs) (st (p + List.length w) (rev w ++ b) a cs).
Proof.
  induction lit as [|c lit IH]; intros w p b a cs H; inversion H; subst; cbn [map runs app].
  - cbn. now rewrite Nat.add_0_r.
  - match goal with Hc : asciiUpper ?d = _, Hw : Forall2 _ ?w' lit |- _ =>
      exists (st (S p) (d :: b) (w' ++ a) cs); split;
      [ unfold single; rewrite rmatch_char_cons, (charOk_ci _ _ Hc); now left
      | specialize (IH w' (S p) (d :: b) a cs Hw) ]
    end.
    cbn [List.length rev]. rewrite <- app_assoc. cbn [app].
    now rewrite Nat.add_succ_r.
Qed.

Lemma star_reaches fl inv items a cs : forall w fuel p b,
  List.length w < fuel ->
  Forall (fun c => charOk fl inv items c = true) w ->
  In (st (p + List.length w) (rev w ++ b) a cs)
     (repeatMatcher fuel (rmatch fl (RChar inv items) true) [] 0 None true (st p b (w ++ a) cs)).
Proof.
  induction w as [|c w IH]; intros fuel p b Hf Hw;
    (destruct fuel as [|f]; [simpl in Hf; lia |]); rewrite repeatMatcher_S;
    cbn [N.eqb negb clearCaps fold_left].
  - apply in_or_app. right. cbn. left. now rewrite Nat.add_0_r.
  - inversion Hw as [|? ? Hc Hw']. subst.
    cbn [app]. rewrite rmatch_char_cons, Hc. cbn [flat_map andb].
    unfold st at 2 3. cbn [pos].
    replace (S p =? p) with false by (symmetry; apply Nat.eqb_neq; lia).
    apply in_or_app. left. apply in_or_app. left.
    change (decN 0) with 0%N. change (decMax None) with (@None N).
    fold (st (S p) (c :: b) (w ++ a) cs).
    specialize (IH f (S p) (c :: b)).
    cbn [List.length rev]. rewrite <- app_assoc. cbn [app]. rewrite Nat.add_succ_r.
    apply IH; [simpl in Hf; lia | exact Hw'].
Qed.

Lemma rmatch_star_reaches fl inv items w p b a cs :
  Forall (fun c => charOk fl inv items c = true) w ->
  In (st (p + List.length w) (rev w ++ b) a cs)
     (rmatch fl (star inv items) true (st p b (w ++ a) cs)).
Proof.
  intros Hw. unfold star. rewrite rmatch_quant. apply star_reaches; [| exact Hw].
  cbn. rewrite length_app. lia.
Qed.

Lemma rmatch_plus_reaches fl inv items w p b a cs :
  w <> [] ->
  Forall (fun c => charOk fl inv items c = true) w ->
  In (st (p + List.length w) (rev w ++ b) a cs)
     (rmatch fl (plus inv items) true (st p b (w ++ a) cs)).
Proof.
  intros Hne Hw. destruct w as [|c w]; [contradiction |].
  inversion Hw as [|? ? Hc Hw']. subst.
  unfold plus. rewrite rmatch_quant.
  change (N.to_nat 1) with 1. cbn [Nat.add]. rewrite repeatMatcher_S.
  cbn [N.eqb negb clearCaps fold_left groupsIn app].
  rewrite rmatch_char_cons, Hc. cbn [flat_map andb].
  apply in_or_app. left.
  change (decN 1) with 0%N. change (decMax None) with (@None N).
  cbn [List.length rev]. rewrite <- app_assoc. cbn [app]. rewrite Nat.add_succ_r.
  change (S (p + List.length w)) with (S p + List.length w).
  apply (star_reaches fl inv items a cs w _ (S p) (c :: b)); [| exact Hw'].
  cbn. rewrite length_app. lia.
Qed.

Lemma rmatch_opt_skip fl c x : In x (rmatch fl (opt c) true x).
Proof.
  unfold opt. rewrite rmatch_quant, repeatMatcher_S. cbn [N.eqb negb].
  apply in_or_app. right. now left.
Qed.

Lemma rmatch_opt_take fl c p b a cs :
  ignoreCase fl = false \/ isAsciiLetter c = false ->
  In (st (S p) (c :: b) a cs) (rmatch fl (opt c) true (st p b (c :: a) cs)).
Proof.
  intros Hc. unfold opt. rewrite rmatch_quant, repeatMatcher_S.
  cbn [N.eqb negb clearCaps fold_left groupsIn single].
  unfold single. rewrite rmatch_char_cons.
  assert (E : charOk fl false [CRange c c] c = true).
  { unfold charOk, canonicalize, setHas. cbn [existsb itemHas xorb].
    destruct Hc as [Hi | Hl].
    - rewrite Hi. cbn [andb orb]. rewrite inRange_same. now rewrite N.eqb_refl.
    - unfold isAsciiLetter in Hl. apply orb_false_elim in Hl. destruct Hl as [_ Hl].
      rewrite Hl, andb_false_r, inRange_same, N.eqb_refl. reflexivity. }
  rewrite E. cbn [flat_map andb]. unfold st at 2 3. cbn [pos].
  replace (S p =? p) with false by (symmetry; apply Nat.eqb_neq; lia).
  apply in_or_app. left. apply in_or_app. left.
  change (decMax (Some 1%N)) with (Some 0%N).
  cbn [after before st List.length Nat.add N.to_nat]. rewrite repeatMatcher_S. now left.
Qed.

Lemma searchFrom_finds re : forall u p b a,
  matchAt re (p + List.length u) (rev u ++ b) a <> None ->
  searchFrom re p b (u ++ a) <> None.
Proof.
  induction u as [|c u IH]; intros p b a H.
  - cbn [app List.length rev] in *. rewrite Nat.add_0_r in H.
    destruct a; cbn [searchFrom]; destruct (matchAt re p b _); congruence.
  - cbn [app searchFrom]. destruct (matchAt re p b (c :: u ++ a)); [discriminate |].
    apply IH. cbn [List.length rev] in H. rewrite <- app_assoc in H. cbn [app] in H.
    now rewrite Nat.add_succ_r in H.
Qed.

Section MultipartHeader.

Variables (pre name w1 kind sub w2 param quote value rest : jsstring).

Hypothesis Hpre : startsLine pre.
Hypothesis Hname : sameIgnoringCase name (str "Content-Type:").
Hypothesis Hw1 : whitespaceText w1.
Hypothesis Hkind : sameIgnoringCase kind (str "multipart/").
Hypothesis Hsub : sub <> [] /\ subtypeText sub.
Hypothesis Hw2 : whitespaceText w2.
Hypothesis Hparam : sameIgnoringCase param (str "boundary=").
Hypothesis Hquote : quote = [] \/ quote = DQ.
Hypothesis Hvalue : value <> [] /\ valueText value.

Lemma multipart_line_runs :
  exists z,
    runs flagsIM multipartTerms
         (st (List.length pre) (rev pre)
             (headerLine name w1 kind sub w2 param quote value rest) [None]) z.
Proof.
  unfold multipartTerms, headerLine.
  destruct Hquote as [-> | ->]; eexists;
    (eapply runs_app; [apply runs_literal, Hname |]);
    (eapply runs_app;
       [apply runs_one, rmatch_star_reaches, (Forall_impl _ whitespace_ok Hw1) |]);
    (eapply runs_app; [apply runs_literal, Hkind |]);
    cbn [app runs];
    (eexists; split;
       [apply rmatch_plus_reaches;
          [apply Hsub | apply (Forall_impl _ subtype_ok (proj2 Hsub))] |]);
    (eexists; split; [unfold single; rewrite rmatch_char_cons; now left |]);
    (eexists; split; [apply rmatch_star_reaches, (Forall_impl _ whitespace_ok Hw2) |]);
    (eapply runs_app; [apply runs_literal, Hparam |]);
    cbn [runs].
  - eexists. split; [apply rmatch_opt_skip |].
    eexists. split.
    { rewrite rmatch_group. apply in_map. cbn [app].
      apply rmatch_plus_reaches; [apply Hvalue | apply (Forall_impl _ value_ok (proj2 Hvalue))]. }
    eexists. split; [apply rmatch_opt_skip | reflexivity].
  - eexists. split; [apply rmatch_opt_take; now right |].
    eexists. split.
    { rewrite rmatch_group. apply in_map.
      apply rmatch_plus_reaches; [apply Hvalue | apply (Forall_impl _ value_ok (proj2 Hvalue))]. }
    eexists. split; [apply rmatch_opt_skip | reflexivity].
Qed.

Lemma multipart_line_matches :
  matchAt reMultipart (List.length pre) (rev pre)
          (headerLine name w1 kind sub w2 param quote value rest) <> None.
Proof.
  destruct multipart_line_runs as [z Hz].
  assert (Hin : In z (rmatch flagsIM (reAst reMultipart) true
                        (st (List.length pre) (rev pre)
                            (headerLine name w1 kind sub w2 param quote value rest) [None]))).
  { rewrite reMultipart_terms. eapply runs_fold; [| exact Hz].
    cbn [rmatch]. unfold atLineStart, st. cbn [before].
    destruct Hpre as [-> | (pre' & c & -> & Hc)].
    - now left.
    - rewrite rev_app_distr. cbn [rev app]. rewrite Hc. now left. }
  unfold matchAt.
  change (initState reMultipart (List.length pre) (rev pre)
            (headerLine name w1 kind sub w2 param quote value rest))
    with (st (List.length pre) (rev pre)
             (headerLine name w1 kind sub w2 param quote value rest) [None]).
  change (reFlags reMultipart) with flagsIM.
  destruct (rmatch flagsIM (reAst reMultipart) true _); [contradiction | discriminate].
Qed.

Lemma multipart_header_found :
  exec reMultipart (pre ++ headerLine name w1 kind sub w2 param quote value rest) <> None.
Proof.
  unfold exec. apply searchFrom_finds. rewrite app_nil_r. apply multipart_line_matches.
Qed.

End MultipartHeader.

End HeaderFacts.

(** ** The fuel of the matcher and of the parser is enough *)

Section MatcherFuel.

Lemma moves_refl fwd x : wellFormed x -> moves fwd x x.
Proof. intros H. repeat split; auto. Qed.

Lemma moves_trans fwd x y z : moves fwd x y -> moves fwd y z -> moves fwd x z.
Proof. intros (W1 & T1 & A1) (W2 & T2 & A2). repeat split; [exact W2 | lia | lia]. Qed.

Lemma setCap_shape i v x :
  pos (setCap i v x) = pos x /\ before (setCap i v x) = before x /\ after (setCap i v x) = after x.
Proof. destruct i; repeat split. Qed.

Lemma clearCaps_shape gs : forall x,
  pos (clearCaps gs x) = pos x /\ before (clearCaps gs x) = before x
  /\ after (clearCaps gs x) = after x.
Proof.
  unfold clearCaps. induction gs as [|g gs IH]; intros x; cbn [fold_left]; [repeat split |].
  destruct (IH (setCap g None x)) as (P & B & A).
  destruct (setCap_shape g None x) as (P' & B' & A'). rewrite P, B, A. repeat split; assumption.
Qed.

Lemma moves_same_shape fwd x y :
  wellFormed x -> pos y = pos x -> before y = before x -> after y = after x -> moves fwd x y.
Proof.
  intros W P B A. unfold moves, wellFormed, ahead in *. rewrite P, B, A.
  repeat split; auto.
Qed.

Lemma step_moves fwd x c y : wellFormed x -> step fwd x = Some (c, y) ->
  moves fwd x y /\ ahead fwd y < ahead fwd x.
Proof.
  unfold step, stepFwd, stepBwd, moves, wellFormed, ahead. intros W.
  destruct fwd.
  - destruct (after x) as [|d a] eqn:E; [discriminate |].
    intros H. injection H as _ <-. cbn. rewrite W. repeat split; lia.
  - destruct (before x) as [|d b] eqn:E; [discriminate |].
    intros H. injection H as _ <-. cbn. rewrite W. cbn. repeat split; lia.
Qed.

Lemma consume_moves fl fwd s : forall x y,
  wellFormed x -> In y (consume fl fwd s x) -> moves fwd x y.
Proof.
  induction s as [|c s IH]; intros x y W H; cbn [consume] in H.
  - destruct H as [<- | []]. now apply moves_refl.
  - destruct (step fwd x) as [[d x']|] eqn:E; [| contradiction].
    destruct (canonicalize fl c =? canonicalize fl d)%N; [| contradiction].
    destruct (step_moves fwd x d x' W E) as [M _].
    eapply moves_trans; [exact M |]. apply IH; [apply M | exact H].
Qed.

Lemma repeatMatcher_moves fwd (m : mstate -> list mstate) gs :
  (forall x y, wellFormed x -> In y (m x) -> moves fwd x y) ->
  forall fuel min max greedy x y,
    wellFormed x -> In y (repeatMatcher fuel m gs min max greedy x) -> moves fwd x y.
Proof.
  intros Hm. induction fuel as [|fuel IH]; intros min max greedy x y W H; [contradiction |].
  rewrite repeatMatcher_S in H.
  assert (Hc : moves fwd x (clearCaps gs x)).
  { destruct (clearCaps_shape gs x) as (P & B & A). now apply moves_same_shape. }
  assert (Hagain :
      In y (flat_map (fun y0 =>
              if (min =? 0)%N && (pos y0 =? pos x) then []
              else repeatMatcher fuel m gs (decN min) (decMax max) greedy y0)
            (m (clearCaps gs x))) -> moves fwd x y).
  { intros Hin. apply in_flat_map in Hin. destruct Hin as [y0 [H0 H1]].
    destruct ((min =? 0)%N && (pos y0 =? pos x)); [contradiction |].
    assert (M0 : moves fwd (clearCaps gs x) y0) by (apply Hm; [apply Hc | exact H0]).
    eapply moves_trans; [exact Hc |]. eapply moves_trans; [exact M0 |].
    eapply IH; [apply M0 | exact H1]. }
  assert (Hx : In y [x] -> moves fwd x y).
  { intros [<- | []]. now apply moves_refl. }
  destruct max as [[|mx]|]; cbv zeta in H.
  - apply Hx, H.
  - destruct (negb (min =? 0)%N); [now apply Hagain |].
    destruct greedy.
    + apply in_app_or in H. destruct H; auto.
    + destruct H as [<- | H]; [now apply moves_refl | auto].
  - destruct (negb (min =? 0)%N); [now apply Hagain |].
    destruct greedy.
    + apply in_app_or in H. destruct H; auto.
    + destruct H as [<- | H]; [now apply moves_refl | auto].
Qed.

Lemma rmatch_moves fl r :
  forall fwd x y, wellFormed x -> In y (rmatch fl r fwd x) -> moves fwd x y.
Proof.
  induction r as [ | inv items | | a IHa b IHb | a IHa b IHb | r IH min max greedy
                   | i r IH | ahead0 neg r IH | i | nm | | | neg ];
    intros fwd x y W H; cbn [rmatch] in H.
  - destruct H as [<- | []]. now apply moves_refl.
  - destruct (step fwd x) as [[c x']|] eqn:E; [| contradiction].
    apply guard_In in H. subst y. eapply step_moves; eassumption.
  - destruct (step fwd x) as [[c x']|] eqn:E; [| contradiction].
    apply guard_In in H. subst y. eapply step_moves; eassumption.
  - destruct fwd; apply in_flat_map in H; destruct H as [z [H1 H2]].
    + assert (M : moves true x z) by now apply IHa.
      eapply moves_trans; [exact M |]. apply IHb; [apply M | exact H2].
    + assert (M : moves false x z) by now apply IHb.
      eapply moves_trans; [exact M |]. apply IHa; [apply M | exact H2].
  - apply in_app_or in H. destruct H; auto.
  - eapply repeatMatcher_moves; [| exact W | exact H]. intros x0 y0. apply IH.
  - apply in_map_iff in H. destruct H as [z [<- Hz]].
    assert (M : moves fwd x z) by now apply IH.
    eapply moves_trans; [exact M |].
    destruct (setCap_shape i (Some (if fwd then (pos x, pos z) else (pos z, pos x))) z)
      as (P & B & A).
    apply moves_same_shape; [apply M | assumption ..].
  - destruct (rmatch fl r ahead0 x) as [|z l].
    + apply guard_In in H. subst y. now apply moves_refl.
    + apply guard_In in H. subst y. now apply moves_same_shape.
  - destruct (getCap i x) as [[s e]|].
    + eapply consume_moves; eassumption.
    + destruct H as [<- | []]. now apply moves_refl.
  - contradiction.
  - apply guard_In in H. subst y. now apply moves_refl.
  - apply guard_In in H. subst y. now apply moves_refl.
  - apply guard_In in H. subst y. now apply moves_refl.
Qed.

Lemma flat_map_ext_in {A B} (f g : A -> list B) (l : list A) :
  (forall a, In a l -> f a = g a) -> flat_map f l = flat_map g l.
Proof.
  induction l as [|a l IH]; intros H; [reflexivity |]. cbn [flat_map].
  rewrite (H a (or_introl eq_refl)), IH; [reflexivity |].
  intros a' Ha'. apply H. now right.
Qed.

(** Above [min] plus the units still ahead, the fuel of the repeat
    matcher does not matter. *)
Lemma repeatMatcher_fuel fwd (m : mstate -> list mstate) gs :
  (forall x y, wellFormed x -> In y (m x) -> moves fwd x y) ->
  forall f1 f2 min max greedy x,
    wellFormed x ->
    N.to_nat min + ahead fwd x < f1 -> N.to_nat min + ahead fwd x < f2 ->
    repeatMatcher f1 m gs min max greedy x = repeatMatcher f2 m gs min max greedy x.
Proof.
  intros Hm. induction f1 as [|f1 IH]; intros f2 min max greedy x W H1 H2; [lia |].
  destruct f2 as [|f2]; [lia |]. rewrite !repeatMatcher_S.
  assert (Hc : moves fwd x (clearCaps gs x)).
  { destruct (clearCaps_shape gs x) as (P & B & A). now apply moves_same_shape. }
  assert (E : flat_map (fun y =>
                if (min =? 0)%N && (pos y =? pos x) then []
                else repeatMatcher f1 m gs (decN min) (decMax max) greedy y)
              (m (clearCaps gs x))
            = flat_map (fun y =>
                if (min =? 0)%N && (pos y =? pos x) then []
                else repeatMatcher f2 m gs (decN min) (decMax max) greedy y)
              (m (clearCaps gs x))).
  { apply flat_map_ext_in. intros y Hy.
    assert (M : moves fwd (clearCaps gs x) y) by (apply Hm; [apply Hc | exact Hy]).
    assert (Mx : moves fwd x y) by (eapply moves_trans; eassumption).
    destruct (min =? 0)%N eqn:Emin; cbn [andb].
    - destruct (pos y =? pos x) eqn:Epos; [reflexivity |].
      apply N.eqb_eq in Emin. subst min. apply Nat.eqb_neq in Epos.
      destruct Mx as (Wy & T & A).
      assert (ahead fwd y < ahead fwd x).
      { unfold wellFormed, ahead in *. destruct fwd; lia. }
      apply IH; [exact Wy | cbn in *; lia | cbn in *; lia].
    - apply N.eqb_neq in Emin. destruct Mx as (Wy & T & A).
      assert (N.to_nat (decN min) < N.to_nat min) by (unfold decN; lia).
      apply IH; [exact Wy | lia | lia]. }
  cbv zeta. now rewrite E.
Qed.

(** The fuel [rmatch] gives to a quantifier is above that bound. *)
Lemma rmatch_quant_fuel fl r min max greedy fwd x extra :
  wellFormed x ->
  repeatMatcher (S (N.to_nat min + (List.length (after x) + List.length (before x))) + extra)
                (rmatch fl r fwd) (groupsIn r) min max greedy x
  = rmatch fl (RQuant r min max greedy) fwd x.
Proof.
  intros W. rewrite rmatch_quant.
  apply (repeatMatcher_fuel fwd); [intros x0 y0; apply rmatch_moves | exact W | |];
    unfold ahead; destruct fwd; lia.
Qed.

End MatcherFuel.

Section ParserFuel.

Ltac break H :=
  repeat match type of H with
    | context [if ?b then _ else _] => destruct b eqn:?
    | context [match ?x with _ => _ end] => destruct x eqn:?
    end.

Lemma span_len p s a b : span p s = (a, b) -> List.length b <= List.length s.
Proof.
  revert a b. induction s as [|c s IH]; intros a b H; cbn [span] in H.
  - injection H as <- <-. cbn. lia.
  - destruct (p c).
    + destruct (span p s) as [u v]. injection H as <- <-. specialize (IH u v eq_refl). cbn. lia.
    + injection H as <- <-. lia.
Qed.

Lemma hex2_len t v t' : hex2 t = Some (v, t') -> List.length t' <= List.length t.
Proof.
  unfold hex2. intros H. break H; try discriminate. injection H as <- <-. cbn. lia.
Qed.

Lemma hex4_len t v t' : hex4 t = Some (v, t') -> List.length t' <= List.length t.
Proof.
  unfold hex4. intros H.
  destruct (hex2 t) as [[hi t1]|] eqn:E1; [| discriminate].
  destruct (hex2 t1) as [[lo t2]|] eqn:E2; [| discriminate].
  injection H as <- <-. apply hex2_len in E1, E2. lia.
Qed.

Lemma legacyOctal_len d t v t' : legacyOctal d t = (v, t') -> List.length t' <= List.length t.
Proof.
  unfold legacyOctal. intros H. break H; injection H as <- <-; cbn; lia.
Qed.

Lemma charEscape_len c t v t' : charEscape c t = (v, t') -> List.length t' <= List.length t.
Proof.
  unfold charEscape. intros H.
  repeat match type of H with
    | context [if ?b then _ else _] => destruct b
    end;
    try (injection H as <- <-; lia).
  - destruct (hex2 t) as [[x y]|] eqn:E; injection H as <- <-; [eapply hex2_len, E | lia].
  - destruct (hex4 t) as [[x y]|] eqn:E; injection H as <- <-; [eapply hex4_len, E | lia].
  - eapply legacyOctal_len, H.
Qed.

Lemma groupNameRest_len s nm rest : groupNameRest s = POk (nm, rest) -> List.length rest < List.length s.
Proof.
  revert nm rest. induction s as [|c s IH]; intros nm rest H; cbn [groupNameRest] in H;
    [discriminate |].
  destruct (isC ">" c).
  - injection H as <- <-. cbn. lia.
  - destruct (isAsciiLetter c || isDigit c || isC "$" c || isC "_" c).
    + destruct (groupNameRest s) as [[nm' rest']| |]; try discriminate.
      injection H as <- <-. specialize (IH nm' rest' eq_refl). cbn. lia.
    + destruct (isC "\" c || (128 <=? c)%N); discriminate.
Qed.

Lemma groupName_len s nm rest : groupName s = POk (nm, rest) -> List.length rest < List.length s.
Proof.
  unfold groupName. destruct s as [|c s]; [discriminate |].
  destruct (isDigit c || isC ">" c); [discriminate |]. apply groupNameRest_len.
Qed.

Lemma atomEscape_len ncap named s r rest q :
  atomEscape ncap named s = POk (r, rest, q) -> List.length rest <= List.length s.
Proof.
  unfold atomEscape. intros H. destruct s as [|c t]; [discriminate |].
  destruct (isC "b" c); [injection H as <- <- <-; cbn; lia |].
  destruct (isC "B" c); [injection H as <- <- <-; cbn; lia |].
  destruct (inRange 49 57 c).
  - destruct (span isDigit (c :: t)) as [ds rest0] eqn:Es. apply span_len in Es.
    destruct (decValue ds 0 <=? N.of_nat ncap)%N.
    + injection H as <- <- <-. exact Es.
    + destruct (charEscape c t) as [u rest'] eqn:Ec. apply charEscape_len in Ec.
      injection H as <- <- <-. cbn. lia.
  - destruct (classEscape c); [injection H as <- <- <-; cbn; lia |].
    destruct (isC "c" c).
    + destruct t as [|l t']; [injection H as <- <- <-; lia |].
      destruct (isAsciiLetter l); injection H as <- <- <-; cbn; lia.
    + destruct (isC "k" c && named).
      * destruct t as [|l t']; [discriminate |].
        destruct (isC "<" l); [| discriminate].
        destruct (groupName t') as [[nm rest']| |] eqn:Eg; try discriminate.
        apply groupName_len in Eg. injection H as <- <- <-. cbn. lia.
      * destruct (charEscape c t) as [u rest'] eqn:Ec. apply charEscape_len in Ec.
        injection H as <- <- <-. cbn. lia.
Qed.

Lemma classAtom_len named s a cls rest :
  classAtom named s = POk (a, cls, rest) -> List.length rest < List.length s.
Proof.
  unfold classAtom. intros H. destruct s as [|c t]; [discriminate |].
  destruct (isC "\" c); [| injection H as <- <- <-; cbn; lia].
  destruct t as [|e t']; [discriminate |].
  destruct (isC "b" e); [injection H as <- <- <-; cbn; lia |].
  destruct (classEscape e); [injection H as <- <- <-; cbn; lia |].
  destruct (isC "c" e).
  - destruct t' as [|l t'']; [injection H as <- <- <-; cbn; lia |].
    destruct (isAsciiLetter l || isDigit l || isC "_" l); injection H as <- <- <-; cbn; lia.
  - destruct (isC "k" e && named); [discriminate |].
    destruct (charEscape e t') as [u rest'] eqn:Ec. apply charEscape_len in Ec.
    injection H as <- <- <-. cbn. lia.
Qed.

Lemma classRanges_S f named s acc :
  classRanges (S f) named s acc =
  match s with
  | [] => PSyntaxError
  | c :: t =>
      if isC "]" c then POk (acc, t)
      else
        match classAtom named s with
        | POk (a1, cls1, rest1) =>
            match rest1 with
            | d :: (e :: _) as rest2 =>
                if isC "-" d && negb (isC "]" e) then
                  match classAtom named rest2 with
                  | POk (a2, cls2, rest3) =>
                      if cls1 || cls2
                      then classRanges f named rest3 (acc ++ [a1; CRange 45 45; a2])
                      else if (rangeLo a2 <? rangeLo a1)%N then PSyntaxError
                      else classRanges f named rest3 (acc ++ [CRange (rangeLo a1) (rangeLo a2)])
                  | PSyntaxError => PSyntaxError
                  | PUnmodelled => PUnmodelled
                  end
                else classRanges f named rest1 (acc ++ [a1])
            | _ => classRanges f named rest1 (acc ++ [a1])
            end
        | PSyntaxError => PSyntaxError
        | PUnmodelled => PUnmodelled
        end
  end.
Proof. reflexivity. Qed.

Lemma classRanges_len named : forall f s acc items rest,
  classRanges f named s acc = POk (items, rest) -> List.length rest < List.length s.
Proof.
  induction f as [|f IH]; intros s acc items rest H; [discriminate |].
  rewrite classRanges_S in H. destruct s as [|c t]; [discriminate |].
  destruct (isC "]" c); [injection H as <- <-; cbn; lia |].
  destruct (classAtom named (c :: t)) as [[[a1 cls1] rest1]| |] eqn:E1; try discriminate.
  apply classAtom_len in E1.
  assert (Hgo : forall acc', classRanges f named rest1 acc' = POk (items, rest) ->
                            List.length rest < List.length (c :: t)).
  { intros acc' H'. apply IH in H'. lia. }
  destruct rest1 as [|d [|e rest2]]; try (eapply Hgo, H).
  destruct (isC "-" d && negb (isC "]" e)); [| eapply Hgo, H].
  destruct (classAtom named (e :: rest2)) as [[[a2 cls2] rest3]| |] eqn:E2; try discriminate.
  apply classAtom_len in E2.
  destruct (cls1 || cls2).
  - apply IH in H. cbn in *. lia.
  - destruct (rangeLo a2 <? rangeLo a1)%N; [discriminate |]. apply IH in H. cbn in *. lia.
Qed.

(** Above the length of the text, the fuel of [classRanges] does not
    matter. *)
Lemma classRanges_fuel named : forall f1 f2 s acc,
  List.length s < f1 -> List.length s < f2 -> classRanges f1 named s acc = classRanges f2 named s acc.
Proof.
  induction f1 as [|f1 IH]; intros f2 s acc H1 H2; [lia |].
  destruct f2 as [|f2]; [lia |]. rewrite !classRanges_S.
  destruct s as [|c t]; [reflexivity |].
  destruct (isC "]" c); [reflexivity |].
  destruct (classAtom named (c :: t)) as [[[a1 cls1] rest1]| |] eqn:E1; try reflexivity.
  apply classAtom_len in E1.
  assert (Hgo : forall acc', classRanges f1 named rest1 acc' = classRanges f2 named rest1 acc').
  { intros acc'. apply IH; cbn in *; lia. }
  destruct rest1 as [|d [|e rest2]]; try apply Hgo.
  destruct (isC "-" d && negb (isC "]" e)); [| apply Hgo].
  destruct (classAtom named (e :: rest2)) as [[[a2 cls2] rest3]| |] eqn:E2; try reflexivity.
  apply classAtom_len in E2.
  destruct (cls1 || cls2); [apply IH; cbn in *; lia |].
  destruct (rangeLo a2 <? rangeLo a1)%N; [reflexivity |]. apply IH; cbn in *; lia.
Qed.

Lemma charClass_len named s r rest : charClass named s = POk (r, rest) -> List.length rest < List.length s.
Proof.
  unfold charClass. intros H.
  destruct s as [|c t].
  - destruct (classRanges 1 named [] []) as [[items rest']| |] eqn:E; discriminate.
  - destruct (isC "^" c).
    + destruct (classRanges (S (List.length t)) named t []) as [[items rest']| |] eqn:E; try discriminate.
      apply classRanges_len in E. injection H as <- <-. cbn. lia.
    + destruct (classRanges (S (List.length (c :: t))) named (c :: t) []) as [[items rest']| |] eqn:E;
        try discriminate.
      apply classRanges_len in E. injection H as <- <-. exact E.
Qed.

Lemma braces_len s n m rest : braces s = Some (n, m, rest) -> List.length rest < List.length s.
Proof.
  unfold braces. intros H.
  destruct (span isDigit s) as [ds rest0] eqn:E0. apply span_len in E0.
  destruct ds as [|d ds]; [discriminate |].
  destruct rest0 as [|c rest1]; [discriminate |].
  destruct (isC "}" c); [injection H as <- <- <-; cbn in *; lia |].
  destruct (isC "," c); [| discriminate].
  destruct (span isDigit rest1) as [es rest2] eqn:E1. apply span_len in E1.
  destruct es as [|e es]; destruct rest2 as [|c2 rest3]; try discriminate;
    destruct (isC "}" c2); try discriminate; injection H as <- <- <-; cbn in *; lia.
Qed.

Lemma lazyMark_len s g rest : lazyMark s = (g, rest) -> List.length rest <= List.length s.
Proof.
  unfold lazyMark. destruct s as [|c t]; intros H.
  - injection H as <- <-. lia.
  - destruct (isC "?" c); injection H as <- <-; cbn; lia.
Qed.

Lemma quantified_len r s r' rest : quantified r s = POk (r', rest) -> List.length rest <= List.length s.
Proof.
  unfold quantified. intros H. destruct s as [|c t]; [injection H as <- <-; lia |].
  assert (Hmk : forall min max t0,
             List.length t0 <= List.length t ->
             (let '(greedy, rest') := lazyMark t0 in
              @POk (regex * jsstring) (RQuant r min max greedy, rest')) = POk (r', rest) ->
             List.length rest <= List.length (c :: t)).
  { intros min max t0 Ht H0. destruct (lazyMark t0) as [g rest0] eqn:El.
    apply lazyMark_len in El. injection H0 as <- <-. cbn. lia. }
  destruct (isC "*" c); [eapply (Hmk _ _ t), H; lia |].
  destruct (isC "+" c); [eapply (Hmk _ _ t), H; lia |].
  destruct (isC "?" c); [eapply (Hmk _ _ t), H; lia |].
  destruct (isC "{" c); [| injection H as <- <-; lia].
  destruct (braces t) as [[[n [m|]] rest0]|] eqn:Eb.
  - apply braces_len in Eb. destruct (m <? n)%N; [discriminate |].
    eapply (Hmk _ _ rest0), H. lia.
  - apply braces_len in Eb. eapply (Hmk _ _ rest0), H. lia.
  - injection H as <- <-. lia.
Qed.

Lemma simpleTerm_len ncap named s r rest :
  simpleTerm ncap named s = POk (r, rest) -> List.length rest < List.length s.
Proof.
  unfold simpleTerm. intros H. destruct s as [|c t]; [discriminate |].
  destruct (isC "*" c || isC "+" c || isC "?" c); [discriminate |].
  destruct (isC "{" c).
  { destruct (braces t); [discriminate |]. apply quantified_len in H. cbn. lia. }
  destruct (isC "^" c); [injection H as <- <-; cbn; lia |].
  destruct (isC "$" c); [injection H as <- <-; cbn; lia |].
  destruct (isC "." c); [apply quantified_len in H; cbn; lia |].
  destruct (isC "[" c).
  { destruct (charClass named t) as [[r0 rest0]| |] eqn:Ec; try discriminate.
    apply charClass_len in Ec. apply quantified_len in H. cbn. lia. }
  destruct (isC "\" c).
  { destruct (atomEscape ncap named t) as [[[r0 rest0] [|]]| |] eqn:Ea; try discriminate;
      apply atomEscape_len in Ea.
    - apply quantified_len in H. cbn. lia.
    - injection H as <- <-. cbn. lia. }
  apply quantified_len in H. cbn. lia.
Qed.

Lemma groupHead_len s k rest : groupHead s = POk (k, rest) -> List.length rest <= List.length s.
Proof.
  unfold groupHead. intros H. destruct s as [|q t]; [injection H as <- <-; lia |].
  destruct (isC "?" q); [| injection H as <- <-; lia].
  destruct t as [|c t1]; [discriminate |].
  destruct (isC ":" c); [injection H as <- <-; cbn; lia |].
  destruct (isC "=" c); [injection H as <- <-; cbn; lia |].
  destruct (isC "!" c); [injection H as <- <-; cbn; lia |].
  destruct (isC "<" c).
  - destruct t1 as [|d t2]; [discriminate |].
    destruct (isC "=" d); [injection H as <- <-; cbn; lia |].
    destruct (isC "!" d); [injection H as <- <-; cbn; lia |].
    destruct (groupName (d :: t2)) as [[nm rest0]| |] eqn:Eg; try discriminate.
    apply groupName_len in Eg. injection H as <- <-. cbn in *. lia.
  - destruct (isC "i" c || isC "m" c || isC "s" c || isC "-" c); discriminate.
Qed.

Lemma parseDisj_len ncap named : forall f s n nms alts cur r rest n' nms',
  parseDisj ncap named f s n nms alts cur = POk (r, rest, n', nms') -> List.length rest <= List.length s.
Proof.
  induction f as [|f IH]; intros s n nms alts cur r rest n' nms' H; [discriminate |].
  rewrite parseDisj_S in H. destruct s as [|c t]; [injection H as <- <- <- <-; lia |].
  destruct (isC ")" c); [injection H as <- <- <- <-; lia |].
  destruct (isC "|" c); [apply IH in H; cbn; lia |].
  destruct (isC "(" c).
  - destruct (groupHead t) as [[kind t1]| |] eqn:Eg; try discriminate.
    apply groupHead_len in Eg. cbv zeta in H.
    destruct (parseDisj ncap named f t1 _ _ [] REmpty) as [[[[inner rest0] n2] nms2]| |] eqn:Ei;
      try discriminate.
    apply IH in Ei. destruct rest0 as [|d rest1]; [discriminate |].
    assert (Hq : forall (t0 : presult (regex * jsstring)),
               (forall r1 rest2, t0 = POk (r1, rest2) -> List.length rest2 <= List.length rest1) ->
               match t0 with
               | POk (r1, rest2) => parseDisj ncap named f rest2 n2 nms2 alts (mkSeq cur r1)
               | PSyntaxError => PSyntaxError
               | PUnmodelled => PUnmodelled
               end = POk (r, rest, n', nms') -> List.length rest <= List.length (c :: t)).
    { intros t0 Ht H0. destruct t0 as [[r1 rest2]| |]; try discriminate.
      specialize (Ht r1 rest2 eq_refl). apply IH in H0. cbn in *. lia. }
    destruct kind as [nm | | [|] neg].
    + apply (Hq (quantified (RGroup (S n) inner) rest1)); [| exact H].
      intros r1 rest2 Hr. now apply quantified_len in Hr.
    + apply (Hq (quantified inner rest1)); [| exact H].
      intros r1 rest2 Hr. now apply quantified_len in Hr.
    + apply (Hq (quantified (RLook true neg inner) rest1)); [| exact H].
      intros r1 rest2 Hr. now apply quantified_len in Hr.
    + apply (Hq (POk (RLook false neg inner, rest1))); [| exact H].
      intros r1 rest2 Hr. injection Hr as <- <-. lia.
  - destruct (simpleTerm ncap named (c :: t)) as [[r0 rest0]| |] eqn:Es; try discriminate.
    apply simpleTerm_len in Es. apply IH in H. lia.
Qed.

(** Above the length of the text, the fuel of [parseDisj] does not
    matter. *)
Lemma parseDisj_fuel ncap named : forall f1 f2 s n nms alts cur,
  List.length s < f1 -> List.length s < f2 ->
  parseDisj ncap named f1 s n nms alts cur = parseDisj ncap named f2 s n nms alts cur.
Proof.
  induction f1 as [|f1 IH]; intros f2 s n nms alts cur H1 H2; [lia |].
  destruct f2 as [|f2]; [lia |]. rewrite !parseDisj_S.
  destruct s as [|c t]; [reflexivity |].
  destruct (isC ")" c); [reflexivity |].
  destruct (isC "|" c); [apply IH; cbn in *; lia |].
  destruct (isC "(" c).
  - destruct (groupHead t) as [[kind t1]| |] eqn:Eg; try reflexivity.
    apply groupHead_len in Eg. cbv zeta.
    rewrite (IH f2 t1) by (cbn in *; lia).
    destruct (parseDisj ncap named f2 t1 _ _ [] REmpty) as [[[[inner rest0] n2] nms2]| |] eqn:Ei;
      try reflexivity.
    apply parseDisj_len in Ei. destruct rest0 as [|d rest1]; [reflexivity |].
    assert (Hq : forall (t0 : presult (regex * jsstring)),
               (forall r1 rest2, t0 = POk (r1, rest2) -> List.length rest2 <= List.length rest1) ->
               match t0 with
               | POk (r1, rest2) => parseDisj ncap named f1 rest2 n2 nms2 alts (mkSeq cur r1)
               | PSyntaxError => PSyntaxError
               | PUnmodelled => PUnmodelled
               end =
               match t0 with
               | POk (r1, rest2) => parseDisj ncap named f2 rest2 n2 nms2 alts (mkSeq cur r1)
               | PSyntaxError => PSyntaxError
               | PUnmodelled => PUnmodelled
               end).
    { intros t0 Ht. destruct t0 as [[r1 rest2]| |]; try reflexivity.
      specialize (Ht r1 rest2 eq_refl). apply IH; cbn in *; lia. }
    destruct kind as [nm | | [|] neg].
    + apply (Hq (quantified (RGroup (S n) inner) rest1)).
      intros r1 rest2 Hr. now apply quantified_len in Hr.
    + apply (Hq (quantified inner rest1)).
      intros r1 rest2 Hr. now apply quantified_len in Hr.
    + apply (Hq (quantified (RLook true neg inner) rest1)).
      intros r1 rest2 Hr. now apply quantified_len in Hr.
    + apply (Hq (POk (RLook false neg inner, rest1))).
      intros r1 rest2 Hr. injection Hr as <- <-. lia.
  - destruct (simpleTerm ncap named (c :: t)) as [[r0 rest0]| |] eqn:Es; try reflexivity.
    apply simpleTerm_len in Es. apply IH; cbn in *; lia.
Qed.

(** [compile] gives the same result with any larger fuel. *)
Lemma compile_fuel pattern extra :
  parseDisj (fst (prescan pattern false)) (snd (prescan pattern false))
            (S (List.length pattern) + extra) pattern 0 [] [] REmpty
  = parseDisj (fst (prescan pattern false)) (snd (prescan pattern false))
              (S (List.length pattern)) pattern 0 [] [] REmpty.
Proof. apply parseDisj_fuel; lia. Qed.

End ParserFuel.

(** ** The regular expression literals of the source *)

Section Literals.

Lemma reWhitespace_source : compile (str "\s") noFlags = POk reWhitespace.
Proof. reflexivity. Qed.

Lemma reSoftBreak_source : compile (str "=\r\n") noFlags = POk reSoftBreak.
Proof. reflexivity. Qed.

Lemma reHexEscape_source : compile (str "=([0-9A-Fa-f]{2})") noFlags = POk reHexEscape.
Proof. reflexivity. Qed.

Lemma reMultipart_source :
  compile (str "^Content-Type:\s*multipart\/[a-zA-Z0-9._-]+;\s*boundary=" ++ DQ
           ++ str "?([^" ++ DQ ++ str "\s]+)" ++ DQ ++ str "?") flagsIM
  = POk reMultipart.
Proof. reflexivity. Qed.

Lemma rePartContentType_source :
  compile (str "Content-Type:\s*([^;]+)(?:;\s*charset=" ++ DQ
           ++ str "?([^" ++ DQ ++ str "\s]+)" ++ DQ ++ str "?)?") flagsIM
  = POk rePartContentType.
Proof. reflexivity. Qed.

Lemma reTransferEncoding_source :
  compile (str "Content-Transfer-Encoding:\s*([^\r\n]+)") flagsIM = POk reTransferEncoding.
Proof. reflexivity. Qed.

Lemma reTag_source : compile (str "<[^>]*>?") flagsM = POk reTag.
Proof. reflexivity. Qed.

End Literals.

(** ** Splitting and scanning without captures *)

Section SplitFacts.

Lemma matchAt_no_groups re p b a r :
  reGroups re = 0 -> matchAt re p b a = Some r -> mCaps r = [].
Proof.
  intros Hg. unfold matchAt.
  destruct (rmatch (reFlags re) (reAst re) true (initState re p b a)) as [|y l] eqn:E;
    [discriminate |].
  intros H. injection H as <-.
  assert (Hin : In y (rmatch (reFlags re) (reAst re) true (initState re p b a)))
    by (rewrite E; now left).
  apply rmatch_keeps in Hin. destruct Hin as [L _].
  unfold initState in L. cbn [caps] in L. rewrite Hg in L. cbn in L.
  unfold toResult. cbn [mCaps]. now destruct (caps y).
Qed.

(** The separators of a pattern without groups splice nothing into the
    result: every element of the result is a string. *)
Lemma splitGo_defined re :
  reGroups re = 0 ->
  forall a q b piece k, exists parts, splitGo re q b a piece k = map Some parts.
Proof.
  intros Hg. induction a as [|c a IH]; intros q b piece k.
  - exists [rev piece]. reflexivity.
  - cbn [splitGo]. destruct k as [|k]; [| apply IH].
    destruct (matchAt re q b (c :: a)) as [r|] eqn:E; [| apply IH].
    rewrite (matchAt_no_groups re q b (c :: a) r Hg E). cbn [app].
    destruct (mEnd r <=? q).
    + destruct piece as [|d piece]; [apply IH |].
      destruct (IH (S q) (c :: b) [c] 0) as [parts Hp]. rewrite Hp.
      now exists (rev (d :: piece) :: parts).
    + destruct (IH (S q) (c :: b) [] (mEnd r - q - 1)) as [parts Hp]. rewrite Hp.
      now exists (rev piece :: parts).
Qed.

Lemma split_defined re s :
  reGroups re = 0 -> exists parts, split re s = map Some parts.
Proof.
  intros Hg. unfold split. destruct s as [|c s].
  - destruct (matchAt re 0 [] []); [now exists [] | now exists [[]]].
  - now apply splitGo_defined.
Qed.

Lemma scanParts_returns parts : forall p h k,
  exists r k', scanParts (map Some parts) p h k = (Normal r, k').
Proof.
  induction parts as [|part parts IH]; intros p h k; cbn [map].
  - now exists (p, h), k.
  - rewrite scanParts_cons. destruct (kindOf part) as [| body te | body te].
    + apply IH.
    + unfold bind. destruct (decodeContent_returns body (Some te) k) as [d [k' E]].
      rewrite E. now exists (d, h), k'.
    + unfold bind. destruct (decodeContent_returns body (Some te) k) as [d [k' E]].
      rewrite E. apply IH.
Qed.

End SplitFacts.

(* ================================================================== *)
(** * The claims *)

Section LoopFacts.

Lemma scanParts_skipped (post : list jsstring) (p h : jsstring) :
  Forall (fun part => kindOf part = Skipped) post ->
  scanParts (map Some post) p h = ret (p, h).
Proof.
  induction 1 as [|part post Hk _ IH]; [reflexivity |].
  cbn [map]. rewrite scanParts_cons, Hk. exact IH.
Qed.

Lemma result_decode_then {B} (body te : jsstring) (f : jsstring -> JS B) :
  (forall d, writes (f d)) ->
  result (d <- decodeContent body (Some te) ;; f d) = result (f (decoded body te)).
Proof.
  intros Hf. apply result_bind; [apply decodeContent_writes | exact Hf |].
  apply (decodeContent_value body te []).
Qed.

(** Parts that are passed over leave both bodies as they are; the first
    plain part ends the loop. *)
Lemma scanParts_plain (pre : list jsstring) (part : jsstring) (post : list (option jsstring))
    (body te p h : jsstring) :
  Forall (fun q => kindOf q = Skipped) pre ->
  kindOf part = PlainPart body te ->
  scanParts (map Some pre ++ Some part :: post) p h =
  (d <- decodeContent body (Some te) ;; ret (d, h)).
Proof.
  intros Hpre Hpart. induction Hpre as [|q pre Hq _ IH]; cbn [map app].
  - now rewrite scanParts_cons, Hpart.
  - now rewrite scanParts_cons, Hq.
Qed.

(** Without a plain part, the HTML body at the end of the loop is the
    decoded body of the last HTML part. *)
Lemma scanParts_html (pre : list jsstring) (part : jsstring) (post : list jsstring)
    (body te p : jsstring) :
  Forall (fun q => forall b e, kindOf q <> PlainPart b e) pre ->
  kindOf part = HtmlPart body te ->
  Forall (fun q => kindOf q = Skipped) post ->
  forall h, result (scanParts (map Some (pre ++ part :: post)) p h) = Normal (p, decoded body te).
Proof.
  intros Hpre Hpart Hpost. induction Hpre as [|q pre Hq _ IH]; intros h; cbn [map app].
  - rewrite scanParts_cons, Hpart, result_decode_then by (intros; apply scanParts_writes).
    now rewrite scanParts_skipped.
  - rewrite scanParts_cons. destruct (kindOf q) as [| b e | b e] eqn:E.
    + apply IH.
    + exfalso. now apply (Hq b e).
    + rewrite result_decode_then by (intros; apply scanParts_writes). apply IH.
Qed.

Lemma resolveBody_plain (p : jsstring) : resolveBody p [] = trim p.
Proof.
  unfold resolveBody. destruct (trim p); reflexivity.
Qed.

(** [extractEmailBody] on a message that takes the multipart branch with
    a boundary pattern that compiles. *)
Lemma extractEmailBody_multipart (raw : jsstring) (i : nat) (boundary : jsstring) (re : regexp) :
  indexOf raw CRLFCRLF = Some i ->
  branchOf (substring raw 0 i) (substringFrom raw (i + 4)) = Multipart boundary ->
  compile (boundaryPattern boundary) noFlags = POk re ->
  extractEmailBody raw =
  ('(plainTextBody, htmlBody) <- scanParts (split re (substringFrom raw (i + 4))) [] [] ;;
   ret (resolveBody plainTextBody htmlBody)).
Proof.
  intros Hi Hb Hre. unfold extractEmailBody, newRegExp. now rewrite Hi, Hb, Hre.
Qed.

Lemma result_resolve (m : JS (jsstring * jsstring)) (p h : jsstring) :
  writes m -> result m = Normal (p, h) ->
  result ('(plainTextBody, htmlBody) <- m ;; ret (resolveBody plainTextBody htmlBody))
  = Normal (resolveBody p h).
Proof.
  intros Hw Hr.
  rewrite (@result_bind _ _ m _ (p, h) Hw); [reflexivity | | exact Hr].
  intros [a b]. apply writes_ret.
Qed.

Lemma encoding_base64 :
  JSString.eqb (if truthy (str "base64") then toLowerCase (str "base64") else [])
               (str "base64") = true.
Proof. reflexivity. Qed.

Lemma encoding_quoted_printable :
  let e := if truthy (str "quoted-printable") then toLowerCase (str "quoted-printable") else [] in
  JSString.eqb e (str "base64") = false /\ JSString.eqb e (str "quoted-printable") = true.
Proof. split; reflexivity. Qed.

End LoopFacts.

Section Claims.

(** C2 (as the code has it).  The quoted-printable message with the
    body [Caf=C3=A9] gives the five units [C a f U+00C3 U+00A9]: each
    escape becomes one unit of that code, and the two are not read
    together as the UTF-8 form of U+00E9.  In general the decoded text
    of a non-empty body is the body without its soft line breaks and
    with every remaining [=XX] replaced by the unit of code [XX]. *)
Theorem quoted_printable_escapes_become_single_units :
  result (extractEmailBody cafeMessage) = Normal (str "Caf" ++ [195; 169]%N) /\
  forall text k,
    text <> [] ->
    decodeContent text (Some (str "quoted-printable")) k
    = (Normal (decodeHexEscapes (removeSoftBreaks text)), k).
Proof.
  split; [vm_compute; reflexivity |].
  intros text k Hne. unfold decodeContent.
  destruct text as [|c text]; [contradiction |].
  cbn [truthy negb].
  destruct encoding_quoted_printable as [E1 E2]. cbv zeta in E1, E2.
  rewrite E1, E2. unfold ret, replaceAll. f_equal.
  rewrite (removeSoftBreaks_refines _ (List.length (c :: text))) by lia.
  now rewrite (decodeHexEscapes_refines _ (List.length (removeSoftBreaks (c :: text)))) by (reflexivity || lia).
Qed.

Lemma quoted_printable_witness :
  decodeContent (str "Caf=C3=A9") (Some (str "quoted-printable")) []
  = (Normal (str "Caf" ++ [195; 169]%N), []).
Proof.
  apply (proj2 quoted_printable_escapes_become_single_units (str "Caf=C3=A9") []).
  discriminate.
Defined.

(** C2 as stated fails: the message does not give the four units of
    [Caf] followed by U+00E9. *)
Lemma cafe_is_not_decoded_as_utf8 :
  result (extractEmailBody cafeMessage) <> Normal (str "Caf" ++ [233%N]).
Proof. vm_compute. discriminate. Qed.

(** C3.  An input without the sequence CR LF CR LF is returned trimmed
    and nothing else happens: no header is read, nothing is decoded and
    nothing is written to the console. *)
Theorem no_separator_returns_trimmed_input (raw : jsstring) :
  (~ exists pre post, raw = pre ++ CRLFCRLF ++ post) ->
  forall k, extractEmailBody raw k = (Normal (trim raw), k).
Proof.
  intros H k. apply indexOf_None in H.
  unfold extractEmailBody. now rewrite H.
Qed.

Lemma no_separator_witness :
  extractEmailBody (str "  hello world ") [] = (Normal (str "hello world"), []).
Proof.
  apply (no_separator_returns_trimmed_input (str "  hello world ")).
  apply indexOf_None. vm_compute. reflexivity.
Defined.

(** C6.  With the encoding name [base64], a text that [atob] rejects
    once its white space is removed comes back unchanged; one diagnostic
    is written and nothing is thrown. *)
Theorem invalid_base64_is_returned_unchanged (text : jsstring) (k : console) :
  Base64.atob (filter (fun c => negb (isWhiteSpace c)) text) = None ->
  decodeContent text (Some (str "base64")) k = (Normal text, k ++ [Base64DecodingFailed]).
Proof.
  intros H. unfold decodeContent.
  destruct text as [|c text]; [discriminate |].
  cbn [truthy negb]. rewrite encoding_base64.
  unfold replaceAll. rewrite strip_whitespace_filter, H. reflexivity.
Qed.

Lemma invalid_base64_witness :
  decodeContent (str "aGVsbG8!") (Some (str "base64")) []
  = (Normal (str "aGVsbG8!"), [Base64DecodingFailed]).
Proof.
  apply (invalid_base64_is_returned_unchanged (str "aGVsbG8!") []).
  vm_compute. reflexivity.
Defined.

(** C9.  In the multipart branch, when the loop meets no plain part, the
    HTML body it ends with is the decoded body of the last HTML part:
    earlier HTML parts are overwritten.  The message then resolves from
    that body. *)
Theorem last_html_part_is_kept (raw : jsstring) (i : nat) (boundary : jsstring) (re : regexp)
    (pre : list jsstring) (part : jsstring) (post : list jsstring) (body te : jsstring) :
  indexOf raw CRLFCRLF = Some i ->
  branchOf (substring raw 0 i) (substringFrom raw (i + 4)) = Multipart boundary ->
  compile (boundaryPattern boundary) noFlags = POk re ->
  split re (substringFrom raw (i + 4)) = map Some (pre ++ part :: post) ->
  Forall (fun q => forall b e, kindOf q <> PlainPart b e) pre ->
  kindOf part = HtmlPart body te ->
  Forall (fun q => kindOf q = Skipped) post ->
  result (scanParts (split re (substringFrom raw (i + 4))) [] []) = Normal ([], decoded body te) /\
  result (extractEmailBody raw) = Normal (resolveBody [] (decoded body te)).
Proof.
  intros Hi Hb Hre Hsplit Hpre Hpart Hpost.
  assert (Hscan : result (scanParts (split re (substringFrom raw (i + 4))) [] [])
                  = Normal ([], decoded body te)).
  { rewrite Hsplit. now apply scanParts_html. }
  split; [exact Hscan |].
  rewrite (extractEmailBody_multipart raw i boundary re Hi Hb Hre).
  apply result_resolve; [apply scanParts_writes | exact Hscan].
Qed.

(** C10.  Whatever [extractEmailBody] returns equals its own [trim]. *)
Theorem returned_text_is_trimmed (raw : jsstring) (k : console) (s : jsstring) :
  fst (extractEmailBody raw k) = Normal s -> trim s = s.
Proof.
  intros H. apply extractEmailBody_shape in H. destruct H as [t ->].
  apply trim_idempotent.
Qed.

Lemma returned_text_is_trimmed_witness :
  trim (str "Hi  there") = str "Hi  there".
Proof.
  apply (returned_text_is_trimmed htmlOnlyMessage []). vm_compute. reflexivity.
Defined.

(** C4 (as the code has it).  For the multipart message whose only part
    is the HTML [<p>Hi <b>there</b></p>] the result is [Hi  there] with
    two spaces: each tag becomes one space and white space is not
    collapsed.  In general an HTML body that is used is returned with
    every tag replaced by one space, then trimmed. *)
Theorem html_tags_become_single_spaces :
  result (extractEmailBody htmlOnlyMessage) = Normal (str "Hi  there") /\
  forall plainTextBody htmlBody,
    truthy (trim plainTextBody) = false -> truthy (trim htmlBody) = true ->
    resolveBody plainTextBody htmlBody = trim (stripTags false htmlBody).
Proof.
  split; [vm_compute; reflexivity |].
  intros p h Hp Hh. unfold resolveBody. rewrite Hp, Hh. unfold replaceAll.
  now rewrite (stripTags_refines _ (List.length h)) by lia.
Qed.

Lemma html_tags_witness :
  resolveBody [] (str "<p>Hi <b>there</b></p>") = str "Hi  there".
Proof.
  apply (proj2 html_tags_become_single_spaces [] (str "<p>Hi <b>there</b></p>"));
    reflexivity.
Defined.

(** C4 as stated fails: the result is not [Hi there] with one space. *)
Lemma html_whitespace_is_not_collapsed :
  result (extractEmailBody htmlOnlyMessage) <> Normal (str "Hi there").
Proof. vm_compute. discriminate. Qed.

(** C1 as stated fails: with the boundary [(] the pattern handed to
    [new RegExp] has an unterminated group and the constructor throws. *)
Lemma paren_boundary_throws :
  result (extractEmailBody parenBoundaryMessage) = Throw SyntaxError.
Proof. vm_compute. reflexivity. Qed.

Lemma last_html_part_witness :
  result (extractEmailBody twoHtmlMessage) = Normal (str "Hi  there").
Proof.
  eapply proj2.
  eapply (last_html_part_is_kept twoHtmlMessage _ _ _ [[]; earlierHtmlPart] htmlPart [[]]
            (str "<p>Hi <b>there</b></p>") []).
  - vm_compute. reflexivity.
  - vm_compute. reflexivity.
  - vm_compute. reflexivity.
  - vm_compute. reflexivity.
  - repeat constructor; intros b e; vm_compute; discriminate.
  - vm_compute. reflexivity.
  - repeat constructor.
Defined.

(** C1 (as the code has it).  For an input that does not take the
    multipart branch, and for one that takes it with a boundary free of
    the syntax characters [^ $ \ . * + ? ( ) [ ] { } |], [extractEmailBody]
    returns a string and throws nothing. *)
Theorem returns_when_boundary_has_no_syntax_character (raw : jsstring) (k : console) :
  (forall i boundary,
      indexOf raw CRLFCRLF = Some i ->
      branchOf (substring raw 0 i) (substringFrom raw (i + 4)) = Multipart boundary ->
      plainText boundary) ->
  exists s k', extractEmailBody raw k = (Normal s, k').
Proof.
  intros Hplain. unfold extractEmailBody.
  destruct (indexOf raw CRLFCRLF) as [i|] eqn:Ei; [| now exists (trim raw), k].
  cbv zeta.
  destruct (branchOf (substring raw 0 i) (substringFrom raw (i + 4))) as [boundary|] eqn:Eb.
  - specialize (Hplain i boundary eq_refl Eb).
    unfold newRegExp. rewrite (compile_plain_boundary boundary Hplain), bind_ret.
    destruct (split_defined
                {| reAst := boundaryAst boundary; reGroups := 0; reFlags := noFlags |}
                (substringFrom raw (i + 4)) eq_refl) as [parts Hparts].
    rewrite Hparts.
    destruct (scanParts_returns parts [] [] k) as [[p h] [k' E]].
    unfold bind. rewrite E. now exists (resolveBody p h), k'.
  - destruct (transferEncodingOf_returns (substring raw 0 i)) as [te Ete].
    rewrite Ete, bind_ret.
    destruct (decodeContent_returns (substringFrom raw (i + 4)) (Some te) k) as [d [k' E]].
    unfold bind. rewrite E. now exists (resolveBody d []), k'.
Qed.

Lemma returns_witness :
  exists s k', extractEmailBody htmlOnlyMessage [] = (Normal s, k').
Proof.
  apply (returns_when_boundary_has_no_syntax_character htmlOnlyMessage []).
  intros i boundary Hi Hb.
  vm_compute in Hi. injection Hi as <-.
  vm_compute in Hb. injection Hb as <-.
  repeat constructor.
Defined.

(** C8 (as the code has it).  When the header block has a line that
    reads, up to the case of letters, [Content-Type:], white space,
    [multipart/], a subtype of letters, digits, [.], [_] and [-], a
    semicolon, white space, [boundary=], an optional double quote and at
    least one unit that is neither a double quote nor white space, and
    the raw body is not empty, the multipart branch is taken: the
    pattern of some boundary is compiled and the body is split on it. *)
Theorem multipart_header_takes_multipart_branch
    (raw : jsstring) (i : nat) (pre name w1 kind sub w2 param quote value rest : jsstring) :
  indexOf raw CRLFCRLF = Some i ->
  substring raw 0 i = pre ++ headerLine name w1 kind sub w2 param quote value rest ->
  startsLine pre ->
  sameIgnoringCase name (str "Content-Type:") ->
  whitespaceText w1 ->
  sameIgnoringCase kind (str "multipart/") ->
  sub <> [] /\ subtypeText sub ->
  whitespaceText w2 ->
  sameIgnoringCase param (str "boundary=") ->
  quote = [] \/ quote = DQ ->
  value <> [] /\ valueText value ->
  substringFrom raw (i + 4) <> [] ->
  exists boundary,
    branchOf (substring raw 0 i) (substringFrom raw (i + 4)) = Multipart boundary /\
    extractEmailBody raw =
    ('(plainTextBody, htmlBody) <-
       (boundaryRegex <- newRegExp (boundaryPattern boundary) ;;
        scanParts (split boundaryRegex (substringFrom raw (i + 4))) [] []) ;;
     ret (resolveBody plainTextBody htmlBody)).
Proof.
  intros Hi Hhdr Hpre Hname Hw1 Hkind Hsub Hw2 Hparam Hquote Hvalue Hbody.
  pose proof (multipart_header_found pre name w1 kind sub w2 param quote value rest
                Hpre Hname Hw1 Hkind Hsub Hw2 Hparam Hquote Hvalue) as Hfound.
  rewrite <- Hhdr in Hfound.
  assert (Hb : exists boundary,
             branchOf (substring raw 0 i) (substringFrom raw (i + 4)) = Multipart boundary).
  { unfold branchOf.
    destruct (exec reMultipart (substring raw 0 i)) as [m|]; [| contradiction].
    destruct (substringFrom raw (i + 4)); [contradiction |]. cbn [truthy]. eauto. }
  destruct Hb as [boundary Hb]. exists boundary. split; [exact Hb |].
  unfold extractEmailBody. now rewrite Hi, Hb.
Qed.

Lemma multipart_header_witness :
  exists boundary,
    branchOf (substring htmlOnlyMessage 0 49) (substringFrom htmlOnlyMessage (49 + 4))
    = Multipart boundary /\
    extractEmailBody htmlOnlyMessage =
    ('(plainTextBody, htmlBody) <-
       (boundaryRegex <- newRegExp (boundaryPattern boundary) ;;
        scanParts (split boundaryRegex (substringFrom htmlOnlyMessage (49 + 4))) [] []) ;;
     ret (resolveBody plainTextBody htmlBody)).
Proof.
  apply (multipart_header_takes_multipart_branch htmlOnlyMessage 49
           [] (str "Content-Type:") (str " ") (str "multipart/") (str "alternative")
           (str " ") (str "boundary=") [] (str "XYZ") []).
  - vm_compute. reflexivity.
  - vm_compute. reflexivity.
  - now left.
  - repeat constructor.
  - repeat constructor.
  - repeat constructor.
  - split; [discriminate | repeat constructor].
  - repeat constructor.
  - repeat constructor.
  - now left.
  - split; [discriminate | repeat constructor].
  - vm_compute. discriminate.
Defined.

(** C8 as stated fails: a header that declares a multipart type and
    carries a boundary parameter after another parameter is not matched,
    and the message takes the single-part branch. *)
Lemma later_boundary_takes_single_part :
  indexOf laterBoundaryMessage CRLFCRLF = Some 58 /\
  substringFrom laterBoundaryMessage (58 + 4) <> [] /\
  branchOf (substring laterBoundaryMessage 0 58) (substringFrom laterBoundaryMessage (58 + 4))
  = SinglePart.
Proof. vm_compute. repeat split; discriminate || reflexivity. Qed.

End Claims.

(* ================================================================== *)
(** * Further properties of the code *)

(** ** [decodeContent] and base64 *)

Section Base64Facts.

Lemma three_ind (P : jsstring -> Prop) :
  P [] -> (forall a, P [a]) -> (forall a b, P [a; b]) ->
  (forall a b c rest, P rest -> P (a :: b :: c :: rest)) ->
  forall s, P s.
Proof.
  intros H0 H1 H2 H3 s.
  assert (H : P s /\ (forall a, P (a :: s)) /\ (forall a b, P (a :: b :: s))).
  { induction s as [|c s [IH0 [IH1 IH2]]]; [now repeat split |].
    repeat split; auto. }
  apply H.
Qed.

Ltac decide_units :=
  repeat match goal with
         | |- context [(?a <? ?b)%N] => destruct (N.ltb_spec a b)
         | |- context [(?a <=? ?b)%N] => destruct (N.leb_spec a b)
         | |- context [(?a =? ?b)%N] => destruct (N.eqb_spec a b)
         end; cbn [andb orb negb]; try reflexivity; try discriminate; try lia.

Lemma alphabet_sextet v : (v < 64)%N -> Base64.sextet (alphabet v) = Some v.
Proof.
  intros H. unfold Base64.sextet, alphabet, inRange.
  decide_units; f_equal; lia.
Qed.

Lemma alphabet_range v : (v < 64)%N -> (43 <= alphabet v <= 122)%N /\ alphabet v <> 61%N.
Proof.
  intros H. unfold alphabet.
  destruct (N.ltb_spec v 26); [lia |].
  destruct (N.ltb_spec v 52); [lia |].
  destruct (N.ltb_spec v 62); [lia |].
  destruct (N.eqb_spec v 62); lia.
Qed.

Lemma alphabet_plain v :
  (v < 64)%N ->
  (alphabet v =? 61)%N = false /\ isWhiteSpace (alphabet v) = false
  /\ Base64.isAsciiWhitespace (alphabet v) = false.
Proof.
  intros H. destruct (alphabet_range v H) as [[H1 H2] H3].
  split; [now apply N.eqb_neq |].
  split; [apply isWhiteSpace_printable; lia |].
  unfold Base64.isAsciiWhitespace.
  repeat match goal with
         | |- context [(?a =? ?b)%N] => destruct (N.eqb_spec a b); [lia |]
         end.
  reflexivity.
Qed.

Lemma stripPadding_eq s :
  Base64.stripPadding s =
  if List.length s mod 4 =? 0 then
    match rev s with
    | x :: t =>
        if (x =? 61)%N then
          match t with
          | y :: r => if (y =? 61)%N then rev r else rev t
          | [] => rev t
          end
        else s
    | [] => s
    end
  else s.
Proof.
  unfold Base64.stripPadding.
  destruct (List.length s mod 4 =? 0); [| reflexivity].
  destruct (rev s) as [|x t]; [reflexivity |].
  destruct (N.eqb_spec x 61) as [-> | Hx].
  - destruct t as [|y r]; [reflexivity |].
    destruct (N.eqb_spec y 61) as [-> | Hy]; [reflexivity |].
    destruct y as [|p]; [reflexivity |].
    do 6 (destruct p as [p|p|]; try reflexivity). congruence.
  - destruct x as [|p]; [reflexivity |].
    do 6 (destruct p as [p|p|]; try reflexivity). congruence.
Qed.


Lemma btoa_sextets : forall s, btoa s = map alphabet (sextetsOf s) ++ padding s.
Proof.
  intros s. pattern s. apply three_ind; clear s; try reflexivity.
  intros a b c rest IH. cbn [btoa sextetsOf padding map app]. now rewrite IH.
Qed.

Ltac euclid a n :=
  let q := fresh "q" in let r := fresh "r" in
  pose proof (N.div_mod a n ltac:(discriminate));
  pose proof (N.mod_lt a n ltac:(discriminate));
  set (q := (a / n)%N) in *; set (r := (a mod n)%N) in *;
  clearbody q r.

Lemma sextetsOf_small : forall s,
  Forall (fun c => isByte c = true) s -> Forall (fun v => (v < 64)%N) (sextetsOf s).
Proof.
  unfold isByte.
  intros s. pattern s. apply three_ind; clear s;
    [| intros a | intros a b | intros a b c rest IH]; intros H; cbn [sextetsOf].
  - constructor.
  - inversion_clear H as [|? ? Ha _]. apply N.ltb_lt in Ha.
    euclid a 4%N. repeat constructor; lia.
  - inversion_clear H as [|? ? Ha H']. inversion_clear H' as [|? ? Hb _].
    apply N.ltb_lt in Ha, Hb.
    euclid a 4%N. euclid b 16%N. repeat constructor; lia.
  - inversion_clear H as [|? ? Ha H']. inversion_clear H' as [|? ? Hb H''].
    inversion_clear H'' as [|? ? Hc Hrest].
    apply N.ltb_lt in Ha, Hb, Hc.
    euclid a 4%N. euclid b 16%N. euclid c 64%N.
    repeat (constructor; [lia |]). now apply IH.
Qed.

Lemma bytes_sextetsOf : forall s,
  Forall (fun c => isByte c = true) s -> Base64.bytes (sextetsOf s) = s.
Proof.
  unfold isByte.
  intros s. pattern s. apply three_ind; clear s;
    [| intros a | intros a b | intros a b c rest IH]; intros H; cbn [sextetsOf].
  - reflexivity.
  - inversion_clear H as [|? ? Ha _]. apply N.ltb_lt in Ha.
    cbn [Base64.bytes]. f_equal.
    euclid a 4%N. symmetry. apply (N.div_unique _ 16 a 0); lia.
  - inversion_clear H as [|? ? Ha H']. inversion_clear H' as [|? ? Hb _].
    apply N.ltb_lt in Ha, Hb.
    cbn [Base64.bytes]. cbv zeta.
    euclid a 4%N. euclid b 16%N.
    assert (E : (((q * 64 + (r * 16 + q0)) * 64 + r0 * 4) / 4 = 256 * a + b)%N).
    { symmetry. apply (N.div_unique _ 4 _ 0); lia. }
    rewrite E. f_equal; [| f_equal].
    + symmetry. apply (N.div_unique _ 256 a b); lia.
    + symmetry. apply (N.mod_unique _ 256 a b); lia.
  - inversion_clear H as [|? ? Ha H']. inversion_clear H' as [|? ? Hb H''].
    inversion_clear H'' as [|? ? Hc Hrest].
    apply N.ltb_lt in Ha, Hb, Hc.
    cbn [Base64.bytes]. cbv zeta. rewrite (IH Hrest).
    euclid a 4%N. euclid b 16%N. euclid c 64%N.
    assert (E : (((q * 64 + (r * 16 + q0)) * 64 + (r0 * 4 + q1)) * 64 + r1
                 = 65536 * a + 256 * b + c)%N) by lia.
    rewrite E. f_equal; [| f_equal; [| f_equal]].
    + symmetry. apply (N.div_unique _ 65536 a (256 * b + c)); lia.
    + assert (E2 : ((65536 * a + 256 * b + c) / 256 = 256 * a + b)%N).
      { symmetry. apply (N.div_unique _ 256 _ c); lia. }
      rewrite E2. symmetry. apply (N.mod_unique _ 256 a b); lia.
    + symmetry. apply (N.mod_unique _ 256 (256 * a + b) c); lia.
Qed.


Lemma sextetsOf_length : forall s,
  exists n r, List.length (sextetsOf s) = r + n * 4 /\
              List.length (padding s) = (if r =? 0 then 0 else 4 - r) /\
              (r = 0 \/ r = 2 \/ r = 3).
Proof.
  intros s. pattern s. apply three_ind; clear s.
  - exists 0, 0. auto.
  - intros a. exists 0, 2. auto.
  - intros a b. exists 0, 3. auto.
  - intros a b c rest [n [r [H1 [H2 H3]]]]. exists (S n), r.
    cbn [sextetsOf padding List.length]. rewrite H1. repeat split; auto. lia.
Qed.

Lemma sextets_alphabet vs :
  Forall (fun v => (v < 64)%N) vs -> Base64.sextets (map alphabet vs) = Some vs.
Proof.
  induction 1 as [|v vs Hv _ IH]; [reflexivity |].
  cbn [map Base64.sextets]. now rewrite (alphabet_sextet v Hv), IH.
Qed.

Lemma filter_alphabet (p : N -> bool) vs :
  Forall (fun v => p (alphabet v) = true) vs -> filter p (map alphabet vs) = map alphabet vs.
Proof.
  induction 1 as [|v vs Hv _ IH]; [reflexivity |].
  cbn [map filter]. now rewrite Hv, IH.
Qed.

Lemma padding_cases s : padding s = [] \/ padding s = [61%N] \/ padding s = [61; 61]%N.
Proof.
  pattern s. apply three_ind; clear s; cbn [padding]; auto.
Qed.

Lemma stripPadding_btoa s :
  Forall (fun c => isByte c = true) s ->
  Base64.stripPadding (btoa s) = map alphabet (sextetsOf s).
Proof.
  intros Hs. pose proof (sextetsOf_small s Hs) as Hsmall.
  destruct (sextetsOf_length s) as [n [r [H1 [H2 H3]]]].
  rewrite btoa_sextets, stripPadding_eq.
  rewrite length_app, length_map, H1, H2.
  assert (E : ((r + n * 4 + (if r =? 0 then 0 else 4 - r)) mod 4 =? 0) = true).
  { apply Nat.eqb_eq.
    destruct H3 as [-> | [-> | ->]]; cbn [Nat.eqb Nat.sub];
      [replace (0 + n * 4 + 0) with (n * 4) by lia
      | replace (2 + n * 4 + 2) with (S n * 4) by lia
      | replace (3 + n * 4 + 1) with (S n * 4) by lia];
      apply Nat.Div0.mod_mul. }
  rewrite E. rewrite rev_app_distr, <- map_rev.
  assert (Hrev : Forall (fun v => (v < 64)%N) (rev (sextetsOf s))).
  { apply Forall_forall. intros v Hv. apply in_rev in Hv.
    revert v Hv. now apply Forall_forall. }
  assert (Hback : map alphabet (sextetsOf s) = rev (map alphabet (rev (sextetsOf s)))).
  { now rewrite map_rev, rev_involutive. }
  destruct (padding_cases s) as [-> | [-> | ->]]; cbn [rev app].
  - destruct (rev (sextetsOf s)) as [|v t] eqn:Er; cbn [map].
    + now rewrite app_nil_r.
    + inversion_clear Hrev as [|? ? Hv _].
      destruct (alphabet_plain v Hv) as [-> _]. now rewrite app_nil_r.
  - cbn [N.eqb Pos.eqb].
    destruct (rev (sextetsOf s)) as [|v t] eqn:Er; cbn [map].
    + rewrite Hback. reflexivity.
    + inversion_clear Hrev as [|? ? Hv _].
      destruct (alphabet_plain v Hv) as [-> _]. rewrite Hback. reflexivity.
  - cbn [N.eqb Pos.eqb]. now rewrite Hback.
Qed.

Lemma atob_btoa s :
  Forall (fun c => isByte c = true) s -> Base64.atob (btoa s) = Some s.
Proof.
  intros Hs. pose proof (sextetsOf_small s Hs) as Hsmall.
  unfold Base64.atob.
  assert (F : filter (fun c => negb (Base64.isAsciiWhitespace c)) (btoa s) = btoa s).
  { rewrite btoa_sextets, filter_app. f_equal.
    - apply filter_alphabet. eapply Forall_impl; [| exact Hsmall].
      intros v Hv. cbv beta. now destruct (alphabet_plain v Hv) as [_ [_ ->]].
    - destruct (padding_cases s) as [-> | [-> | ->]]; reflexivity. }
  rewrite F, (stripPadding_btoa s Hs). cbv zeta.
  rewrite length_map.
  destruct (sextetsOf_length s) as [n [r [H1 [_ H3]]]]. rewrite H1.
  rewrite Nat.Div0.mod_add.
  assert (E : (r mod 4 =? 1) = false) by (destruct H3 as [-> | [-> | ->]]; reflexivity).
  rewrite E, (sextets_alphabet _ Hsmall). cbn [option_map].
  now rewrite bytes_sextetsOf.
Qed.


Lemma encoding_named te name :
  name <> [] -> toLowerCase te = name ->
  (if truthy te then toLowerCase te else []) = name.
Proof.
  intros Hn H. destruct te; [| exact H]. now symmetry in H.
Qed.

Lemma base64_decoded (bytes text te : jsstring) (k : console) :
  Forall (fun c => isByte c = true) bytes ->
  filter (fun c => negb (isWhiteSpace c)) text = btoa bytes ->
  toLowerCase te = str "base64" ->
  decodeContent text (Some te) k = (Normal bytes, k).
Proof.
  intros Hb Htext Hte. unfold decodeContent.
  destruct text as [|c text].
  - cbn [truthy negb]. destruct bytes as [|a [|b [|c rest]]]; [reflexivity | discriminate ..].
  - cbn [truthy negb].
    rewrite (encoding_named te (str "base64")) by (discriminate || exact Hte).
    change (JSString.eqb (str "base64") (str "base64")) with true. cbv iota.
    unfold replaceAll. rewrite strip_whitespace_filter, Htext, (atob_btoa bytes Hb).
    reflexivity.
Qed.

(** X1.  With an encoding name that is [base64] in any case, a text
    whose units other than white space are the base64 encoding of a
    text of bytes is decoded to these bytes, and nothing is written to the
    console. *)
Theorem base64_text_is_decoded (bytes text te : jsstring) (k : console) :
  Forall (fun c => isByte c = true) bytes ->
  filter (fun c => negb (isWhiteSpace c)) text = btoa bytes ->
  toLowerCase te = str "base64" ->
  decodeContent text (Some te) k = (Normal bytes, k).
Proof. apply base64_decoded. Qed.

Lemma base64_text_witness :
  decodeContent (str "aGVs" ++ CRLF ++ str "bG8=") (Some (str "Base64")) []
  = (Normal (str "hello"), []).
Proof.
  apply (base64_text_is_decoded (str "hello") (str "aGVs" ++ CRLF ++ str "bG8=") (str "Base64") []).
  - repeat constructor.
  - reflexivity.
  - reflexivity.
Defined.

End Base64Facts.

(** ** [decodeContent] and quoted-printable *)

Section QuotedPrintableFacts.

Lemma removeSoftBreaks_cons3 c d e t :
  removeSoftBreaks (c :: d :: e :: t) =
  if (c =? 61)%N && (d =? 13)%N && (e =? 10)%N then removeSoftBreaks t
  else c :: removeSoftBreaks (d :: e :: t).
Proof. reflexivity. Qed.

Lemma removeSoftBreaks_keep c t :
  (c =? 61)%N = false -> removeSoftBreaks (c :: t) = c :: removeSoftBreaks t.
Proof.
  intros H. destruct t as [|d [|e t]]; try reflexivity.
  now rewrite removeSoftBreaks_cons3, H.
Qed.

Lemma decodeHexEscapes_keep c t :
  (c =? 61)%N = false -> decodeHexEscapes (c :: t) = c :: decodeHexEscapes t.
Proof.
  intros H. destruct t as [|d [|e t]]; try reflexivity.
  now rewrite decodeHexEscapes_cons3, H.
Qed.

Lemma hex_is_not_special h :
  isHexDigit h = true -> (h =? 61)%N = false /\ (h =? 13)%N = false.
Proof.
  unfold isHexDigit. destruct (hexVal h) as [v|] eqn:E; [| discriminate].
  intros _.
  split; apply N.eqb_neq; intros ->; vm_compute in E; discriminate.
Qed.

Lemma removeSoftBreaks_tokens ts :
  forallb qpWellFormed ts = true ->
  removeSoftBreaks (flat_map qpText ts)
  = flat_map qpText (filter (fun t => match t with SoftBreak => false | _ => true end) ts).
Proof.
  induction ts as [|t ts IH]; [reflexivity |].
  cbn [forallb flat_map filter]. intros H. apply andb_prop in H. destruct H as [Ht Hts].
  specialize (IH Hts).
  destruct t as [c | h1 h2 |]; cbn [qpWellFormed qpText app] in *.
  - apply negb_true_iff in Ht. cbn [flat_map app]. now rewrite (removeSoftBreaks_keep _ _ Ht), IH.
  - apply andb_prop in Ht. destruct Ht as [H1 H2].
    destruct (hex_is_not_special _ H1) as [E1 E1'], (hex_is_not_special _ H2) as [E2 _].
    cbn [flat_map qpText app].
    rewrite removeSoftBreaks_cons3, E1'. rewrite andb_false_r. cbn [andb].
    rewrite (removeSoftBreaks_keep _ _ E1), (removeSoftBreaks_keep _ _ E2). now rewrite IH.
  - unfold CRLF, CR, LF. cbn [app]. rewrite removeSoftBreaks_cons3. exact IH.
Qed.

Lemma decodeHexEscapes_tokens ts :
  forallb qpWellFormed ts = true ->
  Forall (fun t => t <> SoftBreak) ts ->
  decodeHexEscapes (flat_map qpText ts) = flat_map qpValue ts.
Proof.
  induction ts as [|t ts IH]; [reflexivity |].
  cbn [forallb flat_map]. intros H Hs. apply andb_prop in H. destruct H as [Ht Hts].
  inversion_clear Hs as [|? ? Hne Hs']. specialize (IH Hts Hs').
  destruct t as [c | h1 h2 |]; cbn [qpWellFormed qpText qpValue app] in *.
  - apply negb_true_iff in Ht. now rewrite (decodeHexEscapes_keep _ _ Ht), IH.
  - apply andb_prop in Ht. destruct Ht as [H1 H2].
    unfold isHexDigit in H1, H2.
    destruct (hexVal h1) as [v1|] eqn:E1; [| discriminate].
    destruct (hexVal h2) as [v2|] eqn:E2; [| discriminate].
    rewrite decodeHexEscapes_cons3. cbn [N.eqb Pos.eqb]. rewrite E1, E2.
    cbn [app]. now rewrite IH.
  - contradiction.
Qed.

Lemma flat_map_qpValue_filter ts :
  flat_map qpValue (filter (fun t => match t with SoftBreak => false | _ => true end) ts)
  = flat_map qpValue ts.
Proof.
  induction ts as [|[c | h1 h2 |] ts IH]; cbn [filter flat_map qpValue app]; congruence.
Qed.

(** X3.  A quoted-printable text made of literal units other than
    [=], escapes [=XX] with two hex digits of either case, and soft line
    breaks [=CRLF] decodes to the literal units and the units of the
    escaped codes, in order; the soft line breaks leave nothing. *)
Theorem quoted_printable_tokens_are_decoded (ts : list qpToken) (te : jsstring) (k : console) :
  forallb qpWellFormed ts = true ->
  toLowerCase te = str "quoted-printable" ->
  decodeContent (flat_map qpText ts) (Some te) k = (Normal (flat_map qpValue ts), k).
Proof.
  intros Hts Hte. unfold decodeContent.
  destruct (flat_map qpText ts) as [|c text] eqn:Etext.
  - cbn [truthy negb]. unfold ret. f_equal. f_equal.
    clear Hts. induction ts as [|[c | h1 h2 |] ts IH]; cbn in Etext; try discriminate.
    reflexivity.
  - cbn [truthy negb].
    rewrite (encoding_named te (str "quoted-printable")) by (discriminate || exact Hte).
    change (JSString.eqb (str "quoted-printable") (str "base64")) with false.
    change (JSString.eqb (str "quoted-printable") (str "quoted-printable")) with true.
    cbv iota. unfold ret, replaceAll. f_equal. f_equal.
    rewrite (removeSoftBreaks_refines _ (List.length (c :: text))) by lia.
    rewrite (decodeHexEscapes_refines _ (List.length (removeSoftBreaks (c :: text))))
      by (reflexivity || lia).
    rewrite <- Etext, (removeSoftBreaks_tokens ts Hts).
    rewrite decodeHexEscapes_tokens.
    + apply flat_map_qpValue_filter.
    + clear Etext. induction ts as [|t ts IH]; [reflexivity |].
      cbn [forallb] in Hts. apply andb_prop in Hts. destruct Hts as [Ht Hts].
      destruct t; cbn [filter forallb]; rewrite ?Ht; auto.
    + apply Forall_forall. intros t Ht. apply filter_In in Ht. destruct Ht as [_ Ht].
      now destruct t.
Qed.

Lemma quoted_printable_tokens_witness :
  decodeContent (str "a=3D=" ++ CRLF ++ str "b=e9") (Some (str "Quoted-Printable")) []
  = (Normal (str "a=b" ++ [233%N]), []).
Proof.
  apply (quoted_printable_tokens_are_decoded
           [Literal 97; Escape 51 68; SoftBreak; Literal 98; Escape 101 57]
           (str "Quoted-Printable") []); reflexivity.
Defined.

Lemma removeSoftBreaks_same text : hasEscape text = false -> removeSoftBreaks text = text.
Proof.
  induction text as [|c t IH]; [reflexivity |].
  cbn [hasEscape]. intros H. apply orb_false_elim in H. destruct H as [H Ht].
  specialize (IH Ht).
  destruct t as [|d [|e t']]; [reflexivity | now rewrite <- IH at 2 |].
  rewrite removeSoftBreaks_cons3.
  destruct (c =? 61)%N; [| cbn [andb]; now rewrite IH].
  cbn [andb] in *. apply orb_false_elim in H. destruct H as [H _].
  rewrite H. now rewrite IH.
Qed.

Lemma decodeHexEscapes_same text : hasEscape text = false -> decodeHexEscapes text = text.
Proof.
  induction text as [|c t IH]; [reflexivity |].
  cbn [hasEscape]. intros H. apply orb_false_elim in H. destruct H as [H Ht].
  specialize (IH Ht).
  destruct t as [|d [|e t']]; [reflexivity | now rewrite <- IH at 2 |].
  rewrite decodeHexEscapes_cons3.
  destruct (c =? 61)%N; [| now rewrite IH].
  cbn [andb] in *. apply orb_false_elim in H. destruct H as [_ H].
  unfold isHexDigit in H.
  destruct (hexVal d); [destruct (hexVal e); [discriminate |] |]; now rewrite IH.
Qed.

(** X4.  A text without a soft line break and without an [=]
    followed by two hex digits is returned unchanged by quoted-printable
    decoding: an [=] that starts no escape is kept. *)
Theorem quoted_printable_without_escapes_is_unchanged (text te : jsstring) (k : console) :
  hasEscape text = false ->
  toLowerCase te = str "quoted-printable" ->
  decodeContent text (Some te) k = (Normal text, k).
Proof.
  intros Htext Hte. unfold decodeContent.
  destruct text as [|c text]; [reflexivity |].
  cbn [truthy negb].
  rewrite (encoding_named te (str "quoted-printable")) by (discriminate || exact Hte).
  change (JSString.eqb (str "quoted-printable") (str "base64")) with false.
  change (JSString.eqb (str "quoted-printable") (str "quoted-printable")) with true.
  cbv iota. unfold ret, replaceAll. f_equal. f_equal.
  rewrite (removeSoftBreaks_refines _ (List.length (c :: text))) by lia.
  rewrite (removeSoftBreaks_same _ Htext).
  rewrite (decodeHexEscapes_refines _ (List.length (c :: text))) by (reflexivity || lia).
  now apply decodeHexEscapes_same.
Qed.

Lemma quoted_printable_unchanged_witness :
  decodeContent (str "1+1=2, a=b =4") (Some (str "quoted-printable")) []
  = (Normal (str "1+1=2, a=b =4"), []).
Proof.
  apply (quoted_printable_without_escapes_is_unchanged
           (str "1+1=2, a=b =4") (str "quoted-printable") []); reflexivity.
Defined.

End QuotedPrintableFacts.

(** ** [decodeContent] in general *)

Section DecodeFacts.

Lemma four_ind (P : list N -> Prop) :
  P [] -> (forall a, P [a]) -> (forall a b, P [a; b]) -> (forall a b c, P [a; b; c]) ->
  (forall a b c d rest, P rest -> P (a :: b :: c :: d :: rest)) ->
  forall s, P s.
Proof.
  intros H0 H1 H2 H3 H4 s.
  assert (H : P s /\ (forall a, P (a :: s)) /\ (forall a b, P (a :: b :: s))
              /\ (forall a b c, P (a :: b :: c :: s))).
  { induction s as [|c s [IH0 [IH1 [IH2 IH3]]]]; [now repeat split |].
    repeat split; auto. }
  apply H.
Qed.

Lemma sextet_small c v : Base64.sextet c = Some v -> (v < 64)%N.
Proof.
  unfold Base64.sextet, inRange.
  repeat match goal with
         | |- context [(?a <=? ?b)%N] => destruct (N.leb_spec a b)
         | |- context [(?a =? ?b)%N] => destruct (N.eqb_spec a b)
         end; cbn [andb]; intros E; inversion E; lia.
Qed.

Lemma sextets_small s : forall vs,
  Base64.sextets s = Some vs -> Forall (fun v => (v < 64)%N) vs /\ List.length vs = List.length s.
Proof.
  induction s as [|c s IH]; intros vs E; cbn [Base64.sextets] in E.
  - inversion E. split; [constructor | reflexivity].
  - destruct (Base64.sextet c) as [v|] eqn:Ev; [| discriminate].
    destruct (Base64.sextets s) as [vs'|]; [| discriminate].
    inversion E. subst. destruct (IH vs' eq_refl) as [H1 H2].
    split; [constructor; [now apply (sextet_small c) | exact H1] | cbn; now rewrite H2].
Qed.

Lemma bytes_are_bytes : forall vs,
  Forall (fun v => (v < 64)%N) vs ->
  Forall (fun c => isByte c = true) (Base64.bytes vs) /\ List.length (Base64.bytes vs) <= List.length vs.
Proof.
  unfold isByte.
  intros vs. pattern vs. apply four_ind; clear vs;
    [| intros a | intros a b | intros a b c | intros a b c d rest IH]; intros H;
    cbn [Base64.bytes List.length]; cbv zeta.
  - split; [constructor | lia].
  - split; [constructor | lia].
  - inversion_clear H as [|? ? Ha H']. inversion_clear H' as [|? ? Hb _].
    split; [| lia]. repeat constructor. apply N.ltb_lt.
    apply N.Div0.div_lt_upper_bound. lia.
  - inversion_clear H as [|? ? Ha H']. inversion_clear H' as [|? ? Hb H''].
    inversion_clear H'' as [|? ? Hc _].
    split; [| lia]. repeat constructor; apply N.ltb_lt.
    + apply N.Div0.div_lt_upper_bound. apply N.Div0.div_lt_upper_bound. lia.
    + apply N.mod_lt. discriminate.
  - inversion_clear H as [|? ? Ha H']. inversion_clear H' as [|? ? Hb H''].
    inversion_clear H'' as [|? ? Hc H3]. inversion_clear H3 as [|? ? Hd Hrest].
    destruct (IH Hrest) as [IH1 IH2].
    split; [| lia]. repeat (constructor; [apply N.ltb_lt |]); try exact IH1.
    + apply N.Div0.div_lt_upper_bound. lia.
    + apply N.mod_lt. discriminate.
    + apply N.mod_lt. discriminate.
Qed.

Lemma stripPadding_length s : List.length (Base64.stripPadding s) <= List.length s.
Proof.
  rewrite stripPadding_eq.
  destruct (List.length s mod 4 =? 0); [| lia].
  destruct (rev s) as [|x t] eqn:E; [lia |].
  assert (L : List.length s = S (List.length t)) by (rewrite <- length_rev, E; reflexivity).
  destruct (x =? 61)%N; [| lia].
  destruct t as [|y r]; [cbn; lia |].
  destruct (y =? 61)%N; rewrite length_rev; cbn in *; lia.
Qed.

Lemma filter_length {A} (p : A -> bool) (l : list A) : List.length (filter p l) <= List.length l.
Proof. induction l as [|a l IH]; cbn; [lia | destruct (p a); cbn; lia]. Qed.

Lemma atob_bytes s d :
  Base64.atob s = Some d ->
  Forall (fun c => isByte c = true) d /\ List.length d <= List.length s.
Proof.
  unfold Base64.atob. cbv zeta.
  set (t := Base64.stripPadding _).
  destruct (List.length t mod 4 =? 1); [discriminate |].
  destruct (Base64.sextets t) as [vs|] eqn:E; [| discriminate].
  cbn [option_map]. intros H. inversion H. subst d.
  destruct (sextets_small t vs E) as [H1 H2].
  destruct (bytes_are_bytes vs H1) as [H3 H4].
  split; [exact H3 |].
  pose proof (stripPadding_length (filter (fun c => negb (Base64.isAsciiWhitespace c)) s)).
  pose proof (filter_length (fun c => negb (Base64.isAsciiWhitespace c)) s).
  fold t in H0. lia.
Qed.

(** X2.  When [atob] accepts the text without its white space,
    [decodeContent] returns the result of [atob] and writes nothing; every
    unit of the result is a byte: no character set is applied. *)
Theorem accepted_base64_gives_bytes (text te d : jsstring) (k : console) :
  toLowerCase te = str "base64" ->
  Base64.atob (filter (fun c => negb (isWhiteSpace c)) text) = Some d ->
  decodeContent text (Some te) k = (Normal d, k) /\ Forall (fun c => isByte c = true) d.
Proof.
  intros Hte Hd. split; [| exact (proj1 (atob_bytes _ _ Hd))].
  unfold decodeContent. destruct text as [|c text].
  - cbn in Hd. inversion Hd. reflexivity.
  - cbn [truthy negb].
    rewrite (encoding_named te (str "base64")) by (discriminate || exact Hte).
    change (JSString.eqb (str "base64") (str "base64")) with true. cbv iota.
    unfold replaceAll. now rewrite strip_whitespace_filter, Hd.
Qed.

Lemma accepted_base64_witness :
  decodeContent (str "/+8") (Some (str "BASE64")) [] = (Normal [255; 239]%N, [])
  /\ Forall (fun c => isByte c = true) [255; 239]%N.
Proof.
  apply (accepted_base64_gives_bytes (str "/+8") (str "BASE64") [255; 239]%N []); reflexivity.
Defined.

(** X5.  When the encoding name is absent, or is in lower case
    neither [base64] nor [quoted-printable], [decodeContent] returns the
    text as it is and writes nothing. *)
Theorem other_encodings_leave_the_text (text : jsstring) (te : option jsstring) (k : console) :
  (forall t, te = Some t ->
             toLowerCase t <> str "base64" /\ toLowerCase t <> str "quoted-printable") ->
  decodeContent text te k = (Normal text, k).
Proof.
  intros H. unfold decodeContent.
  destruct text as [|c text]; [reflexivity |]. cbn [truthy negb].
  set (encoding := match te with Some t => if truthy t then toLowerCase t else [] | None => [] end).
  assert (E : encoding <> str "base64" /\ encoding <> str "quoted-printable").
  { subst encoding. destruct te as [[|a t]|]; [split; discriminate | | split; discriminate].
    cbn [truthy]. now apply H. }
  destruct E as [E1 E2].
  destruct (JSString.eqb encoding (str "base64")) eqn:B1; [now apply eqb_eq in B1 |].
  destruct (JSString.eqb encoding (str "quoted-printable")) eqn:B2; [now apply eqb_eq in B2 |].
  reflexivity.
Qed.

Lemma other_encodings_witness :
  decodeContent (str "aGVsbG8=") (Some (str "base64 ")) [] = (Normal (str "aGVsbG8="), []).
Proof.
  apply (other_encodings_leave_the_text (str "aGVsbG8=") (Some (str "base64 ")) []).
  intros t E. inversion E. split; discriminate.
Defined.

(** X6.  [decodeContent] never throws: it returns a string and
    leaves the console as it is, or it returns the text it was given and
    has written the one line of the base64 failure. *)
Theorem decodeContent_never_throws (text : jsstring) (te : option jsstring) (k : console) :
  (exists d, decodeContent text te k = (Normal d, k))
  \/ decodeContent text te k = (Normal text, k ++ [Base64DecodingFailed]).
Proof.
  destruct (decodeContent_cases text te) as [[d ->] | ->].
  - left. now exists d.
  - now right.
Qed.

Lemma removeSoftBreaks_length : forall n s,
  List.length s <= n -> List.length (removeSoftBreaks s) <= List.length s.
Proof.
  induction n as [|n IH]; intros s Hn.
  - destruct s; [cbn; lia | cbn in Hn; lia].
  - destruct s as [|c [|d [|e t]]]; try (cbn; lia).
    rewrite removeSoftBreaks_cons3.
    destruct ((c =? 61)%N && (d =? 13)%N && (e =? 10)%N).
    + specialize (IH t). cbn [List.length] in *. lia.
    + specialize (IH (d :: e :: t)). cbn [List.length] in *. lia.
Qed.

Lemma decodeHexEscapes_length : forall n s,
  List.length s <= n -> List.length (decodeHexEscapes s) <= List.length s.
Proof.
  induction n as [|n IH]; intros s Hn.
  - destruct s; [cbn; lia | cbn in Hn; lia].
  - destruct s as [|c [|d [|e t]]]; try (cbn; lia).
    rewrite decodeHexEscapes_cons3.
    destruct (if (c =? 61)%N then hexVal d else None); [destruct (hexVal e) |].
    + specialize (IH t). cbn [List.length] in *. lia.
    + specialize (IH (d :: e :: t)). cbn [List.length] in *. lia.
    + specialize (IH (d :: e :: t)). cbn [List.length] in *. lia.
Qed.

Lemma normal_inj {A} (a b : A) (k k' : console) : (Normal a, k) = (Normal b, k') -> a = b.
Proof. congruence. Qed.

Lemma decodeContent_length text te k d k' :
  decodeContent text te k = (Normal d, k') -> List.length d <= List.length text.
Proof.
  unfold decodeContent.
  destruct text as [|c text];
    [unfold ret; cbn [truthy negb]; intros H; apply normal_inj in H; subst d; apply le_n |].
  cbn [truthy negb].
  destruct (JSString.eqb _ (str "base64")).
  - unfold replaceAll. rewrite strip_whitespace_filter.
    destruct (Base64.atob _) as [d'|] eqn:E.
    + unfold ret. intros H. apply normal_inj in H. subst d'.
      eapply Nat.le_trans; [exact (proj2 (atob_bytes _ _ E)) | apply filter_length].
    + unfold bind, warn, ret. intros H. apply normal_inj in H. subst d. apply le_n.
  - destruct (JSString.eqb _ (str "quoted-printable")).
    + unfold ret, replaceAll. intros H. apply normal_inj in H. subst d.
      rewrite (removeSoftBreaks_refines _ (List.length (c :: text))) by lia.
      rewrite (decodeHexEscapes_refines _ (List.length (removeSoftBreaks (c :: text))))
        by (reflexivity || lia).
      eapply Nat.le_trans; [apply (decodeHexEscapes_length _ _ (le_n _)) |].
      apply (removeSoftBreaks_length _ _ (le_n _)).
    + unfold ret. intros H. apply normal_inj in H. subst d. apply le_n.
Qed.

End DecodeFacts.

(** ** The loop over the parts and the final choice *)

Section BodyFacts.

Lemma trim_middle s : exists w1 w2, s = w1 ++ trim s ++ w2.
Proof.
  unfold trim. destruct (dropWhile_suffix isWhiteSpace s) as [w1 H1].
  destruct (trimEnd_prefix (trimStart s)) as [w2 H2].
  exists w1, w2. unfold trimStart in *. now rewrite <- H2.
Qed.

Lemma trim_length s : List.length (trim s) <= List.length s.
Proof.
  destruct (trim_middle s) as [w1 [w2 H]]. rewrite H at 2. rewrite !length_app. lia.
Qed.

Lemma trim_In c s : In c (trim s) -> In c s.
Proof.
  destruct (trim_middle s) as [w1 [w2 H]]. intros Hc. rewrite H.
  apply in_or_app. right. apply in_or_app. now left.
Qed.

Lemma stripTags_no_bracket s : forall inTag, ~ In 60%N (stripTags inTag s).
Proof.
  induction s as [|c s IH]; intros inTag; cbn [stripTags]; [intros [] |].
  destruct inTag; [apply IH |].
  destruct (N.eqb_spec c 60) as [-> | Hc].
  - intros [H | H]; [discriminate | now apply IH in H].
  - intros [H | H]; [congruence | now apply IH in H].
Qed.

Lemma stripTags_length s : forall inTag, List.length (stripTags inTag s) <= List.length s.
Proof.
  induction s as [|c s IH]; intros inTag; cbn [stripTags List.length]; [lia |].
  destruct inTag; [specialize (IH (negb (c =? 62)%N)); lia |].
  destruct (c =? 60)%N; cbn [List.length]; [specialize (IH true) | specialize (IH false)]; lia.
Qed.

Lemma resolveBody_html p h :
  truthy (trim p) = false ->
  resolveBody p h = if truthy (trim h) then trim (stripTags false h) else [].
Proof.
  intros Hp. unfold resolveBody. rewrite Hp. destruct (truthy (trim h)); [| reflexivity].
  unfold replaceAll. now rewrite (stripTags_refines _ (List.length h)) by lia.
Qed.

(** X19.  When the plain body is blank, the final choice contains
    no [<]: every opening bracket of the HTML body starts a tag that is
    replaced by a space. *)
Theorem blank_plain_body_gives_text_without_tags (plainTextBody htmlBody : jsstring) :
  truthy (trim plainTextBody) = false ->
  ~ In 60%N (resolveBody plainTextBody htmlBody).
Proof.
  intros Hp. rewrite (resolveBody_html _ _ Hp).
  destruct (truthy (trim htmlBody)); [| intros []].
  intros H. apply trim_In in H. now apply stripTags_no_bracket in H.
Qed.

Lemma blank_plain_body_witness :
  ~ In 60%N (resolveBody (str "  ") (str "<a href=x>1 < 2</a> <unclosed")).
Proof.
  apply (blank_plain_body_gives_text_without_tags (str "  ") (str "<a href=x>1 < 2</a> <unclosed")).
  reflexivity.
Defined.

Lemma resolveBody_length p h :
  List.length (resolveBody p h) <= Nat.max (List.length p) (List.length h).
Proof.
  unfold resolveBody.
  destruct (truthy (trim p)).
  - pose proof (trim_length p). lia.
  - destruct (truthy (trim h)); [| cbn; lia].
    unfold replaceAll. rewrite (stripTags_refines _ (List.length h)) by lia.
    pose proof (trim_length (stripTags false h)). pose proof (stripTags_length h false). lia.
Qed.

Lemma scanParts_scan parts : forall p h,
  result (scanParts (map Some parts) p h) = Normal (scan parts p h).
Proof.
  induction parts as [|part rest IH]; intros p h; [reflexivity |].
  cbn [map scan]. rewrite scanParts_cons.
  destruct (kindOf part) as [|body te|body te].
  - apply IH.
  - now rewrite result_decode_then by (intros; apply writes_ret).
  - rewrite result_decode_then by (intros; apply scanParts_writes). apply IH.
Qed.

Lemma extractEmailBody_scan (raw : jsstring) (i : nat) (boundary : jsstring) (re : regexp)
    (parts : list jsstring) :
  indexOf raw CRLFCRLF = Some i ->
  branchOf (substring raw 0 i) (substringFrom raw (i + 4)) = Multipart boundary ->
  compile (boundaryPattern boundary) noFlags = POk re ->
  split re (substringFrom raw (i + 4)) = map Some parts ->
  result (extractEmailBody raw)
  = Normal (resolveBody (fst (scan parts [] [])) (snd (scan parts [] []))).
Proof.
  intros Hi Hb Hre Hsplit.
  rewrite (extractEmailBody_multipart raw i boundary re Hi Hb Hre), Hsplit.
  apply result_resolve; [apply scanParts_writes |].
  rewrite scanParts_scan. now destruct (scan parts [] []).
Qed.

Lemma scan_skipped parts : forall p h,
  Forall (fun part => kindOf part = Skipped) parts -> scan parts p h = (p, h).
Proof.
  induction parts as [|part rest IH]; intros p h H; [reflexivity |].
  inversion_clear H as [|? ? H1 H2]. cbn [scan]. rewrite H1. now apply IH.
Qed.

Lemma scan_plain pre part post body te : forall p h,
  Forall notPlain pre -> kindOf part = PlainPart body te ->
  scan (pre ++ part :: post) p h = (decoded body te, snd (scan pre p h)).
Proof.
  induction pre as [|q pre IH]; intros p h Hpre Hpart.
  - cbn [app scan]. now rewrite Hpart.
  - inversion_clear Hpre as [|? ? H1 H2]. unfold notPlain in H1.
    cbn [app scan]. destruct (kindOf q); [now apply IH | contradiction | now apply IH].
Qed.

(** X13.  In the multipart branch, when the pattern of the boundary
    compiles and [split] yields only strings: if no part before [part] is
    decoded as plain text (blank or not), [part] is decoded as plain text
    and its decoded body is not blank, the result is this body, trimmed;
    HTML parts may come before it. *)
Theorem text_plain_part_wins_wherever_it_is
    (raw : jsstring) (i : nat) (boundary : jsstring) (re : regexp)
    (pre : list jsstring) (part : jsstring) (post : list jsstring) (body te : jsstring) :
  indexOf raw CRLFCRLF = Some i ->
  branchOf (substring raw 0 i) (substringFrom raw (i + 4)) = Multipart boundary ->
  compile (boundaryPattern boundary) noFlags = POk re ->
  split re (substringFrom raw (i + 4)) = map Some (pre ++ part :: post) ->
  Forall notPlain pre ->
  kindOf part = PlainPart body te ->
  trim (decoded body te) <> [] ->
  result (extractEmailBody raw) = Normal (trim (decoded body te)).
Proof.
  intros Hi Hb Hre Hsplit Hpre Hpart Hne.
  rewrite (extractEmailBody_scan raw i boundary re _ Hi Hb Hre Hsplit).
  rewrite (scan_plain pre part post body te [] [] Hpre Hpart). cbn [fst snd].
  unfold resolveBody. destruct (trim (decoded body te)); [contradiction | reflexivity].
Qed.

Lemma text_plain_part_wins_witness :
  result (extractEmailBody htmlThenPlainMessage) = Normal (str "Hello there").
Proof.
  eapply (text_plain_part_wins_wherever_it_is htmlThenPlainMessage _ _ _ [[]; htmlPart] plainPart [[]]
            (str "Hello there") []).
  - vm_compute. reflexivity.
  - vm_compute. reflexivity.
  - vm_compute. reflexivity.
  - vm_compute. reflexivity.
  - repeat (constructor; [vm_compute; exact I |]). constructor.
  - vm_compute. reflexivity.
  - vm_compute. discriminate.
Defined.

(** X14.  A plain part whose decoded body is blank still ends the
    loop: the result is taken from the HTML parts before it, and the parts
    after it are never looked at. *)
Theorem blank_text_plain_part_ends_the_scan
    (raw : jsstring) (i : nat) (boundary : jsstring) (re : regexp)
    (pre : list jsstring) (part : jsstring) (post : list jsstring) (body te : jsstring) :
  indexOf raw CRLFCRLF = Some i ->
  branchOf (substring raw 0 i) (substringFrom raw (i + 4)) = Multipart boundary ->
  compile (boundaryPattern boundary) noFlags = POk re ->
  split re (substringFrom raw (i + 4)) = map Some (pre ++ part :: post) ->
  Forall notPlain pre ->
  kindOf part = PlainPart body te ->
  trim (decoded body te) = [] ->
  result (extractEmailBody raw) = Normal (resolveBody [] (snd (scan pre [] []))).
Proof.
  intros Hi Hb Hre Hsplit Hpre Hpart Hblank.
  rewrite (extractEmailBody_scan raw i boundary re _ Hi Hb Hre Hsplit).
  rewrite (scan_plain pre part post body te [] [] Hpre Hpart). cbn [fst snd].
  unfold resolveBody. now rewrite Hblank.
Qed.

Lemma blank_text_plain_part_witness :
  result (extractEmailBody blankPlainMessage) = Normal (str "first").
Proof.
  eapply (blank_text_plain_part_ends_the_scan blankPlainMessage _ _ _ [[]; earlierHtmlPart]
            blankPlainPart [htmlPart; []] (str "  ") []).
  - vm_compute. reflexivity.
  - vm_compute. reflexivity.
  - vm_compute. reflexivity.
  - vm_compute. reflexivity.
  - repeat (constructor; [vm_compute; exact I |]). constructor.
  - vm_compute. reflexivity.
  - vm_compute. reflexivity.
Defined.

(** X15.  A multipart message all of whose parts are passed over
    (blank, without header separator, or of a type other than plain text
    and HTML) gives the empty string. *)
Theorem message_without_text_parts_is_empty
    (raw : jsstring) (i : nat) (boundary : jsstring) (re : regexp) (parts : list jsstring) :
  indexOf raw CRLFCRLF = Some i ->
  branchOf (substring raw 0 i) (substringFrom raw (i + 4)) = Multipart boundary ->
  compile (boundaryPattern boundary) noFlags = POk re ->
  split re (substringFrom raw (i + 4)) = map Some parts ->
  Forall (fun part => kindOf part = Skipped) parts ->
  result (extractEmailBody raw) = Normal [].
Proof.
  intros Hi Hb Hre Hsplit Hparts.
  rewrite (extractEmailBody_scan raw i boundary re _ Hi Hb Hre Hsplit).
  now rewrite (scan_skipped parts [] [] Hparts).
Qed.

Lemma message_without_text_parts_witness :
  result (extractEmailBody imageOnlyMessage) = Normal [].
Proof.
  eapply (message_without_text_parts_is_empty imageOnlyMessage _ _ _ [[]; imagePart; []]).
  - vm_compute. reflexivity.
  - vm_compute. reflexivity.
  - vm_compute. reflexivity.
  - vm_compute. reflexivity.
  - repeat (constructor; [vm_compute; reflexivity |]). constructor.
Defined.

(** X16.  In the single-part branch the result is the trimmed
    body, decoded with the transfer encoding of the header block; the
    content type is not looked at and HTML tags are kept. *)
Theorem single_part_body_is_decoded (raw : jsstring) (i : nat) :
  indexOf raw CRLFCRLF = Some i ->
  branchOf (substring raw 0 i) (substringFrom raw (i + 4)) = SinglePart ->
  result (extractEmailBody raw)
  = Normal (trim (decoded (substringFrom raw (i + 4))
                          (value (transferEncodingOf (substring raw 0 i))))).
Proof.
  intros Hi Hb. unfold extractEmailBody. rewrite Hi. cbv zeta. rewrite Hb.
  rewrite transferEncodingOf_value at 1. rewrite bind_ret.
  rewrite <- resolveBody_plain.
  apply result_resolve.
  - apply writes_bind; [apply decodeContent_writes | intros; apply writes_ret].
  - now rewrite result_decode_then by (intros; apply writes_ret).
Qed.

Lemma single_part_witness :
  result (extractEmailBody singleHtmlMessage) = Normal (str "<p>Hi</p>").
Proof.
  apply (single_part_body_is_decoded singleHtmlMessage 23); vm_compute; reflexivity.
Defined.

(** X18.  A message with nothing after its first CR LF CR LF gives
    the empty string and writes nothing, whatever its headers are. *)
Theorem message_without_body_is_empty (raw : jsstring) (i : nat) (k : console) :
  indexOf raw CRLFCRLF = Some i ->
  substringFrom raw (i + 4) = [] ->
  extractEmailBody raw k = (Normal [], k).
Proof.
  intros Hi Hbody. unfold extractEmailBody. rewrite Hi. cbv zeta. rewrite Hbody.
  assert (Hb : branchOf (substring raw 0 i) [] = SinglePart).
  { unfold branchOf. now destruct (exec reMultipart (substring raw 0 i)). }
  rewrite Hb. destruct (transferEncodingOf_returns (substring raw 0 i)) as [te ->].
  reflexivity.
Qed.

Lemma message_without_body_witness :
  extractEmailBody headersOnlyMessage [] = (Normal [], []).
Proof.
  apply (message_without_body_is_empty headersOnlyMessage 43 []); vm_compute; reflexivity.
Defined.

End BodyFacts.

(** ** The result is never longer than the message *)

Section LengthFacts.

Lemma substring_length s a b : List.length (substring s a b) <= List.length s.
Proof.
  unfold substring. rewrite length_firstn, length_skipn. lia.
Qed.

Lemma input_length y : List.length (input y) = List.length (before y) + List.length (after y).
Proof. unfold input. now rewrite rev_append_app, length_app, length_rev. Qed.

Lemma matchAt_caps_length re p b a r :
  p = List.length b ->
  matchAt re p b a = Some r ->
  boundedBy (List.length b + List.length a) (mCaps r).
Proof.
  intros Hp. unfold matchAt.
  destruct (rmatch _ _ _ _) as [|y l] eqn:E; [discriminate |].
  intros [= <-].
  assert (Hy : moves true (initState re p b a) y).
  { apply (rmatch_moves (reFlags re) (reAst re) true); [exact Hp | rewrite E; now left]. }
  destruct Hy as [_ [Hlen _]]. cbn [initState before after] in Hlen.
  unfold boundedBy, toResult. cbn [mCaps].
  apply Forall_forall. intros o Ho. apply in_map_iff in Ho. destruct Ho as [[[s e]|] [<- _]];
    cbn [option_map]; [| exact I].
  eapply Nat.le_trans; [apply substring_length |]. rewrite input_length. lia.
Qed.

Lemma boundedBy_app n l1 l2 : boundedBy n l1 -> boundedBy n l2 -> boundedBy n (l1 ++ l2).
Proof. intros H1 H2. apply Forall_app. now split. Qed.

Lemma splitGo_bounded re : forall a q b piece k,
  q = List.length b -> List.length piece <= List.length b ->
  boundedBy (List.length b + List.length a) (splitGo re q b a piece k).
Proof.
  induction a as [|c a IH]; intros q b piece k Hq Hpiece; cbn [splitGo].
  - repeat constructor. rewrite length_rev. lia.
  - assert (Hnext : forall piece' k', List.length piece' <= S (List.length b) ->
              boundedBy (List.length b + List.length (c :: a)) (splitGo re (S q) (c :: b) a piece' k')).
    { intros piece' k' H'. specialize (IH (S q) (c :: b) piece' k').
      cbn [List.length] in *. replace (List.length b + S (List.length a))
        with (S (List.length b) + List.length a) by lia.
      apply IH; [now rewrite Hq | exact H']. }
    assert (Hhead : boundedBy (List.length b + List.length (c :: a)) [Some (rev piece)]).
    { repeat constructor. rewrite length_rev. lia. }
    destruct k as [|k']; [| apply Hnext; cbn; lia].
    destruct (matchAt re q b (c :: a)) as [r|] eqn:E; [| apply Hnext; cbn [List.length]; lia].
    pose proof (matchAt_caps_length re q b (c :: a) r Hq E) as Hcaps.
    destruct (mEnd r <=? q).
    + destruct piece as [|d piece'].
      * apply Hnext. cbn. lia.
      * apply (boundedBy_app _ [Some (rev (d :: piece'))]); [exact Hhead |].
        apply boundedBy_app; [exact Hcaps | apply Hnext; cbn; lia].
    + apply (boundedBy_app _ [Some (rev piece)]); [exact Hhead |].
      apply boundedBy_app; [exact Hcaps | apply Hnext; cbn; lia].
Qed.

Lemma split_bounded re s : boundedBy (List.length s) (split re s).
Proof.
  unfold split. destruct s as [|c s].
  - destruct (matchAt re 0 [] []); repeat constructor.
  - apply (splitGo_bounded re (c :: s) 0 [] [] 0); [reflexivity | apply le_n].
Qed.

Lemma kindOf_body_length part :
  match kindOf part with
  | Skipped => True
  | PlainPart body _ | HtmlPart body _ => List.length body <= List.length part
  end.
Proof.
  unfold kindOf. destruct (negb (truthy (trim part))); [exact I |].
  destruct (indexOf part CRLFCRLF) as [i|]; [| exact I]. cbv zeta.
  assert (H : List.length (substringFrom part (i + 4)) <= List.length part).
  { unfold substringFrom. rewrite length_skipn. lia. }
  destruct (includes _ (str "text/plain")); [exact H |].
  destruct (includes _ (str "text/html")); [exact H | exact I].
Qed.

Lemma scanParts_bounded n parts : forall p h k p' h' k',
  boundedBy n parts -> List.length p <= n -> List.length h <= n ->
  scanParts parts p h k = (Normal (p', h'), k') ->
  List.length p' <= n /\ List.length h' <= n.
Proof.
  induction parts as [|[part|] rest IH]; intros p h k p' h' k' Hparts Hp Hh.
  - cbn [scanParts]. unfold ret. intros [= <- <- _]. now split.
  - inversion_clear Hparts as [|? ? Hpart Hrest].
    rewrite scanParts_cons. pose proof (kindOf_body_length part) as Hbody.
    destruct (kindOf part) as [|body te|body te].
    + now apply IH.
    + unfold bind. destruct (decodeContent_returns body (Some te) k) as [d [k1 E]]. rewrite E.
      unfold ret. intros H. apply normal_inj in H. injection H as <- <-.
      apply decodeContent_length in E. split; lia.
    + unfold bind. destruct (decodeContent_returns body (Some te) k) as [d [k1 E]]. rewrite E.
      apply IH; [exact Hrest | exact Hp |].
      apply decodeContent_length in E. lia.
  - cbn [scanParts]. unfold throw. discriminate.
Qed.

(** X20.  The string [extractEmailBody] returns is never longer
    than the raw message. *)
Theorem result_is_no_longer_than_the_message (raw : jsstring) (k : console) (s : jsstring) :
  fst (extractEmailBody raw k) = Normal s -> List.length s <= List.length raw.
Proof.
  unfold extractEmailBody.
  destruct (indexOf raw CRLFCRLF) as [i|].
  2:{ unfold ret. cbn [fst]. intros [= <-]. apply trim_length. }
  cbv zeta.
  assert (Hbody : List.length (substringFrom raw (i + 4)) <= List.length raw).
  { unfold substringFrom. rewrite length_skipn. lia. }
  set (body := substringFrom raw (i + 4)) in *.
  assert (Hres : forall p h, List.length p <= List.length body -> List.length h <= List.length body ->
                 List.length (resolveBody p h) <= List.length raw).
  { intros p h Hp Hh. pose proof (resolveBody_length p h). lia. }
  destruct (branchOf (substring raw 0 i) body) as [boundary|].
  - unfold newRegExp.
    destruct (compile (boundaryPattern boundary) noFlags) as [re| |];
      [| unfold bind, throw; discriminate | unfold bind; discriminate].
    rewrite bind_ret. unfold bind at 1.
    destruct (scanParts (split re body) [] [] k) as [[[p h]|e|] k1] eqn:E; try discriminate.
    unfold ret. cbn [fst]. intros [= <-].
    destruct (scanParts_bounded (List.length body) (split re body) [] [] k p h k1
                (split_bounded re body) (Nat.le_0_l _) (Nat.le_0_l _) E) as [Hp Hh].
    now apply Hres.
  - destruct (transferEncodingOf_returns (substring raw 0 i)) as [te ->]. rewrite bind_ret.
    unfold bind at 1. unfold bind at 1.
    destruct (decodeContent_returns body (Some te) k) as [d [k1 E]]. rewrite E.
    unfold ret. cbn [fst]. intros [= <-].
    apply decodeContent_length in E. apply Hres; [exact E | apply Nat.le_0_l].
Qed.

Lemma result_is_no_longer_witness :
  List.length (str "Hi  there") <= List.length htmlOnlyMessage.
Proof.
  apply (result_is_no_longer_than_the_message htmlOnlyMessage [] (str "Hi  there")).
  vm_compute. reflexivity.
Defined.

End LengthFacts.

(** ** Splitting a multipart body on its delimiter lines *)

Section DelimiterFacts.

Lemma st_eta x : x = st (pos x) (before x) (after x) (caps x).
Proof. now destruct x. Qed.

Lemma startsWith_cons s c : startsWith s [c] = match s with d :: _ => (c =? d)%N | [] => false end.
Proof. destruct s as [|d s]; [reflexivity |]. cbn [startsWith]. now rewrite andb_true_r. Qed.

Lemma rmatch_single c x : rmatch noFlags (single c) true x = consumeText [c] x.
Proof.
  rewrite (st_eta x) at 1. unfold consumeText, advance, single. rewrite startsWith_cons.
  destruct (after x) as [|d a] eqn:E.
  - apply rmatch_char_nil.
  - rewrite rmatch_char_cons, charOk_single, N.eqb_sym.
    destruct (N.eqb_spec c d) as [-> |]; reflexivity.
Qed.

Lemma startsWith_app_split s w1 w2 :
  startsWith s (w1 ++ w2) = startsWith s w1 && startsWith (skipn (List.length w1) s) w2.
Proof.
  revert s. induction w1 as [|c w1 IH]; intros s; [reflexivity |].
  destruct s as [|d s]; cbn [app startsWith List.length skipn]; [reflexivity |].
  now rewrite IH, andb_assoc.
Qed.

Lemma advance_advance w1 w2 x : advance w2 (advance w1 x) = advance (w1 ++ w2) x.
Proof.
  unfold advance, st. cbn [pos before after caps].
  rewrite length_app, rev_app_distr, <- app_assoc, skipn_skipn.
  f_equal; lia || (f_equal; lia).
Qed.

Lemma consumeText_app w1 w2 x :
  flat_map (consumeText w2) (consumeText w1 x) = consumeText (w1 ++ w2) x.
Proof.
  unfold consumeText at 2 3. rewrite startsWith_app_split.
  destruct (startsWith (after x) w1); [| reflexivity].
  cbn [flat_map andb]. rewrite app_nil_r. unfold consumeText.
  cbn [advance st after]. fold (advance w1 x).
  destruct (startsWith _ w2); [| reflexivity]. now rewrite advance_advance.
Qed.

Lemma flat_map_flat_map {A B C} (f : A -> list B) (g : B -> list C) (l : list A) :
  flat_map g (flat_map f l) = flat_map (fun a => flat_map g (f a)) l.
Proof.
  induction l as [|a l IH]; [reflexivity |]. cbn [flat_map]. now rewrite flat_map_app, IH.
Qed.

Lemma rmatch_literals b : forall cur x,
  isSeq cur ->
  rmatch noFlags (literals b cur) true x = flat_map (consumeText b) (rmatch noFlags cur true x).
Proof.
  unfold literals.
  induction b as [|c b IH]; intros cur x Hcur; cbn [fold_left].
  - unfold consumeText. cbn [startsWith]. 
    induction (rmatch noFlags cur true x) as [|y l IHl]; [reflexivity |].
    cbn [flat_map app]. rewrite <- IHl. f_equal. unfold advance. cbn. now destruct y.
  - destruct cur; try contradiction. cbn [mkSeq].
    rewrite IH by exact I. rewrite rmatch_seq_fwd, flat_map_flat_map.
    apply flat_map_ext. intros y. rewrite rmatch_single.
    apply (consumeText_app [c] b y).
Qed.

Lemma literals_isSeq b : forall cur, isSeq cur -> isSeq (literals b cur).
Proof.
  unfold literals. induction b as [|c b IH]; intros cur H; [exact H |].
  cbn [fold_left]. apply IH. now destruct cur.
Qed.

Lemma mkSeq_isSeq r s : isSeq r -> mkSeq r s = RSeq r s.
Proof. now destruct r. Qed.

Lemma startsWith_length s w : startsWith s w = true -> List.length w <= List.length s.
Proof.
  revert s. induction w as [|c w IH]; intros s H; [cbn; lia |].
  destruct s as [|d s]; [discriminate |]. cbn [startsWith] in H.
  apply andb_prop in H. destruct H as [_ H]. apply IH in H. cbn. lia.
Qed.

Lemma rmatch_optional_pair c1 c2 x :
  rmatch noFlags (RQuant (RSeq (single c1) (single c2)) 0 (Some 1%N) true) true x
  = optionalText [c1; c2] x.
Proof.
  rewrite rmatch_quant, repeatMatcher_S. cbv zeta.
  change (negb (0 =? 0)%N) with false. cbv iota.
  change (clearCaps (groupsIn (RSeq (single c1) (single c2))) x) with x.
  rewrite rmatch_seq_fwd, rmatch_single.
  rewrite (flat_map_ext _ (consumeText [c2]) (rmatch_single c2)).
  rewrite (consumeText_app [c1] [c2] x). cbn [app].
  unfold optionalText. f_equal.
  unfold consumeText. destruct (startsWith (after x) [c1; c2]) eqn:E; [| reflexivity].
  apply startsWith_length in E. cbn [List.length] in E.
  cbn [flat_map]. rewrite app_nil_r.
  change (pos (advance [c1; c2] x)) with (S (S (pos x))).
  replace (S (S (pos x)) =? pos x) with false by (symmetry; apply Nat.eqb_neq; lia).
  cbn [andb N.eqb].
  destruct (after x) as [|d1 [|d2 a]]; cbn [List.length] in E; try lia.
  reflexivity.
Qed.

Lemma hd_flat_map {A B} (f : A -> list B) (y : A) (l : list A) :
  hd_error (flat_map f (y :: l))
  = match hd_error (f y) with Some z => Some z | None => hd_error (flat_map f l) end.
Proof. cbn [flat_map]. now destruct (f y). Qed.

Lemma hd_optionalText w (l : list mstate) :
  hd_error (flat_map (optionalText w) l) = option_map (takeIfThere w) (hd_error l).
Proof.
  destruct l as [|y l]; [reflexivity |].
  rewrite hd_flat_map. unfold optionalText, consumeText, takeIfThere.
  cbn [hd_error option_map]. now destruct (startsWith (after y) w).
Qed.

Lemma rmatch_boundaryAst b x :
  rmatch noFlags (boundaryAst b) true x
  = flat_map (optionalText CRLF)
      (flat_map (optionalText (str "--"))
         (flat_map (consumeText (str "--" ++ b)) (optionalText CRLF x))).
Proof.
  unfold boundaryAst. cbv zeta.
  set (crlf := RQuant (RSeq (single 13) (single 10)) 0 (Some 1%N) true).
  set (dashes := RQuant (RSeq (single 45) (single 45)) 0 (Some 1%N) true).
  assert (Hseq : isSeq (literals b (RSeq (RSeq crlf (single 45)) (single 45)))).
  { now apply literals_isSeq. }
  rewrite (mkSeq_isSeq _ dashes Hseq). cbn [mkSeq].
  rewrite rmatch_seq_fwd.
  rewrite (flat_map_ext _ (optionalText CRLF) (rmatch_optional_pair 13 10)).
  f_equal.
  rewrite rmatch_seq_fwd.
  rewrite (flat_map_ext _ (optionalText (str "--")) (rmatch_optional_pair 45 45)).
  f_equal.
  rewrite rmatch_literals by exact I.
  rewrite !rmatch_seq_fwd.
  rewrite (flat_map_ext _ (consumeText [45%N]) (rmatch_single 45)).
  unfold crlf. rewrite rmatch_optional_pair.
  rewrite !flat_map_flat_map. apply flat_map_ext. intros y.
  rewrite rmatch_single, <- flat_map_flat_map.
  rewrite (consumeText_app [45%N] [45%N] y).
  apply (consumeText_app [45; 45]%N b y).
Qed.

Lemma crlf_is_not_dash a w : startsWith a CRLF = true -> startsWith a (45%N :: w) = false.
Proof.
  destruct a as [|c a]; [discriminate |]. unfold CRLF, CR, LF. cbn [startsWith].
  destruct (N.eqb_spec 13 c) as [<- |]; [reflexivity | discriminate].
Qed.

Lemma matchAt_hd re q bf a :
  matchAt re q bf a
  = option_map (toResult q) (hd_error (rmatch (reFlags re) (reAst re) true (initState re q bf a))).
Proof. unfold matchAt. now destruct (rmatch _ _ _ _). Qed.

Lemma matchAt_boundary b q bf a :
  matchAt (boundaryRegExp b) q bf a
  = option_map (fun n => {| mIndex := q; mEnd := q + n; mCaps := [] |}) (delimiterLength b a).
Proof.
  rewrite matchAt_hd. cbn [boundaryRegExp reFlags reAst].
  change (initState (boundaryRegExp b) q bf a) with (st q bf a []).
  rewrite rmatch_boundaryAst, !hd_optionalText.
  unfold delimiterLength. cbv zeta.
  set (d := str "--" ++ b).
  assert (Hd : List.length d = 2 + List.length b) by reflexivity.
  set (x := st q bf a []).
  assert (Hfinish : forall n,
            option_map (toResult q)
              (option_map (takeIfThere CRLF)
                 (option_map (takeIfThere (str "--"))
                    (Some (st (n + q) (rev (firstn n a) ++ bf) (skipn n a) []))))
            = Some {| mIndex := q;
                      mEnd := q + (if startsWith (skipn (if startsWith (skipn n a) (str "--")
                                                         then n + 2 else n) a) CRLF
                                   then (if startsWith (skipn n a) (str "--") then n + 2 else n) + 2
                                   else (if startsWith (skipn n a) (str "--") then n + 2 else n));
                      mCaps := [] |}).
  { intros n. cbn [option_map]. unfold takeIfThere at 2. cbn [st after].
    destruct (startsWith (skipn n a) (str "--")).
    - unfold takeIfThere, advance, st. cbn [after pos before caps].
      rewrite skipn_skipn. replace (List.length (str "--") + n) with (n + 2) by (cbn; lia).
      destruct (startsWith (skipn (n + 2) a) CRLF); unfold toResult; cbn [pos caps map];
        f_equal; f_equal; cbn; lia.
    - unfold takeIfThere, advance, st. cbn [after pos before caps].
      destruct (startsWith (skipn n a) CRLF); unfold toResult; cbn [pos caps map];
        f_equal; f_equal; cbn; lia. }
  unfold optionalText, consumeText. subst x. cbn [st after].
  destruct (startsWith a CRLF) eqn:E1.
  - cbn [app]. rewrite hd_flat_map.
    change (after (advance CRLF (st q bf a []))) with (skipn 2 a).
    destruct (startsWith (skipn 2 a) d) eqn:E2.
    + cbn [hd_error]. rewrite advance_advance.
      unfold advance at 1. cbn [st pos before after caps].
      assert (Hpre : CRLF ++ d = firstn (2 + (2 + List.length b)) a).
      { assert (H : startsWith a (CRLF ++ d) = true)
          by (rewrite startsWith_app_split, E1; exact E2).
        apply startsWith_split in H. destruct H as [t ->].
        rewrite <- Hd. change 2 with (List.length CRLF). rewrite <- length_app.
        now rewrite firstn_app, Nat.sub_diag, firstn_all, firstn_O, app_nil_r. }
      rewrite length_app, Hpre. change (List.length CRLF) with 2. rewrite Hd.
      apply Hfinish.
    + cbn [hd_error flat_map app]. cbn [st after].
      unfold d at 1. cbn [str app]. change (N_of_ascii "-") with 45%N.
      rewrite (crlf_is_not_dash a _ E1). rewrite app_nil_r. reflexivity.
  - cbn [app flat_map]. rewrite app_nil_r. cbn [st after skipn].
    destruct (startsWith a d) eqn:E2; [| reflexivity].
    cbn [hd_error]. unfold advance. cbn [st pos before after caps].
    assert (Hpre : d = firstn (0 + (2 + List.length b)) a).
    { apply startsWith_split in E2. destruct E2 as [t ->].
      rewrite <- Hd. cbn [Nat.add].
      now rewrite firstn_app, Nat.sub_diag, firstn_all, firstn_O, app_nil_r. }
    rewrite Hpre at 2. rewrite Hd. apply (Hfinish (0 + (2 + List.length b))).
Qed.

(** X10.  For a boundary without syntax characters, [new RegExp]
    returns a pattern without capture groups that matches at an index
    exactly a delimiter: an optional CRLF, two dashes and the boundary,
    then two more dashes if they follow, then a CRLF if it follows. *)
Theorem boundary_pattern_matches_delimiter_lines (b : jsstring) :
  plainText b ->
  exists re,
    compile (boundaryPattern b) noFlags = POk re /\
    forall q bf a,
      matchAt re q bf a
      = option_map (fun n => {| mIndex := q; mEnd := q + n; mCaps := [] |}) (delimiterLength b a).
Proof.
  intros Hb. exists (boundaryRegExp b). split; [now apply compile_plain_boundary |].
  intros q bf a. apply matchAt_boundary.
Qed.

Lemma boundary_pattern_witness :
  exists re,
    compile (boundaryPattern (str "XYZ")) noFlags = POk re /\
    forall q bf a,
      matchAt re q bf a
      = option_map (fun n => {| mIndex := q; mEnd := q + n; mCaps := [] |})
          (delimiterLength (str "XYZ") a).
Proof.
  apply (boundary_pattern_matches_delimiter_lines (str "XYZ")). repeat constructor.
Defined.

Lemma skipn_exact {A} (w r : list A) : skipn (List.length w) (w ++ r) = r.
Proof. induction w as [|c w IH]; [reflexivity | exact IH]. Qed.

Lemma delimiter_not_inside b P T : forall u w,
  indexOf P (str "--" ++ b) = None -> ~ In 13%N b ->
  P = u ++ w ->
  startsWith (w ++ CRLF ++ T) (str "--" ++ b) = false.
Proof.
  intros u w HP Hb ->.
  destruct (startsWith (w ++ CRLF ++ T) (str "--" ++ b)) eqn:E; [| reflexivity].
  exfalso. apply startsWith_split in E. destruct E as [t E].
  apply app_eq_app in E. destruct E as [l [[-> E] | [E1 E2]]].
  - apply (proj1 (indexOf_None _ _) HP). exists u, l. reflexivity.
  - destruct l as [|c l].
    + rewrite app_nil_r in E1. subst w.
      apply (proj1 (indexOf_None _ _) HP). exists u, []. now rewrite app_nil_r.
    + injection E2 as <- _.
      assert (Hin : In CR (str "--" ++ b)) by (rewrite E1; apply in_or_app; right; now left).
      cbn in Hin. destruct Hin as [H | [H | H]]; [discriminate | discriminate | now apply Hb].
Qed.

Lemma delimiterLength_inside b P T u v :
  indexOf P (str "--" ++ b) = None -> ~ In 13%N b ->
  P = u ++ v -> v <> [] ->
  delimiterLength b (v ++ CRLF ++ T) = None.
Proof.
  intros HP Hb E Hv. unfold delimiterLength.
  destruct (startsWith (v ++ CRLF ++ T) CRLF) eqn:E1.
  - destruct v as [|c1 [|c2 v']]; [contradiction | |].
    + unfold CRLF, CR, LF in E1. cbn [app startsWith] in E1.
      destruct (N.eqb_spec 13 c1); [discriminate | discriminate].
    + cbn [app skipn]. cbv zeta.
      rewrite (delimiter_not_inside b P T (u ++ [c1; c2]) v' HP Hb); [reflexivity |].
      now rewrite <- app_assoc.
  - cbn [skipn]. cbv zeta.
    now rewrite (delimiter_not_inside b P T u v HP Hb E).
Qed.

Lemma delimiterLength_first b X :
  delimiterLength b (str "--" ++ b ++ CRLF ++ X) = Some (0 + (2 + List.length b) + 2).
Proof.
  unfold delimiterLength.
  change (startsWith (str "--" ++ b ++ CRLF ++ X) CRLF) with false. cbv iota zeta. cbn [skipn].
  rewrite (app_assoc (str "--") b), startsWith_app.
  change (0 + (2 + List.length b)) with (List.length (str "--" ++ b)).
  rewrite skipn_exact.
  change (startsWith (CRLF ++ X) (str "--")) with false. cbv iota.
  rewrite skipn_exact. now rewrite startsWith_app.
Qed.

Lemma delimiterLength_only b :
  delimiterLength b (str "--" ++ b ++ str "--" ++ CRLF) = Some (0 + (2 + List.length b) + 2 + 2).
Proof.
  unfold delimiterLength.
  change (startsWith (str "--" ++ b ++ str "--" ++ CRLF) CRLF) with false. cbv iota zeta.
  cbn [skipn].
  rewrite (app_assoc (str "--") b), startsWith_app.
  change (0 + (2 + List.length b)) with (List.length (str "--" ++ b)).
  rewrite skipn_exact, startsWith_app.
  rewrite (app_assoc _ (str "--") CRLF).
  replace (List.length (str "--" ++ b) + 2) with (List.length ((str "--" ++ b) ++ str "--"))
    by (rewrite length_app; reflexivity).
  rewrite skipn_exact. reflexivity.
Qed.

Lemma delimiterLength_crlf b a :
  delimiterLength b (CRLF ++ a)
  = match delimiterLength b a with
    | Some n => if startsWith a CRLF then None else Some (2 + n)
    | None => None
    end.
Proof.
  unfold delimiterLength at 1. rewrite startsWith_app. cbv zeta.
  change (skipn 2 (CRLF ++ a)) with a.
  destruct (startsWith a CRLF) eqn:E1.
  - change (str "--" ++ b) with (45%N :: 45%N :: b).
    rewrite (crlf_is_not_dash a _ E1). now destruct (delimiterLength b a).
  - unfold delimiterLength. rewrite E1. cbn [skipn]. cbv zeta.
    destruct (startsWith a (str "--" ++ b)); [| reflexivity].
    change (skipn (2 + (2 + List.length b)) (CRLF ++ a)) with (skipn (2 + List.length b) a).
    change (skipn (0 + (2 + List.length b)) a) with (skipn (2 + List.length b) a).
    destruct (startsWith (skipn (2 + List.length b) a) (str "--")).
    + change (skipn (2 + (2 + List.length b) + 2) (CRLF ++ a))
        with (skipn (2 + List.length b + 2) a).
      change (skipn (0 + (2 + List.length b) + 2) a) with (skipn (2 + List.length b + 2) a).
      destruct (startsWith (skipn (2 + List.length b + 2) a) CRLF); reflexivity.
    + change (skipn (2 + (2 + List.length b)) (CRLF ++ a)) with (skipn (2 + List.length b) a).
      change (skipn (0 + (2 + List.length b)) a) with (skipn (2 + List.length b) a).
      destruct (startsWith (skipn (2 + List.length b) a) CRLF); reflexivity.
Qed.

Lemma splitGo_skip re : forall w rest q bf,
  splitGo re q bf (w ++ rest) [] (List.length w)
  = splitGo re (List.length w + q) (rev w ++ bf) rest [] 0.
Proof.
  induction w as [|c w IH]; intros rest q bf; [reflexivity |].
  cbn [app List.length splitGo]. rewrite IH. cbn [rev]. rewrite <- app_assoc.
  f_equal. lia.
Qed.

Lemma splitGo_pass b : forall P rest q bf piece,
  (forall u v, P = u ++ v -> v <> [] -> delimiterLength b (v ++ rest) = None) ->
  splitGo (boundaryRegExp b) q bf (P ++ rest) piece 0
  = splitGo (boundaryRegExp b) (List.length P + q) (rev P ++ bf) rest (rev P ++ piece) 0.
Proof.
  induction P as [|c P IH]; intros rest q bf piece H; [reflexivity |].
  cbn [app splitGo].
  change (c :: P ++ rest) with ((c :: P) ++ rest).
  rewrite matchAt_boundary, (H [] (c :: P) eq_refl) by discriminate. cbn [option_map].
  rewrite IH.
  - cbn [rev List.length]. rewrite <- !app_assoc. f_equal. lia.
  - intros u v E Hv. apply (H (c :: u) v); [now rewrite E | exact Hv].
Qed.

Lemma splitGo_match b c a q bf piece n :
  delimiterLength b (c :: a) = Some (S n) ->
  splitGo (boundaryRegExp b) q bf (c :: a) piece 0
  = Some (rev piece) :: splitGo (boundaryRegExp b) (S q) (c :: bf) a [] n.
Proof.
  intros H. cbn [splitGo]. rewrite matchAt_boundary, H. cbn [option_map mEnd mCaps app].
  replace (q + S n <=? q) with false by (symmetry; apply Nat.leb_gt; lia).
  do 2 f_equal. lia.
Qed.

Lemma multipartBody_delimiter b parts :
  exists w rest,
    multipartBody b parts = w ++ rest /\
    delimiterLength b (multipartBody b parts) = Some (List.length w) /\
    startsWith (multipartBody b parts) CRLF = false /\
    w <> [] /\
    match parts with
    | [] => rest = []
    | P :: parts' => rest = P ++ CRLF ++ multipartBody b parts'
    end.
Proof.
  destruct parts as [|P parts']; cbn [multipartBody].
  - exists (str "--" ++ b ++ str "--" ++ CRLF), []. rewrite app_nil_r.
    repeat split; [| discriminate].
    rewrite delimiterLength_only. f_equal. rewrite !length_app. cbn. lia.
  - exists (str "--" ++ b ++ CRLF), (P ++ CRLF ++ multipartBody b parts').
    repeat split; [now rewrite <- !app_assoc | | discriminate].
    rewrite delimiterLength_first. f_equal. rewrite !length_app. cbn. lia.
Qed.

Lemma split_after_part b : forall parts P q bf,
  ~ In 13%N b ->
  Forall (fun part => indexOf part (str "--" ++ b) = None) (P :: parts) ->
  splitGo (boundaryRegExp b) q bf (P ++ CRLF ++ multipartBody b parts) [] 0
  = map Some (P :: parts ++ [[]]).
Proof.
  induction parts as [|R parts IH]; intros P q bf Hb Hparts;
    inversion_clear Hparts as [|? ? HP Hrest].
  - rewrite splitGo_pass
      by (intros u v E Hv; now apply (delimiterLength_inside b P _ u v HP Hb)).
    destruct (multipartBody_delimiter b []) as [w [rest [E [Hd [Hs [Hw ->]]]]]].
    rewrite app_nil_r in E.
    assert (Hd' : delimiterLength b (CRLF ++ multipartBody b []) = Some (S (S (List.length w))))
      by (now rewrite delimiterLength_crlf, Hd, Hs).
    unfold CRLF at 1. cbn [app]. unfold CRLF at 1 in Hd'. cbn [app] in Hd'.
    rewrite (splitGo_match b _ _ _ _ _ _ Hd').
    rewrite app_nil_r, rev_involutive. cbn [map app]. f_equal.
    rewrite E. rewrite <- (app_nil_r (LF :: w)).
    change (S (List.length w)) with (List.length (LF :: w)).
    now rewrite splitGo_skip.
  - rewrite splitGo_pass
      by (intros u v E Hv; now apply (delimiterLength_inside b P _ u v HP Hb)).
    destruct (multipartBody_delimiter b (R :: parts)) as [w [rest [E [Hd [Hs [Hw ->]]]]]].
    assert (Hd' : delimiterLength b (CRLF ++ multipartBody b (R :: parts))
                  = Some (S (S (List.length w))))
      by (now rewrite delimiterLength_crlf, Hd, Hs).
    unfold CRLF at 1. cbn [app]. unfold CRLF at 1 in Hd'. cbn [app] in Hd'.
    rewrite (splitGo_match b _ _ _ _ _ _ Hd').
    rewrite app_nil_r, rev_involutive. cbn [map app]. f_equal.
    rewrite E. rewrite (app_comm_cons w _ LF).
    change (S (List.length w)) with (List.length (LF :: w)).
    rewrite splitGo_skip. now apply IH.
Qed.

Lemma split_multipartBody (b : jsstring) (parts : list jsstring) :
  ~ In 13%N b ->
  Forall (fun part => indexOf part (str "--" ++ b) = None) parts ->
  split (boundaryRegExp b) (multipartBody b parts) = map Some ([] :: parts ++ [[]]).
Proof.
  intros Hb Hparts.
  destruct (multipartBody_delimiter b parts) as [w [rest [E [Hd [Hs [Hw Hrest]]]]]].
  unfold split. rewrite E.
  destruct w as [|c w]; [contradiction |]. cbn [app].
  rewrite E in Hd. cbn [app List.length] in Hd.
  rewrite (splitGo_match b _ _ _ _ _ _ Hd). cbn [rev map]. f_equal.
  rewrite splitGo_skip.
  destruct parts as [|P parts']; subst rest.
  - reflexivity.
  - now apply split_after_part.
Qed.

(** X11.  A multipart body whose boundary has no syntax character
    and no CR, and whose parts do not contain two dashes followed by the
    boundary, is split into the empty text before the first delimiter,
    the parts in order, and the empty text after the closing delimiter. *)
Theorem multipart_body_splits_into_its_parts (b : jsstring) (parts : list jsstring) :
  plainText b ->
  ~ In 13%N b ->
  Forall (fun part => indexOf part (str "--" ++ b) = None) parts ->
  exists re,
    compile (boundaryPattern b) noFlags = POk re /\
    split re (multipartBody b parts) = map Some ([] :: parts ++ [[]]).
Proof.
  intros Hplain Hb Hparts. exists (boundaryRegExp b).
  split; [now apply compile_plain_boundary | now apply split_multipartBody].
Qed.

Lemma multipart_body_splits_witness :
  exists re,
    compile (boundaryPattern (str "XYZ")) noFlags = POk re /\
    split re (multipartBody (str "XYZ") [plainPart; htmlPart])
    = map Some ([] :: [plainPart; htmlPart] ++ [[]]).
Proof.
  apply (multipart_body_splits_into_its_parts (str "XYZ") [plainPart; htmlPart]).
  - repeat constructor.
  - vm_compute. intuition discriminate.
  - repeat (constructor; [vm_compute; reflexivity |]). constructor.
Defined.

End DelimiterFacts.

(** ** The boundary that the multipart header declares *)

Section BoundaryFacts.

Lemma leads_fold fl ts : forall t0 x y l z,
  rmatch fl t0 true x = y :: l -> leads fl ts y z ->
  exists l', rmatch fl (fold_left RSeq ts t0) true x = z :: l'.
Proof.
  induction ts as [|t ts IH]; intros t0 x y l z Hy Hz; cbn [leads fold_left] in *.
  - subst. now exists l.
  - destruct Hz as [y' [l' [Hy' Hz]]].
    apply (IH (RSeq t0 t) x y' (l' ++ flat_map (rmatch fl t true) l) z); [| exact Hz].
    rewrite rmatch_seq_fwd, Hy. cbn [flat_map]. now rewrite Hy'.
Qed.

Lemma leads_app fl ts1 ts2 x y z :
  leads fl ts1 x y -> leads fl ts2 y z -> leads fl (ts1 ++ ts2) x z.
Proof.
  revert x. induction ts1 as [|t ts1 IH]; intros x H1 H2; cbn [leads app] in *.
  - now subst.
  - destruct H1 as [y' [l [Hy' H1]]]. exists y', l. split; [exact Hy' | now apply IH].
Qed.

Lemma leads_one fl t x y l : rmatch fl t true x = y :: l -> leads fl [t] x y.
Proof. intros H. exists y, l. split; [exact H | reflexivity]. Qed.

Lemma leads_literal lit : forall w p b a cs,
  sameIgnoringCase w lit ->
  leads flagsIM (map single lit) (st p b (w ++ a) cs) (st (p + List.length w) (rev w ++ b) a cs).
Proof.
  induction lit as [|c lit IH]; intros w p b a cs H; inversion H; subst; cbn [map leads app].
  - cbn. now rewrite Nat.add_0_r.
  - match goal with Hc : asciiUpper ?d = _, Hw : Forall2 _ ?w' lit |- _ =>
      exists (st (S p) (d :: b) (w' ++ a) cs), []; split;
      [ unfold single; now rewrite rmatch_char_cons, (charOk_ci _ _ Hc)
      | specialize (IH w' (S p) (d :: b) a cs Hw) ]
    end.
    cbn [List.length rev]. rewrite <- app_assoc. cbn [app].
    now rewrite Nat.add_succ_r.
Qed.

Lemma span_stops (p : N -> bool) w a :
  Forall (fun c => p c = true) w -> stopsAt p a -> span p (w ++ a) = (w, a).
Proof.
  intros Hw Ha. induction Hw as [|c w Hc _ IH]; cbn [app span].
  - destruct a as [|d a]; [reflexivity |]. cbn [stopsAt] in Ha. cbn [span]. now rewrite Ha.
  - now rewrite Hc, IH.
Qed.

Lemma rmatch_star_first fl inv items w p b a cs :
  Forall (fun c => charOk fl inv items c = true) w ->
  stopsAt (charOk fl inv items) a ->
  exists l, rmatch fl (star inv items) true (st p b (w ++ a) cs)
            = st (p + List.length w) (rev w ++ b) a cs :: l.
Proof.
  intros Hw Ha. unfold star. rewrite rmatch_quant.
  change (groupsIn (RChar inv items)) with (@nil nat).
  destruct (star_greedy_first fl inv items cs (w ++ a)
              (S (N.to_nat 0 + (List.length (after (st p b (w ++ a) cs))
                                + List.length (before (st p b (w ++ a) cs))))) p b) as [l Hl].
  { cbn. lia. }
  exists l. rewrite Hl, (span_stops _ w a Hw Ha). reflexivity.
Qed.

Lemma rmatch_plus_first fl inv items w p b a cs :
  w <> [] ->
  Forall (fun c => charOk fl inv items c = true) w ->
  stopsAt (charOk fl inv items) a ->
  exists l, rmatch fl (plus inv items) true (st p b (w ++ a) cs)
            = st (p + List.length w) (rev w ++ b) a cs :: l.
Proof.
  intros Hne Hw Ha. destruct w as [|c w]; [contradiction |].
  inversion Hw as [|? ? Hc Hw']. subst.
  unfold plus. rewrite rmatch_quant.
  change (N.to_nat 1) with 1. cbn [Nat.add]. rewrite repeatMatcher_S.
  cbn [N.eqb negb clearCaps fold_left groupsIn app].
  rewrite rmatch_char_cons, Hc. cbn [flat_map andb]. rewrite app_nil_r.
  change (decN 1) with 0%N. change (decMax None) with (@None N).
  destruct (star_greedy_first fl inv items cs (w ++ a)
              (S (List.length (after (st p b (c :: w ++ a) cs))
                  + List.length (before (st p b (c :: w ++ a) cs)))) (S p) (c :: b)) as [l Hl].
  { cbn. lia. }
  exists l. rewrite Hl, (span_stops _ w a Hw' Ha). cbn [fst snd List.length rev].
  rewrite <- app_assoc. cbn [app]. now rewrite Nat.add_succ_r.
Qed.

Lemma charOk_quote d : charOk flagsIM false [CRange 34 34] d = (d =? 34)%N.
Proof.
  unfold charOk, setHas. cbn [ignoreCase flagsIM andb existsb itemHas xorb orb].
  rewrite !inRange_same.
  destruct (inRange 97 122 d) eqn:El.
  - rewrite (canonicalize_lower _ El). apply inRange_true in El.
    replace (d - 32 + 32)%N with d by lia.
    replace (d - 32 =? 34)%N with false by (symmetry; apply N.eqb_neq; lia).
    replace (d =? 34)%N with false by (symmetry; apply N.eqb_neq; lia).
    now rewrite andb_false_r.
  - rewrite (canonicalize_other _ El).
    destruct (inRange 65 90 d) eqn:Eu; [| now rewrite !orb_false_r].
    apply inRange_true in Eu.
    replace (d + 32 =? 34)%N with false by (symmetry; apply N.eqb_neq; lia).
    now rewrite !orb_false_r.
Qed.

Lemma rmatch_opt_quote quote p b a cs :
  (quote = [] /\ stopsAt (fun c => (c =? 34)%N) a) \/ quote = DQ ->
  exists l, rmatch flagsIM (opt 34) true (st p b (quote ++ a) cs)
            = st (p + List.length quote) (rev quote ++ b) a cs :: l.
Proof.
  intros H. unfold opt. rewrite rmatch_quant, repeatMatcher_S.
  cbn [N.eqb negb clearCaps fold_left groupsIn single]. unfold single.
  destruct H as [[-> Ha] | ->]; cbn [app List.length rev].
  - rewrite Nat.add_0_r. exists [].
    destruct a as [|c a]; [now rewrite rmatch_char_nil |].
    cbn [stopsAt] in Ha. now rewrite rmatch_char_cons, charOk_quote, Ha.
  - unfold DQ. cbn [app]. rewrite rmatch_char_cons, charOk_quote. cbn [N.eqb Pos.eqb flat_map andb].
    change (decMax (Some 1%N)) with (Some 0%N).
    cbn [after before st List.length Nat.add N.to_nat]. rewrite repeatMatcher_S.
    change (pos (st (S p) (34%N :: b) a cs)) with (S p).
    change (pos (st p b (34%N :: a) cs)) with p.
    replace (S p =? p) with false by (symmetry; apply Nat.eqb_neq; lia).
    rewrite Nat.add_1_r. eexists. reflexivity.
Qed.

Lemma ws_stop d :
  (33 <= asciiUpper d)%N -> (asciiUpper d < 128)%N ->
  charOk flagsIM false [CSpace false] d = false.
Proof.
  intros H1 H2. unfold charOk, setHas.
  change (canonicalize flagsIM d) with (asciiUpper d).
  cbn [ignoreCase flagsIM andb existsb itemHas xorb orb].
  rewrite (isWhiteSpace_printable (asciiUpper d)) by lia.
  destruct (inRange 65 90 (asciiUpper d)) eqn:E; [| reflexivity].
  apply inRange_true in E. now rewrite (isWhiteSpace_printable (asciiUpper d + 32)) by lia.
Qed.

Lemma value_stop c : isValueUnit c = false -> charOk flagsIM true valueClass c = false.
Proof.
  unfold isValueUnit. intros H.
  assert (Hl : inRange 97 122 c = false).
  { destruct (inRange 97 122 c) eqn:E; [| reflexivity].
    apply inRange_true in E. rewrite (isWhiteSpace_printable c) in H by lia.
    replace (c =? 34)%N with false in H by (symmetry; apply N.eqb_neq; lia). discriminate. }
  unfold charOk, setHas, valueClass. rewrite (canonicalize_other _ Hl).
  cbn [ignoreCase flagsIM andb existsb itemHas xorb orb]. rewrite inRange_same.
  apply andb_false_iff in H. destruct H as [H | H]; apply negb_false_iff in H; rewrite H;
    [reflexivity | now rewrite orb_true_r].
Qed.

Lemma sameIgnoringCase_head w c lit :
  sameIgnoringCase w (c :: lit) -> exists d w', w = d :: w' /\ asciiUpper d = asciiUpper c.
Proof. intros H. inversion H. subst. eauto. Qed.

Lemma rmatch_opt_quote_any p b a cs :
  exists z l, rmatch flagsIM (opt 34) true (st p b a cs) = z :: l
              /\ caps z = cs /\ input z = input (st p b a cs).
Proof.
  destruct a as [|c a].
  - destruct (rmatch_opt_quote [] p b [] cs) as [l Hl]; [left; split; [reflexivity | exact I] |].
    eexists; exists l. split; [exact Hl |]. cbn [rev app List.length]. rewrite Nat.add_0_r. now split.
  - destruct (N.eqb_spec c 34) as [-> | Hc].
    + destruct (rmatch_opt_quote DQ p b a cs) as [l Hl]; [now right |].
      eexists; exists l. split; [exact Hl |]. now split.
    + destruct (rmatch_opt_quote [] p b (c :: a) cs) as [l Hl].
      { left. split; [reflexivity |]. now apply N.eqb_neq. }
      eexists; exists l. split; [exact Hl |]. cbn [rev app List.length]. rewrite Nat.add_0_r.
      now split.
Qed.

Lemma asciiUpper_idem d : asciiUpper (asciiUpper d) = asciiUpper d.
Proof.
  unfold asciiUpper. destruct (inRange 97 122 d) eqn:E; [| now rewrite E].
  apply inRange_true in E.
  replace (inRange 97 122 (d - 32)) with false; [reflexivity |].
  symmetry. unfold inRange. apply andb_false_iff. left. apply N.leb_gt. lia.
Qed.

Lemma charOk_ci_inv c d :
  charOk flagsIM false [CRange c c] d = true -> asciiUpper d = asciiUpper c.
Proof.
  unfold charOk, setHas. change (canonicalize flagsIM d) with (asciiUpper d).
  cbn [ignoreCase flagsIM andb existsb itemHas xorb orb]. rewrite !inRange_same, !orb_false_r.
  intros H. apply orb_prop in H. destruct H as [H | H].
  - apply N.eqb_eq in H. rewrite <- H. symmetry. apply asciiUpper_idem.
  - apply andb_prop in H. destruct H as [Hu H]. apply N.eqb_eq in H.
    apply inRange_true in Hu. subst c. unfold asciiUpper at 2.
    replace (inRange 97 122 (asciiUpper d + 32)) with true;
      [lia | symmetry; unfold inRange; apply andb_true_iff; split; apply N.leb_le; lia].
Qed.

Lemma fold_runs_inv fl ts : forall t0 x z,
  In z (rmatch fl (fold_left RSeq ts t0) true x) ->
  exists y, In y (rmatch fl t0 true x) /\ runs fl ts y z.
Proof.
  induction ts as [|t ts IH]; intros t0 x z H; cbn [fold_left runs] in *.
  - now exists z.
  - apply IH in H. destruct H as [y' [Hy' Hr]].
    rewrite rmatch_seq_fwd in Hy'. apply in_flat_map in Hy'. destruct Hy' as [y [Hy Hy']].
    exists y. split; [exact Hy |]. now exists y'.
Qed.

Lemma runs_app_inv fl ts1 ts2 : forall x z,
  runs fl (ts1 ++ ts2) x z -> exists y, runs fl ts1 x y /\ runs fl ts2 y z.
Proof.
  induction ts1 as [|t ts1 IH]; intros x z H; cbn [app runs] in *.
  - now exists x.
  - destruct H as [y' [Hy' H]]. apply IH in H. destruct H as [y [H1 H2]].
    exists y. split; [now exists y' | exact H2].
Qed.

Lemma runs_literal_inv lit : forall x z,
  runs flagsIM (map single lit) x z ->
  exists w, after x = w ++ after z /\ sameIgnoringCase w lit.
Proof.
  induction lit as [|c lit IH]; intros x z H; cbn [map runs] in H.
  - subst. exists []. split; [reflexivity | constructor].
  - destruct H as [y [Hy H]]. apply IH in H. destruct H as [w [Hw Hs]].
    rewrite (st_eta x) in Hy. unfold single in Hy.
    destruct (after x) as [|d a] eqn:Ea; [now rewrite rmatch_char_nil in Hy |].
    rewrite rmatch_char_cons in Hy.
    destruct (charOk flagsIM false [CRange c c] d) eqn:Ec; [| contradiction].
    destruct Hy as [<- | []]. cbn [st after] in Hw.
    exists (d :: w). split; [now rewrite Hw |].
    constructor; [now apply charOk_ci_inv | exact Hs].
Qed.

Lemma sameIgnoringCase_map w lit :
  sameIgnoringCase w lit -> map asciiUpper w = map asciiUpper lit.
Proof. induction 1 as [|d c w lit H _ IH]; [reflexivity |]. cbn [map]. now rewrite H, IH. Qed.

Lemma searchFrom_skips re : forall u p b a,
  (forall u1 u2, u = u1 ++ u2 -> u2 <> [] ->
                 matchAt re (p + List.length u1) (rev u1 ++ b) (u2 ++ a) = None) ->
  searchFrom re p b (u ++ a) = searchFrom re (p + List.length u) (rev u ++ b) a.
Proof.
  induction u as [|c u IH]; intros p b a H.
  - cbn [app List.length rev]. now rewrite Nat.add_0_r.
  - cbn [app searchFrom].
    pose proof (H [] (c :: u) eq_refl ltac:(discriminate)) as H0.
    cbn [List.length rev app] in H0. rewrite Nat.add_0_r in H0.
    rewrite H0. rewrite IH.
    + cbn [List.length rev]. rewrite <- app_assoc. f_equal. lia.
    + intros u1 u2 E Hne. specialize (H (c :: u1) u2).
      cbn [List.length rev app] in H. rewrite <- app_assoc in H. cbn [app] in H.
      rewrite Nat.add_succ_r in H. apply H; [now rewrite E | exact Hne].
Qed.

Lemma searchFrom_here re p b a r : matchAt re p b a = Some r -> searchFrom re p b a = Some r.
Proof. intros H. destruct a; cbn [searchFrom]; now rewrite H. Qed.

Section DeclaredBoundary.

Variables (name w1 kind sub w2 param quote value rest : jsstring).

Hypothesis Hname : sameIgnoringCase name (str "Content-Type:").
Hypothesis Hw1 : whitespaceText w1.
Hypothesis Hkind : sameIgnoringCase kind (str "multipart/").
Hypothesis Hsub : sub <> [] /\ subtypeText sub.
Hypothesis Hw2 : whitespaceText w2.
Hypothesis Hparam : sameIgnoringCase param (str "boundary=").
Hypothesis Hquote : quote = [] \/ quote = DQ.
Hypothesis Hvalue : value <> [] /\ valueText value.
Hypothesis Hrest : stopsAt isValueUnit rest.

Lemma header_line_leads p b :
  exists z s,
    leads flagsIM multipartTerms
          (st p b (headerLine name w1 kind sub w2 param quote value rest) [None]) z
    /\ caps z = [Some (s, s + List.length value)]
    /\ input z = input (st p b (headerLine name w1 kind sub w2 param quote value rest) [None])
    /\ s = p + List.length (name ++ w1 ++ kind ++ sub ++ [59%N] ++ w2 ++ param ++ quote).
Proof.
  unfold multipartTerms, headerLine.
  destruct (sameIgnoringCase_head _ _ _ Hkind) as [k0 [kind' [Ek Hk0]]].
  destruct (sameIgnoringCase_head _ _ _ Hparam) as [b0 [param' [Eb Hb0]]].
  assert (Hstop1 : stopsAt (charOk flagsIM false [CSpace false])
                     (kind ++ sub ++ [59%N] ++ w2 ++ param ++ quote ++ value ++ rest)).
  { rewrite Ek. cbn [app stopsAt]. apply ws_stop; rewrite Hk0; vm_compute; congruence. }
  assert (Hstop2 : stopsAt (charOk flagsIM false [CSpace false])
                     (param ++ quote ++ value ++ rest)).
  { rewrite Eb. cbn [app stopsAt]. apply ws_stop; rewrite Hb0; vm_compute; congruence. }
  assert (Hstop3 : stopsAt (charOk flagsIM true valueClass) rest).
  { destruct rest as [|c r]; [exact I |]. cbn [stopsAt] in *. now apply value_stop. }
  assert (Hopt : (quote = [] /\ stopsAt (fun c => (c =? 34)%N) (value ++ rest)) \/ quote = DQ).
  { destruct Hquote as [-> | ->]; [left | now right]. split; [reflexivity |].
    destruct Hvalue as [Hne Hv]. destruct value as [|v0 value']; [contradiction |].
    inversion_clear Hv as [|? ? Hv0 _]. cbn [app stopsAt].
    unfold isValueUnit in Hv0. apply andb_prop in Hv0. destruct Hv0 as [Hv0 _].
    now apply negb_true_iff in Hv0. }
  destruct (rmatch_star_first flagsIM false [CSpace false] w1 (p + List.length name)
              (rev name ++ b) _ [None] (Forall_impl _ whitespace_ok Hw1) Hstop1) as [l1 H1].
  set (p2 := p + List.length name + List.length w1 + List.length kind).
  set (b2 := rev kind ++ rev w1 ++ rev name ++ b).
  destruct (rmatch_plus_first flagsIM false subtypeClass sub p2 b2
              ([59%N] ++ w2 ++ param ++ quote ++ value ++ rest) [None]
              (proj1 Hsub) (Forall_impl _ subtype_ok (proj2 Hsub)) eq_refl) as [l2 H2].
  set (p3 := S (p2 + List.length sub)).
  set (b3 := 59%N :: rev sub ++ b2).
  destruct (rmatch_star_first flagsIM false [CSpace false] w2 p3 b3 _ [None]
              (Forall_impl _ whitespace_ok Hw2) Hstop2) as [l3 H3].
  set (p4 := p3 + List.length w2 + List.length param).
  set (b4 := rev param ++ rev w2 ++ b3).
  destruct (rmatch_opt_quote quote p4 b4 (value ++ rest) [None] Hopt) as [l4 H4].
  set (p5 := p4 + List.length quote).
  set (b5 := rev quote ++ b4).
  destruct (rmatch_plus_first flagsIM true valueClass value p5 b5 rest [None]
              (proj1 Hvalue) (Forall_impl _ value_ok (proj2 Hvalue)) Hstop3) as [l5 H5].
  destruct (rmatch_opt_quote_any (p5 + List.length value) (rev value ++ b5) rest
              [Some (p5, p5 + List.length value)]) as [z [l6 [H6 [Hc Hi]]]].
  exists z, p5. split; [| split; [exact Hc | split]].
  - eapply leads_app; [apply leads_literal, Hname |].
    eapply leads_app; [eapply leads_one, H1 |].
    eapply leads_app; [apply leads_literal, Hkind |].
    cbn [app leads].
    eexists; eexists. split; [exact H2 |].
    eexists; eexists. split; [unfold single; cbn [app]; rewrite rmatch_char_cons; reflexivity |].
    eexists; eexists. split; [exact H3 |].
    eapply leads_app; [apply leads_literal, Hparam |].
    cbn [leads].
    eexists; eexists. split; [exact H4 |].
    eexists; eexists. split; [rewrite rmatch_group; fold p5 b5; rewrite H5; reflexivity |].
    eexists; eexists. split; [exact H6 | reflexivity].
  - rewrite Hi. unfold input, st. cbn [before after]. subst b5 b4 b3 b2.
    rewrite !rev_append_app.
    repeat (progress (rewrite ?rev_app_distr, ?rev_involutive, <- ?app_assoc; cbn [rev app])).
    reflexivity.
  - subst p5 p4 p3 p2. rewrite !length_app. cbn [List.length]. lia.
Qed.

Variable pre : jsstring.
Hypothesis Hpre : startsLine pre.
Hypothesis Hfirst : indexOf (map asciiUpper pre) (str "CONTENT-TYPE:") = None.

Lemma header_line_capture :
  exists r,
    matchAt reMultipart (List.length pre) (rev pre)
            (headerLine name w1 kind sub w2 param quote value rest) = Some r
    /\ capture 1 r = Some value.
Proof.
  destruct (header_line_leads (List.length pre) (rev pre)) as [z [s [Hz [Hc [Hi Hs]]]]].
  set (line := headerLine name w1 kind sub w2 param quote value rest) in *.
  destruct (leads_fold flagsIM multipartTerms RBol
              (st (List.length pre) (rev pre) line [None])
              (st (List.length pre) (rev pre) line [None]) [] z) as [l Hl]; [| exact Hz |].
  { cbn [rmatch]. unfold atLineStart, st. cbn [before].
    destruct Hpre as [-> | (pre' & c & -> & Hc')]; [reflexivity |].
    rewrite rev_app_distr. cbn [rev app]. now rewrite Hc'. }
  exists (toResult (List.length pre) z). split.
  - unfold matchAt.
    change (initState reMultipart (List.length pre) (rev pre) line)
      with (st (List.length pre) (rev pre) line [None]).
    change (reFlags reMultipart) with flagsIM. rewrite reMultipart_terms. now rewrite Hl.
  - unfold capture, toResult. cbn [mCaps]. rewrite Hc. cbn [map nth option_map fst snd].
    f_equal. rewrite Hi. unfold input, st. cbn [before after].
    rewrite rev_append_app, rev_involutive. unfold line, headerLine.
    subst s. rewrite <- length_app.
    replace (pre ++ name ++ w1 ++ kind ++ sub ++ [59%N] ++ w2 ++ param ++ quote ++ value ++ rest)
      with ((pre ++ name ++ w1 ++ kind ++ sub ++ [59%N] ++ w2 ++ param ++ quote) ++ value ++ rest)
      by (now rewrite <- !app_assoc).
    now apply substring_middle.
Qed.

Lemma no_match_before u v a :
  pre = u ++ v -> v <> [] ->
  matchAt reMultipart (List.length u) (rev u) (v ++ a) = None.
Proof.
  intros E Hv. unfold matchAt.
  destruct (rmatch _ _ _ _) as [|z l] eqn:Hm; [reflexivity |].
  exfalso.
  assert (Hin : In z (rmatch flagsIM (fold_left RSeq multipartTerms RBol) true
                        (st (List.length u) (rev u) (v ++ a) [None]))).
  { rewrite <- reMultipart_terms.
    change (st (List.length u) (rev u) (v ++ a) [None])
      with (initState reMultipart (List.length u) (rev u) (v ++ a)).
    change flagsIM with (reFlags reMultipart). rewrite Hm. now left. }
  apply fold_runs_inv in Hin. destruct Hin as [y [Hy Hr]].
  cbn [rmatch] in Hy. apply guard_In in Hy. subst y.
  unfold multipartTerms in Hr. apply runs_app_inv in Hr. destruct Hr as [y [Hr _]].
  apply runs_literal_inv in Hr. destruct Hr as [w [Hw Hs]]. cbn [st after] in Hw.
  apply sameIgnoringCase_map in Hs. change (map asciiUpper (str "Content-Type:"))
    with (str "CONTENT-TYPE:") in Hs.
  apply app_eq_app in Hw. destruct Hw as [t [[Ev _] | [Ew _]]].
  - apply (proj1 (indexOf_None _ _) Hfirst).
    exists (map asciiUpper u), (map asciiUpper t).
    now rewrite E, Ev, !map_app, Hs.
  - destruct Hpre as [Hnil | (pre' & c & Epre & Hc)].
    + rewrite Hnil in E. destruct u; [| discriminate]. cbn [app] in E. now subst v.
    + assert (Hlast : exists v', v = v' ++ [c]).
      { destruct (exists_last Hv) as [v' [c' Ev']]. exists v'.
        rewrite Ev', app_assoc, Epre in E. apply app_inj_tail in E. destruct E as [_ ->].
        exact Ev'. }
      destruct Hlast as [v' ->].
      assert (Hin : In (asciiUpper c) (str "CONTENT-TYPE:")).
      { rewrite <- Hs, Ew, !map_app. apply in_or_app. left. apply in_or_app. right. now left. }
      assert (Hup : asciiUpper c = c).
      { unfold asciiUpper. destruct (inRange 97 122 c) eqn:El; [| reflexivity].
        apply inRange_true in El. unfold isLineTerminator in Hc.
        repeat (apply orb_prop in Hc; destruct Hc as [Hc | Hc]); apply N.eqb_eq in Hc; lia. }
      rewrite Hup in Hin. cbn in Hin.
      repeat (destruct Hin as [<- | Hin]; [discriminate |]). exact Hin.
Qed.

Lemma declared_boundary_found body :
  body <> [] ->
  branchOf (pre ++ headerLine name w1 kind sub w2 param quote value rest) body = Multipart value.
Proof.
  intros Hbody. destruct header_line_capture as [r [Hr Hcap]].
  unfold branchOf, exec.
  rewrite searchFrom_skips.
  - cbn [Nat.add]. rewrite app_nil_r.
    rewrite (searchFrom_here _ _ _ _ _ Hr), Hcap.
    destruct body; [contradiction | reflexivity].
  - intros u v E Hv. cbn [Nat.add]. rewrite app_nil_r. now apply no_match_before.
Qed.

End DeclaredBoundary.

(** X9.  When the first [Content-Type:] of the header block opens a
    line that declares a multipart type with the boundary as its first
    parameter, and the value of the boundary ends at a double quote, at
    white space or with the block, a message with a body takes the
    multipart branch with exactly this value as boundary. *)
Theorem declared_boundary_is_captured
    (pre name w1 kind sub w2 param quote value rest body : jsstring) :
  startsLine pre ->
  indexOf (map asciiUpper pre) (str "CONTENT-TYPE:") = None ->
  sameIgnoringCase name (str "Content-Type:") ->
  whitespaceText w1 ->
  sameIgnoringCase kind (str "multipart/") ->
  sub <> [] /\ subtypeText sub ->
  whitespaceText w2 ->
  sameIgnoringCase param (str "boundary=") ->
  quote = [] \/ quote = DQ ->
  value <> [] /\ valueText value ->
  stopsAt isValueUnit rest ->
  body <> [] ->
  branchOf (pre ++ headerLine name w1 kind sub w2 param quote value rest) body = Multipart value.
Proof.
  intros Hpre Hfirst Hname Hw1 Hkind Hsub Hw2 Hparam Hquote Hvalue Hrest Hbody.
  now apply declared_boundary_found.
Qed.

Lemma declared_boundary_witness :
  branchOf (str "Subject: hi" ++ CRLF
            ++ headerLine (str "content-type:") (str " ") (str "Multipart/") (str "mixed")
                 (str " ") (str "boundary=") DQ (str "XYZ") (DQ ++ str "; charset=utf-8"))
           (str "x")
  = Multipart (str "XYZ").
Proof.
  apply (declared_boundary_is_captured (str "Subject: hi" ++ CRLF)
           (str "content-type:") (str " ") (str "Multipart/") (str "mixed")
           (str " ") (str "boundary=") DQ (str "XYZ") (DQ ++ str "; charset=utf-8") (str "x")).
  - right. exists (str "Subject: hi" ++ [CR]), LF. split; reflexivity.
  - reflexivity.
  - repeat constructor.
  - repeat constructor.
  - repeat constructor.
  - split; [discriminate | repeat constructor].
  - repeat constructor.
  - repeat constructor.
  - now right.
  - split; [discriminate | repeat constructor].
  - reflexivity.
  - discriminate.
Defined.

Lemma scan_app_skipped parts post : forall p h,
  Forall (fun part => kindOf part = Skipped) post ->
  scan (parts ++ post) p h = scan parts p h.
Proof.
  induction parts as [|part parts IH]; intros p h Hpost; cbn [app scan].
  - now apply scan_skipped.
  - destruct (kindOf part); [now apply IH | reflexivity | now apply IH].
Qed.

(** X12.  For a message that takes the multipart branch with a
    boundary [b] that has no syntax character of the pattern grammar and
    no CR, and whose body is made of delimiter lines of [b] around parts
    that do not contain [--b], the result is the final choice between the
    two bodies that the loop reaches over exactly these parts. *)
Theorem well_formed_multipart_message_is_scanned_part_by_part
    (raw : jsstring) (i : nat) (b : jsstring) (parts : list jsstring) :
  indexOf raw CRLFCRLF = Some i ->
  substringFrom raw (i + 4) = multipartBody b parts ->
  branchOf (substring raw 0 i) (multipartBody b parts) = Multipart b ->
  plainText b ->
  ~ In 13%N b ->
  Forall (fun part => indexOf part (str "--" ++ b) = None) parts ->
  result (extractEmailBody raw)
  = Normal (resolveBody (fst (scan parts [] [])) (snd (scan parts [] []))).
Proof.
  intros Hi Hbody Hb Hplain Hcr Hparts.
  assert (Hsplit : split (boundaryRegExp b) (substringFrom raw (i + 4))
                   = map Some ([] :: parts ++ [[]])).
  { rewrite Hbody. now apply split_multipartBody. }
  rewrite <- Hbody in Hb.
  rewrite (extractEmailBody_scan raw i b (boundaryRegExp b) _ Hi Hb
             (compile_plain_boundary b Hplain) Hsplit).
  cbn [scan]. change (kindOf []) with Skipped. cbv iota.
  rewrite scan_app_skipped by (repeat constructor). reflexivity.
Qed.

Lemma well_formed_multipart_witness :
  result (extractEmailBody htmlThenPlainMessage)
  = Normal (resolveBody (fst (scan [htmlPart; plainPart] [] []))
                        (snd (scan [htmlPart; plainPart] [] []))).
Proof.
  apply (well_formed_multipart_message_is_scanned_part_by_part htmlThenPlainMessage 49
           (str "XYZ") [htmlPart; plainPart]).
  - vm_compute. reflexivity.
  - vm_compute. reflexivity.
  - vm_compute. reflexivity.
  - repeat constructor.
  - vm_compute. intuition discriminate.
  - repeat (constructor; [vm_compute; reflexivity |]). constructor.
Defined.

End BoundaryFacts.

(** ** The plain part before the HTML part *)

Section PlainFirst.

(** C5 as stated fails: with the boundary [ab+c] the pattern made of it
    matches [--abc], [--abbc] and so on, but not the delimiter lines of the
    message.  The body is not split, and the whole of it is one plain
    part: the result holds the delimiter lines and the HTML part. *)
Lemma plus_boundary_returns_the_html_part_too :
  result (extractEmailBody plusBoundaryMessage)
  = Normal (str "Hello there" ++ CRLF ++ str "--ab+c" ++ CRLF ++ htmlPart ++ CRLF
            ++ str "--ab+c--").
Proof. vm_compute. reflexivity. Qed.

(** C5 (as the code has it).  For a message that takes the multipart
    branch with a boundary [b] that has no syntax character of the pattern
    grammar and no CR, and whose body is made of delimiter lines of [b]
    around parts that do not contain [--b]: when the first part that the
    loop does not pass over is a plain part, the result is the trimmed
    decoded body of that part, whatever parts follow it. *)
Theorem plain_part_before_html_is_returned
    (raw : jsstring) (i : nat) (b : jsstring)
    (pre : list jsstring) (part : jsstring) (post : list jsstring) (body te : jsstring) :
  indexOf raw CRLFCRLF = Some i ->
  substringFrom raw (i + 4) = multipartBody b (pre ++ part :: post) ->
  branchOf (substring raw 0 i) (multipartBody b (pre ++ part :: post)) = Multipart b ->
  plainText b ->
  ~ In 13%N b ->
  Forall (fun q => indexOf q (str "--" ++ b) = None) (pre ++ part :: post) ->
  Forall (fun q => kindOf q = Skipped) pre ->
  kindOf part = PlainPart body te ->
  result (extractEmailBody raw) = Normal (trim (decoded body te)).
Proof.
  intros Hi Hbody Hb Hplain Hcr Hparts Hpre Hpart.
  assert (Hsplit : split (boundaryRegExp b) (substringFrom raw (i + 4))
                   = map Some (([] :: pre) ++ part :: post ++ [[]])).
  { rewrite Hbody, (split_multipartBody b _ Hcr Hparts).
    cbn [app]. now rewrite <- app_assoc. }
  rewrite <- Hbody in Hb.
  rewrite (extractEmailBody_scan raw i b (boundaryRegExp b) _ Hi Hb
             (compile_plain_boundary b Hplain) Hsplit).
  assert (Hnot : Forall notPlain ([] :: pre)).
  { constructor; [exact I |]. eapply Forall_impl; [| exact Hpre].
    intros q Hq. unfold notPlain. now rewrite Hq. }
  pose proof (scan_plain ([] :: pre) part (post ++ [[]]) body te [] [] Hnot Hpart) as Hscan.
  rewrite (scan_skipped ([] :: pre) [] []) in Hscan by (constructor; [reflexivity | exact Hpre]).
  cbn [snd] in Hscan.
  assert (Hx : forall x, x = (decoded body te, []) ->
                         resolveBody (fst x) (snd x) = trim (decoded body te)).
  { intros x ->. apply resolveBody_plain. }
  apply f_equal, Hx. exact Hscan.
Qed.

Lemma plain_part_before_html_witness :
  result (extractEmailBody plainThenHtmlMessage) = Normal (str "Hello there").
Proof.
  apply (plain_part_before_html_is_returned plainThenHtmlMessage 49 (str "XYZ")
           [] plainPart [htmlPart] (str "Hello there") []).
  - vm_compute. reflexivity.
  - vm_compute. reflexivity.
  - vm_compute. reflexivity.
  - repeat constructor.
  - vm_compute. intuition discriminate.
  - repeat (constructor; [vm_compute; reflexivity |]). constructor.
  - constructor.
  - vm_compute. reflexivity.
Defined.

End PlainFirst.

(** ** The transfer encoding that a header block declares *)

Section EncodingFacts.

Lemma reTransferEncoding_terms :
  reAst reTransferEncoding
  = fold_left RSeq (tl transferEncodingTerms) (hd REmpty transferEncodingTerms).
Proof. reflexivity. Qed.

Lemma indexOf_eq s p :
  indexOf s p = if startsWith s p then Some 0
                else match s with [] => None | _ :: s' => option_map S (indexOf s' p) end.
Proof. now destruct s. Qed.

Lemma indexOf_least lit : forall u s t n,
  indexOf s lit = Some n -> s = u ++ lit ++ t -> n <= List.length u.
Proof.
  induction u as [|c u IH]; intros s t n Hn ->.
  - cbn [app] in Hn. rewrite indexOf_eq, startsWith_app in Hn. injection Hn as <-. cbn. lia.
  - rewrite indexOf_eq in Hn. cbn [app] in Hn.
    destruct (startsWith (c :: u ++ lit ++ t) lit); [injection Hn as <-; cbn; lia |].
    destruct (indexOf (u ++ lit ++ t) lit) as [n'|] eqn:E; [| discriminate].
    cbn [option_map] in Hn. injection Hn as <-.
    specialize (IH _ t n' E eq_refl). cbn [List.length]. lia.
Qed.

Lemma app_eq_prefix {A} (a z w t : list A) :
  a ++ z = w ++ t -> List.length w <= List.length a -> exists t', a = w ++ t'.
Proof.
  intros E L. apply app_eq_app in E. destruct E as [l [[-> _] | [-> _]]].
  - now exists l.
  - rewrite length_app in L. destruct l; [| cbn in L; lia].
    exists []. now rewrite !app_nil_r.
Qed.

Lemma sameIgnoringCase_length w lit : sameIgnoringCase w lit -> List.length w = List.length lit.
Proof. induction 1; cbn; congruence. Qed.

Lemma ws_stop_any c : isWhiteSpace c = false -> charOk flagsIM false [CSpace false] c = false.
Proof.
  intros H. unfold charOk, setHas.
  cbn [ignoreCase flagsIM andb existsb itemHas xorb orb].
  destruct (inRange 97 122 c) eqn:El.
  - rewrite (canonicalize_lower _ El). apply inRange_true in El.
    rewrite (isWhiteSpace_printable (c - 32)) by lia.
    replace (c - 32 + 32)%N with c by lia. rewrite H. now rewrite andb_false_r.
  - rewrite (canonicalize_other _ El). rewrite H.
    destruct (inRange 65 90 c) eqn:Eu; [| reflexivity].
    apply inRange_true in Eu. now rewrite (isWhiteSpace_printable (c + 32)) by lia.
Qed.

Lemma charOk_not_crlf c :
  charOk flagsIM true [CRange 13 13; CRange 10 10] c = negb (isCRorLF c).
Proof.
  unfold charOk, setHas, isCRorLF.
  cbn [ignoreCase flagsIM andb existsb itemHas xorb orb]. rewrite !inRange_same, !orb_false_r.
  destruct (inRange 97 122 c) eqn:El.
  - rewrite (canonicalize_lower _ El). apply inRange_true in El.
    replace (c - 32 + 32)%N with c by lia.
    replace (c - 32 =? 13)%N with false by (symmetry; apply N.eqb_neq; lia).
    replace (c - 32 =? 10)%N with false by (symmetry; apply N.eqb_neq; lia).
    replace (c =? 13)%N with false by (symmetry; apply N.eqb_neq; lia).
    replace (c =? 10)%N with false by (symmetry; apply N.eqb_neq; lia).
    now rewrite andb_false_r.
  - rewrite (canonicalize_other _ El).
    destruct (inRange 65 90 c) eqn:Eu; [| now rewrite !orb_false_r].
    apply inRange_true in Eu.
    replace (c + 32 =? 13)%N with false by (symmetry; apply N.eqb_neq; lia).
    replace (c + 32 =? 10)%N with false by (symmetry; apply N.eqb_neq; lia).
    now rewrite !orb_false_r.
Qed.

Lemma leads_fold_terms fl t0 ts x z :
  leads fl (t0 :: ts) x z -> exists l, rmatch fl (fold_left RSeq ts t0) true x = z :: l.
Proof.
  cbn [leads]. intros [y [l [Hy Hz]]]. now apply (leads_fold fl ts t0 x y l z).
Qed.

Lemma fold_runs_terms fl t0 ts x z :
  In z (rmatch fl (fold_left RSeq ts t0) true x) -> runs fl (t0 :: ts) x z.
Proof.
  intros H. apply fold_runs_inv in H. destruct H as [y [Hy Hr]]. cbn [runs]. now exists y.
Qed.

Section EncodingLine.

Variables (pre name w v rest : jsstring).

Hypothesis Hfirst :
  indexOf (map asciiUpper (pre ++ name)) (str "CONTENT-TRANSFER-ENCODING:")
  = Some (List.length pre).
Hypothesis Hname : sameIgnoringCase name (str "Content-Transfer-Encoding:").
Hypothesis Hw : whitespaceText w.
Hypothesis Hv : v <> [] /\ Forall (fun c => isCRorLF c = false) v.
Hypothesis Hhead : stopsAt isWhiteSpace v.
Hypothesis Hrest : stopsAt (fun c => negb (isCRorLF c)) rest.

Lemma encoding_line_leads p b :
  leads flagsIM transferEncodingTerms
        (st p b (name ++ w ++ v ++ rest) [None])
        (st (p + List.length name + List.length w + List.length v)
            (rev v ++ rev w ++ rev name ++ b) rest
            [Some (p + List.length name + List.length w,
                   p + List.length name + List.length w + List.length v)]).
Proof.
  unfold transferEncodingTerms.
  assert (Hstop1 : stopsAt (charOk flagsIM false [CSpace false]) (v ++ rest)).
  { destruct Hv as [Hne _]. destruct v as [|c v']; [contradiction |].
    cbn [app stopsAt] in *. now apply ws_stop_any. }
  assert (Hstop2 : stopsAt (charOk flagsIM true [CRange 13 13; CRange 10 10]) rest).
  { destruct rest as [|c r]; [exact I |]. cbn [stopsAt] in *.
    rewrite charOk_not_crlf. exact Hrest. }
  assert (Hok : Forall (fun c => charOk flagsIM true [CRange 13 13; CRange 10 10] c = true) v).
  { eapply Forall_impl; [| exact (proj2 Hv)]. intros c Hc. cbv beta in Hc.
    now rewrite charOk_not_crlf, Hc. }
  destruct (rmatch_star_first flagsIM false [CSpace false] w (p + List.length name)
              (rev name ++ b) _ [None] (Forall_impl _ whitespace_ok Hw) Hstop1) as [l1 H1].
  destruct (rmatch_plus_first flagsIM true [CRange 13 13; CRange 10 10] v
              (p + List.length name + List.length w) (rev w ++ rev name ++ b) rest [None]
              (proj1 Hv) Hok Hstop2) as [l2 H2].
  eapply leads_app; [apply leads_literal, Hname |].
  cbn [leads].
  eexists; eexists. split; [exact H1 |].
  eexists; eexists. split; [rewrite rmatch_group, H2; reflexivity | reflexivity].
Qed.

Lemma encoding_line_capture :
  exists r,
    matchAt reTransferEncoding (List.length pre) (rev pre) (name ++ w ++ v ++ rest) = Some r
    /\ capture 1 r = Some v.
Proof.
  destruct (leads_fold_terms flagsIM (hd REmpty transferEncodingTerms) (tl transferEncodingTerms)
              _ _ (encoding_line_leads (List.length pre) (rev pre))) as [l Hl].
  eexists. split.
  - unfold matchAt.
    change (initState reTransferEncoding (List.length pre) (rev pre) (name ++ w ++ v ++ rest))
      with (st (List.length pre) (rev pre) (name ++ w ++ v ++ rest) [None]).
    change (reFlags reTransferEncoding) with flagsIM.
    rewrite reTransferEncoding_terms, Hl. reflexivity.
  - unfold capture, toResult. cbn [mCaps st caps map nth option_map fst snd]. f_equal.
    unfold input, st. cbn [before after]. rewrite rev_append_app.
    repeat (progress (rewrite ?rev_app_distr, ?rev_involutive, <- ?app_assoc)).
    replace (pre ++ name ++ w ++ v ++ rest) with ((pre ++ name ++ w) ++ v ++ rest)
      by (now rewrite <- !app_assoc).
    apply substring_middle. rewrite !length_app. lia.
Qed.

Lemma no_encoding_before u t a :
  pre = u ++ t -> t <> [] ->
  matchAt reTransferEncoding (List.length u) (rev u) (t ++ name ++ a) = None.
Proof.
  intros E Ht. unfold matchAt.
  destruct (rmatch _ _ _ _) as [|z l] eqn:Hm; [reflexivity |].
  exfalso.
  assert (Hin : In z (rmatch flagsIM
                        (fold_left RSeq (tl transferEncodingTerms)
                                   (hd REmpty transferEncodingTerms)) true
                        (st (List.length u) (rev u) (t ++ name ++ a) [None]))).
  { rewrite <- reTransferEncoding_terms.
    change (st (List.length u) (rev u) (t ++ name ++ a) [None])
      with (initState reTransferEncoding (List.length u) (rev u) (t ++ name ++ a)).
    change flagsIM with (reFlags reTransferEncoding). rewrite Hm. now left. }
  apply fold_runs_terms in Hin.
  change (hd REmpty transferEncodingTerms :: tl transferEncodingTerms)
    with transferEncodingTerms in Hin.
  unfold transferEncodingTerms in Hin. apply runs_app_inv in Hin. destruct Hin as [y [Hr _]].
  apply runs_literal_inv in Hr. destruct Hr as [w' [Hw' Hs]]. cbn [st after] in Hw'.
  pose proof (sameIgnoringCase_length _ _ Hs) as L1.
  pose proof (sameIgnoringCase_length _ _ Hname) as L2.
  rewrite app_assoc in Hw'.
  apply app_eq_prefix in Hw'; [| rewrite length_app; lia].
  destruct Hw' as [t' Ht'].
  apply sameIgnoringCase_map in Hs.
  change (map asciiUpper (str "Content-Transfer-Encoding:"))
    with (str "CONTENT-TRANSFER-ENCODING:") in Hs.
  assert (Hle : List.length pre <= List.length (map asciiUpper u)).
  { apply (indexOf_least _ _ _ (map asciiUpper t') _ Hfirst).
    rewrite E, <- app_assoc, Ht', !map_app, Hs. reflexivity. }
  rewrite length_map, E, length_app in Hle.
  destruct t; [contradiction | cbn in Hle; lia].
Qed.

Lemma encoding_captured :
  exists m,
    exec reTransferEncoding (pre ++ name ++ w ++ v ++ rest) = Some m /\ capture 1 m = Some v.
Proof.
  destruct encoding_line_capture as [r [Hr Hcap]].
  exists r. split; [| exact Hcap]. unfold exec.
  rewrite searchFrom_skips.
  - cbn [Nat.add]. rewrite app_nil_r. exact (searchFrom_here _ _ _ _ _ Hr).
  - intros u t E Ht. cbn [Nat.add]. rewrite app_nil_r. now apply no_encoding_before.
Qed.

Lemma encoding_found :
  transferEncodingOf (pre ++ name ++ w ++ v ++ rest) = ret (toLowerCase v).
Proof.
  destruct encoding_captured as [m [Hm Hcap]].
  unfold transferEncodingOf, lowerCapture1. now rewrite Hm, Hcap.
Qed.

End EncodingLine.

(** X7.  When the first [Content-Transfer-Encoding:] of a header
    block, in any case, is followed by white space and then by a
    non-empty text [v] without CR and LF that starts with no white space
    and goes up to a CR or LF or to the end of the block, the pattern
    captures exactly [v], white space at its end included.  When [v] is
    ASCII, the transfer encoding read from the block is [v] with the
    letters [A] to [Z] in lower case. *)
Theorem transfer_encoding_is_read_from_its_line (pre name w v rest : jsstring) :
  indexOf (map asciiUpper (pre ++ name)) (str "CONTENT-TRANSFER-ENCODING:")
  = Some (List.length pre) ->
  sameIgnoringCase name (str "Content-Transfer-Encoding:") ->
  whitespaceText w ->
  v <> [] /\ Forall (fun c => isCRorLF c = false) v ->
  stopsAt isWhiteSpace v ->
  stopsAt (fun c => negb (isCRorLF c)) rest ->
  (exists m,
      exec reTransferEncoding (pre ++ name ++ w ++ v ++ rest) = Some m /\ capture 1 m = Some v) /\
  (asciiText v ->
   transferEncodingOf (pre ++ name ++ w ++ v ++ rest) = ret (map asciiLower v)).
Proof.
  intros Hfirst Hname Hw Hv Hhead Hrest. split.
  - now apply encoding_captured.
  - intros Hascii. rewrite <- (@toLowerCase_ascii v Hascii). now apply encoding_found.
Qed.

Lemma transfer_encoding_witness :
  transferEncodingOf (str "Subject: x" ++ CRLF ++ str "content-transfer-encoding:" ++ str " "
                      ++ str "Base64 " ++ CRLF ++ str "X: y")
  = ret (str "base64 ").
Proof.
  apply (transfer_encoding_is_read_from_its_line (str "Subject: x" ++ CRLF)
           (str "content-transfer-encoding:") (str " ") (str "Base64 ") (CRLF ++ str "X: y")).
  - reflexivity.
  - repeat constructor.
  - repeat constructor.
  - split; [discriminate | repeat constructor].
  - reflexivity.
  - reflexivity.
  - repeat (constructor; [reflexivity |]). constructor.
Defined.



End EncodingFacts.

(** ** The content type that the headers of a part declare *)

Section ContentTypeFacts.

Lemma rePartContentType_terms :
  reAst rePartContentType
  = fold_left RSeq (tl contentTypeTerms) (hd REmpty contentTypeTerms).
Proof. reflexivity. Qed.

Lemma step_input fwd x c y : step fwd x = Some (c, y) -> input y = input x.
Proof.
  unfold step, stepFwd, stepBwd, input. destruct fwd.
  - destruct (after x) as [|d a] eqn:E; [discriminate |].
    intros H. injection H as _ <-. cbn [before after]. reflexivity.
  - destruct (before x) as [|d b] eqn:E; [discriminate |].
    intros H. injection H as _ <-. cbn [before after]. reflexivity.
Qed.

Lemma same_shape_input x y : before y = before x -> after y = after x -> input y = input x.
Proof. unfold input. now intros -> ->. Qed.

Lemma consume_input fl fwd s : forall x y, In y (consume fl fwd s x) -> input y = input x.
Proof.
  induction s as [|c s IH]; intros x y H; cbn [consume] in H.
  - now destruct H as [<- | []].
  - destruct (step fwd x) as [[d x']|] eqn:E; [| contradiction].
    destruct (canonicalize fl c =? canonicalize fl d)%N; [| contradiction].
    rewrite (IH _ _ H). eapply step_input, E.
Qed.

Lemma repeatMatcher_input (m : mstate -> list mstate) gs :
  (forall x y, In y (m x) -> input y = input x) ->
  forall fuel min max greedy x y,
    In y (repeatMatcher fuel m gs min max greedy x) -> input y = input x.
Proof.
  intros Hm. induction fuel as [|fuel IH]; intros min max greedy x y H; [contradiction |].
  rewrite repeatMatcher_S in H.
  assert (Hc : input (clearCaps gs x) = input x).
  { destruct (clearCaps_shape gs x) as (P & B & A). now apply same_shape_input. }
  assert (Hagain :
      In y (flat_map (fun y0 =>
              if (min =? 0)%N && (pos y0 =? pos x) then []
              else repeatMatcher fuel m gs (decN min) (decMax max) greedy y0)
            (m (clearCaps gs x))) -> input y = input x).
  { intros Hin. apply in_flat_map in Hin. destruct Hin as [y0 [H0 H1]].
    destruct ((min =? 0)%N && (pos y0 =? pos x)); [contradiction |].
    rewrite (IH _ _ _ _ _ H1), (Hm _ _ H0). exact Hc. }
  assert (Hx : In y [x] -> input y = input x) by now intros [<- | []].
  destruct max as [[|mx]|]; cbv zeta in H.
  - apply Hx, H.
  - destruct (negb (min =? 0)%N); [now apply Hagain |].
    destruct greedy.
    + apply in_app_or in H. destruct H; auto.
    + destruct H as [<- | H]; [reflexivity | auto].
  - destruct (negb (min =? 0)%N); [now apply Hagain |].
    destruct greedy.
    + apply in_app_or in H. destruct H; auto.
    + destruct H as [<- | H]; [reflexivity | auto].
Qed.

Lemma rmatch_input fl r : forall fwd x y, In y (rmatch fl r fwd x) -> input y = input x.
Proof.
  induction r as [ | inv items | | a IHa b IHb | a IHa b IHb | r IH min max greedy
                   | i r IH | ahead0 neg r IH | i | nm | | | neg ];
    intros fwd x y H; cbn [rmatch] in H.
  - now destruct H as [<- | []].
  - destruct (step fwd x) as [[c x']|] eqn:E; [| contradiction].
    apply guard_In in H. subst y. eapply step_input, E.
  - destruct (step fwd x) as [[c x']|] eqn:E; [| contradiction].
    apply guard_In in H. subst y. eapply step_input, E.
  - destruct fwd; apply in_flat_map in H; destruct H as [z [H1 H2]].
    + rewrite (IHb _ _ _ H2). now apply (IHa true).
    + rewrite (IHa _ _ _ H2). now apply (IHb false).
  - apply in_app_or in H. destruct H; eauto.
  - eapply repeatMatcher_input; [| exact H]. intros x0 y0. apply IH.
  - apply in_map_iff in H. destruct H as [z [<- Hz]].
    destruct (setCap_shape i (Some (if fwd then (pos x, pos z) else (pos z, pos x))) z)
      as (P & B & A).
    rewrite (same_shape_input z _ B A). eapply IH, Hz.
  - destruct (rmatch fl r ahead0 x) as [|z l]; apply guard_In in H; now subst y.
  - destruct (getCap i x) as [[s e]|].
    + eapply consume_input, H.
    + now destruct H as [<- | []].
  - contradiction.
  - apply guard_In in H. now subst y.
  - apply guard_In in H. now subst y.
  - apply guard_In in H. now subst y.
Qed.

Lemma charOk_not_semicolon c : charOk flagsIM true [CRange 59 59] c = negb (c =? 59)%N.
Proof.
  unfold charOk, setHas.
  cbn [ignoreCase flagsIM andb existsb itemHas xorb orb]. rewrite !inRange_same, !orb_false_r.
  destruct (inRange 97 122 c) eqn:El.
  - rewrite (canonicalize_lower _ El). apply inRange_true in El.
    replace (c - 32 + 32)%N with c by lia.
    replace (c - 32 =? 59)%N with false by (symmetry; apply N.eqb_neq; lia).
    replace (c =? 59)%N with false by (symmetry; apply N.eqb_neq; lia).
    now rewrite andb_false_r.
  - rewrite (canonicalize_other _ El).
    destruct (inRange 65 90 c) eqn:Eu; [| now rewrite !orb_false_r].
    apply inRange_true in Eu.
    replace (c + 32 =? 59)%N with false by (symmetry; apply N.eqb_neq; lia).
    now rewrite !orb_false_r.
Qed.

Lemma optional_first fl r x :
  exists z l, rmatch fl (RQuant r 0 (Some 1%N) true) true x = z :: l.
Proof.
  rewrite rmatch_quant, repeatMatcher_S. cbv zeta. cbn [N.eqb negb].
  destruct (flat_map _ _) as [|z l]; [now exists x, [] | now exists z, (l ++ [x])].
Qed.

Lemma no_literal_before re lit ts pre name :
  reAst re = fold_left RSeq (tl (map single lit ++ ts)) (hd REmpty (map single lit ++ ts)) ->
  reFlags re = flagsIM ->
  lit <> [] ->
  sameIgnoringCase name lit ->
  indexOf (map asciiUpper (pre ++ name)) (map asciiUpper lit) = Some (List.length pre) ->
  forall u t a, pre = u ++ t -> t <> [] ->
                matchAt re (List.length u) (rev u) (t ++ name ++ a) = None.
Proof.
  intros Hast Hfl Hlit Hname Hfirst u t a E Ht. unfold matchAt.
  destruct (rmatch _ _ _ _) as [|z l] eqn:Hm; [reflexivity |].
  exfalso.
  assert (Hin : In z (rmatch (reFlags re) (reAst re) true
                        (initState re (List.length u) (rev u) (t ++ name ++ a))))
    by (rewrite Hm; now left).
  rewrite Hast, Hfl in Hin. apply fold_runs_terms in Hin.
  assert (Hterms : hd REmpty (map single lit ++ ts) :: tl (map single lit ++ ts)
                   = map single lit ++ ts) by (destruct lit; [contradiction | reflexivity]).
  rewrite Hterms in Hin. apply runs_app_inv in Hin. destruct Hin as [y [Hr _]].
  apply runs_literal_inv in Hr. destruct Hr as [w' [Hw' Hs]].
  cbn [initState after] in Hw'.
  pose proof (sameIgnoringCase_length _ _ Hs) as L1.
  pose proof (sameIgnoringCase_length _ _ Hname) as L2.
  rewrite app_assoc in Hw'.
  apply app_eq_prefix in Hw'; [| rewrite length_app; lia].
  destruct Hw' as [t' Ht'].
  apply sameIgnoringCase_map in Hs.
  assert (Hle : List.length pre <= List.length (map asciiUpper u)).
  { apply (indexOf_least _ _ _ (map asciiUpper t') _ Hfirst).
    rewrite E, <- app_assoc, Ht', !map_app, Hs. reflexivity. }
  rewrite length_map, E, length_app in Hle.
  destruct t; [contradiction | cbn in Hle; lia].
Qed.

Section ContentTypeLine.

Variables (pre name w v rest : jsstring).

Hypothesis Hfirst :
  indexOf (map asciiUpper (pre ++ name)) (str "CONTENT-TYPE:") = Some (List.length pre).
Hypothesis Hname : sameIgnoringCase name (str "Content-Type:").
Hypothesis Hw : whitespaceText w.
Hypothesis Hv : v <> [] /\ Forall (fun c => (c =? 59)%N = false) v.
Hypothesis Hhead : stopsAt isWhiteSpace v.
Hypothesis Hrest : stopsAt (fun c => negb (c =? 59)%N) rest.

Lemma content_type_line_leads p b :
  exists z,
    leads flagsIM contentTypeTerms (st p b (name ++ w ++ v ++ rest) [None; None]) z
    /\ getCap 1 z = Some (p + List.length name + List.length w,
                          p + List.length name + List.length w + List.length v)
    /\ List.length (caps z) = 2
    /\ input z = input (st p b (name ++ w ++ v ++ rest) [None; None]).
Proof.
  unfold contentTypeTerms.
  assert (Hstop1 : stopsAt (charOk flagsIM false [CSpace false]) (v ++ rest)).
  { destruct Hv as [Hne _]. destruct v as [|c v']; [contradiction |].
    cbn [app stopsAt] in *. now apply ws_stop_any. }
  assert (Hstop2 : stopsAt (charOk flagsIM true [CRange 59 59]) rest).
  { destruct rest as [|c r]; [exact I |]. cbn [stopsAt] in *.
    rewrite charOk_not_semicolon. exact Hrest. }
  assert (Hok : Forall (fun c => charOk flagsIM true [CRange 59 59] c = true) v).
  { eapply Forall_impl; [| exact (proj2 Hv)]. intros c Hc. cbv beta in Hc.
    now rewrite charOk_not_semicolon, Hc. }
  destruct (rmatch_star_first flagsIM false [CSpace false] w (p + List.length name)
              (rev name ++ b) _ [None; None] (Forall_impl _ whitespace_ok Hw) Hstop1) as [l1 H1].
  destruct (rmatch_plus_first flagsIM true [CRange 59 59] v
              (p + List.length name + List.length w) (rev w ++ rev name ++ b) rest [None; None]
              (proj1 Hv) Hok Hstop2) as [l2 H2].
  set (y := st (p + List.length name + List.length w + List.length v)
               (rev v ++ rev w ++ rev name ++ b) rest
               [Some (p + List.length name + List.length w,
                      p + List.length name + List.length w + List.length v); None]).
  destruct (optional_first flagsIM
              (fold_left RSeq
                 (tl ([single 59; star false [CSpace false]] ++ map single (str "charset=")
                      ++ [opt 34; RGroup 2 (plus true valueClass); opt 34]))
                 (hd REmpty ([single 59; star false [CSpace false]] ++ map single (str "charset=")
                             ++ [opt 34; RGroup 2 (plus true valueClass); opt 34]))) y)
    as [z [l3 H3]].
  assert (Hin : In z (rmatch flagsIM charsetParameter true y)).
  { unfold charsetParameter. cbv zeta. rewrite H3. now left. }
  pose proof (rmatch_keeps flagsIM charsetParameter true y z Hin) as [Hlen Hkeep].
  pose proof (rmatch_input flagsIM charsetParameter true y z Hin) as Hinput.
  exists z. split; [| split; [| split]].
  - eapply leads_app; [apply leads_literal, Hname |].
    cbn [leads].
    eexists; eexists. split; [exact H1 |].
    eexists; eexists. split; [rewrite rmatch_group, H2; reflexivity |].
    eexists; eexists. split; [exact H3 | reflexivity].
  - rewrite (Hkeep 1); [reflexivity |]. cbn. intros [H | []]. discriminate.
  - rewrite Hlen. reflexivity.
  - rewrite Hinput. unfold input, y, st. cbn [before after]. rewrite !rev_append_app.
    repeat (progress (rewrite ?rev_app_distr, ?rev_involutive, <- ?app_assoc)).
    reflexivity.
Qed.

Lemma content_type_line_capture :
  exists r,
    matchAt rePartContentType (List.length pre) (rev pre) (name ++ w ++ v ++ rest) = Some r
    /\ capture 1 r = Some v.
Proof.
  destruct (content_type_line_leads (List.length pre) (rev pre)) as [z [Hz [Hc [Hlen Hi]]]].
  destruct (leads_fold_terms flagsIM (hd REmpty contentTypeTerms) (tl contentTypeTerms)
              _ _ Hz) as [l Hl].
  exists (toResult (List.length pre) z). split.
  - unfold matchAt.
    change (initState rePartContentType (List.length pre) (rev pre) (name ++ w ++ v ++ rest))
      with (st (List.length pre) (rev pre) (name ++ w ++ v ++ rest) [None; None]).
    change (reFlags rePartContentType) with flagsIM.
    rewrite rePartContentType_terms, Hl. reflexivity.
  - unfold capture, toResult. cbn [mCaps]. rewrite nth_map_option.
    change (nth 0 (caps z) None) with (getCap 1 z). rewrite Hc. cbn [option_map fst snd].
    f_equal. rewrite Hi. unfold input, st. cbn [before after].
    rewrite rev_append_app, rev_involutive.
    replace (pre ++ name ++ w ++ v ++ rest) with ((pre ++ name ++ w) ++ v ++ rest)
      by (now rewrite <- !app_assoc).
    apply substring_middle. rewrite !length_app. lia.
Qed.

Lemma content_type_captured :
  exists m,
    exec rePartContentType (pre ++ name ++ w ++ v ++ rest) = Some m /\ capture 1 m = Some v.
Proof.
  destruct content_type_line_capture as [r [Hr Hcap]].
  exists r. split; [| exact Hcap]. unfold exec.
  rewrite searchFrom_skips.
  - cbn [Nat.add]. rewrite app_nil_r. exact (searchFrom_here _ _ _ _ _ Hr).
  - intros u t E Ht. cbn [Nat.add]. rewrite app_nil_r.
    apply (no_literal_before rePartContentType (str "Content-Type:")
             [star false [CSpace false]; RGroup 1 (plus true [CRange 59 59]); charsetParameter]
             pre name); try assumption; [reflexivity | reflexivity | discriminate].
Qed.

Lemma content_type_found :
  contentTypeOf (pre ++ name ++ w ++ v ++ rest) = ret (toLowerCase v).
Proof.
  destruct content_type_captured as [m [Hm Hcap]].
  unfold contentTypeOf, lowerCapture1. now rewrite Hm, Hcap.
Qed.

End ContentTypeLine.

(** X8.  When the first [Content-Type:] of the headers of a part, in
    any case, is followed by white space and then by a non-empty text [v]
    without semicolon that starts with no white space and goes up to a
    semicolon or to the end of the headers, the pattern captures exactly
    [v]: it does not stop at the end of the line.  When [v] is ASCII, the
    content type read from the headers is [v] with the letters [A] to [Z]
    in lower case. *)
Theorem content_type_is_read_up_to_the_semicolon (pre name w v rest : jsstring) :
  indexOf (map asciiUpper (pre ++ name)) (str "CONTENT-TYPE:") = Some (List.length pre) ->
  sameIgnoringCase name (str "Content-Type:") ->
  whitespaceText w ->
  v <> [] /\ Forall (fun c => (c =? 59)%N = false) v ->
  stopsAt isWhiteSpace v ->
  stopsAt (fun c => negb (c =? 59)%N) rest ->
  (exists m,
      exec rePartContentType (pre ++ name ++ w ++ v ++ rest) = Some m /\ capture 1 m = Some v) /\
  (asciiText v ->
   contentTypeOf (pre ++ name ++ w ++ v ++ rest) = ret (map asciiLower v)).
Proof.
  intros Hfirst Hname Hw Hv Hhead Hrest. split.
  - now apply content_type_captured.
  - intros Hascii. rewrite <- (@toLowerCase_ascii v Hascii). now apply content_type_found.
Qed.

Lemma content_type_witness :
  contentTypeOf (str "X-Id: 1" ++ CRLF ++ str "content-type:" ++ str " "
                 ++ (str "Text/HTML" ++ CRLF ++ str "X-Note: text/plain")
                 ++ str "; charset=utf-8")
  = ret (str "text/html" ++ CRLF ++ str "x-note: text/plain").
Proof.
  apply (content_type_is_read_up_to_the_semicolon (str "X-Id: 1" ++ CRLF)
           (str "content-type:") (str " ") (str "Text/HTML" ++ CRLF ++ str "X-Note: text/plain")
           (str "; charset=utf-8")).
  - reflexivity.
  - repeat constructor.
  - repeat constructor.
  - split; [discriminate | repeat constructor].
  - reflexivity.
  - reflexivity.
  - repeat (constructor; [reflexivity |]). constructor.
Defined.

End ContentTypeFacts.

(** ** The handler [email] *)

Section HandlerFacts.

Lemma snippetOf_length (extractedBody rawEmailContent : jsstring) :
  1 <= List.length (snippetOf extractedBody rawEmailContent) <= 529.
Proof.
  unfold snippetOf, slice0.
  destruct extractedBody as [|c s].
  - cbn [truthy]. destruct (indexOf rawEmailContent CRLFCRLF) as [i|]; [| cbn; lia].
    rewrite !length_app, length_firstn. cbn [List.length str]. lia.
  - cbn [truthy]. rewrite length_app, length_firstn.
    destruct (500 <? List.length (c :: s)); cbn [List.length str app]; lia.
Qed.

Lemma errorSnippet_not_empty message rawEmailContent : errorSnippet message rawEmailContent <> [].
Proof. discriminate. Qed.

Lemma requests_app evs1 evs2 : requests (evs1 ++ evs2) = requests evs1 ++ requests evs2.
Proof. apply flat_map_app. Qed.

Lemma requests_console (lines : list consoleLine) : requests (map Console lines) = [].
Proof. induction lines as [|l lines IH]; [reflexivity | exact IH]. Qed.

Lemma requests_warned (k : console) : requests (map (fun d => Console (Warned d)) k) = [].
Proof. induction k as [|d k IH]; [reflexivity | exact IH]. Qed.

Lemma send_requests p req : requests (snd (send p req)) = [req].
Proof.
  unfold send. destruct (fetch p req) as [m|r]; [reflexivity |].
  destruct (ok r); [reflexivity |]. now destruct (responseText r).
Qed.

Lemma caught_requests p error raw :
  requests (snd (caught p error raw)) = [] /\
  forall s, fst (caught p error raw) = Snippet s -> s <> [].
Proof.
  unfold caught. split; [reflexivity |]. cbn [fst].
  destruct (messageOf p error); [| discriminate].
  intros s [= <-]. apply errorSnippet_not_empty.
Qed.

(** The first [try] statement sends nothing, and a snippet it ends with
    is not empty. *)
Lemma bodySnippet_requests p message :
  requests (snd (bodySnippet p message)) = [] /\
  forall s, fst (bodySnippet p message) = Snippet s -> s <> [].
Proof.
  unfold bodySnippet. destruct (rawText message) as [raw|v]; [| apply caught_requests].
  destruct (extractEmailBody raw []) as [[s|e|] k].
  - cbn [fst snd]. split; [apply requests_warned |].
    intros s' [= <-] H. pose proof (snippetOf_length s raw) as L. rewrite H in L. cbn in L. lia.
  - destruct (caught_requests p (EngineError e) raw) as [Hr Hs].
    destruct (caught p (EngineError e) raw) as [end_ written]. cbn [fst snd] in *.
    split; [| exact Hs]. now rewrite requests_app, requests_warned, Hr.
  - split; [reflexivity | discriminate].
Qed.

(** A read that fails with a value without a readable [message] is the
    only way out of the [catch] block. *)
Lemma bodySnippet_readable p message raised :
  readable message -> fst (bodySnippet p message) <> CatchThrows raised.
Proof.
  unfold readable, bodySnippet. destruct (rawText message) as [raw|v].
  - intros _. destruct (extractEmailBody raw []) as [[s|e|] k]; discriminate.
  - destruct v; [contradiction | discriminate | contradiction].
Qed.

Lemma email_configured p message env token channel :
  DISCORD_BOT_TOKEN env = Some token -> token <> [] ->
  DISCORD_CHANNEL_ID env = Some channel -> channel <> [] ->
  email p message env =
  match bodySnippet p message with
  | (NotModelled, _) => (OutsideModel, [])
  | (CatchThrows raised, written) => (Rejected raised, written)
  | (Snippet emailBodySnippet, written) =>
      let '(end_, sent) :=
        send p (discordRequest token channel
                  (payload (orElse (headersGet message (str "Subject")) (str "No Subject"))
                           (orElse (headersGet message (str "From")) (str "Unknown Sender"))
                           (orElse (headersGet message (str "To")) (str "Unknown Recipient"))
                           emailBodySnippet)) in
      (end_, written ++ sent)
  end.
Proof.
  intros Ht Hne Hc Hne'. unfold email. rewrite Ht, Hc.
  destruct token as [|c1 t1]; [contradiction |]. destruct channel as [|c2 t2]; [contradiction |].
  reflexivity.
Qed.

(** X21.  With both secrets set, the handler sends exactly one
    request for every message whose raw text is read, also when
    [extractEmailBody] throws on it, and for every message whose read
    rejects with a value that has a readable [message]: a POST to the
    messages of the channel, authorized with the bot token, whose payload
    carries the three headers or their defaults and a snippet that is not
    empty.  Stated for the runs that stay inside the modelled pattern
    grammar. *)
Theorem configured_handler_sends_exactly_one_request
    (p : platform) (message : emailMessage) (env : Env) (token channel : jsstring) :
  DISCORD_BOT_TOKEN env = Some token -> token <> [] ->
  DISCORD_CHANNEL_ID env = Some channel -> channel <> [] ->
  readable message ->
  fst (email p message env) <> OutsideModel ->
  exists snippet,
    snippet <> [] /\
    requests (snd (email p message env))
    = [discordRequest token channel
         (payload (orElse (headersGet message (str "Subject")) (str "No Subject"))
                  (orElse (headersGet message (str "From")) (str "Unknown Sender"))
                  (orElse (headersGet message (str "To")) (str "Unknown Recipient"))
                  snippet)].
Proof.
  intros Ht Hne Hc Hne' Hread Hin.
  rewrite (email_configured p message env token channel Ht Hne Hc Hne') in *.
  destruct (bodySnippet_requests p message) as [Hw Hs].
  pose proof (bodySnippet_readable p message) as Hcatch.
  destruct (bodySnippet p message) as [[snippet | raised |] written]; cbn [fst snd] in *.
  - exists snippet. split; [now apply Hs |].
    match goal with |- context [send p ?r] =>
      pose proof (send_requests p r) as Hsend; destruct (send p r) as [end_ sent] end.
    cbn [snd] in *. now rewrite requests_app, Hw, Hsend.
  - now contradiction (Hcatch raised Hread).
  - now contradiction Hin.
Qed.

Lemma configured_handler_witness :
  exists snippet,
    snippet <> [] /\
    requests (snd (email (answering (fun _ => str "Invalid regular expression"))
                         (rawMessage parenBoundaryMessage) someEnv))
    = [discordRequest (str "token") (str "42")
         (payload (str "No Subject") (str "Unknown Sender") (str "Unknown Recipient") snippet)].
Proof.
  apply (configured_handler_sends_exactly_one_request
           (answering (fun _ => str "Invalid regular expression"))
           (rawMessage parenBoundaryMessage) someEnv (str "token") (str "42")).
  - reflexivity.
  - discriminate.
  - reflexivity.
  - discriminate.
  - exact I.
  - vm_compute. discriminate.
Defined.

(** X22.  When one of the two secrets is [undefined] or empty, the
    handler writes one line to the console and resolves: it reads no
    header and no body and sends no request. *)
Theorem unconfigured_handler_sends_nothing (p : platform) (message : emailMessage) (env : Env) :
  notSet (DISCORD_BOT_TOKEN env) \/ notSet (DISCORD_CHANNEL_ID env) ->
  email p message env = (Resolved, [Console MissingConfiguration]).
Proof.
  intros H. unfold email.
  assert (E : orElse (DISCORD_BOT_TOKEN env) [] = [] \/ orElse (DISCORD_CHANNEL_ID env) [] = []).
  { destruct H as [[-> | ->] | [-> | ->]]; auto. }
  destruct E as [-> | ->]; [reflexivity |]. now rewrite orb_true_r.
Qed.

Lemma unconfigured_handler_witness :
  email (answering (fun _ => [])) (rawMessage htmlOnlyMessage)
        {| DISCORD_BOT_TOKEN := Some (str "token"); DISCORD_CHANNEL_ID := None |}
  = (Resolved, [Console MissingConfiguration]).
Proof.
  apply (unconfigured_handler_sends_nothing (answering (fun _ => [])) (rawMessage htmlOnlyMessage)
           {| DISCORD_BOT_TOKEN := Some (str "token"); DISCORD_CHANNEL_ID := None |}).
  right. left. reflexivity.
Defined.

(** X23.  When the raw text can be read and [extractEmailBody]
    returns, the snippet in the request has between 1 and 529 units. *)
Theorem snippet_of_an_extracted_body_is_short
    (p : platform) (message : emailMessage) (env : Env) (token channel raw s : jsstring)
    (k : console) :
  DISCORD_BOT_TOKEN env = Some token -> token <> [] ->
  DISCORD_CHANNEL_ID env = Some channel -> channel <> [] ->
  rawText message = ReadOk raw ->
  extractEmailBody raw [] = (Normal s, k) ->
  exists snippet,
    1 <= List.length snippet <= 529 /\
    requests (snd (email p message env))
    = [discordRequest token channel
         (payload (orElse (headersGet message (str "Subject")) (str "No Subject"))
                  (orElse (headersGet message (str "From")) (str "Unknown Sender"))
                  (orElse (headersGet message (str "To")) (str "Unknown Recipient"))
                  snippet)].
Proof.
  intros Ht Hne Hc Hne' Hraw Hs.
  rewrite (email_configured p message env token channel Ht Hne Hc Hne').
  unfold bodySnippet. rewrite Hraw, Hs.
  exists (snippetOf s raw). split; [apply snippetOf_length |].
  match goal with |- context [send p ?r] =>
    pose proof (send_requests p r) as Hsend; destruct (send p r) as [end_ sent] end.
  cbn [snd] in *. now rewrite requests_app, requests_warned, Hsend.
Qed.

Lemma snippet_is_short_witness :
  exists snippet,
    1 <= List.length snippet <= 529 /\
    requests (snd (email (answering (fun _ => [])) (rawMessage htmlOnlyMessage) someEnv))
    = [discordRequest (str "token") (str "42")
         (payload (str "No Subject") (str "Unknown Sender") (str "Unknown Recipient") snippet)].
Proof.
  apply (snippet_of_an_extracted_body_is_short
           (answering (fun _ => [])) (rawMessage htmlOnlyMessage) someEnv
           (str "token") (str "42") htmlOnlyMessage (str "Hi  there") []).
  - reflexivity.
  - discriminate.
  - reflexivity.
  - discriminate.
  - reflexivity.
  - vm_compute. reflexivity.
Defined.

(** X24.  On a platform that answers every request with a status
    from 200 to 299, the handler resolves for every message whose raw
    text is read, also when [extractEmailBody] throws on it, and for
    every message whose read rejects with a value that has a readable
    [message].  Stated for the runs that stay inside the modelled pattern
    grammar. *)
Theorem handler_rejects_only_when_the_request_fails
    (p : platform) (message : emailMessage) (env : Env) :
  (forall req, exists r, fetch p req = FetchResolves r /\ ok r = true) ->
  readable message ->
  fst (email p message env) <> OutsideModel ->
  fst (email p message env) = Resolved.
Proof.
  intros Hfetch Hread. unfold email.
  destruct (negb _ || negb _); [reflexivity |].
  pose proof (bodySnippet_readable p message) as Hcatch.
  destruct (bodySnippet p message) as [[snippet | raised |] written]; cbn [fst] in *.
  - match goal with |- context [send p ?r] =>
      destruct (Hfetch r) as [res [Hr Hok]]; unfold send; rewrite Hr, Hok end.
    reflexivity.
  - now contradiction (Hcatch raised Hread).
  - now intros H.
Qed.

Lemma handler_rejects_only_witness :
  fst (email (answering (fun _ => str "Invalid regular expression"))
             (unreadableMessage (WithMessage (str "The stream is locked"))) someEnv) = Resolved.
Proof.
  apply (handler_rejects_only_when_the_request_fails
           (answering (fun _ => str "Invalid regular expression"))
           (unreadableMessage (WithMessage (str "The stream is locked"))) someEnv).
  - intros req. eexists. split; reflexivity.
  - exact I.
  - vm_compute. discriminate.
Defined.

Lemma send_resolved p req :
  fst (send p req) = Resolved -> exists r, fetch p req = FetchResolves r /\ ok r = true.
Proof.
  unfold send. destruct (fetch p req) as [m|r]; [discriminate |].
  destruct (ok r) eqn:E; [intros _; now exists r |].
  destruct (responseText r); discriminate.
Qed.

(** X25.  With both secrets set, the handler resolves only when
    its one request was answered with a status from 200 to 299. *)
Theorem resolved_handler_had_an_accepted_request
    (p : platform) (message : emailMessage) (env : Env) (token channel : jsstring) :
  DISCORD_BOT_TOKEN env = Some token -> token <> [] ->
  DISCORD_CHANNEL_ID env = Some channel -> channel <> [] ->
  fst (email p message env) = Resolved ->
  exists req r,
    requests (snd (email p message env)) = [req] /\
    fetch p req = FetchResolves r /\ ok r = true.
Proof.
  intros Ht Hne Hc Hne' Hres.
  rewrite (email_configured p message env token channel Ht Hne Hc Hne') in *.
  destruct (bodySnippet_requests p message) as [Hw _].
  destruct (bodySnippet p message) as [[snippet | raised |] written];
    cbn [fst snd] in *; [| discriminate | discriminate].
  match goal with |- context [send p ?r] => set (req := r) in * end.
  pose proof (send_requests p req) as Hsend. pose proof (send_resolved p req) as Hok.
  destruct (send p req) as [end_ sent]. cbn [fst snd] in *.
  destruct (Hok Hres) as [r [Hr Hokr]].
  exists req, r. split; [| now split].
  now rewrite requests_app, Hw, Hsend.
Qed.

Lemma resolved_handler_witness :
  exists req r,
    requests (snd (email (answering (fun _ => [])) (rawMessage htmlOnlyMessage) someEnv)) = [req]
    /\ fetch (answering (fun _ => [])) req = FetchResolves r /\ ok r = true.
Proof.
  apply (resolved_handler_had_an_accepted_request (answering (fun _ => []))
           (rawMessage htmlOnlyMessage) someEnv (str "token") (str "42")).
  - reflexivity.
  - discriminate.
  - reflexivity.
  - discriminate.
  - vm_compute. reflexivity.
Defined.

(** X26.  With both secrets set, a read of the raw text that
    rejects with a value without a readable [message] makes the [catch]
    block throw: the handler writes the caught value to the console,
    sends no request and rejects, whatever the platform would answer.
    For [undefined] and [null] it rejects with a TypeError. *)
Theorem unreadable_rejection_rejects_the_handler
    (p : platform) (message : emailMessage) (env : Env) (token channel : jsstring) (v : thrown) :
  DISCORD_BOT_TOKEN env = Some token -> token <> [] ->
  DISCORD_CHANNEL_ID env = Some channel -> channel <> [] ->
  rawText message = ReadFails v ->
  (forall m, v <> WithMessage m) ->
  exists raised,
    email p message env = (Rejected raised, [Console (ExtractionError (Rejection v))]) /\
    requests (snd (email p message env)) = [] /\
    (v = Nullish -> raised = EngineError TypeError).
Proof.
  intros Ht Hne Hc Hne' Hraw Hv.
  rewrite (email_configured p message env token channel Ht Hne Hc Hne').
  unfold bodySnippet, caught. rewrite Hraw.
  destruct v as [| m | raised]; cbn [messageOf].
  - exists (EngineError TypeError). repeat split.
  - now contradiction (Hv m).
  - exists (Rejection raised). repeat split. discriminate.
Qed.

Lemma unreadable_rejection_witness :
  exists raised,
    email (answering (fun _ => [])) (unreadableMessage Nullish) someEnv
    = (Rejected raised, [Console (ExtractionError (Rejection Nullish))]) /\
    requests (snd (email (answering (fun _ => [])) (unreadableMessage Nullish) someEnv)) = [] /\
    (Nullish = Nullish -> raised = EngineError TypeError).
Proof.
  apply (unreadable_rejection_rejects_the_handler (answering (fun _ => []))
           (unreadableMessage Nullish) someEnv (str "token") (str "42") Nullish).
  - reflexivity.
  - discriminate.
  - reflexivity.
  - discriminate.
  - reflexivity.
  - discriminate.
Defined.

End HandlerFacts.

(** ** The objects of a call *)

Section ObjectFacts.

Import Objects.


Lemma get_newest k h R : get (List.length h) (newest k h R) = (Normal R, newest k h R).
Proof.
  unfold get, newest. cbn [heap].
  now rewrite nth_error_app2, Nat.sub_diag by lia.
Qed.

Lemma update_newest n h R : update (List.length h) n (h ++ [R]) = h ++ [moved R n].
Proof. induction h as [|R' h IH]; [reflexivity |]. cbn [List.length app update]. now rewrite IH. Qed.

Lemma setLastIndex_newest k h R n :
  setLastIndex (List.length h) n (newest k h R) = (Normal tt, newest k h (moved R n)).
Proof. unfold setLastIndex, newest. cbn [written heap]. now rewrite update_newest. Qed.

(** *** The text around an index *)

Lemma zip_before (b a : jsstring) : rev (firstn (List.length b) (rev b ++ a)) = b.
Proof.
  rewrite <- (length_rev b) at 1.
  rewrite firstn_app, firstn_all, Nat.sub_diag. cbn [firstn].
  now rewrite app_nil_r, rev_involutive.
Qed.

Lemma zip_after (b a : jsstring) : skipn (List.length b) (rev b ++ a) = a.
Proof.
  rewrite <- (length_rev b) at 1.
  now rewrite skipn_app, skipn_all, Nat.sub_diag.
Qed.

Lemma zip_length (b a : jsstring) : List.length (rev b ++ a) = List.length b + List.length a.
Proof. now rewrite length_app, length_rev. Qed.

Lemma substring_zip (b u a : jsstring) :
  substring (rev b ++ u ++ a) (List.length b) (List.length b + List.length u) = u.
Proof. apply substring_middle. apply length_rev. Qed.

Lemma substring_nil (s : jsstring) n : substring s n n = [].
Proof. unfold substring. now rewrite Nat.sub_diag. Qed.

(** The text from [np] up to the index of the zipper, then what follows. *)
Lemma substring_then (b a : jsstring) np :
  np <= List.length b ->
  substring (rev b ++ a) np (List.length b) ++ a = substringFrom (rev b ++ a) np.
Proof.
  intros H. unfold substring, substringFrom.
  rewrite <- (firstn_skipn (List.length b - np) (skipn np (rev b ++ a))) at 2.
  f_equal. rewrite skipn_skipn.
  replace (List.length b - np + np) with (List.length b) by lia.
  symmetry. apply zip_after.
Qed.

Lemma substring_more (b u a : jsstring) np :
  np <= List.length b ->
  substring (rev b ++ u ++ a) np (List.length b) ++ u
  = substring (rev (rev u ++ b) ++ a) np (List.length (rev u ++ b)).
Proof.
  intros H.
  assert (E : rev (rev u ++ b) ++ a = rev b ++ u ++ a)
    by (now rewrite rev_app_distr, rev_involutive, <- app_assoc).
  rewrite E. unfold substring.
  rewrite length_app, length_rev.
  assert (Es : skipn np (rev b ++ u ++ a) = skipn np (rev b) ++ u ++ a).
  { rewrite skipn_app. replace (np - List.length (rev b)) with 0 by (rewrite length_rev; lia).
    reflexivity. }
  rewrite Es.
  assert (L : List.length (skipn np (rev b)) = List.length b - np)
    by (now rewrite length_skipn, length_rev).
  rewrite firstn_app, L, Nat.sub_diag. cbn [firstn]. rewrite app_nil_r.
  rewrite firstn_all2 by lia.
  rewrite firstn_app, L.
  rewrite (firstn_all2 (skipn np (rev b))) by lia.
  replace (List.length u + List.length b - np - (List.length b - np)) with (List.length u) by lia.
  rewrite firstn_app, firstn_all, Nat.sub_diag. cbn [firstn]. now rewrite app_nil_r.
Qed.

(** *** A match and its indices *)

Lemma matchAt_indices re b a r :
  matchAt re (List.length b) b a = Some r ->
  mIndex r = List.length b /\
  List.length b <= mEnd r /\ mEnd r <= List.length b + List.length a.
Proof.
  unfold matchAt.
  destruct (rmatch _ _ _ _) as [|y l] eqn:E; [discriminate |].
  intros [= <-].
  assert (Hy : moves true (initState re (List.length b) b a) y).
  { apply (rmatch_moves (reFlags re) (reAst re) true); [reflexivity |]. rewrite E. now left. }
  destruct Hy as (W & T & A). unfold wellFormed in W. unfold ahead in A.
  cbn [toResult mIndex mEnd initState before after] in *. lia.
Qed.

(** A search finds nothing before the index of its result. *)
Lemma searchFrom_first re : forall a b r,
  searchFrom re (List.length b) b a = Some r ->
  exists u a2,
    a = u ++ a2 /\
    matchAt re (List.length (rev u ++ b)) (rev u ++ b) a2 = Some r /\
    forall u1 u2, u = u1 ++ u2 -> u2 <> [] ->
                  matchAt re (List.length (rev u1 ++ b)) (rev u1 ++ b) (u2 ++ a2) = None.
Proof.
  induction a as [|c a IH]; intros b r H; cbn [searchFrom] in H.
  - destruct (matchAt re (List.length b) b []) eqn:E; [| discriminate].
    injection H as <-. exists [], []. repeat split; [exact E |].
    intros u1 u2 Hu Hne. destruct u1; destruct u2; try discriminate. contradiction.
  - destruct (matchAt re (List.length b) b (c :: a)) eqn:E.
    + injection H as <-. exists [], (c :: a). repeat split; [exact E |].
      intros u1 u2 Hu Hne. destruct u1; destruct u2; try discriminate. contradiction.
    + change (S (List.length b)) with (List.length (c :: b)) in H.
      destruct (IH (c :: b) r H) as [u [a2 [Ea [Hm Hn]]]].
      exists (c :: u), a2. cbn [rev]. rewrite <- app_assoc. cbn [app].
      split; [now rewrite Ea |]. split; [exact Hm |].
      intros u1 u2 Hu Hne. destruct u1 as [|c1 u1].
      * cbn [app] in Hu. subst u2. cbn [rev app]. now rewrite Ea in E.
      * injection Hu as <- Hu. cbn [rev]. rewrite <- app_assoc. cbn [app].
        now apply Hn.
Qed.

(** *** [replace] *)

Section Replace.

Variables (re : regexp) (s : jsstring) (f : jsstring -> list (option jsstring) -> jsstring).
Variables (k : console) (h : list regexpObject).

Local Abbreviation rx := (List.length h).
Local Abbreviation W p :=
  (newest k h {| matcher := re; global := true; sticky := false; lastIndex := p |}).

Lemma exec_global p :
  regExpBuiltinExec rx s (W p)
  = if List.length s <? p then (Normal None, W 0)
    else match searchFrom re p (rev (firstn p s)) (skipn p s) with
         | Some r => (Normal (Some r), W (mEnd r))
         | None => (Normal None, W 0)
         end.
Proof.
  unfold regExpBuiltinExec, bind at 1. rewrite get_newest.
  cbn [global sticky orb lastIndex matcher].
  destruct (List.length s <? p).
  - unfold bind. now rewrite setLastIndex_newest.
  - destruct (searchFrom re p _ _) as [r|]; unfold bind; now rewrite setLastIndex_newest.
Qed.

Lemma replaceGo_none : forall a b,
  searchFrom re (List.length b) b a = None -> replaceGo re s f (List.length b) b a 0 = a.
Proof.
  induction a as [|c a IH]; intros b H; cbn [searchFrom] in H; cbn [replaceGo].
  - now destruct (matchAt re (List.length b) b []).
  - destruct (matchAt re (List.length b) b (c :: a)); [discriminate |].
    f_equal. apply (IH (c :: b)). exact H.
Qed.

Lemma replaceGo_pass : forall u a b,
  (forall u1 u2, u = u1 ++ u2 -> u2 <> [] ->
                 matchAt re (List.length (rev u1 ++ b)) (rev u1 ++ b) (u2 ++ a) = None) ->
  replaceGo re s f (List.length b) b (u ++ a) 0
  = u ++ replaceGo re s f (List.length (rev u ++ b)) (rev u ++ b) a 0.
Proof.
  induction u as [|c u IH]; intros a b H; [reflexivity |].
  cbn [app replaceGo].
  pose proof (H [] (c :: u) eq_refl ltac:(discriminate)) as H0.
  cbn [rev app] in H0. rewrite H0.
  f_equal. change (S (List.length b)) with (List.length (c :: b)).
  rewrite IH.
  - cbn [rev]. now rewrite <- app_assoc.
  - intros u1 u2 Hu Hne. specialize (H (c :: u1) u2).
    cbn [rev app] in H. rewrite <- app_assoc in H. apply H; [now rewrite Hu | exact Hne].
Qed.

(** What [replaceGo] gives from the index of a zipper on is what
    [substitute] makes of the results collected from there. *)
Lemma collectResults_replaceGo : forall fuel b a,
  s = rev b ++ a ->
  List.length a + 2 <= fuel ->
  exists results,
    collectResults fuel rx true s (W (List.length b)) = (Normal results, W 0) /\
    forall acc np,
      np <= List.length b ->
      substitute s f results acc np
      = acc ++ substring s np (List.length b) ++ replaceGo re s f (List.length b) b a 0.
Proof.
  induction fuel as [|fuel IH]; intros b a Hs Hfuel; [lia |].
  cbn [collectResults]. unfold bind at 1. rewrite exec_global.
  assert (L : List.length s = List.length b + List.length a) by (rewrite Hs; apply zip_length).
  replace (List.length s <? List.length b) with false by (symmetry; apply Nat.ltb_ge; lia).
  assert (Hzb : rev (firstn (List.length b) s) = b) by (rewrite Hs; apply zip_before).
  assert (Hza : skipn (List.length b) s = a) by (rewrite Hs; apply zip_after).
  rewrite Hzb, Hza.
  destruct (searchFrom re (List.length b) b a) as [r|] eqn:Hsearch.
  - destruct (searchFrom_first re a b r Hsearch) as [u [a2 [Ea [Hm Hnone]]]].
    destruct (matchAt_indices re _ _ _ Hm) as [Hi [Hlo Hhi]].
    set (b2 := rev u ++ b) in *.
    assert (Hs2 : s = rev b2 ++ a2).
    { unfold b2. now rewrite Hs, Ea, rev_app_distr, rev_involutive, <- app_assoc. }
    assert (Hgo : replaceGo re s f (List.length b) b a 0
                  = u ++ replaceGo re s f (List.length b2) b2 a2 0).
    { rewrite Ea. now apply replaceGo_pass. }
    assert (Hsub : forall np, np <= List.length b ->
                              substring s np (List.length b) ++ u
                              = substring s np (List.length b2)).
    { intros np Hnp. rewrite Hs2 at 2. rewrite Hs, Ea. unfold b2. now apply substring_more. }
    assert (Hb2 : List.length b <= List.length b2).
    { unfold b2. rewrite length_app. lia. }
    assert (Hza2 : skipn (List.length b2) s = a2) by (rewrite Hs2; apply zip_after).
    assert (Hmatched : matched s r = firstn (mEnd r - List.length b2) a2).
    { unfold matched, substring. now rewrite Hi, Hza2. }
    cbn [negb].
    destruct (Nat.eq_dec (mEnd r) (List.length b2)) as [He | He].
    + (* an empty match *)
      assert (Hmr : matched s r = []) by (now rewrite Hmatched, He, Nat.sub_diag).
      rewrite Hmr, He. cbn [truthy].
      unfold bind at 1. unfold bind at 1.
      rewrite get_newest. cbn [lastIndex].
      rewrite setLastIndex_newest.
      unfold moved; cbn [matcher global sticky].
      destruct a2 as [|c a2'].
      * (* at the end of the text *)
        destruct fuel as [|fuel']; [lia |].
        cbn [collectResults]. unfold bind at 1 2. rewrite exec_global.
        replace (List.length s <? S (List.length b2)) with true
          by (symmetry; apply Nat.ltb_lt; rewrite Hs2, zip_length; cbn [List.length]; lia).
        cbn [ret]. exists [r]. split; [reflexivity |].
        intros acc np Hnp. cbn [substitute].
        rewrite Hi, Hmr. cbn [List.length].
        replace (Nat.min (List.length b2) (List.length s)) with (List.length b2)
          by (rewrite Hs2, zip_length; cbn [List.length]; lia).
        replace (np <=? List.length b2) with true by (symmetry; apply Nat.leb_le; lia).
        rewrite Nat.add_0_r, Hgo. cbn [replaceGo]. rewrite Hm, Hmr.
        unfold substringFrom. rewrite Hza2.
        now rewrite <- (Hsub np Hnp), <- !app_assoc.
      * (* in the text *)
        destruct (IH (c :: b2) a2') as [results [Hc Hsubst]].
        { rewrite Hs2. cbn [rev]. now rewrite <- app_assoc. }
        { rewrite Ea, length_app in Hfuel. cbn [List.length] in Hfuel. lia. }
        cbn [List.length] in Hc. unfold bind at 1. rewrite Hc. cbn [ret].
        exists (r :: results). split; [reflexivity |].
        intros acc np Hnp. cbn [substitute].
        rewrite Hi, Hmr. cbn [List.length].
        replace (Nat.min (List.length b2) (List.length s)) with (List.length b2)
          by (rewrite Hs2, zip_length; cbn [List.length]; lia).
        replace (np <=? List.length b2) with true by (symmetry; apply Nat.leb_le; lia).
        rewrite Nat.add_0_r, Hsubst by (cbn [List.length]; lia).
        rewrite Hgo. cbn [replaceGo]. rewrite Hm, Hmr, He, Nat.leb_refl.
        assert (E1 : substring s (List.length b2) (List.length (c :: b2)) = [c]).
        { rewrite Hs2. cbn [List.length].
          replace (S (List.length b2)) with (List.length b2 + List.length [c])
            by (cbn [List.length]; lia).
          change (c :: a2') with ([c] ++ a2'). apply substring_zip. }
        rewrite E1, <- (Hsub np Hnp), <- !app_assoc. reflexivity.
    + (* a match that is not empty *)
      assert (Hgt : List.length b2 < mEnd r) by lia.
      destruct a2 as [|c a2']; [cbn [List.length] in Hhi; lia |].
      set (n := mEnd r - List.length b2 - 1).
      assert (Hn : mEnd r - List.length b2 = S n) by (unfold n; lia).
      assert (Hnle : n <= List.length a2') by (cbn [List.length] in Hhi; lia).
      assert (Hmr : matched s r = c :: firstn n a2') by (now rewrite Hmatched, Hn).
      rewrite Hmr. cbn [truthy]. unfold bind at 1. cbn [ret].
      set (b3 := rev (firstn n a2') ++ c :: b2).
      assert (Lb3 : List.length b3 = mEnd r).
      { unfold b3. rewrite length_app, length_rev, length_firstn. cbn [List.length]. lia. }
      destruct (IH b3 (skipn n a2')) as [results [Hc Hsubst]].
      { rewrite Hs2. unfold b3. rewrite rev_app_distr, rev_involutive. cbn [rev].
        rewrite <- !app_assoc. cbn [app]. now rewrite firstn_skipn. }
      { rewrite Ea, length_app in Hfuel. cbn [List.length] in Hfuel.
        rewrite length_skipn. lia. }
      rewrite Lb3 in Hc. unfold bind at 1. rewrite Hc.
      exists (r :: results). split; [reflexivity |].
      intros acc np Hnp. cbn [substitute].
      rewrite Hi, Hmr. cbn [List.length]. rewrite length_firstn.
      replace (Nat.min (List.length b2) (List.length s)) with (List.length b2)
        by (rewrite Hs2, zip_length; cbn [List.length]; lia).
      replace (np <=? List.length b2) with true by (symmetry; apply Nat.leb_le; lia).
      replace (List.length b2 + S (Nat.min n (List.length a2'))) with (List.length b3) by lia.
      rewrite Hsubst by lia.
      rewrite substring_nil, Hgo. cbn [replaceGo app]. rewrite Hm, Hmr.
      replace (mEnd r <=? List.length b2) with false by (symmetry; apply Nat.leb_gt; lia).
      fold n. rewrite (replaceGo_skip re s f n a2' _ _ Hnle).
      replace (S (List.length b2) + n) with (List.length b3) by lia.
      fold b3. rewrite <- (Hsub np Hnp), <- !app_assoc. reflexivity.
  - exists []. split; [reflexivity |].
    intros acc np Hnp. cbn [substitute].
    rewrite (replaceGo_none _ _ Hsearch). rewrite Hs. now rewrite substring_then.
Qed.

(** A global [replace] on a new object gives what [replaceAll] gives,
    whatever [lastIndex] the object starts with. *)
Lemma replace_replaceAll p :
  replace rx s f (W p) = (Normal (replaceAll re s f), W 0).
Proof.
  unfold replace, bind at 1. rewrite get_newest. cbn [global].
  unfold bind at 1. rewrite setLastIndex_newest.
  unfold moved; cbn [matcher global sticky].
  destruct (collectResults_replaceGo (List.length s + 2) [] s eq_refl ltac:(lia))
    as [results [Hc Hsubst]].
  cbn [List.length] in Hc. unfold bind. rewrite Hc. unfold ret. f_equal. f_equal.
  rewrite (Hsubst [] 0) by (cbn [List.length]; lia).
  cbn [List.length app]. now rewrite substring_nil.
Qed.

End Replace.

(** *** [split] *)

Section Split.

Variables (re : regexp) (g : bool) (s : jsstring) (k : console) (h : list regexpObject).

Local Abbreviation splitter := (List.length h).
Local Abbreviation W p :=
  (newest k h {| matcher := re; global := g; sticky := true; lastIndex := p |}).

Lemma exec_sticky p :
  regExpBuiltinExec splitter s (W p)
  = if List.length s <? p then (Normal None, W 0)
    else match matchAt re p (rev (firstn p s)) (skipn p s) with
         | Some r => (Normal (Some r), W (mEnd r))
         | None => (Normal None, W 0)
         end.
Proof.
  unfold regExpBuiltinExec, bind at 1. rewrite get_newest.
  cbn [global sticky lastIndex matcher]. rewrite orb_true_r.
  destruct (List.length s <? p).
  - unfold bind. now rewrite setLastIndex_newest.
  - destruct (matchAt re p _ _) as [r|]; unfold bind; now rewrite setLastIndex_newest.
Qed.

Lemma substring_one (b a : jsstring) c p :
  p <= List.length b ->
  substring (rev b ++ c :: a) p (List.length b) ++ [c]
  = substring (rev b ++ c :: a) p (S (List.length b)).
Proof.
  intros Hp. pose proof (substring_more b [c] a p Hp) as H.
  cbn [app rev List.length] in H. rewrite <- app_assoc in H. exact H.
Qed.

(** The loop of the specification gives what [splitGo] gives. *)
Lemma splitLoop_splitGo : forall fuel b a piece p li,
  s = rev b ++ a ->
  p <= List.length b ->
  rev piece = substring s p (List.length b) ->
  2 * List.length a + (if p <? List.length b then 1 else 0) + 1 <= fuel ->
  exists li',
    splitLoop fuel splitter s p (List.length b) (W li)
    = (Normal (splitGo re (List.length b) b a piece 0), W li').
Proof.
  induction fuel as [|fuel IH]; intros b a piece p li Hs Hp Hpiece Hfuel; [lia |].
  assert (L : List.length s = List.length b + List.length a) by (rewrite Hs; apply zip_length).
  assert (Hzb : rev (firstn (List.length b) s) = b) by (rewrite Hs; apply zip_before).
  assert (Hza : skipn (List.length b) s = a) by (rewrite Hs; apply zip_after).
  cbn [splitLoop].
  destruct a as [|c a'].
  - replace (List.length b <? List.length s) with false
      by (symmetry; apply Nat.ltb_ge; cbn [List.length] in L; lia).
    exists li. unfold ret. cbn [splitGo]. rewrite Hpiece.
    unfold substring, substringFrom. rewrite firstn_all2; [reflexivity |].
    rewrite length_skipn. cbn [List.length] in L. lia.
  - replace (List.length b <? List.length s) with true
      by (symmetry; apply Nat.ltb_lt; cbn [List.length] in L; lia).
    unfold bind at 1. rewrite setLastIndex_newest.
    unfold moved; cbn [matcher global sticky].
    unfold bind at 1. rewrite exec_sticky.
    replace (List.length s <? List.length b) with false by (symmetry; apply Nat.ltb_ge; lia).
    rewrite Hzb, Hza. cbn [splitGo].
    destruct (matchAt re (List.length b) b (c :: a')) as [r|] eqn:Hm.
    + destruct (matchAt_indices re _ _ _ Hm) as [Hi [Hlo Hhi]].
      unfold bind at 1. rewrite get_newest. cbn [lastIndex].
      unfold moved; cbn [matcher global sticky].
      replace (Nat.min (mEnd r) (List.length s)) with (mEnd r) by lia.
      destruct (Nat.eqb_spec (mEnd r) p) as [Hep | Hep].
      * (* the match ends where the last separator ended *)
        assert (Eq : p = List.length b) by lia.
        assert (Epiece : piece = []).
        { rewrite Eq, substring_nil in Hpiece. destruct piece as [|d t]; [reflexivity |].
          cbn [rev] in Hpiece. now destruct (rev t). }
        replace (mEnd r <=? List.length b) with true by (symmetry; apply Nat.leb_le; lia).
        rewrite Epiece.
        apply (IH (c :: b) a' [c] p (mEnd r)).
        -- rewrite Hs. cbn [rev]. now rewrite <- app_assoc.
        -- cbn [List.length]. lia.
        -- rewrite Eq, Hs. cbn [List.length rev].
           rewrite <- (substring_one b a' c (List.length b)) by lia.
           now rewrite substring_nil.
        -- cbn [List.length] in *. destruct (p <? S (List.length b)); lia.
      * destruct (Nat.eq_dec (mEnd r) (List.length b)) as [He | He].
        -- (* an empty match after a piece that is not empty *)
           assert (Hlt : p < List.length b) by lia.
           assert (Hne : piece <> []).
           { intros ->. cbn [rev] in Hpiece. symmetry in Hpiece.
             apply (f_equal (@List.length N)) in Hpiece. unfold substring in Hpiece.
             rewrite length_firstn, length_skipn in Hpiece. cbn [List.length] in Hpiece. lia. }
           replace (mEnd r <=? List.length b) with true by (symmetry; apply Nat.leb_le; lia).
           rewrite He.
           destruct (IH b (c :: a') [] (List.length b) (List.length b)) as [li' Hrest].
           ++ exact Hs.
           ++ lia.
           ++ now rewrite substring_nil.
           ++ rewrite Nat.ltb_irrefl.
              replace (p <? List.length b) with true in Hfuel by (symmetry; apply Nat.ltb_lt; lia).
              lia.
           ++ unfold bind at 1. rewrite Hrest. exists li'. unfold ret. f_equal. f_equal.
              cbn [splitGo]. rewrite Hm, He, Nat.leb_refl, Hpiece.
              destruct piece; [contradiction | reflexivity].
        -- (* a match that is not empty *)
           assert (Hgt : List.length b < mEnd r) by lia.
           replace (mEnd r <=? List.length b) with false by (symmetry; apply Nat.leb_gt; lia).
           set (n := mEnd r - List.length b - 1).
           assert (Hnle : n <= List.length a') by (cbn [List.length] in Hhi; unfold n; lia).
           set (b3 := rev (firstn n a') ++ c :: b).
           assert (Lb3 : List.length b3 = mEnd r).
           { unfold b3. rewrite length_app, length_rev, length_firstn. cbn [List.length].
             unfold n. lia. }
           destruct (IH b3 (skipn n a') [] (mEnd r) (mEnd r)) as [li' Hrest].
           ++ rewrite Hs. unfold b3. rewrite rev_app_distr, rev_involutive. cbn [rev].
              rewrite <- !app_assoc. cbn [app]. now rewrite firstn_skipn.
           ++ lia.
           ++ now rewrite Lb3, substring_nil.
           ++ rewrite Lb3, Nat.ltb_irrefl, length_skipn. cbn [List.length] in Hfuel. lia.
           ++ rewrite Lb3 in Hrest. unfold bind at 1. rewrite Hrest.
              exists li'. unfold ret. f_equal. f_equal. rewrite Hpiece. f_equal. f_equal.
              pose proof (splitGo_skip re (firstn n a') (skipn n a') (S (List.length b)) (c :: b))
                as Hk.
              rewrite firstn_skipn, length_firstn in Hk.
              replace (Nat.min n (List.length a')) with n in Hk by lia.
              fold n. rewrite Hk. fold b3. f_equal. unfold n. lia.
    + apply (IH (c :: b) a' (c :: piece) p 0).
      * rewrite Hs. cbn [rev]. now rewrite <- app_assoc.
      * cbn [List.length]. lia.
      * cbn [rev List.length]. rewrite Hpiece, Hs. now apply substring_one.
      * cbn [List.length] in *. destruct (p <? S (List.length b)); lia.
Qed.

End Split.

(** [split] on an object with [g] gives what the [split] above gives;
    the object itself is left as it is. *)
Lemma split_split re s k h li :
  exists li',
    Objects.split (List.length h) s
      (newest k h {| matcher := re; global := true; sticky := false; lastIndex := li |})
    = (Normal (RegExp.split re s),
       newest k (h ++ [{| matcher := re; global := true; sticky := false; lastIndex := li |}])
              {| matcher := re; global := true; sticky := true; lastIndex := li' |}).
Proof.
  set (R := {| matcher := re; global := true; sticky := false; lastIndex := li |}).
  unfold Objects.split, bind at 1. rewrite get_newest.
  unfold bind at 1, create. cbn [heap written newest].
  change (matcher R) with re. change (global R) with true.
  change {| written := k; heap := (h ++ [R]) ++ [?o] |} with (newest k (h ++ [R]) o).
  destruct s as [|c s'].
  - unfold bind at 1. rewrite (exec_sticky re true [] k (h ++ [R]) 0).
    cbn [List.length Nat.ltb Nat.leb firstn skipn rev]. unfold RegExp.split.
    destruct (matchAt re 0 [] []); [exists (mEnd m) | exists 0]; reflexivity.
  - destruct (splitLoop_splitGo re true (c :: s') k (h ++ [R]) (2 * List.length (c :: s') + 2)
                [] (c :: s') [] 0 0) as [li' H].
    + reflexivity.
    + cbn [List.length]. lia.
    + reflexivity.
    + change (0 <? List.length (@nil N)) with false. cbv iota. lia.
    + exists li'. exact H.
Qed.

(** [match] on an object without [g] and [y] is an [exec] from index 0,
    whatever [lastIndex] is; nothing is written. *)
Lemma match_exec re s k h li :
  match_ (List.length h) s
    (newest k h {| matcher := re; global := false; sticky := false; lastIndex := li |})
  = (Normal (exec re s),
     newest k h {| matcher := re; global := false; sticky := false; lastIndex := li |}).
Proof.
  unfold match_, bind at 1. rewrite get_newest. cbn [global].
  unfold regExpBuiltinExec, bind at 1. rewrite get_newest.
  cbn [global sticky orb lastIndex matcher Nat.ltb Nat.leb firstn skipn rev].
  unfold exec. destruct (searchFrom re 0 [] s); reflexivity.
Qed.

End ObjectFacts.

(** ** The program over its objects does what the program does *)

Section Refinement.

Lemma refines_ret {A} (a : A) : refines (Objects.ret a) (ret a).
Proof. intros [k h]. exists []. unfold Objects.ret, ret. cbn. now rewrite app_nil_r. Qed.

Lemma refines_throw {A} (e : error) : refines (@Objects.throw A e) (throw e).
Proof. intros [k h]. exists []. unfold Objects.throw, throw. cbn. now rewrite app_nil_r. Qed.

Lemma refines_outside {A} : refines (@Objects.outside A) (fun k => (Unmodelled, k)).
Proof. intros [k h]. exists []. unfold Objects.outside. cbn. now rewrite app_nil_r. Qed.

Lemma refines_warn (d : diagnostic) : refines (Objects.warn d) (warn d).
Proof. intros [k h]. exists []. unfold Objects.warn, warn. cbn. now rewrite app_nil_r. Qed.

Lemma refines_bind {A B} (m : Objects.Run A) (j : JS A) (f : A -> Objects.Run B) (g : A -> JS B) :
  refines m j -> (forall a, refines (f a) (g a)) -> refines (Objects.bind m f) (bind j g).
Proof.
  intros Hm Hf w. destruct (Hm w) as [n1 E1].
  unfold Objects.bind, bind. rewrite E1.
  destruct (j (Objects.written w)) as [[a | e |] k1]; cbn [fst snd].
  - destruct (Hf a {| Objects.written := k1; Objects.heap := Objects.heap w ++ n1 |})
      as [n2 E2].
    cbn [Objects.written Objects.heap] in E2. rewrite E2, <- app_assoc. now exists (n1 ++ n2).
  - now exists n1.
  - now exists n1.
Qed.

(** A step that only makes objects and has the value [x]. *)
Lemma refines_value {A B} (m : Objects.Run A) (x : A) (f : A -> Objects.Run B) (j : JS B) :
  refines m (ret x) -> refines (f x) j -> refines (Objects.bind m f) j.
Proof.
  intros Hm Hf w. destruct (Hm w) as [n1 E1].
  unfold Objects.bind. rewrite E1. unfold ret. cbn [fst snd].
  destruct (Hf {| Objects.written := Objects.written w; Objects.heap := Objects.heap w ++ n1 |})
    as [n2 E2].
  cbn [Objects.written Objects.heap] in E2. rewrite E2, <- app_assoc. now exists (n1 ++ n2).
Qed.

Lemma refines_replace re s f :
  refines (Objects.bind (Objects.create re true false) (fun rx => Objects.replace rx s f))
          (ret (replaceAll re s f)).
Proof.
  intros [k h]. unfold Objects.bind, Objects.create. cbn [Objects.written Objects.heap].
  change {| Objects.written := k; Objects.heap := h ++ [?o] |} with (newest k h o).
  rewrite replace_replaceAll. eexists. reflexivity.
Qed.

Lemma refines_match re s :
  refines (Objects.bind (Objects.create re false false) (fun rx => Objects.match_ rx s))
          (ret (exec re s)).
Proof.
  intros [k h]. unfold Objects.bind, Objects.create. cbn [Objects.written Objects.heap].
  change {| Objects.written := k; Objects.heap := h ++ [?o] |} with (newest k h o).
  rewrite match_exec. eexists. reflexivity.
Qed.

Lemma refines_contentType headers :
  refines (Objects.lowerCapture1 (exec rePartContentType headers)) (contentTypeOf headers).
Proof.
  unfold Objects.lowerCapture1, contentTypeOf, lowerCapture1.
  destruct (exec rePartContentType headers) as [m|]; [| apply refines_ret].
  destruct (capture 1 m); [apply refines_ret | apply refines_throw].
Qed.

Lemma refines_transferEncoding headers :
  refines (Objects.lowerCapture1 (exec reTransferEncoding headers)) (transferEncodingOf headers).
Proof.
  unfold Objects.lowerCapture1, transferEncodingOf, lowerCapture1.
  destruct (exec reTransferEncoding headers) as [m|]; [| apply refines_ret].
  destruct (capture 1 m); [apply refines_ret | apply refines_throw].
Qed.

Lemma refines_decodeContent text te :
  refines (Objects.decodeContent text te) (decodeContent text te).
Proof.
  unfold Objects.decodeContent, decodeContent.
  destruct (negb (truthy text)); [apply refines_ret |].
  destruct (JSString.eqb _ (str "base64")).
  - eapply refines_value; [apply refines_replace |].
    destruct (Base64.atob _); [apply refines_ret |].
    apply refines_bind; [apply refines_warn | intros; apply refines_ret].
  - destruct (JSString.eqb _ (str "quoted-printable")); [| apply refines_ret].
    eapply refines_value; [apply refines_replace |]. apply refines_replace.
Qed.

Lemma refines_scanParts parts : forall p h,
  refines (Objects.scanParts parts p h) (scanParts parts p h).
Proof.
  induction parts as [|[part|] rest IH]; intros p h; cbn [Objects.scanParts scanParts].
  - apply refines_ret.
  - destruct (negb (truthy (trim part))); [apply IH |].
    destruct (indexOf part CRLFCRLF) as [i|]; [| apply IH].
    eapply refines_value; [apply refines_match |].
    eapply refines_value; [apply refines_match |].
    apply refines_bind; [apply refines_contentType | intros contentType].
    apply refines_bind; [apply refines_transferEncoding | intros transferEncoding].
    destruct (includes contentType (str "text/plain")).
    + apply refines_bind; [apply refines_decodeContent | intros; apply refines_ret].
    + destruct (includes contentType (str "text/html")); [| apply IH].
      apply refines_bind; [apply refines_decodeContent | intros; apply IH].
  - apply refines_throw.
Qed.

Lemma refines_resolveBody p h : refines (Objects.resolveBody p h) (ret (resolveBody p h)).
Proof.
  unfold Objects.resolveBody, resolveBody.
  destruct (truthy (trim p)); [apply refines_ret |].
  destruct (truthy (trim h)); [| apply refines_ret].
  eapply refines_value; [apply refines_replace | apply refines_ret].
Qed.

Lemma refines_multipart pattern body :
  refines (Objects.bind (Objects.newRegExp pattern)
             (fun boundaryRegex =>
                Objects.bind (Objects.split boundaryRegex body)
                  (fun parts => Objects.scanParts parts [] [])))
          (bind (newRegExp pattern)
             (fun boundaryRegex => scanParts (split boundaryRegex body) [] [])).
Proof.
  intros [k h]. unfold Objects.newRegExp, newRegExp.
  destruct (compile pattern noFlags) as [re | |].
  - unfold Objects.bind at 1, Objects.create. cbn [Objects.written Objects.heap].
    change {| Objects.written := k; Objects.heap := h ++ [?o] |} with (newest k h o).
    destruct (split_split re body k h 0) as [li E].
    unfold Objects.bind at 1. rewrite E.
    match goal with |- context [Objects.scanParts ?parts [] [] ?w] =>
      destruct (refines_scanParts parts [] [] w) as [news E2]; rewrite E2 end.
    unfold newest. cbn [Objects.written Objects.heap]. rewrite <- !app_assoc.
    eexists. reflexivity.
  - exists []. cbn. now rewrite app_nil_r.
  - exists []. cbn. now rewrite app_nil_r.
Qed.

Lemma refines_singlePart headers body :
  refines (Objects.bind
             (Objects.bind (Objects.create reTransferEncoding false false)
                           (fun rx => Objects.match_ rx headers))
             (fun transferEncodingMatch =>
                Objects.bind (Objects.lowerCapture1 transferEncodingMatch)
                  (fun transferEncoding =>
                     Objects.bind (Objects.decodeContent body (Some transferEncoding))
                       (fun plainTextBody => Objects.ret (plainTextBody, @nil N)))))
          (bind (transferEncodingOf headers)
             (fun transferEncoding =>
                bind (decodeContent body (Some transferEncoding))
                  (fun plainTextBody => ret (plainTextBody, @nil N)))).
Proof.
  eapply refines_value; [apply refines_match |].
  apply refines_bind; [apply refines_transferEncoding | intros transferEncoding].
  apply refines_bind; [apply refines_decodeContent | intros; apply refines_ret].
Qed.

(** [extractEmailBody] over its objects completes as [extractEmailBody]
    does and writes the same lines; it only adds objects to the heap. *)
Lemma extractEmailBody_refines raw :
  refines (Objects.extractEmailBody raw) (extractEmailBody raw).
Proof.
  unfold Objects.extractEmailBody, extractEmailBody.
  destruct (indexOf raw CRLFCRLF) as [i|]; [| apply refines_ret].
  cbv zeta. eapply refines_value; [apply refines_match |].
  apply refines_bind.
  - unfold branchOf.
    destruct (exec reMultipart (substring raw 0 i)) as [m|]; [| apply refines_singlePart].
    destruct (truthy (substringFrom raw (i + 4))); [| apply refines_singlePart].
    apply refines_multipart.
  - intros [p h]. apply refines_resolveBody.
Qed.

(** C7.  Two invocations on the same raw input give the same result.
    What a call leaves behind are lines on the console and regular
    expression objects with their [lastIndex]; the result of a call is the
    same from every such state, in particular from the state that an
    earlier call has left, and it is the result of [extractEmailBody]
    above.  The objects that were there before the call are not touched. *)
Theorem two_invocations_give_the_same_result (raw : jsstring) (w w' : Objects.world) :
  fst (Objects.extractEmailBody raw w) = fst (Objects.extractEmailBody raw w') /\
  fst (Objects.extractEmailBody raw (snd (Objects.extractEmailBody raw w)))
  = fst (Objects.extractEmailBody raw w) /\
  (exists news,
      Objects.heap (snd (Objects.extractEmailBody raw w)) = Objects.heap w ++ news) /\
  fst (Objects.extractEmailBody raw w) = result (extractEmailBody raw).
Proof.
  assert (H : forall v, fst (Objects.extractEmailBody raw v) = result (extractEmailBody raw)).
  { intros v. destruct (extractEmailBody_refines raw v) as [news E]. rewrite E. cbn [fst].
    apply (writes_result _ (extractEmailBody_writes raw)). }
  repeat split.
  - now rewrite !H.
  - now rewrite !H.
  - destruct (extractEmailBody_refines raw w) as [news E]. rewrite E. now exists news.
  - apply H.
Qed.

Lemma two_invocations_witness :
  fst (Objects.extractEmailBody cafeMessage usedWorld) = Normal (str "Caf" ++ [195; 169]%N) /\
  fst (Objects.extractEmailBody cafeMessage (snd (Objects.extractEmailBody cafeMessage usedWorld)))
  = Normal (str "Caf" ++ [195; 169]%N).
Proof.
  destruct (two_invocations_give_the_same_result cafeMessage usedWorld usedWorld)
    as (_ & H2 & _ & H4).
  split.
  - rewrite H4. vm_compute. reflexivity.
  - rewrite H2, H4. vm_compute. reflexivity.
Defined.

End Refinement.
